(** * wavl-ts: a sorted map on a weak AVL tree, with cursors and ranges

    Shallow embedding of [wavl.ts].  JavaScript object references become
    addresses into a store of node records; the shared sentinel [NIL] is
    the node at address [0] and is an ordinary, mutable record of that
    store.  Loops run on fuel taken from the number of allocated nodes,
    so that a walk that exhausts it has visited some node twice. *)

From Stdlib Require Import ZArith List Bool Arith Lia Sorted Permutation.
Import ListNotations.

Set Implicit Arguments.

(** ** Comparators *)

(** [ascending] and [descending] are generic in the key type and compare
    with the operators [<] and [>] of JavaScript, which are the parameters
    [less] and [greater] here.  On integer keys they are [Z.ltb] and
    [Z.gtb]. *)
Section Comparators.

Variable K : Type.
Variables less greater : K -> K -> bool.

Definition ascending (a b : K) : Z :=
  (if less a b then -1 else if greater a b then 1 else 0)%Z.

Definition descending (a b : K) : Z :=
  (if greater a b then -1 else if less a b then 1 else 0)%Z.

End Comparators.

(** ** Rank parities *)

Inductive RankParity := Zero | One.

(** [~parity] on the two enum values [0] and [-1]. *)
Definition flip (p : RankParity) : RankParity :=
  match p with Zero => One | One => Zero end.

Definition parity_eqb (a b : RankParity) : bool :=
  match a, b with Zero, Zero | One, One => true | _, _ => false end.

Inductive Branch := Left | Right.

Definition Branch_eqb (a b : Branch) : bool :=
  match a, b with Left, Left | Right, Right => true | _, _ => false end.

Definition ptr := nat.
Definition NIL : ptr := 0.

Section WAVL.

Variables K V : Type.

(** The value [undefined], as it is stored in the key and value fields of
    [NIL] by [new WAVLNode(undefined as any, undefined as any, ...)]. *)
Variable undefK : K.
Variable undefV : V.

(** The comparator of the map ([tree.compare]). *)
Variable compare : K -> K -> Z.

(** ** Nodes and the store *)

Record WAVLNode := mkNode {
  key : K;
  value : V;
  parity : RankParity;
  parent : ptr;
  left : ptr;
  right : ptr;
  removed : bool
}.

Definition heap := ptr -> WAVLNode.

(** [tree.root], [tree.size], the store and the next free address. *)
Record state := mkState {
  st_heap : heap;
  st_next : ptr;
  root : ptr;
  size : Z
}.

Definition upd (h : heap) (p : ptr) (n : WAVLNode) : heap :=
  fun q => if Nat.eqb q p then n else h q.

Definition with_heap (s : state) (h : heap) : state :=
  mkState h (st_next s) (root s) (size s).

Definition node (s : state) (p : ptr) : WAVLNode := st_heap s p.

Definition set_value (s : state) (p : ptr) (v : V) : state :=
  let n := node s p in
  with_heap s (upd (st_heap s) p
    (mkNode (key n) v (parity n) (parent n) (left n) (right n) (removed n))).

Definition set_parity (s : state) (p : ptr) (b : RankParity) : state :=
  let n := node s p in
  with_heap s (upd (st_heap s) p
    (mkNode (key n) (value n) b (parent n) (left n) (right n) (removed n))).

Definition set_parent (s : state) (p : ptr) (v : ptr) : state :=
  let n := node s p in
  with_heap s (upd (st_heap s) p
    (mkNode (key n) (value n) (parity n) v (left n) (right n) (removed n))).

Definition set_left (s : state) (p : ptr) (v : ptr) : state :=
  let n := node s p in
  with_heap s (upd (st_heap s) p
    (mkNode (key n) (value n) (parity n) (parent n) v (right n) (removed n))).

Definition set_right (s : state) (p : ptr) (v : ptr) : state :=
  let n := node s p in
  with_heap s (upd (st_heap s) p
    (mkNode (key n) (value n) (parity n) (parent n) (left n) v (removed n))).

Definition set_removed (s : state) (p : ptr) (b : bool) : state :=
  let n := node s p in
  with_heap s (upd (st_heap s) p
    (mkNode (key n) (value n) (parity n) (parent n) (left n) (right n) b)).

Definition set_root (s : state) (p : ptr) : state :=
  mkState (st_heap s) (st_next s) p (size s).

Definition set_size (s : state) (z : Z) : state :=
  mkState (st_heap s) (st_next s) (root s) z.

(** The sentinel as its constructor leaves it: parity [One], and its own
    left, right and parent. *)
Definition NIL_node : WAVLNode :=
  mkNode undefK undefV One NIL NIL NIL false.

(** [new WAVLTree(compare)]: an empty store holding only [NIL]. *)
Definition empty : state := mkState (fun _ => NIL_node) 1 NIL 0.

(** Every loop of the source walks node to node; it is given one step per
    allocated address, plus one. *)
Definition gas (s : state) : nat := S (st_next s).

Definition validate (s : state) (p : ptr) : bool := negb (removed (node s p)).

Definition promote (s : state) (p : ptr) : state :=
  set_parity s p (flip (parity (node s p))).

Definition demote (s : state) (p : ptr) : state :=
  set_parity s p (flip (parity (node s p))).

(** ** Subtree extrema and in-order neighbours *)

Fixpoint minimum_loop (fuel : nat) (s : state) (n curr : ptr) : option ptr :=
  match fuel with
  | O => None
  | S f => if Nat.eqb curr NIL then Some n
           else minimum_loop f s curr (left (node s curr))
  end.

Definition minimum (s : state) (n : ptr) : option ptr :=
  minimum_loop (gas s) s n (left (node s n)).

Fixpoint maximum_loop (fuel : nat) (s : state) (n curr : ptr) : option ptr :=
  match fuel with
  | O => None
  | S f => if Nat.eqb curr NIL then Some n
           else maximum_loop f s curr (right (node s curr))
  end.

Definition maximum (s : state) (n : ptr) : option ptr :=
  maximum_loop (gas s) s n (right (node s n)).

Fixpoint predecessor_loop (fuel : nat) (s : state) (n p : ptr) : option ptr :=
  match fuel with
  | O => None
  | S f => if negb (Nat.eqb p NIL) && Nat.eqb (left (node s p)) n
           then predecessor_loop f s p (parent (node s p))
           else Some p
  end.

Definition predecessor (s : state) (n : ptr) : option ptr :=
  if negb (Nat.eqb (left (node s n)) NIL) then maximum s (left (node s n))
  else predecessor_loop (gas s) s n (parent (node s n)).

Fixpoint successor_loop (fuel : nat) (s : state) (n p : ptr) : option ptr :=
  match fuel with
  | O => None
  | S f => if negb (Nat.eqb p NIL) && Nat.eqb (right (node s p)) n
           then successor_loop f s p (parent (node s p))
           else Some p
  end.

Definition successor (s : state) (n : ptr) : option ptr :=
  if negb (Nat.eqb (right (node s n)) NIL) then minimum s (right (node s n))
  else successor_loop (gas s) s n (parent (node s n)).

(** ** Rotations *)

(** The three-way update of the link that pointed at [old], which the
    source writes out at the head of each rotation and in [remove]:
    [if (old.parent === NIL) tree.root = new; else if (old.parent.left
    === old) old.parent.left = new; else old.parent.right = new]. *)
Definition relink (s : state) (old new : ptr) : state :=
  if Nat.eqb (parent (node s old)) NIL then set_root s new
  else if Nat.eqb (left (node s (parent (node s old)))) old
  then set_left s (parent (node s old)) new
  else set_right s (parent (node s old)) new.

Definition rotateLeft (s : state) (n r : ptr) : state :=
  let s := relink s n r in
  let s := set_parent s r (parent (node s n)) in
  let s := set_right s n (left (node s r)) in
  let s := if negb (Nat.eqb (left (node s r)) NIL)
           then set_parent s (left (node s r)) n else s in
  let s := set_left s r n in
  set_parent s n r.

Definition rotateRight (s : state) (n l : ptr) : state :=
  let s := relink s n l in
  let s := set_parent s l (parent (node s n)) in
  let s := set_left s n (right (node s l)) in
  let s := if negb (Nat.eqb (right (node s l)) NIL)
           then set_parent s (right (node s l)) n else s in
  let s := set_right s l n in
  set_parent s n l.

Definition rotateLeftRight (s : state) (p n r : ptr) : state :=
  let s := relink s p r in
  let s := set_parent s r (parent (node s p)) in
  let s := set_left s p (right (node s r)) in
  let s := if negb (Nat.eqb (right (node s r)) NIL)
           then set_parent s (right (node s r)) p else s in
  let s := set_right s n (left (node s r)) in
  let s := if negb (Nat.eqb (left (node s r)) NIL)
           then set_parent s (left (node s r)) n else s in
  let s := set_left s r n in
  let s := set_parent s n r in
  let s := set_right s r p in
  set_parent s p r.

Definition rotateRightLeft (s : state) (p n l : ptr) : state :=
  let s := relink s p l in
  let s := set_parent s l (parent (node s p)) in
  let s := set_right s p (left (node s l)) in
  let s := if negb (Nat.eqb (left (node s l)) NIL)
           then set_parent s (left (node s l)) p else s in
  let s := set_left s n (right (node s l)) in
  let s := if negb (Nat.eqb (right (node s l)) NIL)
           then set_parent s (right (node s l)) n else s in
  let s := set_left s l p in
  let s := set_parent s p l in
  let s := set_right s l n in
  set_parent s n l.

(** ** Search *)

Fixpoint search_loop (fuel : nat) (s : state) (k : K) (n : ptr) : option ptr :=
  match fuel with
  | O => None
  | S f =>
    if Nat.eqb n NIL then Some NIL
    else
      let cmp := compare k (key (node s n)) in
      if (cmp =? 0)%Z then Some n
      else if (cmp <? 0)%Z then search_loop f s k (left (node s n))
      else search_loop f s k (right (node s n))
  end.

Definition search (s : state) (k : K) : option ptr :=
  search_loop (gas s) s k (root s).

Definition replace (s : state) (n : ptr) (v : V) : V * state :=
  (value (node s n), set_value s n v).

(** ** Insertion *)

Fixpoint insertFixup_loop (fuel : nat) (s : state) (n : ptr) : option state :=
  match fuel with
  | O => None
  | S f =>
    if Nat.eqb n NIL then Some s
    else
      let p := parent (node s n) in
      if Nat.eqb p NIL
         || negb (parity_eqb (parity (node s p)) (parity (node s n)))
      then Some s
      else if Nat.eqb n (left (node s p)) then
        if negb (parity_eqb (parity (node s p))
                            (parity (node s (right (node s p)))))
        then insertFixup_loop f (promote s p) p
        else
          let child := right (node s n) in
          if parity_eqb (parity (node s n)) (parity (node s child))
          then Some (demote (rotateRight s p n) p)
          else Some (promote (demote (demote
                       (rotateLeftRight s p n child) p) n) child)
      else
        if negb (parity_eqb (parity (node s p))
                            (parity (node s (left (node s p)))))
        then insertFixup_loop f (promote s p) p
        else
          let child := left (node s n) in
          if parity_eqb (parity (node s n)) (parity (node s child))
          then Some (demote (rotateLeft s p n) p)
          else Some (promote (demote (demote
                       (rotateRightLeft s p n child) p) n) child)
  end.

Definition insertFixup (s : state) (p : ptr) : option state :=
  insertFixup_loop (gas s) (promote s p) p.

(** [new WAVLNode(key, value, RankParity.Zero)] followed by the three link
    assignments of [insertEmpty]; the new node takes the next address,
    [st_next s]. *)
Definition new_node (s : state) (k : K) (v : V) (p : ptr) : state :=
  mkState (upd (st_heap s) (st_next s) (mkNode k v Zero p NIL NIL false))
          (S (st_next s)) (root s) (size s).

Definition insertEmpty (s : state) (p : ptr) (b : Branch) (k : K) (v : V)
  : option (ptr * state) :=
  let n := st_next s in
  let s := new_node s k v p in
  let r :=
    if Nat.eqb p NIL then Some (set_root s n)
    else if Branch_eqb b Left then
      let s := set_left s p n in
      if Nat.eqb (right (node s p)) NIL then insertFixup s p else Some s
    else
      let s := set_right s p n in
      if Nat.eqb (left (node s p)) NIL then insertFixup s p else Some s in
  match r with
  | Some s => Some (n, set_size s (size s + 1))
  | None => None
  end.

(** The descent of [insert]: [inl old] when the key is found and its value
    replaced, [inr (parent, branch)] when the walk falls off the tree. *)
Fixpoint insert_loop (fuel : nat) (s : state) (k : K)
    (p : ptr) (b : Branch) (n : ptr) : option (ptr + ptr * Branch) :=
  match fuel with
  | O => None
  | S f =>
    if Nat.eqb n NIL then Some (inr (p, b))
    else
      let cmp := compare k (key (node s n)) in
      if (cmp =? 0)%Z then Some (inl n)
      else if (cmp <? 0)%Z then insert_loop f s k n Left (left (node s n))
      else insert_loop f s k n Right (right (node s n))
  end.

(** [insert(tree, key, value)]: the old value, or [None] for [undefined]. *)
Definition insert (s : state) (k : K) (v : V) : option (option V * state) :=
  match insert_loop (gas s) s k NIL Left (root s) with
  | None => None
  | Some (inl n) => let '(old, s) := replace s n v in Some (Some old, s)
  | Some (inr (p, b)) =>
    match insertEmpty s p b k v with
    | Some (_, s) => Some (None, s)
    | None => None
    end
  end.

(** ** Removal *)

(** The loop of [removeFixup] on the pair [(parent, node)]; [ascend] is
    the step [(parent, node) := (parent.parent, parent)]. *)
Fixpoint removeFixup_loop (fuel : nat) (s : state) (p n : ptr) : option state :=
  match fuel with
  | O => None
  | S f =>
    if negb (Nat.eqb p NIL)
       && negb (parity_eqb (parity (node s p)) (parity (node s n)))
    then
      if Nat.eqb (left (node s p)) n then
        let sibling := right (node s p) in
        if parity_eqb (parity (node s p)) (parity (node s sibling)) then
          let s := demote s p in
          removeFixup_loop f s (parent (node s p)) p
        else
          let nearNephew := left (node s sibling) in
          let farNephew := right (node s sibling) in
          if parity_eqb (parity (node s sibling)) (parity (node s farNephew))
          then
            if parity_eqb (parity (node s sibling))
                          (parity (node s nearNephew))
            then
              let s := demote s sibling in
              let s := demote s p in
              removeFixup_loop f s (parent (node s p)) p
            else
              let s := rotateRightLeft s p sibling nearNephew in
              Some (demote s sibling)
          else
            let s := rotateLeft s p sibling in
            let s := promote s sibling in
            Some (if negb (Nat.eqb (left (node s p)) NIL)
                     || negb (Nat.eqb (right (node s p)) NIL)
                  then demote s p else s)
      else
        let sibling := left (node s p) in
        if parity_eqb (parity (node s p)) (parity (node s sibling)) then
          let s := demote s p in
          removeFixup_loop f s (parent (node s p)) p
        else
          let nearNephew := right (node s sibling) in
          let farNephew := left (node s sibling) in
          if parity_eqb (parity (node s sibling)) (parity (node s farNephew))
          then
            if parity_eqb (parity (node s sibling))
                          (parity (node s nearNephew))
            then
              let s := demote s sibling in
              let s := demote s p in
              removeFixup_loop f s (parent (node s p)) p
            else
              let s := rotateLeftRight s p sibling nearNephew in
              Some (demote s sibling)
          else
            let s := rotateRight s p sibling in
            let s := promote s sibling in
            Some (if negb (Nat.eqb (left (node s p)) NIL)
                     || negb (Nat.eqb (right (node s p)) NIL)
                  then demote s p else s)
    else Some s
  end.

Definition removeFixup (s : state) (p n : ptr) : option state :=
  if Nat.eqb n NIL && parity_eqb (parity (node s p)) One then
    if (if Nat.eqb (left (node s p)) n
        then negb (Nat.eqb (right (node s p)) NIL)
        else negb (Nat.eqb (left (node s p)) NIL))
    then Some s
    else
      let s := demote s p in
      removeFixup_loop (gas s) s (parent (node s p)) p
  else removeFixup_loop (gas s) s p n.

(** [remove(tree, node)]; the returned node is the argument itself. *)
Definition remove (s : state) (n : ptr) : option state :=
  let s := set_size s (size s - 1) in
  let s := set_removed s n true in
  if negb (Nat.eqb (left (node s n)) NIL)
     && negb (Nat.eqb (right (node s n)) NIL)
  then
    match maximum s (left (node s n)) with
    | None => None
    | Some m =>
      let p := parent (node s m) in
      let child := left (node s m) in
      let s := set_parity s m (parity (node s n)) in
      let s := set_right s m (right (node s n)) in
      let s := set_parent s (right (node s n)) m in
      let '(p, s) :=
        if Nat.eqb p n then (m, s)
        else
          let s := set_left s m (left (node s n)) in
          let s := set_parent s (left (node s n)) m in
          let s := set_right s p child in
          let s := if negb (Nat.eqb child NIL)
                   then set_parent s child p else s in
          (p, s) in
      let s := set_parent s m (parent (node s n)) in
      let s := relink s n m in
      removeFixup s p child
    end
  else
    let child := if Nat.eqb (left (node s n)) NIL
                 then right (node s n) else left (node s n) in
    let p := parent (node s n) in
    let s := if negb (Nat.eqb child NIL) then set_parent s child p else s in
    if Nat.eqb p NIL then Some (set_root s child)
    else
      let s := if Nat.eqb (left (node s p)) n
               then set_left s p child else set_right s p child in
      removeFixup s p child.

Definition clear (s : state) : state := set_size (set_root s NIL) 0.

(** ** Errors and results *)

(** The four [Error]s the source throws, by message: "The node is removed."
    (a stale cursor), "The key is not greater than the previous key." and
    "The key is not less than the next key." (key order), "The start key is
    greater than the end key." (an invalid range), "This range is removed."
    (a consumed range). *)
Inductive error :=
| NodeRemoved
| KeyNotGreater
| KeyNotLess
| StartGreaterThanEnd
| RangeRemoved.

(** A call returns, throws, or runs out of fuel. *)
Inductive result (A : Type) :=
| Ok (a : A)
| Throw (e : error)
| Diverge.

Arguments Throw {A} e.
Arguments Diverge {A}.

Definition lift (A : Type) (o : option A) : result A :=
  match o with Some a => Ok a | None => Diverge end.

(** ** Entries (cursors) *)

(** [searchEntry]: the node (or [NIL]), the parent and the branch. *)
Fixpoint searchEntry_loop (fuel : nat) (s : state) (k : K)
    (p : ptr) (n : ptr) (b : Branch) : option (ptr * ptr * Branch) :=
  match fuel with
  | O => None
  | S f =>
    if Nat.eqb n NIL then Some (n, p, b)
    else
      let cmp := compare k (key (node s n)) in
      if (cmp =? 0)%Z then Some (n, p, b)
      else if (cmp <? 0)%Z then searchEntry_loop f s k n (left (node s n)) Left
      else searchEntry_loop f s k n (right (node s n)) Right
  end.

Definition searchEntry (s : state) (k : K) : option (ptr * ptr * Branch) :=
  searchEntry_loop (gas s) s k NIL (root s) Left.

(** The classes [Occupied] and [Vacant]; the key of a vacant entry is
    [None] where the source passes [undefined]. *)
Inductive Inner :=
| Occupied (n : ptr)
| Vacant (n : ptr) (b : Branch) (k : option K).

Definition entry (s : state) (k : K) : option Inner :=
  match searchEntry s k with
  | None => None
  | Some (n, p, b) =>
    Some (if Nat.eqb n NIL then Vacant p b (Some k) else Occupied n)
  end.

Definition inner_isEmpty (e : Inner) : bool :=
  match e with Occupied _ => false | Vacant _ _ _ => true end.

Definition inner_node (e : Inner) : ptr :=
  match e with Occupied n => n | Vacant n _ _ => n end.

Definition inner_key (s : state) (e : Inner) : option K :=
  match e with Occupied n => Some (key (node s n)) | Vacant _ _ k => k end.

Definition inner_value (s : state) (e : Inner) : option V :=
  match e with Occupied n => Some (value (node s n)) | Vacant _ _ _ => None end.

Definition inner_entry (s : state) (e : Inner) : option (K * V) :=
  match e with
  | Occupied n => Some (key (node s n), value (node s n))
  | Vacant _ _ _ => None
  end.

Definition inner_validate (s : state) (e : Inner) : bool :=
  validate s (inner_node e).

Definition validateKey (s : state) (prev : ptr) (k : K) (next : ptr)
  : option error :=
  if negb (Nat.eqb prev NIL) && (compare (key (node s prev)) k >=? 0)%Z
  then Some KeyNotGreater
  else if negb (Nat.eqb next NIL) && (compare k (key (node s next)) >=? 0)%Z
  then Some KeyNotLess
  else None.

Definition inner_prev (s : state) (e : Inner) : option Inner :=
  match e with
  | Occupied n =>
    if negb (Nat.eqb (left (node s n)) NIL) then
      option_map Occupied (maximum s (left (node s n)))
    else
      match predecessor s n with
      | None => None
      | Some p => Some (if Nat.eqb p NIL then Vacant n Left None
                        else Occupied p)
      end
  | Vacant n b _ =>
    if Nat.eqb n NIL then Some (Vacant NIL Left None)
    else if Branch_eqb b Left then
      match predecessor s n with
      | None => None
      | Some p => Some (if Nat.eqb p NIL then e else Occupied p)
      end
    else Some (Occupied n)
  end.

Definition inner_next (s : state) (e : Inner) : option Inner :=
  match e with
  | Occupied n =>
    if negb (Nat.eqb (right (node s n)) NIL) then
      option_map Occupied (minimum s (right (node s n)))
    else
      match successor s n with
      | None => None
      | Some p => Some (if Nat.eqb p NIL then Vacant n Right None
                        else Occupied p)
      end
  | Vacant n b _ =>
    if Nat.eqb n NIL then Some (Vacant NIL Right None)
    else if Branch_eqb b Right then
      match successor s n with
      | None => None
      | Some p => Some (if Nat.eqb p NIL then e else Occupied p)
      end
    else Some (Occupied n)
  end.

(** [new Occupied(tree, insertEmpty(tree, parent, branch, key, value))]. *)
Definition insert_at (s : state) (p : ptr) (b : Branch) (k : K) (v : V)
  : result Inner * state :=
  match insertEmpty s p b k v with
  | Some (n, s') => (Ok (Occupied n), s')
  | None => (Diverge, s)
  end.

Definition Occupied_insertBefore (s : state) (n : ptr) (k : K) (v : V)
  : result Inner * state :=
  match predecessor s n with
  | None => (Diverge, s)
  | Some prev =>
    match validateKey s prev k n with
    | Some e => (Throw e, s)
    | None =>
      if Nat.eqb (left (node s n)) NIL then insert_at s n Left k v
      else insert_at s prev Right k v
    end
  end.

Definition Occupied_insertAfter (s : state) (n : ptr) (k : K) (v : V)
  : result Inner * state :=
  match successor s n with
  | None => (Diverge, s)
  | Some next =>
    match validateKey s n k next with
    | Some e => (Throw e, s)
    | None =>
      if Nat.eqb (right (node s n)) NIL then insert_at s n Right k v
      else insert_at s next Left k v
    end
  end.

(** The private [insert(key, value)] of [Vacant], which both
    [insertBefore] and [insertAfter] of a vacant entry call. *)
Definition Vacant_insert (s : state) (n : ptr) (b : Branch) (k : K) (v : V)
  : result Inner * state :=
  match (if Branch_eqb b Left
         then option_map (fun prev => (prev, n)) (predecessor s n)
         else option_map (fun next => (n, next)) (successor s n)) with
  | None => (Diverge, s)
  | Some (prev, next) =>
    match validateKey s prev k next with
    | Some e => (Throw e, s)
    | None => insert_at s n b k v
    end
  end.

Definition inner_insertBefore (s : state) (e : Inner) (k : K) (v : V)
  : result Inner * state :=
  match e with
  | Occupied n => Occupied_insertBefore s n k v
  | Vacant n b _ => Vacant_insert s n b k v
  end.

Definition inner_insertAfter (s : state) (e : Inner) (k : K) (v : V)
  : result Inner * state :=
  match e with
  | Occupied n => Occupied_insertAfter s n k v
  | Vacant n b _ => Vacant_insert s n b k v
  end.

Definition inner_delete (s : state) (e : Inner) : result bool * state :=
  match e with
  | Occupied n =>
    match remove s n with
    | Some s' => (Ok true, s')
    | None => (Diverge, s)
    end
  | Vacant _ _ _ => (Ok false, s)
  end.

Definition inner_remove (s : state) (e : Inner)
  : result (option (K * V)) * state :=
  match e with
  | Occupied n =>
    match remove s n with
    | Some s' => (Ok (Some (key (node s' n), value (node s' n))), s')
    | None => (Diverge, s)
    end
  | Vacant _ _ _ => (Ok None, s)
  end.

(** *** [WAVLMapEntry]

    An entry object holds one mutable field, [inner].  A method is given
    the field's content and, where it can assign the field, returns its
    content after the call next to the method's own result. *)

Definition Entry_prev (s : state) (this : Inner) : result Inner * state :=
  if inner_validate s this then (lift (inner_prev s this), s)
  else (Throw NodeRemoved, s).

Definition Entry_next (s : state) (this : Inner) : result Inner * state :=
  if inner_validate s this then (lift (inner_next s this), s)
  else (Throw NodeRemoved, s).

(** Returns [(this.inner, inner of the returned entry)]. *)
Definition Entry_insertBefore (s : state) (this : Inner) (k : K) (v : V)
  : result (Inner * Inner) * state :=
  if inner_validate s this then
    match inner_insertBefore s this k v with
    | (Ok inner, s') =>
      (Ok (if inner_isEmpty this then inner else this, inner), s')
    | (Throw e, s') => (Throw e, s')
    | (Diverge, s') => (Diverge, s')
    end
  else (Throw NodeRemoved, s).

Definition Entry_insertAfter (s : state) (this : Inner) (k : K) (v : V)
  : result (Inner * Inner) * state :=
  if inner_validate s this then
    match inner_insertAfter s this k v with
    | (Ok inner, s') =>
      (Ok (if inner_isEmpty this then inner else this, inner), s')
    | (Throw e, s') => (Throw e, s')
    | (Diverge, s') => (Diverge, s')
    end
  else (Throw NodeRemoved, s).

Definition Entry_delete (s : state) (this : Inner) : result bool * state :=
  if inner_validate s this then inner_delete s this
  else (Throw NodeRemoved, s).

Definition Entry_remove (s : state) (this : Inner)
  : result (option (K * V)) * state :=
  if inner_validate s this then inner_remove s this
  else (Throw NodeRemoved, s).

(** *** [WAVLMapEntryWithKey] *)

Definition hint (k : option K) : K :=
  match k with Some k => k | None => undefK end.

(** [insert(value)]: returns [(this.inner, old value)]. *)
Definition EntryWithKey_insert (s : state) (this : Inner) (v : V)
  : result (Inner * option V) * state :=
  if inner_validate s this then
    match this with
    | Vacant p b k =>
      match insertEmpty s p b (hint k) v with
      | Some (n, s') => (Ok (Occupied n, None), s')
      | None => (Diverge, s)
      end
    | Occupied n =>
      let '(old, s') := replace s n v in (Ok (this, Some old), s')
    end
  else (Throw NodeRemoved, s).

(** [set(value)]: returns [this], that is, [this.inner] after the call. *)
Definition EntryWithKey_set (s : state) (this : Inner) (v : V)
  : result Inner * state :=
  match EntryWithKey_insert s this v with
  | (Ok (inner, _), s') => (Ok inner, s')
  | (Throw e, s') => (Throw e, s')
  | (Diverge, s') => (Diverge, s')
  end.

(** ** Ranges *)

Inductive Kind := Default | Exclusive | Before | After | Removed.

Definition Kind_eqb (a b : Kind) : bool :=
  match a, b with
  | Default, Default | Exclusive, Exclusive | Before, Before
  | After, After | Removed, Removed => true
  | _, _ => false
  end.

Definition isEmpty (k : Kind) : bool := negb (Kind_eqb k Default).

(** The lower bound of [searchRange] and the local [prev], which stays
    [undefined] ([None]) when [start] is; [inr After] is the early return
    of an empty range after the last key. *)
Definition searchRange_lower (s : state) (start : option K) (exclusive : bool)
  : option (ptr * option ptr + Kind) :=
  match start with
  | None =>
    match minimum s (root s) with
    | None => None
    | Some lower => Some (inl (lower, None))
    end
  | Some start =>
    match searchEntry s start with
    | None => None
    | Some (n, p, b) =>
      if negb (Nat.eqb n NIL) then
        if exclusive then
          match predecessor s n with
          | None => None
          | Some prev => Some (inl (n, Some prev))
          end
        else Some (inl (n, Some NIL))
      else if Branch_eqb b Left then
        match predecessor s p with
        | None => None
        | Some prev => Some (inl (p, Some prev))
        end
      else
        match successor s p with
        | None => None
        | Some lower =>
          if Nat.eqb lower NIL then Some (inr After)
          else Some (inl (lower, Some p))
        end
    end
  end.

Definition same_node (a : option ptr) (b : ptr) : bool :=
  match a with Some a => Nat.eqb a b | None => false end.

Definition searchRange_upper (s : state) (lower : ptr) (prev : option ptr)
    (end_ : option K) (exclusive : bool) : option (ptr * ptr * Kind) :=
  match end_ with
  | None =>
    match maximum s (root s) with
    | None => None
    | Some upper => Some (lower, upper, Default)
    end
  | Some end_ =>
    match searchEntry s end_ with
    | None => None
    | Some (n, p, b) =>
      if negb (Nat.eqb n NIL) then
        if exclusive then
          if Nat.eqb lower n then Some (n, n, Exclusive)
          else
            match predecessor s n with
            | None => None
            | Some upper => Some (lower, upper, Default)
            end
        else Some (lower, n, Default)
      else
        match (if Branch_eqb b Right then Some p else predecessor s p) with
        | None => None
        | Some upper =>
          if negb (Branch_eqb b Right) && Nat.eqb upper NIL
          then Some (NIL, NIL, Before)
          else if same_node prev upper then Some (upper, lower, Exclusive)
          else Some (lower, upper, Default)
        end
    end
  end.

Definition searchRange (s : state) (start end_ : option K) (exclusive : bool)
  : result (ptr * ptr * Kind) :=
  if match start, end_ with
     | Some a, Some b => (compare a b >? 0)%Z
     | _, _ => false
     end
  then Throw StartGreaterThanEnd
  else if Nat.eqb (root s) NIL then Ok (NIL, NIL, Before)
  else
    match searchRange_lower s start exclusive with
    | None => Diverge
    | Some (inr k) => Ok (NIL, NIL, k)
    | Some (inl (lower, prev)) =>
      lift (searchRange_upper s lower prev end_ exclusive)
    end.

(** A [WAVLMapRange] object; only [kind] is ever assigned. *)
Record WAVLMapRange := mkRange {
  lower : ptr;
  upper : ptr;
  kind : Kind
}.

Definition range (s : state) (start end_ : option K) (exclusive : bool)
  : result WAVLMapRange :=
  match searchRange s start end_ exclusive with
  | Ok (l, u, k) => Ok (mkRange l u k)
  | Throw e => Throw e
  | Diverge => Diverge
  end.

Definition with_kind (r : WAVLMapRange) (k : Kind) : WAVLMapRange :=
  mkRange (lower r) (upper r) k.

Section ForEachNode.

(** The callback of [forEachNode], acting on the tree and on the variable
    it closes over ([count] or [removed]). *)
Variable A : Type.
Variable callbackfn : state -> A -> ptr -> option (state * A).

Fixpoint forEachNode_loop (fuel : nat) (s : state) (acc : A) (up n : ptr)
  : option (state * A) :=
  match fuel with
  | O => None
  | S f =>
    if Nat.eqb n NIL then Some (s, acc)
    else
      match (if Nat.eqb n up then Some NIL else successor s n) with
      | None => None
      | Some next =>
        match callbackfn s acc n with
        | None => None
        | Some (s', acc') => forEachNode_loop f s' acc' up next
        end
      end
  end.

(** [forEachNode(callbackfn, remove)]: the result, the range object after
    the call and the state. *)
Definition forEachNode (s : state) (r : WAVLMapRange) (acc : A) (rm : bool)
  : result A * WAVLMapRange * state :=
  let k := kind r in
  if Kind_eqb k Removed then (Ok acc, r, s)
  else
    let r := if rm then with_kind r Removed else r in
    if isEmpty k then (Ok acc, r, s)
    else if negb (validate s (lower r)) then (Throw NodeRemoved, r, s)
    else if negb (validate s (upper r)) then (Throw NodeRemoved, r, s)
    else
      match forEachNode_loop (gas s) s acc (upper r) (lower r) with
      | Some (s', acc') => (Ok acc', r, s')
      | None => (Diverge, r, s)
      end.

End ForEachNode.

Definition Range_isEmpty (r : WAVLMapRange) : bool := isEmpty (kind r).

Definition Range_count (s : state) (r : WAVLMapRange)
  : result Z * WAVLMapRange * state :=
  forEachNode (fun s c _ => Some (s, (c + 1)%Z)) s r 0%Z false.

Definition Range_delete (s : state) (r : WAVLMapRange)
  : result Z * WAVLMapRange * state :=
  forEachNode
    (fun s c n => match remove s n with
                  | Some s' => Some (s', (c + 1)%Z)
                  | None => None
                  end)
    s r 0%Z true.

Definition Range_remove (s : state) (r : WAVLMapRange)
  : result (list (K * V)) * WAVLMapRange * state :=
  forEachNode
    (fun s acc n =>
       let acc := acc ++ [(key (node s n), value (node s n))] in
       match remove s n with
       | Some s' => Some (s', acc)
       | None => None
       end)
    s r [] true.

Definition Range_first (s : state) (r : WAVLMapRange) : result Inner :=
  if negb (validate s (lower r)) then Throw NodeRemoved
  else
    match kind r with
    | Default => Ok (Occupied (lower r))
    | Exclusive =>
      if Nat.eqb (right (node s (lower r))) NIL
      then Ok (Vacant (lower r) Right None)
      else lift (option_map (fun n => Vacant n Left None)
                            (minimum s (right (node s (lower r)))))
    | Before =>
      lift (option_map (fun n => Vacant n Left None) (minimum s (root s)))
    | After =>
      lift (option_map (fun n => Vacant n Right None) (maximum s (root s)))
    | Removed => Throw RangeRemoved
    end.

Definition Range_last (s : state) (r : WAVLMapRange) : result Inner :=
  if negb (validate s (upper r)) then Throw NodeRemoved
  else
    match kind r with
    | Default => Ok (Occupied (upper r))
    | Exclusive =>
      if Nat.eqb (left (node s (upper r))) NIL
      then Ok (Vacant (upper r) Left None)
      else lift (option_map (fun n => Vacant n Right None)
                            (maximum s (left (node s (upper r)))))
    | Before =>
      lift (option_map (fun n => Vacant n Left None) (minimum s (root s)))
    | After =>
      lift (option_map (fun n => Vacant n Right None) (maximum s (root s)))
    | Removed => Throw RangeRemoved
    end.

(** The generators [inorder] and [inorderReverse] of a range, run to the
    end: the nodes they yield. *)
Fixpoint Range_inorder_loop (fuel : nat) (s : state) (up n : ptr)
  : option (list ptr) :=
  match fuel with
  | O => None
  | S f =>
    if Nat.eqb n NIL then Some []
    else if Nat.eqb n up then Some [n]
    else
      match successor s n with
      | None => None
      | Some next => option_map (cons n) (Range_inorder_loop f s up next)
      end
  end.

Definition Range_inorder (s : state) (r : WAVLMapRange)
  : result (list ptr) :=
  if isEmpty (kind r) then Ok []
  else if negb (validate s (lower r)) then Throw NodeRemoved
  else if negb (validate s (upper r)) then Throw NodeRemoved
  else lift (Range_inorder_loop (gas s) s (upper r) (lower r)).

Fixpoint Range_inorderReverse_loop (fuel : nat) (s : state) (lo n : ptr)
  : option (list ptr) :=
  match fuel with
  | O => None
  | S f =>
    if Nat.eqb n NIL then Some []
    else if Nat.eqb n lo then Some [n]
    else
      match predecessor s n with
      | None => None
      | Some next => option_map (cons n) (Range_inorderReverse_loop f s lo next)
      end
  end.

Definition Range_inorderReverse (s : state) (r : WAVLMapRange)
  : result (list ptr) :=
  if isEmpty (kind r) then Ok []
  else if negb (validate s (lower r)) then Throw NodeRemoved
  else if negb (validate s (upper r)) then Throw NodeRemoved
  else lift (Range_inorderReverse_loop (gas s) s (lower r) (upper r)).

(** The methods of the base class [Inorder], over the yielded nodes. *)
Definition keys_of (s : state) (l : list ptr) : list K :=
  map (fun n => key (node s n)) l.

Definition values_of (s : state) (l : list ptr) : list V :=
  map (fun n => value (node s n)) l.

Definition entries_of (s : state) (l : list ptr) : list (K * V) :=
  map (fun n => (key (node s n), value (node s n))) l.

Definition map_result (A B : Type) (f : A -> B) (r : result A) : result B :=
  match r with Ok a => Ok (f a) | Throw e => Throw e | Diverge => Diverge end.

Definition Range_keys (s : state) (r : WAVLMapRange) : result (list K) :=
  map_result (keys_of s) (Range_inorder s r).

Definition Range_values (s : state) (r : WAVLMapRange) : result (list V) :=
  map_result (values_of s) (Range_inorder s r).

Definition Range_entries (s : state) (r : WAVLMapRange)
  : result (list (K * V)) :=
  map_result (entries_of s) (Range_inorder s r).

Definition Range_keysReverse (s : state) (r : WAVLMapRange)
  : result (list K) :=
  map_result (keys_of s) (Range_inorderReverse s r).

Definition Range_valuesReverse (s : state) (r : WAVLMapRange)
  : result (list V) :=
  map_result (values_of s) (Range_inorderReverse s r).

Definition Range_entriesReverse (s : state) (r : WAVLMapRange)
  : result (list (K * V)) :=
  map_result (entries_of s) (Range_inorderReverse s r).

(** ** The map *)

Fixpoint inorder_loop (fuel : nat) (s : state) (n : ptr) : option (list ptr) :=
  match fuel with
  | O => None
  | S f =>
    if Nat.eqb n NIL then Some []
    else
      match successor s n with
      | None => None
      | Some next => option_map (cons n) (inorder_loop f s next)
      end
  end.

Definition Map_inorder (s : state) : option (list ptr) :=
  match minimum s (root s) with
  | None => None
  | Some n => inorder_loop (gas s) s n
  end.

Fixpoint inorderReverse_loop (fuel : nat) (s : state) (n : ptr)
  : option (list ptr) :=
  match fuel with
  | O => None
  | S f =>
    if Nat.eqb n NIL then Some []
    else
      match predecessor s n with
      | None => None
      | Some next => option_map (cons n) (inorderReverse_loop f s next)
      end
  end.

Definition Map_inorderReverse (s : state) : option (list ptr) :=
  match maximum s (root s) with
  | None => None
  | Some n => inorderReverse_loop (gas s) s n
  end.

Definition Map_keys (s : state) : option (list K) :=
  option_map (keys_of s) (Map_inorder s).

Definition Map_values (s : state) : option (list V) :=
  option_map (values_of s) (Map_inorder s).

Definition Map_entries (s : state) : option (list (K * V)) :=
  option_map (entries_of s) (Map_inorder s).

Definition Map_isEmpty (s : state) : bool := Nat.eqb (root s) NIL.

Definition Map_size (s : state) : Z := size s.

Definition Map_clear (s : state) : state := clear s.

Definition Map_has (s : state) (k : K) : option bool :=
  option_map (fun n => negb (Nat.eqb n NIL)) (search s k).

Definition Map_get (s : state) (k : K) : option (option V) :=
  option_map (fun n => if Nat.eqb n NIL then None else Some (value (node s n)))
             (search s k).

Definition Map_first (s : state) : option Inner :=
  option_map (fun n => if Nat.eqb n NIL then Vacant NIL Left None
                       else Occupied n)
             (minimum s (root s)).

Definition Map_last (s : state) : option Inner :=
  option_map (fun n => if Nat.eqb n NIL then Vacant NIL Right None
                       else Occupied n)
             (maximum s (root s)).

Definition Map_entry (s : state) (k : K) : option Inner := entry s k.

Definition Map_range (s : state) (start end_ : option K) (exclusive : bool)
  : result WAVLMapRange :=
  range s start end_ exclusive.

Definition Map_set (s : state) (k : K) (v : V) : option state :=
  option_map snd (insert s k v).

Definition Map_insert (s : state) (k : K) (v : V)
  : option (option V * state) :=
  insert s k v.

Definition Map_delete (s : state) (k : K) : option (bool * state) :=
  match search s k with
  | None => None
  | Some n =>
    if Nat.eqb n NIL then Some (false, s)
    else option_map (fun s' => (true, s')) (remove s n)
  end.

Definition Map_remove (s : state) (k : K) : option (option V * state) :=
  match search s k with
  | None => None
  | Some n =>
    if Nat.eqb n NIL then Some (None, s)
    else option_map (fun s' => (Some (value (node s' n)), s')) (remove s n)
  end.

End WAVL.

Arguments Throw {A} e.
Arguments Diverge {A}.
Arguments Occupied {K} n.

(** ** The public operations, as calls *)

Section Calls.

Variables K V : Type.
Variable undefK : K.
Variable compare : K -> K -> Z.

(** A call of a public method of the map, of an entry or of a range, with
    its arguments; an entry or range object stands for the content of its
    fields at the time of the call. *)
Inductive call :=
| MapSet (k : K) (v : V)
| MapInsert (k : K) (v : V)
| MapDelete (k : K)
| MapRemove (k : K)
| MapClear
| MapRangeOf (a b : option K) (exclusive : bool)
| EntryPrev (e : Inner K)
| EntryNext (e : Inner K)
| EntryInsertBefore (e : Inner K) (k : K) (v : V)
| EntryInsertAfter (e : Inner K) (k : K) (v : V)
| EntryDelete (e : Inner K)
| EntryRemove (e : Inner K)
| EntryInsert (e : Inner K) (v : V)
| EntrySet (e : Inner K) (v : V)
| RangeCount (r : WAVLMapRange)
| RangeDelete (r : WAVLMapRange)
| RangeRemove (r : WAVLMapRange)
| RangeFirst (r : WAVLMapRange)
| RangeLast (r : WAVLMapRange).

Definition ignore (A : Type) (r : result A) : result unit :=
  map_result (fun _ => tt) r.

(** How a call ends, and the store it leaves. *)
Definition run (c : call) (s : state K V) : result unit * state K V :=
  match c with
  | MapSet k v =>
    match Map_set compare s k v with
    | Some s' => (Ok tt, s')
    | None => (Diverge, s)
    end
  | MapInsert k v =>
    match Map_insert compare s k v with
    | Some (_, s') => (Ok tt, s')
    | None => (Diverge, s)
    end
  | MapDelete k =>
    match Map_delete compare s k with
    | Some (_, s') => (Ok tt, s')
    | None => (Diverge, s)
    end
  | MapRemove k =>
    match Map_remove compare s k with
    | Some (_, s') => (Ok tt, s')
    | None => (Diverge, s)
    end
  | MapClear => (Ok tt, Map_clear s)
  | MapRangeOf a b exclusive => (ignore (Map_range compare s a b exclusive), s)
  | EntryPrev e => let '(r, s') := Entry_prev s e in (ignore r, s')
  | EntryNext e => let '(r, s') := Entry_next s e in (ignore r, s')
  | EntryInsertBefore e k v =>
    let '(r, s') := Entry_insertBefore compare s e k v in (ignore r, s')
  | EntryInsertAfter e k v =>
    let '(r, s') := Entry_insertAfter compare s e k v in (ignore r, s')
  | EntryDelete e => let '(r, s') := Entry_delete s e in (ignore r, s')
  | EntryRemove e => let '(r, s') := Entry_remove s e in (ignore r, s')
  | EntryInsert e v =>
    let '(r, s') := EntryWithKey_insert undefK s e v in (ignore r, s')
  | EntrySet e v =>
    let '(r, s') := EntryWithKey_set undefK s e v in (ignore r, s')
  | RangeCount r => let '(x, _, s') := Range_count s r in (ignore x, s')
  | RangeDelete r => let '(x, _, s') := Range_delete s r in (ignore x, s')
  | RangeRemove r => let '(x, _, s') := Range_remove s r in (ignore x, s')
  | RangeFirst r => (ignore (Range_first s r), s)
  | RangeLast r => (ignore (Range_last s r), s)
  end.

End Calls.

Arguments MapDelete {K V} k.
Arguments MapRemove {K V} k.
Arguments MapClear {K V}.
Arguments MapRangeOf {K V} a b exclusive.
Arguments EntryPrev {K V} e.
Arguments EntryNext {K V} e.
Arguments EntryDelete {K V} e.
Arguments EntryRemove {K V} e.
Arguments RangeCount {K V} r.
Arguments RangeDelete {K V} r.
Arguments RangeRemove {K V} r.
Arguments RangeFirst {K V} r.
Arguments RangeLast {K V} r.

(** * Trees, ranks and what the operations are shown to do

    The store is read through an abstract tree of addresses: [Rep] says
    that the links of the store spell out a tree, [wavl] that its
    parities are those of a ranking, and the relations below say what an
    operation may change. *)

Inductive tree := E | T (l : tree) (p : ptr) (r : tree).

Inductive frame := FL (p : ptr) (r : tree) | FR (l : tree) (p : ptr).

Definition ctx := list frame.

Definition rootp (t : tree) : ptr :=
  match t with E => NIL | T _ p _ => p end.

Fixpoint ptrs (t : tree) : list ptr :=
  match t with E => [] | T l p r => ptrs l ++ p :: ptrs r end.

Fixpoint plug (c : ctx) (t : tree) : tree :=
  match c with
  | [] => t
  | FL p r :: c => plug c (T t p r)
  | FR l p :: c => plug c (T l p t)
  end.

Fixpoint before (c : ctx) : list ptr :=
  match c with
  | [] => []
  | FL _ _ :: c => before c
  | FR l p :: c => before c ++ ptrs l ++ [p]
  end.

Fixpoint after (c : ctx) : list ptr :=
  match c with
  | [] => []
  | FL p r :: c => p :: ptrs r ++ after c
  | FR _ _ :: c => after c
  end.

Definition cparent (top : ptr) (c : ctx) : ptr :=
  match c with [] => top | FL p _ :: _ => p | FR _ p :: _ => p end.

Definition disj (l1 l2 : list ptr) : Prop := forall x, In x l1 -> ~ In x l2.

Fixpoint croot (c : ctx) (hole : ptr) : ptr :=
  match c with
  | [] => hole
  | FL p _ :: c => croot c p
  | FR _ p :: c => croot c p
  end.

Section ShapeDefs.

Variables K V : Type.
Implicit Types (s : state K V) (p q : ptr) (t l r : tree) (c : ctx).

Fixpoint Rep s (par : ptr) t : Prop :=
  match t with
  | E => True
  | T l p r =>
    p <> NIL /\ parent (node s p) = par /\
    left (node s p) = rootp l /\ right (node s p) = rootp r /\
    Rep s p l /\ Rep s p r
  end.

Fixpoint RepC s (top : ptr) c (hole : ptr) : Prop :=
  match c with
  | [] => True
  | FL p r :: c' =>
    p <> NIL /\ parent (node s p) = cparent top c' /\
    left (node s p) = hole /\ right (node s p) = rootp r /\
    Rep s p r /\ RepC s top c' p
  | FR l p :: c' =>
    p <> NIL /\ parent (node s p) = cparent top c' /\
    left (node s p) = rootp l /\ right (node s p) = hole /\
    Rep s p l /\ RepC s top c' p
  end.

Definition same_links s s' q : Prop :=
  parent (node s' q) = parent (node s q) /\
  left (node s' q) = left (node s q) /\
  right (node s' q) = right (node s q).

End ShapeDefs.

Section RotationsDefs.

Variables K V : Type.
Implicit Types (s : state K V) (p q : ptr) (t l r : tree) (c : ctx).

(** What a write to links or parities leaves alone. *)
Definition keeps s s' : Prop :=
  size s' = size s /\ st_next s' = st_next s /\
  forall q, key (node s' q) = key (node s q) /\
            value (node s' q) = value (node s q) /\
            removed (node s' q) = removed (node s q).

Definition same_parity s s' : Prop :=
  forall q, parity (node s' q) = parity (node s q).

Definition links_outside (L : list ptr) s s' : Prop :=
  forall q, ~ In q L -> same_links s s' q.

(** A rotation under the context [c]: the subtree [t] in the hole becomes
    [t'], over the same addresses. *)
Definition rotated s s' c t t' : Prop :=
  Rep s' (cparent NIL c) t' /\
  RepC s' NIL c (rootp t') /\
  root s' = match c with [] => rootp t' | _ => root s end /\
  keeps s s' /\ same_parity s s' /\
  links_outside (before c ++ ptrs t ++ after c) s s'.

End RotationsDefs.

Open Scope Z_scope.

Definition par (k : Z) : RankParity := if Z.even k then Zero else One.

Section RanksDefs.

Variables K V : Type.
Implicit Types (s : state K V) (p q : ptr) (t l r : tree) (c : ctx) (k : Z).

Fixpoint wavl s t k : Prop :=
  match t with
  | E => k = -1
  | T l p r =>
    exists kl kr,
      wavl s l kl /\ wavl s r kr /\
      1 <= k - kl <= 2 /\ 1 <= k - kr <= 2 /\
      parity (node s p) = par k /\
      (kl = -1 -> kr = -1 -> k = 0)
  end.

(** A context that takes a tree of rank [k] in its hole to a tree of rank
    [ktop]. *)
Fixpoint cwavl s c k ktop : Prop :=
  match c with
  | [] => k = ktop
  | FL p r :: c' =>
    exists kp kr,
      wavl s r kr /\
      1 <= kp - k <= 2 /\ 1 <= kp - kr <= 2 /\
      parity (node s p) = par kp /\
      (k = -1 -> kr = -1 -> kp = 0) /\
      cwavl s c' kp ktop
  | FR l p :: c' =>
    exists kp kl,
      wavl s l kl /\
      1 <= kp - k <= 2 /\ 1 <= kp - kl <= 2 /\
      parity (node s p) = par kp /\
      (kl = -1 -> k = -1 -> kp = 0) /\
      cwavl s c' kp ktop
  end.

(** The sentinel, untouched. *)
Definition NIL_ok s : Prop :=
  parent (node s NIL) = NIL /\ left (node s NIL) = NIL /\
  right (node s NIL) = NIL /\ parity (node s NIL) = One /\
  removed (node s NIL) = false.

End RanksDefs.

Section FixedDefs.

Variables K V : Type.
Implicit Types (s : state K V) (p q : ptr) (t l r : tree) (c : ctx) (k : Z).

Definition parity_outside (L : list ptr) s s' : Prop :=
  forall q, ~ In q L -> parity (node s' q) = parity (node s q).

(** The store [s'] holds the tree [T1] where [s] held [T0]: what a
    rebalancing step may change. *)
Definition fixed s s' (T0 T1 : tree) : Prop :=
  Rep s' NIL T1 /\
  ptrs T1 = ptrs T0 /\
  ((root s' = root s /\ rootp T1 = rootp T0) \/ root s' = rootp T1) /\
  keeps s s' /\
  links_outside (ptrs T0) s s' /\
  parity_outside (ptrs T0) s s'.

End FixedDefs.

Definition kept (P : Prop) : Prop := P.

Section FixupLemmasDefs.

Variables K V : Type.
Implicit Types (s : state K V) (p q : ptr) (t l r : tree) (c : ctx) (k : Z).

Definition fixup_post s (T0 : tree) (o : option (state K V)) : Prop :=
  exists s' T1 k', o = Some s' /\ fixed s s' T0 T1 /\ wavl s' T1 k'.

End FixupLemmasDefs.

Section InsertEmptyDefs.

Variables K V : Type.
Implicit Types (s : state K V) (p q : ptr) (t l r : tree) (c : ctx) (k : Z).

Definition at_slot c p (b : Branch) : Prop :=
  match c with
  | [] => p = NIL
  | FL q _ :: _ => p = q /\ b = Left
  | FR _ q :: _ => p = q /\ b = Right
  end.

(** [s'] holds [T1], which is [T0] with the new node [n] in the hole of
    [c] and rebalanced. *)
Definition inserted s s' c (n : ptr) (key0 : K) (val0 : V) (T1 : tree) : Prop :=
  Rep s' NIL T1 /\
  ptrs T1 = before c ++ n :: after c /\
  ((root s' = root s /\ rootp T1 = rootp (plug c E)) \/ root s' = rootp T1) /\
  st_next s' = S (st_next s) /\
  (forall q, q <> n ->
     key (node s' q) = key (node s q) /\
     value (node s' q) = value (node s q) /\
     removed (node s' q) = removed (node s q)) /\
  key (node s' n) = key0 /\ value (node s' n) = val0 /\
  removed (node s' n) = false /\
  links_outside (n :: ptrs (plug c E)) s s' /\
  parity_outside (n :: ptrs (plug c E)) s s'.

End InsertEmptyDefs.

Section RemoveFixupDefs.

Variables K V : Type.
Implicit Types (s : state K V) (p q : ptr) (t l r : tree) (c : ctx) (k : Z).

(** The hole and its sibling are not both empty. *)
Definition leaf_free c t : Prop :=
  t = E ->
  match c with
  | [] => True
  | FL _ R :: _ => R <> E
  | FR L _ :: _ => L <> E
  end.

End RemoveFixupDefs.

Fixpoint spine (c : ctx) : Prop :=
  match c with
  | [] => True
  | FR _ _ :: c => spine c
  | FL _ _ :: _ => False
  end.

Section UnlinkedDefs.

Variables K V : Type.
Implicit Types (s : state K V) (p q : ptr) (t l r : tree) (c : ctx) (k : Z).

(** [s'] holds a ranked tree over the addresses [L], and differs from [s]
    on them and in the tombstone of [n] only.  The tree is at the root of
    the map when [P] holds, which says that the tree of [s] was. *)
Definition unlinked s s' (n : ptr) (P : Prop) (L : list ptr) : Prop :=
  exists T1 k',
    Rep s' NIL T1 /\ (P -> root s' = rootp T1) /\ ptrs T1 = L /\ wavl s' T1 k' /\
    size s' = size s - 1 /\ st_next s' = st_next s /\
    (forall q, key (node s' q) = key (node s q) /\
               value (node s' q) = value (node s q) /\
               removed (node s' q) =
                 if Nat.eqb q n then true else removed (node s q)) /\
    links_outside L s s' /\ parity_outside L s s'.

(** The store after the node [n] is cut out and before rebalancing:
    the subtree [t] hangs in the hole of [c]. *)
Definition spliced s s' (n : ptr) (P : Prop) c t : Prop :=
  Rep s' (cparent NIL c) t /\ RepC s' NIL c (rootp t) /\
  (P -> root s' = croot c (rootp t)) /\
  size s' = size s - 1 /\ st_next s' = st_next s /\
  (forall q, key (node s' q) = key (node s q) /\
             value (node s' q) = value (node s q) /\
             removed (node s' q) =
               if Nat.eqb q n then true else removed (node s q)) /\
  links_outside (ptrs (plug c t)) s s' /\
  parity_outside (ptrs (plug c t)) s s'.

End UnlinkedDefs.

Section WalkDefs.

Variables K V : Type.
Implicit Types (s : state K V) (p q : ptr) (t l r : tree) (c : ctx).

(** The store holds the tree [t] at its root, over distinct allocated
    addresses. *)
Definition tree_of s t : Prop :=
  Rep s NIL t /\ root s = rootp t /\ NoDup (ptrs t) /\
  (forall q, In q (ptrs t) -> (q < st_next s)%nat) /\ NIL_ok s.

End WalkDefs.

Section DescentDefs.

Variables K V : Type.
Variable compare : K -> K -> Z.
Implicit Types (s : state K V) (p q : ptr) (t l r : tree) (c : ctx).

(** The comparisons made on the way down to the hole of [c]. *)
Fixpoint cmp_path s (k : K) c : Prop :=
  match c with
  | [] => True
  | FL q _ :: c' => compare k (key (node s q)) < 0 /\ cmp_path s k c'
  | FR _ q :: c' => compare k (key (node s q)) > 0 /\ cmp_path s k c'
  end.

End DescentDefs.

Section ShapeDefs.

Variables K V : Type.
Implicit Types (s : state K V) (p q : ptr) (t l r : tree) (c : ctx).

Definition live s (L : list ptr) : Prop :=
  forall q, In q L -> removed (node s q) = false.

(** The store holds the ranked tree [t] of live nodes. *)
Definition shape s t : Prop :=
  tree_of s t /\ (0 < st_next s)%nat /\ (exists k, wavl s t k) /\
  live s (ptrs t).

(** The rank rule holds of the tree at the root of the map. *)
Definition ranked s : Prop :=
  exists t k, Rep s NIL t /\ root s = rootp t /\ wavl s t k.

End ShapeDefs.

Section OpsDefs.

Variables K V : Type.
Variable compare : K -> K -> Z.
Implicit Types (s : state K V) (p q : ptr) (t l r : tree) (c : ctx).

(** [s'] is [s] with a new node, holding [k] and [v], in the slot of
    [c]. *)
Definition ins_rel s s' c (k : K) (v : V) t' : Prop :=
  shape s' t' /\ ptrs t' = before c ++ st_next s :: after c /\
  key (node s' (st_next s)) = k /\ value (node s' (st_next s)) = v /\
  (forall q, q <> st_next s ->
     key (node s' q) = key (node s q) /\
     value (node s' q) = value (node s q) /\
     removed (node s' q) = removed (node s q)) /\
  size s' = size s + 1 /\ st_next s' = S (st_next s).

(** [s'] is [s] without the node [n], which lay between [L1] and [L2]. *)
Definition del_rel s s' (n : ptr) (L1 L2 : list ptr) t' : Prop :=
  shape s' t' /\ ptrs t' = L1 ++ L2 /\
  (forall q, key (node s' q) = key (node s q) /\
             value (node s' q) = value (node s q) /\
             removed (node s' q) =
               if Nat.eqb q n then true else removed (node s q)) /\
  size s' = size s - 1 /\ st_next s' = st_next s.

End OpsDefs.

Section StepsDefs.

Variables K V : Type.
Variable undefK : K.
Variable compare : K -> K -> Z.
Implicit Types (s : state K V) (p q : ptr) (t l r : tree) (c : ctx).

(** Why the key [k] was put in the slot of [c]: the walk from the root
    led there, or the neighbours of the slot were checked. *)
Definition placed s (k : K) c : Prop :=
  cmp_path compare s k c \/
  validateKey compare s (last (before c) NIL) k (hd NIL (after c)) = None.

(** One change of the tree. *)
Inductive step s t : state K V -> tree -> Prop :=
| step_value n v : In n (ptrs t) -> step s t (set_value s n v) t
| step_ins c k v s' t' :
    t = plug c E -> placed s k c -> ins_rel s s' c k v t' -> step s t s' t'
| step_del n L1 L2 s' t' :
    ptrs t = L1 ++ n :: L2 -> del_rel s s' n L1 L2 t' -> step s t s' t'
| step_clear : step s t (clear s) E.

(** Changes in a row, each leaving a well-formed map. *)
Inductive steps s t : state K V -> tree -> Prop :=
| steps_nil : steps s t s t
| steps_cons s1 t1 s2 t2 :
    step s t s1 t1 -> shape s1 t1 -> steps s1 t1 s2 t2 -> steps s t s2 t2.

(** An entry or range that still refers to the present tree, or to a
    tombstoned node. *)
Definition current_inner s t (e : Inner K) : Prop :=
  match e with
  | Occupied n => In n (ptrs t) \/ removed (node s n) = true
  | Vacant p b _ =>
    (exists c, t = plug c E /\ at_slot c p b) \/ removed (node s p) = true
  end.

Definition current_keyed s t (e : Inner K) : Prop :=
  match e with
  | Occupied n => In n (ptrs t) \/ removed (node s n) = true
  | Vacant p b ko =>
    (exists k, ko = Some k /\ entry compare s k = Some e) \/
    removed (node s p) = true
  end.

Definition current_range s t (r : WAVLMapRange) : Prop :=
  kind r = Default ->
  (exists L1 M L3,
     ptrs t = L1 ++ M ++ upper r :: L3 /\ lower r = hd (upper r) M) \/
  removed (node s (lower r)) = true \/ removed (node s (upper r)) = true.

Definition current s t (c : call K V) : Prop :=
  match c with
  | EntryInsertBefore e _ _ | EntryInsertAfter e _ _
  | EntryDelete e | EntryRemove e => current_inner s t e
  | EntryInsert e _ | EntrySet e _ => current_keyed s t e
  | RangeDelete r | RangeRemove r => current_range s t r
  | _ => True
  end.

(** The calls that can change the tree. *)
Definition mutating (c : call K V) : bool :=
  match c with
  | MapSet _ _ | MapInsert _ _ | MapDelete _ | MapRemove _ | MapClear
  | EntryInsertBefore _ _ _ | EntryInsertAfter _ _ _
  | EntryDelete _ | EntryRemove _ | EntryInsert _ _ | EntrySet _ _
  | RangeDelete _ | RangeRemove _ => true
  | _ => false
  end.

End StepsDefs.

Section OrderDefs.

Variables K V : Type.
Variable undefK : K.
Variable compare : K -> K -> Z.
Implicit Types (s : state K V) (p q : ptr) (t l r : tree) (c : ctx).

(** The in-order sequence [L] has strictly increasing keys. *)
Definition ordered s (L : list ptr) : Prop :=
  StronglySorted
    (fun p q => compare (key (node s p)) (key (node s q)) < 0) L.

(** The key [k] lies between the nodes before and after the slot. *)
Definition fits s (k : K) c : Prop :=
  (forall q, In q (before c) -> compare (key (node s q)) k < 0) /\
  (forall q, In q (after c) -> compare k (key (node s q)) < 0).

End OrderDefs.

Section PositionDefs.

Variables K V : Type.
Variable compare : K -> K -> Z.
Implicit Types (s : state K V) (p q : ptr) (t l r : tree) (c : ctx).

(** Where [searchEntry] ends in the in-order sequence: on the node of
    the key, or in the gap where the key would go, given by the node
    next to the gap and the side. *)
Definition position s t (k : K) (n p : ptr) (b : Branch) (A B : list ptr)
  : Prop :=
  (forall q, In q A -> compare (key (node s q)) k < 0) /\
  (forall q, In q B -> compare k (key (node s q)) < 0) /\
  ((n <> NIL /\ ptrs t = A ++ n :: B /\ compare k (key (node s n)) = 0) \/
   (n = NIL /\ ptrs t = A ++ B /\
    ((b = Left /\ B <> [] /\ p = hd NIL B /\
      predecessor s p = Some (last A NIL)) \/
     (b = Right /\ A <> [] /\ p = last A NIL /\
      successor s p = Some (hd NIL B))))).

End PositionDefs.

Section CutsDefs.

Variables K V : Type.
Variable compare : K -> K -> Z.
Implicit Types (s : state K V) (p q : ptr) (t l r : tree) (c : ctx).

(** The keys [range(a, b, exclusive)] selects. *)
Definition inside (a b : K) (exclusive : bool) (k : K) : bool :=
  (compare a k <=? 0) &&
  (if exclusive then compare k b <? 0 else compare k b <=? 0).

Definition selected s (a b : K) (exclusive : bool) (L : list ptr) : list ptr :=
  filter (fun q => inside a b exclusive (key (node s q))) L.

(** Nodes up to the end key, and nodes from it on. *)
Definition upto s (b : K) (exclusive : bool) (q : ptr) : Prop :=
  if exclusive then compare (key (node s q)) b < 0
  else compare (key (node s q)) b <= 0.

Definition from s (b : K) (exclusive : bool) (q : ptr) : Prop :=
  if exclusive then compare b (key (node s q)) <= 0
  else compare b (key (node s q)) < 0.

End CutsDefs.

Section UpperDefs.

Variables K V : Type.
Variable compare : K -> K -> Z.
Implicit Types (s : state K V) (p q : ptr) (t l r : tree) (c : ctx).

(** What [searchRange] returns once the lower bound is known: an empty
    kind when no key is selected, and otherwise the first and the last
    selected node. *)
Definition bounds s t (a b : K) (exclusive : bool)
    (res : ptr * ptr * Kind) : Prop :=
  let '(lo, up, kd) := res in
  (selected compare s a b exclusive (ptrs t) = [] /\ isEmpty kd = true) \/
  (exists M0 L1 L3,
     kd = Default /\ ptrs t = L1 ++ M0 ++ up :: L3 /\ lo = hd up M0 /\
     selected compare s a b exclusive (ptrs t) = M0 ++ [up]).

End UpperDefs.

Section ValidationDefs.

Variables K V : Type.
Variable undefK : K.
Variable compare : K -> K -> Z.
Implicit Types (s : state K V) (p q : ptr) (e : Inner K) (t l r : tree) (c : ctx).

(** The entry a call is made on. *)
Definition call_entry (cl : call K V) : option (Inner K) :=
  match cl with
  | EntryPrev e | EntryNext e
  | EntryInsertBefore e _ _ | EntryInsertAfter e _ _
  | EntryDelete e | EntryRemove e | EntryInsert e _ | EntrySet e _ => Some e
  | _ => None
  end.

End ValidationDefs.

Section ConsumedDefs.

Variables K V : Type.
Implicit Types (s : state K V) (p q : ptr) (rg : WAVLMapRange).

(** Whether a call returned. *)
Definition returned (A : Type) (x : result A) : bool :=
  match x with Ok _ => true | _ => false end.

(** A callback that removes the node it is given. *)
Definition removing (A : Type)
    (f : state K V -> A -> ptr -> option (state K V * A)) : Prop :=
  forall s a n s' a', f s a n = Some (s', a') -> remove s n = Some s'.

End ConsumedDefs.

Section CountingDefs.

Variables K V : Type.
Variable undefK : K.
Variable compare : K -> K -> Z.
Implicit Types (s : state K V) (p q : ptr) (t l r : tree) (c : ctx).

(** [size] is the number of nodes of the tree. *)
Definition counted s t : Prop := size s = Z.of_nat (length (ptrs t)).

End CountingDefs.

Section EmptyingDefs.

Variables K V : Type.
Variable compare : K -> K -> Z.
Implicit Types (s : state K V) (p q : ptr) (t l r : tree) (c : ctx).

(** The same keys and values at every address. *)
Definition same_data s0 s : Prop :=
  forall x, key (node s x) = key (node s0 x) /\
            value (node s x) = value (node s0 x).

End EmptyingDefs.

Section MapOnlyDefs.

Variables K V : Type.
Variable undefK : K.
Variable undefV : V.
Variable compare : K -> K -> Z.
Implicit Types (s : state K V) (p q : ptr) (t l r : tree) (c : ctx).

(** The calls that take no entry and no range. *)
Definition plain (cl : call K V) : bool :=
  match cl with
  | MapSet _ _ | MapInsert _ _ | MapDelete _ | MapRemove _ | MapClear
  | MapRangeOf _ _ _ => true
  | _ => false
  end.

(** The store after a sequence of calls. *)
Definition run_all (cls : list (call K V)) (s : state K V) : state K V :=
  fold_left (fun s cl => snd (run undefK compare cl s)) cls s.

End MapOnlyDefs.

Definition new_map : state Z Z := empty 0 0.

(** The store a call leaves, and how the call ends. *)
Definition state_after (cl : call Z Z) (s : state Z Z) : state Z Z :=
  snd (run 0 (ascending Z.ltb Z.gtb) cl s).

Definition outcome (cl : call Z Z) (s : state Z Z) : result unit :=
  fst (run 0 (ascending Z.ltb Z.gtb) cl s).

(** [set(10, 0)], then [set(5, 0)]. *)
Definition map_10 : state Z Z := state_after (MapSet 10 0) new_map.

Definition map_10_5 : state Z Z := state_after (MapSet 5 0) map_10.

(** The entry [first().prev()] of [map_10], kept while [5] is set, and
    then used for [insertBefore(7, 0)]. *)
Definition gap_before_10 : Inner Z := Vacant 1%nat Left None.

Definition map_stale_gap : state Z Z :=
  state_after (EntryInsertBefore gap_before_10 7 0) map_10_5.

Definition map_10_7_6 : state Z Z :=
  state_after (MapSet 6 0) (state_after (MapSet 7 0) map_10).

(** [entry(5)] of [map_10], kept while [7] and [6] are set. *)
Definition gap_for_5 : Inner Z := Vacant 1%nat Left (Some 5).

Definition map_stale_key : state Z Z :=
  state_after (EntryInsert gap_for_5 0) map_10_7_6.

(** The two trees that hold exactly the keys 2 and 3: [2] at the root
    with [3] to its right, and [3] at the root with [2] to its left. *)
Definition map_2_3 (v2 v3 : Z) : state Z Z :=
  state_after (MapSet 3 v3) (state_after (MapSet 2 v2) new_map).

Definition map_3_2 (v2 v3 : Z) : state Z Z :=
  state_after (MapSet 2 v2) (state_after (MapSet 3 v3) new_map).

(** What [range(a, b, true)] and its [first()] give on a map whose node
    [n2] holds the key 2 and [n3] the key 3. *)
Definition exclusive_at_2 (s : state Z Z) (n2 n3 : ptr) : Prop :=
  Map_keys s = Some [2; 3] /\
  key (node s n2) = 2 /\ key (node s n3) = 3 /\
  Map_range (ascending Z.ltb Z.gtb) s (Some 2) (Some 3) true = Ok (mkRange n2 n2 Default) /\
  Range_isEmpty (mkRange n2 n2 Default) = false /\
  Range_first s (mkRange n2 n2 Default) = Ok (Occupied n2) /\
  Range_keys s (mkRange n2 n2 Default) = Ok [2] /\
  Map_range (ascending Z.ltb Z.gtb) s (Some 2) (Some 2) true = Ok (mkRange n2 n2 Exclusive) /\
  Range_isEmpty (mkRange n2 n2 Exclusive) = true /\
  exists gap,
    Range_first s (mkRange n2 n2 Exclusive) = Ok gap /\
    inner_isEmpty gap = true /\
    inner_prev s gap = Some (Occupied n2) /\
    inner_next s gap = Some (Occupied n3).

(** [set(2, 0)], [set(1, 0)], [set(3, 0)]: the root holds 2. *)
Definition map_2_1_3 : state Z Z :=
  state_after (MapSet 3 0) (state_after (MapSet 1 0) (state_after (MapSet 2 0) new_map)).

(** The map that held 10, after [delete(10)]: the entry of 10 is
    tombstoned. *)
Definition map_10_gone : state Z Z := state_after (MapDelete 10) map_10.

(** The range of all keys of [map_10]. *)
Definition all_of_map_10 : WAVLMapRange := mkRange 1%nat 1%nat Default.

(** The tree of [map_2_1_3]: the node at 1 holds the key 2, the node at
    2 the key 1 and the node at 3 the key 3. *)
Definition tree_2_1_3 : tree := T (T E 2%nat E) 1%nat (T E 3%nat E).

(** The gap before the only node of [map_10]. *)
Definition ctx_before_10 : ctx := [FL 1%nat E].

(** [<] of JavaScript on the integers and [NaN], which is [None] here:
    false whenever one side is [NaN]. *)
Definition number_less (a b : option Z) : bool :=
  match a, b with Some x, Some y => x <? y | _, _ => false end.

Close Scope Z_scope.

(** * Reading the store after a write *)

Section Store.

Variables K V : Type.
Implicit Types (s : state K V) (p q : ptr).

Lemma neqb (a b : nat) : a <> b -> Nat.eqb a b = false.
Proof. apply Nat.eqb_neq. Qed.

Ltac store_read f :=
  intros; unfold f, node, with_heap, upd; simpl;
  match goal with
  | |- context [Nat.eqb ?q ?p] =>
    destruct (Nat.eqb q p) eqn:E; [apply Nat.eqb_eq in E; subst|]
  | _ => idtac
  end; reflexivity.

Lemma key_set_value s p v q : key (node (set_value s p v) q) = key (node s q).
Proof. store_read set_value. Qed.

Lemma value_set_value s p v q :
  value (node (set_value s p v) q) = if Nat.eqb q p then v else value (node s q).
Proof. store_read set_value. Qed.

Lemma parity_set_value s p v q : parity (node (set_value s p v) q) = parity (node s q).
Proof. store_read set_value. Qed.

Lemma parent_set_value s p v q : parent (node (set_value s p v) q) = parent (node s q).
Proof. store_read set_value. Qed.

Lemma left_set_value s p v q : left (node (set_value s p v) q) = left (node s q).
Proof. store_read set_value. Qed.

Lemma right_set_value s p v q : right (node (set_value s p v) q) = right (node s q).
Proof. store_read set_value. Qed.

Lemma removed_set_value s p v q : removed (node (set_value s p v) q) = removed (node s q).
Proof. store_read set_value. Qed.

Lemma root_set_value s p v : root (set_value s p v) = root s.
Proof. reflexivity. Qed.

Lemma size_set_value s p v : size (set_value s p v) = size s.
Proof. reflexivity. Qed.

Lemma st_next_set_value s p v : st_next (set_value s p v) = st_next s.
Proof. reflexivity. Qed.

Lemma node_set_value_ne s p v q : q <> p -> node (set_value s p v) q = node s q.
Proof. intros H; unfold set_value, node, with_heap, upd; simpl; rewrite (neqb H); reflexivity. Qed.

Lemma key_set_parity s p v q : key (node (set_parity s p v) q) = key (node s q).
Proof. store_read set_parity. Qed.

Lemma value_set_parity s p v q : value (node (set_parity s p v) q) = value (node s q).
Proof. store_read set_parity. Qed.

Lemma parity_set_parity s p v q :
  parity (node (set_parity s p v) q) = if Nat.eqb q p then v else parity (node s q).
Proof. store_read set_parity. Qed.

Lemma parent_set_parity s p v q : parent (node (set_parity s p v) q) = parent (node s q).
Proof. store_read set_parity. Qed.

Lemma left_set_parity s p v q : left (node (set_parity s p v) q) = left (node s q).
Proof. store_read set_parity. Qed.

Lemma right_set_parity s p v q : right (node (set_parity s p v) q) = right (node s q).
Proof. store_read set_parity. Qed.

Lemma removed_set_parity s p v q : removed (node (set_parity s p v) q) = removed (node s q).
Proof. store_read set_parity. Qed.

Lemma root_set_parity s p v : root (set_parity s p v) = root s.
Proof. reflexivity. Qed.

Lemma size_set_parity s p v : size (set_parity s p v) = size s.
Proof. reflexivity. Qed.

Lemma st_next_set_parity s p v : st_next (set_parity s p v) = st_next s.
Proof. reflexivity. Qed.

Lemma node_set_parity_ne s p v q : q <> p -> node (set_parity s p v) q = node s q.
Proof. intros H; unfold set_parity, node, with_heap, upd; simpl; rewrite (neqb H); reflexivity. Qed.

Lemma key_set_parent s p v q : key (node (set_parent s p v) q) = key (node s q).
Proof. store_read set_parent. Qed.

Lemma value_set_parent s p v q : value (node (set_parent s p v) q) = value (node s q).
Proof. store_read set_parent. Qed.

Lemma parity_set_parent s p v q : parity (node (set_parent s p v) q) = parity (node s q).
Proof. store_read set_parent. Qed.

Lemma parent_set_parent s p v q :
  parent (node (set_parent s p v) q) = if Nat.eqb q p then v else parent (node s q).
Proof. store_read set_parent. Qed.

Lemma left_set_parent s p v q : left (node (set_parent s p v) q) = left (node s q).
Proof. store_read set_parent. Qed.

Lemma right_set_parent s p v q : right (node (set_parent s p v) q) = right (node s q).
Proof. store_read set_parent. Qed.

Lemma removed_set_parent s p v q : removed (node (set_parent s p v) q) = removed (node s q).
Proof. store_read set_parent. Qed.

Lemma root_set_parent s p v : root (set_parent s p v) = root s.
Proof. reflexivity. Qed.

Lemma size_set_parent s p v : size (set_parent s p v) = size s.
Proof. reflexivity. Qed.

Lemma st_next_set_parent s p v : st_next (set_parent s p v) = st_next s.
Proof. reflexivity. Qed.

Lemma node_set_parent_ne s p v q : q <> p -> node (set_parent s p v) q = node s q.
Proof. intros H; unfold set_parent, node, with_heap, upd; simpl; rewrite (neqb H); reflexivity. Qed.

Lemma key_set_left s p v q : key (node (set_left s p v) q) = key (node s q).
Proof. store_read set_left. Qed.

Lemma value_set_left s p v q : value (node (set_left s p v) q) = value (node s q).
Proof. store_read set_left. Qed.

Lemma parity_set_left s p v q : parity (node (set_left s p v) q) = parity (node s q).
Proof. store_read set_left. Qed.

Lemma parent_set_left s p v q : parent (node (set_left s p v) q) = parent (node s q).
Proof. store_read set_left. Qed.

Lemma left_set_left s p v q :
  left (node (set_left s p v) q) = if Nat.eqb q p then v else left (node s q).
Proof. store_read set_left. Qed.

Lemma right_set_left s p v q : right (node (set_left s p v) q) = right (node s q).
Proof. store_read set_left. Qed.

Lemma removed_set_left s p v q : removed (node (set_left s p v) q) = removed (node s q).
Proof. store_read set_left. Qed.

Lemma root_set_left s p v : root (set_left s p v) = root s.
Proof. reflexivity. Qed.

Lemma size_set_left s p v : size (set_left s p v) = size s.
Proof. reflexivity. Qed.

Lemma st_next_set_left s p v : st_next (set_left s p v) = st_next s.
Proof. reflexivity. Qed.

Lemma node_set_left_ne s p v q : q <> p -> node (set_left s p v) q = node s q.
Proof. intros H; unfold set_left, node, with_heap, upd; simpl; rewrite (neqb H); reflexivity. Qed.

Lemma key_set_right s p v q : key (node (set_right s p v) q) = key (node s q).
Proof. store_read set_right. Qed.

Lemma value_set_right s p v q : value (node (set_right s p v) q) = value (node s q).
Proof. store_read set_right. Qed.

Lemma parity_set_right s p v q : parity (node (set_right s p v) q) = parity (node s q).
Proof. store_read set_right. Qed.

Lemma parent_set_right s p v q : parent (node (set_right s p v) q) = parent (node s q).
Proof. store_read set_right. Qed.

Lemma left_set_right s p v q : left (node (set_right s p v) q) = left (node s q).
Proof. store_read set_right. Qed.

Lemma right_set_right s p v q :
  right (node (set_right s p v) q) = if Nat.eqb q p then v else right (node s q).
Proof. store_read set_right. Qed.

Lemma removed_set_right s p v q : removed (node (set_right s p v) q) = removed (node s q).
Proof. store_read set_right. Qed.

Lemma root_set_right s p v : root (set_right s p v) = root s.
Proof. reflexivity. Qed.

Lemma size_set_right s p v : size (set_right s p v) = size s.
Proof. reflexivity. Qed.

Lemma st_next_set_right s p v : st_next (set_right s p v) = st_next s.
Proof. reflexivity. Qed.

Lemma node_set_right_ne s p v q : q <> p -> node (set_right s p v) q = node s q.
Proof. intros H; unfold set_right, node, with_heap, upd; simpl; rewrite (neqb H); reflexivity. Qed.

Lemma key_set_removed s p v q : key (node (set_removed s p v) q) = key (node s q).
Proof. store_read set_removed. Qed.

Lemma value_set_removed s p v q : value (node (set_removed s p v) q) = value (node s q).
Proof. store_read set_removed. Qed.

Lemma parity_set_removed s p v q : parity (node (set_removed s p v) q) = parity (node s q).
Proof. store_read set_removed. Qed.

Lemma parent_set_removed s p v q : parent (node (set_removed s p v) q) = parent (node s q).
Proof. store_read set_removed. Qed.

Lemma left_set_removed s p v q : left (node (set_removed s p v) q) = left (node s q).
Proof. store_read set_removed. Qed.

Lemma right_set_removed s p v q : right (node (set_removed s p v) q) = right (node s q).
Proof. store_read set_removed. Qed.

Lemma removed_set_removed s p v q :
  removed (node (set_removed s p v) q) = if Nat.eqb q p then v else removed (node s q).
Proof. store_read set_removed. Qed.

Lemma root_set_removed s p v : root (set_removed s p v) = root s.
Proof. reflexivity. Qed.

Lemma size_set_removed s p v : size (set_removed s p v) = size s.
Proof. reflexivity. Qed.

Lemma st_next_set_removed s p v : st_next (set_removed s p v) = st_next s.
Proof. reflexivity. Qed.

Lemma node_set_removed_ne s p v q : q <> p -> node (set_removed s p v) q = node s q.
Proof. intros H; unfold set_removed, node, with_heap, upd; simpl; rewrite (neqb H); reflexivity. Qed.

Lemma node_set_root s x q : node (set_root s x) q = node s q.
Proof. reflexivity. Qed.

Lemma node_set_size s x q : node (set_size s x) q = node s q.
Proof. reflexivity. Qed.

Lemma root_set_root s x : root (set_root s x) = x.
Proof. reflexivity. Qed.

Lemma size_set_root s x : size (set_root s x) = size s.
Proof. reflexivity. Qed.

Lemma st_next_set_root s x : st_next (set_root s x) = st_next s.
Proof. reflexivity. Qed.

Lemma root_set_size s x : root (set_size s x) = root s.
Proof. reflexivity. Qed.

Lemma size_set_size s x : size (set_size s x) = x.
Proof. reflexivity. Qed.

Lemma st_next_set_size s x : st_next (set_size s x) = st_next s.
Proof. reflexivity. Qed.

(** Allocation. *)

Lemma key_new_node s (k : K) (v : V) p q :
  key (node (new_node s k v p) q) =
  if Nat.eqb q (st_next s) then k else key (node s q).
Proof. store_read new_node. Qed.

Lemma value_new_node s (k : K) (v : V) p q :
  value (node (new_node s k v p) q) =
  if Nat.eqb q (st_next s) then v else value (node s q).
Proof. store_read new_node. Qed.

Lemma parity_new_node s (k : K) (v : V) p q :
  parity (node (new_node s k v p) q) =
  if Nat.eqb q (st_next s) then Zero else parity (node s q).
Proof. store_read new_node. Qed.

Lemma parent_new_node s (k : K) (v : V) p q :
  parent (node (new_node s k v p) q) =
  if Nat.eqb q (st_next s) then p else parent (node s q).
Proof. store_read new_node. Qed.

Lemma left_new_node s (k : K) (v : V) p q :
  left (node (new_node s k v p) q) =
  if Nat.eqb q (st_next s) then NIL else left (node s q).
Proof. store_read new_node. Qed.

Lemma right_new_node s (k : K) (v : V) p q :
  right (node (new_node s k v p) q) =
  if Nat.eqb q (st_next s) then NIL else right (node s q).
Proof. store_read new_node. Qed.

Lemma removed_new_node s (k : K) (v : V) p q :
  removed (node (new_node s k v p) q) =
  if Nat.eqb q (st_next s) then false else removed (node s q).
Proof. store_read new_node. Qed.

Lemma root_new_node s (k : K) (v : V) p : root (new_node s k v p) = root s.
Proof. reflexivity. Qed.

Lemma size_new_node s (k : K) (v : V) p : size (new_node s k v p) = size s.
Proof. reflexivity. Qed.

Lemma st_next_new_node s (k : K) (v : V) p : st_next (new_node s k v p) = S (st_next s).
Proof. reflexivity. Qed.

Lemma negb_T : negb true = false.
Proof. reflexivity. Qed.

Lemma negb_F : negb false = true.
Proof. reflexivity. Qed.

End Store.

Create Rewrite HintDb store.

#[global] Hint Rewrite
  key_set_value
  value_set_value
  parity_set_value
  parent_set_value
  left_set_value
  right_set_value
  removed_set_value
  root_set_value
  size_set_value
  st_next_set_value
  key_set_parity
  value_set_parity
  parity_set_parity
  parent_set_parity
  left_set_parity
  right_set_parity
  removed_set_parity
  root_set_parity
  size_set_parity
  st_next_set_parity
  key_set_parent
  value_set_parent
  parity_set_parent
  parent_set_parent
  left_set_parent
  right_set_parent
  removed_set_parent
  root_set_parent
  size_set_parent
  st_next_set_parent
  key_set_left
  value_set_left
  parity_set_left
  parent_set_left
  left_set_left
  right_set_left
  removed_set_left
  root_set_left
  size_set_left
  st_next_set_left
  key_set_right
  value_set_right
  parity_set_right
  parent_set_right
  left_set_right
  right_set_right
  removed_set_right
  root_set_right
  size_set_right
  st_next_set_right
  key_set_removed
  value_set_removed
  parity_set_removed
  parent_set_removed
  left_set_removed
  right_set_removed
  removed_set_removed
  root_set_removed
  size_set_removed
  st_next_set_removed
  node_set_root
  node_set_size
  root_set_root
  size_set_root
  st_next_set_root
  root_set_size
  size_set_size
  st_next_set_size
  key_new_node value_new_node parity_new_node parent_new_node left_new_node right_new_node removed_new_node root_new_node size_new_node st_next_new_node
  negb_T negb_F andb_true_l andb_false_l orb_true_l orb_false_l
  : store.

Arguments node : simpl never.
Arguments set_value : simpl never.
Arguments set_parity : simpl never.
Arguments set_parent : simpl never.
Arguments set_left : simpl never.
Arguments set_right : simpl never.
Arguments set_removed : simpl never.
Arguments set_root : simpl never.
Arguments set_size : simpl never.

#[global] Opaque node set_value set_parity set_parent set_left set_right
  set_removed set_root set_size new_node.

(** * Trees of addresses

    The shape the store is meant to hold: a binary tree whose nodes are
    addresses.  A context is the path from a hole up to the root. *)

Lemma ptrs_plug c : forall t, ptrs (plug c t) = before c ++ ptrs t ++ after c.
Proof.
  induction c as [|[p r|l p] c IH]; intros t; simpl.
  - now rewrite app_nil_r.
  - rewrite IH. simpl. now rewrite <- !app_assoc.
  - rewrite IH. simpl. now rewrite <- !app_assoc.
Qed.

Lemma in_plug c t q : In q (ptrs t) -> In q (ptrs (plug c t)).
Proof.
  intros H. rewrite ptrs_plug. apply in_or_app; right. apply in_or_app; auto.
Qed.

Lemma plug_app c1 c2 t : plug (c1 ++ c2) t = plug c2 (plug c1 t).
Proof.
  revert t; induction c1 as [|[p r|l p] c1 IH]; intros t; simpl; auto.
Qed.

Lemma rootp_plug c : forall t, rootp (plug c t) = croot c (rootp t).
Proof.
  induction c as [|[p r|l p] c IH]; intros t; simpl; auto; now rewrite IH.
Qed.

Lemma rootp_ne (t : tree) (p : ptr) :
  p <> NIL -> ~ In p (ptrs t) -> rootp t <> p.
Proof.
  destruct t; simpl; intros Hp Hin; [congruence|].
  intros ->; apply Hin, in_or_app; simpl; auto.
Qed.

Lemma disj_sym l1 l2 : disj l1 l2 -> disj l2 l1.
Proof. unfold disj; intros H x Hx Hx'; exact (H x Hx' Hx). Qed.

Lemma NoDup_app_iff (l1 l2 : list ptr) :
  NoDup (l1 ++ l2) <-> NoDup l1 /\ NoDup l2 /\ disj l1 l2.
Proof.
  unfold disj; induction l1 as [|a l1 IH]; simpl.
  - split; [intros H; repeat split; auto; constructor | tauto].
  - rewrite !NoDup_cons_iff, IH, in_app_iff. split.
    + intros (Ha & H1 & H2 & H3). repeat split; auto.
      intros x [<-|Hx]; auto.
    + intros ((Ha & H1) & H2 & H3). repeat split; auto.
      intros [H|H]; auto. exact (H3 a (or_introl eq_refl) H).
Qed.

Lemma disj_app_l l1 l2 l : disj (l1 ++ l2) l <-> disj l1 l /\ disj l2 l.
Proof.
  unfold disj; split.
  - intros H; split; intros x Hx; apply H, in_or_app; auto.
  - intros [H1 H2] x Hx; apply in_app_or in Hx; destruct Hx; auto.
Qed.

Lemma disj_cons_l a l1 l : disj (a :: l1) l <-> ~ In a l /\ disj l1 l.
Proof.
  unfold disj; split.
  - intros H; split; [apply H; now left | intros x Hx; apply H; now right].
  - intros [H1 H2] x [<-|Hx]; auto.
Qed.

Lemma disj_nil_l l : disj [] l.
Proof. intros x []. Qed.

Lemma disj_app_r l1 l2 l : disj l (l1 ++ l2) <-> disj l l1 /\ disj l l2.
Proof.
  split.
  - intros H; apply disj_sym, disj_app_l in H; destruct H; split; now apply disj_sym.
  - intros [H1 H2]; apply disj_sym, disj_app_l; split; now apply disj_sym.
Qed.

Lemma disj_cons_r a l1 l : disj l (a :: l1) <-> ~ In a l /\ disj l l1.
Proof.
  split.
  - intros H; apply disj_sym, disj_cons_l in H; destruct H; split; auto using disj_sym.
  - intros [H1 H2]; apply disj_sym, disj_cons_l; split; auto using disj_sym.
Qed.

Lemma not_in_app_iff (a : ptr) l1 l2 : ~ In a (l1 ++ l2) <-> ~ In a l1 /\ ~ In a l2.
Proof. rewrite in_app_iff; tauto. Qed.

Lemma not_in_cons_iff (a b : ptr) l : ~ In a (b :: l) <-> a <> b /\ ~ In a l.
Proof. simpl; split; [intros H; split; [intros ->|]; tauto | intros [H1 H2] [H|H]; auto]. Qed.

(** Breaking a distinctness hypothesis into its atoms: disequalities of
    addresses, non-membership in, and disjointness of, opaque lists. *)
Ltac nd_step :=
  match goal with
  | H : NoDup (_ ++ _) |- _ => apply NoDup_app_iff in H; destruct H as (? & ? & ?)
  | H : NoDup (_ :: _) |- _ => apply NoDup_cons_iff in H; destruct H as (? & ?)
  | H : NoDup [] |- _ => clear H
  | H : ~ In _ (_ ++ _) |- _ => apply not_in_app_iff in H; destruct H as (? & ?)
  | H : ~ In _ (_ :: _) |- _ => apply not_in_cons_iff in H; destruct H as (? & ?)
  | H : ~ In _ [] |- _ => clear H
  | H : disj (_ ++ _) _ |- _ => apply disj_app_l in H; destruct H as (? & ?)
  | H : disj (_ :: _) _ |- _ => apply disj_cons_l in H; destruct H as (? & ?)
  | H : disj [] _ |- _ => clear H
  | H : disj _ (_ ++ _) |- _ => apply disj_app_r in H; destruct H as (? & ?)
  | H : disj _ (_ :: _) |- _ => apply disj_cons_r in H; destruct H as (? & ?)
  | H : disj _ [] |- _ => clear H
  end.

Ltac nd := cbn [ptrs before after app] in *; repeat nd_step.

Ltac ne_solve :=
  match goal with
  | H : ?a <> ?b |- ?a <> ?b => exact H
  | H : ?b <> ?a |- ?a <> ?b => exact (not_eq_sym H)
  | Hq : In ?q ?l, Hn : ~ In ?p ?l |- ?q <> ?p =>
    let E := fresh in intro E; apply Hn; rewrite <- E; exact Hq
  | Hq : In ?q ?l, Hn : ~ In ?p ?l |- ?p <> ?q =>
    let E := fresh in intro E; apply Hn; rewrite E; exact Hq
  | |- rootp ?t <> ?p => apply rootp_ne; assumption
  | |- ?p <> rootp ?t => apply not_eq_sym, rootp_ne; assumption
  end.

(** Deciding the address tests of the code from the atoms. *)
Ltac eqb_step :=
  match goal with
  | |- context [Nat.eqb ?a ?a] => rewrite (Nat.eqb_refl a)
  | |- context [Nat.eqb ?a ?b] => rewrite (@neqb a b) by ne_solve
  end.

(** Replacing a read of the initial store by what the shape says of it. *)
Ltac read_step :=
  match goal with
  | H : ?f (node ?s ?p) = _ |- context [?f (node ?s ?p)] => rewrite H
  end.

Ltac store :=
  repeat first [ progress rewrite_strat (topdown (hints store))
               | read_step | eqb_step | progress cbv beta iota ].

(** Performing the outermost [let] of the goal, its value simplified. *)
Ltac zeta1 :=
  match goal with
  | |- context C [let x := ?v in @?b x] =>
    let E := fresh "E" in
    eassert (E : v = _) by (store; reflexivity);
    match type of E with
    | _ = ?v' =>
      let t := eval cbv beta in (b v) in
      let g := context C [t] in
      change g; try rewrite E; clear E
    end
  end.

Ltac run := repeat zeta1; store.

(** Rebuilding a distinctness goal from the atoms. *)
Ltac nd_goal :=
  cbn [ptrs before after app];
  repeat match goal with
  | |- NoDup (_ ++ _) => apply NoDup_app_iff; split; [|split]
  | |- NoDup (_ :: _) => apply NoDup_cons_iff; split
  | |- NoDup [] => constructor
  | |- ~ In _ (_ ++ _) => apply not_in_app_iff; split
  | |- ~ In _ (_ :: _) => apply not_in_cons_iff; split
  | |- ~ In _ [] => intros []
  | |- disj (_ ++ _) _ => apply disj_app_l; split
  | |- disj (_ :: _) _ => apply disj_cons_l; split
  | |- disj [] _ => apply disj_nil_l
  | |- disj _ (_ ++ _) => apply disj_app_r; split
  | |- disj _ (_ :: _) => apply disj_cons_r; split
  | |- disj _ [] => apply disj_sym, disj_nil_l
  end;
  first [ assumption | apply disj_sym; assumption | ne_solve ].

(** Splitting a membership hypothesis along the list. *)
Ltac in_split Hq :=
  cbn [ptrs before after app] in Hq;
  repeat match type of Hq with
  | In _ (_ ++ _) => apply in_app_or in Hq; destruct Hq as [Hq|Hq]
  | In ?q (_ :: _) => destruct Hq as [Hq|Hq]; [first [subst q | subst]|]
  | In _ [] => destruct Hq
  end.

Ltac ptrs_eq :=
  cbn [ptrs]; repeat (rewrite <- app_assoc; cbn [app]); reflexivity.

Ltac in_solve :=
  try apply in_plug; cbn [ptrs]; rewrite ?in_app_iff; cbn [In];
  rewrite ?in_app_iff; cbn [In]; auto 12.

Ltac conj := repeat match goal with H : _ /\ _ |- _ => destruct H end.

Section Shape.

Variables K V : Type.
Implicit Types (s : state K V) (p q : ptr) (t l r : tree) (c : ctx).

Lemma Rep_plug s top c : forall t,
  Rep s top (plug c t) <-> Rep s (cparent top c) t /\ RepC s top c (rootp t).
Proof.
  induction c as [|[p r|l p] c IH]; intros t; simpl.
  - tauto.
  - rewrite IH; simpl; tauto.
  - rewrite IH; simpl; tauto.
Qed.

Lemma Rep_not_NIL s par t : Rep s par t -> ~ In NIL (ptrs t).
Proof.
  revert par; induction t as [|l IHl p r IHr]; simpl; intros par; [tauto|].
  intros (Hp & _ & _ & _ & Hl & Hr) H.
  apply in_app_or in H; destruct H as [H|[H|H]].
  - exact (IHl _ Hl H).
  - congruence.
  - exact (IHr _ Hr H).
Qed.

Lemma Rep_ext s s' t : forall par,
  (forall q, In q (ptrs t) -> same_links s s' q) ->
  Rep s par t -> Rep s' par t.
Proof.
  induction t as [|l IHl p r IHr]; simpl; intros par Hq; auto.
  intros (Hp & H1 & H2 & H3 & Hl & Hr).
  destruct (Hq p) as (E1 & E2 & E3); [apply in_or_app; simpl; auto|].
  rewrite E1, E2, E3. repeat split; auto.
  - apply IHl; auto. intros q Hin; apply Hq, in_or_app; auto.
  - apply IHr; auto. intros q Hin; apply Hq, in_or_app; simpl; auto.
Qed.

Lemma RepC_ext s s' top c : forall hole,
  (forall q, In q (before c ++ after c) -> same_links s s' q) ->
  RepC s top c hole -> RepC s' top c hole.
Proof.
  induction c as [|[p r|l p] c IH]; simpl; intros hole Hq; auto.
  - intros (Hp & H1 & H2 & H3 & Hr & Hc).
    destruct (Hq p) as (E1 & E2 & E3); [apply in_or_app; simpl; auto|].
    rewrite E1, E2, E3. repeat split; auto.
    + eapply Rep_ext; [|eassumption].
      intros q Hin; apply Hq, in_or_app; right; simpl; right; apply in_or_app; auto.
    + apply IH; auto. intros q Hin; apply Hq.
      apply in_app_or in Hin; apply in_or_app; destruct Hin; auto.
      right; simpl; right; apply in_or_app; auto.
  - intros (Hp & H1 & H2 & H3 & Hl & Hc).
    destruct (Hq p) as (E1 & E2 & E3).
    { apply in_or_app; left; apply in_or_app; right; apply in_or_app; simpl; auto. }
    rewrite E1, E2, E3. repeat split; auto.
    + eapply Rep_ext; [|eassumption].
      intros q Hin; apply Hq, in_or_app; left; apply in_or_app; right; apply in_or_app; auto.
    + apply IH; auto. intros q Hin; apply Hq.
      apply in_app_or in Hin; apply in_or_app; destruct Hin; auto.
      left; apply in_or_app; auto.
Qed.

End Shape.

(** [norm f] rewrites the call [f] in the goal to the chain of writes it
    performs. *)
Ltac norm prog :=
  let Hs := fresh "Hs" in
  eassert (Hs : prog = _)
    by (cbv beta delta [rotateLeft rotateRight rotateLeftRight
                        rotateRightLeft relink promote demote];
        run; reflexivity);
  rewrite Hs; clear Hs.

Ltac frame :=
  first [ eapply Rep_ext; [|eassumption] | eapply RepC_ext; [|eassumption] ];
  let q := fresh "q" in let Hq := fresh "Hq" in
  intros q Hq; unfold same_links; in_split Hq; store; auto.

Ltac rep :=
  cbn [Rep RepC rootp cparent]; repeat split;
  first [ assumption | frame | store; solve [auto] ].

Section Rotations.

Variables K V : Type.
Implicit Types (s : state K V) (p q : ptr) (t l r : tree) (c : ctx).

Ltac rot :=
  unfold rotated, keeps, same_parity, links_outside;
  match goal with
  | |- _ /\ _ /\ _ /\ _ /\ _ /\ _ =>
    split; [rep | split; [rep | split; [store; reflexivity | split;
      [repeat split; store; reflexivity | split; [intros q; store; reflexivity |
       let q := fresh "q" in let Hq := fresh "Hq" in
       intros q Hq; cbn [ptrs before after app] in Hq; repeat nd_step;
       unfold same_links; store; auto]]]]]
  end.

Lemma rotateLeft_ok s c A n B m C :
  Rep s (cparent NIL c) (T A n (T B m C)) ->
  RepC s NIL c n ->
  NoDup (before c ++ ptrs (T A n (T B m C)) ++ after c) ->
  rotated s (rotateLeft s n m) c (T A n (T B m C)) (T (T A n B) m C).
Proof.
  intros HR HC ND.
  destruct c as [|[g R|L g] c']; destruct B as [|Bl b Br];
    cbn [Rep RepC rootp cparent] in HR, HC; nd; conj.
  all: norm (rotateLeft s n m).
  all: rot.
Qed.

Lemma rotateRight_ok s c A m B n C :
  Rep s (cparent NIL c) (T (T A m B) n C) ->
  RepC s NIL c n ->
  NoDup (before c ++ ptrs (T (T A m B) n C) ++ after c) ->
  rotated s (rotateRight s n m) c (T (T A m B) n C) (T A m (T B n C)).
Proof.
  intros HR HC ND.
  destruct c as [|[g R|L g] c']; destruct B as [|Bl b Br];
    cbn [Rep RepC rootp cparent] in HR, HC; nd; conj.
  all: norm (rotateRight s n m).
  all: rot.
Qed.

Lemma rotateLeftRight_ok s c A n B x C p D :
  Rep s (cparent NIL c) (T (T A n (T B x C)) p D) ->
  RepC s NIL c p ->
  NoDup (before c ++ ptrs (T (T A n (T B x C)) p D) ++ after c) ->
  rotated s (rotateLeftRight s p n x) c
    (T (T A n (T B x C)) p D) (T (T A n B) x (T C p D)).
Proof.
  intros HR HC ND.
  destruct c as [|[g R|L g] c']; destruct B as [|Bl b Br];
    destruct C as [|Cl y Cr];
    cbn [Rep RepC rootp cparent] in HR, HC; nd; conj.
  all: norm (rotateLeftRight s p n x).
  all: rot.
Qed.

Lemma rotateRightLeft_ok s c A p B x C n D :
  Rep s (cparent NIL c) (T A p (T (T B x C) n D)) ->
  RepC s NIL c p ->
  NoDup (before c ++ ptrs (T A p (T (T B x C) n D)) ++ after c) ->
  rotated s (rotateRightLeft s p n x) c
    (T A p (T (T B x C) n D)) (T (T A p B) x (T C n D)).
Proof.
  intros HR HC ND.
  destruct c as [|[g R|L g] c']; destruct B as [|Bl b Br];
    destruct C as [|Cl y Cr];
    cbn [Rep RepC rootp cparent] in HR, HC; nd; conj.
  all: norm (rotateRightLeft s p n x).
  all: rot.
Qed.

End Rotations.

(** * Ranks

    Only the parity of a rank is stored.  A tree is ranked by [k] when ranks
    can be given to its nodes, [k] to its root, [-1] to every missing child
    and [0] to every leaf, with every child one or two below its parent and
    every stored parity the parity of the node's rank. *)

Open Scope Z_scope.

(** Linear arithmetic on ranks: distinctness of addresses plays no part in
    it and is dropped first. *)
Ltac zlia :=
  repeat match goal with
  | H : ?a <> ?b |- _ =>
    match type of a with nat => clear H | ptr => clear H end
  | H : ~ In _ _ |- _ => clear H
  | H : disj _ _ |- _ => clear H
  | H : NoDup _ |- _ => clear H
  | H : In _ _ |- _ => clear H
  end; lia.

Lemma flip_par_succ k : flip (par k) = par (k + 1).
Proof.
  unfold par. rewrite Z.even_add. simpl.
  destruct (Z.even k); reflexivity.
Qed.

Lemma flip_par_pred k : flip (par k) = par (k - 1).
Proof.
  unfold par. rewrite Z.even_sub. simpl.
  destruct (Z.even k); reflexivity.
Qed.

Lemma even_true a : Z.even a = true -> exists m, a = 2 * m.
Proof. intros H; apply Z.even_spec in H; exact H. Qed.

Lemma even_false a : Z.even a = false -> exists m, a = 2 * m + 1.
Proof.
  intros H. rewrite <- Z.negb_odd in H. apply negb_false_iff in H.
  apply Z.odd_spec in H; exact H.
Qed.

Lemma par_eqb_cases a b :
  (parity_eqb (par a) (par b) = true /\ exists m, a - b = 2 * m) \/
  (parity_eqb (par a) (par b) = false /\ exists m, a - b = 2 * m + 1).
Proof.
  unfold par.
  destruct (Z.even a) eqn:Ea, (Z.even b) eqn:Eb; cbn [parity_eqb];
    [apply even_true in Ea; apply even_true in Eb
    |apply even_true in Ea; apply even_false in Eb
    |apply even_false in Ea; apply even_true in Eb
    |apply even_false in Ea; apply even_false in Eb];
    destruct Ea as [x Hx], Eb as [y Hy].
  - left; split; auto. exists (x - y); lia.
  - right; split; auto. exists (x - y - 1); lia.
  - right; split; auto. exists (x - y); lia.
  - left; split; auto. exists (x - y); lia.
Qed.

Lemma par_eqb_even a b :
  (exists m, a - b = 2 * m) -> parity_eqb (par a) (par b) = true.
Proof.
  intros [m Hm]. destruct (par_eqb_cases a b) as [[E _]|[_ [m' Hm']]]; auto. lia.
Qed.

Lemma par_eqb_odd a b :
  (exists m, a - b = 2 * m + 1) -> parity_eqb (par a) (par b) = false.
Proof.
  intros [m Hm]. destruct (par_eqb_cases a b) as [[_ [m' Hm']]|[E _]]; auto. lia.
Qed.

Lemma par_m1 : par (-1) = One.
Proof. reflexivity. Qed.

Lemma par_0 : par 0 = Zero.
Proof. reflexivity. Qed.

Section Ranks.

Variables K V : Type.
Implicit Types (s : state K V) (p q : ptr) (t l r : tree) (c : ctx) (k : Z).

Lemma wavl_plug s c : forall t ktop,
  wavl s (plug c t) ktop <-> exists k, wavl s t k /\ cwavl s c k ktop.
Proof.
  induction c as [|[p r|l p] c IH]; intros t ktop; cbn [wavl cwavl plug rootp].
  - split; [intros H; exists ktop; auto | intros (k & H & ->); auto].
  - rewrite IH. cbn [wavl cwavl plug rootp]. split.
    + intros (kp & (kl & kr & Hl & Hr & H1 & H2 & H3 & H4) & Hc).
      exists kl; split; auto. exists kp, kr; auto 10.
    + intros (k & Ht & kp & kr & Hr & H1 & H2 & H3 & H4 & Hc).
      exists kp; split; auto. exists k, kr; auto 10.
  - rewrite IH. cbn [wavl cwavl plug rootp]. split.
    + intros (kp & (kl & kr & Hl & Hr & H1 & H2 & H3 & H4) & Hc).
      exists kr; split; auto. exists kp, kl; auto 10.
    + intros (k & Ht & kp & kl & Hl & H1 & H2 & H3 & H4 & Hc).
      exists kp; split; auto. exists kl, k; auto 10.
Qed.

Lemma wavl_node s l p r k kl kr :
  wavl s l kl -> wavl s r kr ->
  1 <= k - kl <= 2 -> 1 <= k - kr <= 2 ->
  parity (node s p) = par k ->
  (kl = -1 -> kr = -1 -> k = 0) ->
  wavl s (T l p r) k.
Proof. intros; cbn [wavl]; exists kl, kr; auto 10. Qed.

Lemma wavl_leaf s p : parity (node s p) = Zero -> wavl s (T E p E) 0.
Proof.
  intros H. apply wavl_node with (kl := -1) (kr := -1); cbn [wavl]; auto; lia.
Qed.

Lemma wavl_ge s t : forall k, wavl s t k -> -1 <= k.
Proof.
  induction t as [|l IHl p r IHr]; cbn [wavl cwavl plug rootp]; intros k.
  - lia.
  - intros (kl & kr & Hl & _ & H & _). apply IHl in Hl. lia.
Qed.

Lemma wavl_m1 s t : wavl s t (-1) -> t = E.
Proof.
  destruct t; cbn [wavl]; auto.
  intros (kl & kr & Hl & _ & H & _). apply wavl_ge in Hl. lia.
Qed.

Lemma wavl_T_ge s l p r k : wavl s (T l p r) k -> 0 <= k.
Proof.
  cbn [wavl]. intros (kl & kr & Hl & _ & H & _). apply wavl_ge in Hl. lia.
Qed.

Lemma wavl_parity s t k :
  NIL_ok s -> wavl s t k -> parity (node s (rootp t)) = par k.
Proof.
  intros (_ & _ & _ & Hn & _). destruct t; cbn [wavl cwavl plug rootp].
  - intros ->; exact Hn.
  - intros (kl & kr & _ & _ & _ & _ & H & _); exact H.
Qed.

Lemma wavl_ext s s' t : forall k,
  (forall q, In q (ptrs t) -> parity (node s' q) = parity (node s q)) ->
  wavl s t k -> wavl s' t k.
Proof.
  induction t as [|l IHl p r IHr]; cbn [wavl cwavl plug rootp]; intros k Hq; auto.
  intros (kl & kr & Hl & Hr & H1 & H2 & H3 & H4).
  exists kl, kr. repeat split; try lia; auto.
  - apply IHl; auto. intros q Hin; apply Hq, in_or_app; auto.
  - apply IHr; auto. intros q Hin; apply Hq, in_or_app; simpl; auto.
  - rewrite Hq; auto. apply in_or_app; simpl; auto.
Qed.

Lemma cwavl_ext s s' c : forall k ktop,
  (forall q, In q (before c ++ after c) -> parity (node s' q) = parity (node s q)) ->
  cwavl s c k ktop -> cwavl s' c k ktop.
Proof.
  induction c as [|[p r|l p] c IH]; cbn [wavl cwavl plug rootp]; intros k ktop Hq; auto.
  - intros (kp & kr & Hr & H1 & H2 & H3 & H4 & Hc).
    exists kp, kr. repeat split; try lia; auto.
    + eapply wavl_ext; [|eassumption].
      intros q Hin; apply Hq, in_or_app; right; simpl; right; apply in_or_app; auto.
    + rewrite Hq; auto. apply in_or_app; simpl; auto.
    + apply IH; auto. intros q Hin; apply Hq.
      apply in_app_or in Hin; apply in_or_app; destruct Hin; auto.
      right; simpl; right; apply in_or_app; auto.
  - intros (kp & kl & Hl & H1 & H2 & H3 & H4 & Hc).
    exists kp, kl. repeat split; try lia; auto.
    + eapply wavl_ext; [|eassumption].
      intros q Hin; apply Hq, in_or_app; left; apply in_or_app; right; apply in_or_app; auto.
    + rewrite Hq; auto.
      apply in_or_app; left; apply in_or_app; right; apply in_or_app; simpl; auto.
    + apply IH; auto. intros q Hin; apply Hq.
      apply in_app_or in Hin; apply in_or_app; destruct Hin; auto.
      left; apply in_or_app; auto.
Qed.

End Ranks.

Arguments rotateLeft : simpl never.
Arguments rotateRight : simpl never.
Arguments rotateLeftRight : simpl never.
Arguments rotateRightLeft : simpl never.
Arguments promote : simpl never.
Arguments demote : simpl never.

Section Fixed.

Variables K V : Type.
Implicit Types (s : state K V) (p q : ptr) (t l r : tree) (c : ctx) (k : Z).

Lemma keeps_refl s : keeps s s.
Proof. repeat split. Qed.

Lemma keeps_trans s1 s2 s3 : keeps s1 s2 -> keeps s2 s3 -> keeps s1 s3.
Proof.
  intros (A1 & A2 & A3) (B1 & B2 & B3). repeat split; try congruence.
  - rewrite (proj1 (B3 q)); apply A3.
  - rewrite (proj1 (proj2 (B3 q))); apply A3.
  - rewrite (proj2 (proj2 (B3 q))); apply A3.
Qed.

Lemma fixed_refl s t : Rep s NIL t -> fixed s s t t.
Proof.
  intros H; repeat split; auto.
Qed.

Lemma fixed_trans s1 s2 s3 T1 T2 T3 :
  fixed s1 s2 T1 T2 -> fixed s2 s3 T2 T3 -> fixed s1 s3 T1 T3.
Proof.
  intros (A1 & A2 & A3 & A4 & A5 & A6) (B1 & B2 & B3 & B4 & B5 & B6).
  rewrite A2 in B5, B6.
  split; [exact B1|]. split; [congruence|].
  split; [|split; [eapply keeps_trans; eauto|split]].
  - destruct B3 as [[E1 E2]|E]; [|right; exact E].
    destruct A3 as [[E3 E4]|E3]; [left; split; congruence|right; congruence].
  - intros q Hq. destruct (A5 q Hq) as (E1 & E2 & E3), (B5 q Hq) as (F1 & F2 & F3).
    repeat split; congruence.
  - intros q Hq. rewrite (B6 q Hq). apply A6; auto.
Qed.

Lemma Rep_set_parity s p b par t :
  Rep s par t -> Rep (set_parity s p b) par t.
Proof.
  apply Rep_ext. intros q _. unfold same_links. store. auto.
Qed.

Lemma fixed_set_parity s p b t :
  Rep s NIL t -> In p (ptrs t) -> fixed s (set_parity s p b) t t.
Proof.
  intros H Hin. split; [apply Rep_set_parity; exact H|].
  split; [reflexivity|]. split; [left; split; reflexivity|].
  split; [|split].
  - repeat split; store; reflexivity.
  - intros q Hq; unfold same_links; store; auto.
  - intros q Hq; store; reflexivity.
Qed.

Lemma fixed_set_parity_r s s1 p b T0 T1 :
  fixed s s1 T0 T1 -> In p (ptrs T1) -> fixed s (set_parity s1 p b) T0 T1.
Proof.
  intros H Hin. eapply fixed_trans; [exact H|].
  apply fixed_set_parity; [apply H|exact Hin].
Qed.

Lemma rotated_fixed s s' c t t' :
  rotated s s' c t t' -> ptrs t' = ptrs t ->
  fixed s s' (plug c t) (plug c t').
Proof.
  intros (H1 & H2 & H3 & H4 & H5 & H6) E.
  split; [apply Rep_plug; auto|].
  split; [rewrite !ptrs_plug; congruence|].
  split; [|split; [exact H4|split]].
  - destruct c as [|f c]; [right; exact H3|left; split; [exact H3|]].
    rewrite !rootp_plug. destruct f; reflexivity.
  - rewrite ptrs_plug. exact H6.
  - intros q _. apply H5.
Qed.

Lemma fixed_NIL_ok s s' T0 T1 :
  fixed s s' T0 T1 -> Rep s NIL T0 -> NIL_ok s -> NIL_ok s'.
Proof.
  intros (_ & _ & _ & (_ & _ & H4) & H5 & H6) HR (N1 & N2 & N3 & N4 & N5).
  pose proof (Rep_not_NIL _ _ _ HR) as HN.
  destruct (H5 NIL HN) as (E1 & E2 & E3).
  unfold NIL_ok. rewrite E1, E2, E3, (H6 NIL HN), (proj2 (proj2 (H4 NIL))). auto.
Qed.

End Fixed.

Ltac par_split :=
  match goal with
  | |- context [parity_eqb (par ?a) (par ?b)] =>
    let E := fresh "E" in let m := fresh "m" in let Hm := fresh "Hm" in
    destruct (par_eqb_cases a b) as [[E [m Hm]]|[E [m Hm]]];
    rewrite E; clear E
  end.

Lemma par_eq_even a b : (exists m, a - b = 2 * m) -> par a = par b.
Proof.
  intros H. apply par_eqb_even in H.
  destruct (par a), (par b); simpl in H; congruence.
Qed.

Lemma flip_flip b : flip (flip b) = b.
Proof. destruct b; reflexivity. Qed.

Section FixupLemmas.

Variables K V : Type.
Implicit Types (s : state K V) (p q : ptr) (t l r : tree) (c : ctx) (k : Z).

Lemma fixup_post_trans s s1 T0 T0' o :
  fixed s s1 T0 T0' -> fixup_post s1 T0' o -> fixup_post s T0 o.
Proof.
  intros H (s' & T1 & k' & E & H1 & H2).
  exists s', T1, k'. split; [exact E|]. split; [|exact H2].
  eapply fixed_trans; eauto.
Qed.

Lemma wavl_set_parity s p b t k :
  ~ In p (ptrs t) -> wavl s t k -> wavl (set_parity s p b) t k.
Proof.
  intros Hp. apply wavl_ext. intros q Hq. store. reflexivity.
Qed.

Lemma cwavl_set_parity s p b c k ktop :
  ~ In p (before c ++ after c) ->
  cwavl s c k ktop -> cwavl (set_parity s p b) c k ktop.
Proof.
  intros Hp. apply cwavl_ext. intros q Hq. store. reflexivity.
Qed.

Lemma RepC_set_parity s p b top c hole :
  RepC s top c hole -> RepC (set_parity s p b) top c hole.
Proof.
  apply RepC_ext. intros q _. unfold same_links. store. auto.
Qed.

Lemma NIL_ok_set_parity s p b :
  p <> NIL -> NIL_ok s -> NIL_ok (set_parity s p b).
Proof.
  intros Hp (N1 & N2 & N3 & N4 & N5). unfold NIL_ok. store. auto.
Qed.

Lemma wavl_rotated s s' c t t' X k :
  rotated s s' c t t' -> wavl s X k -> wavl s' X k.
Proof.
  intros (_ & _ & _ & _ & H & _). apply wavl_ext. intros q _; apply H.
Qed.

Lemma cwavl_rotated s s' c t t' c0 k ktop :
  rotated s s' c t t' -> cwavl s c0 k ktop -> cwavl s' c0 k ktop.
Proof.
  intros (_ & _ & _ & _ & H & _). apply cwavl_ext. intros q _; apply H.
Qed.

End FixupLemmas.

(** Closing a goal on the parity stored at a node after a rotation [H]
    and some promotions and demotions. *)
Ltac par_goal H :=
  let Hsp := fresh "Hsp" in
  pose proof (proj1 (proj2 (proj2 (proj2 (proj2 H))))) as Hsp;
  unfold same_parity in Hsp;
  unfold promote, demote; repeat (store; rewrite ?Hsp);
  rewrite ?flip_flip, ?flip_par_succ; apply par_eq_even;
  first [exists 0; zlia | exists 1; zlia | exists (-1); zlia].

(** Carrying the rank of an untouched subtree or context across them. *)
Ltac wframe :=
  first [ eapply wavl_ext; [|eassumption] | eapply cwavl_ext; [|eassumption] ];
  let q := fresh "q" in let Hq := fresh "Hq" in
  intros q Hq; in_split Hq; unfold promote, demote; store; reflexivity.

Ltac wsolve H :=
  unfold promote, demote;
  repeat first
    [ apply wavl_set_parity; [first [assumption | cbn [ptrs]; rewrite ?in_app_iff; simpl; tauto]|]
    | apply cwavl_set_parity; [rewrite ?in_app_iff; simpl; tauto|] ];
  first [ eapply wavl_rotated; [exact H|]; assumption
        | eapply cwavl_rotated; [exact H|]; assumption ].

Section InsertFixup.

Variables K V : Type.
Implicit Types (s : state K V) (p q : ptr) (t l r : tree) (c : ctx) (k : Z).

Lemma insertFixup_loop_ok c : forall fuel s l x r k kl kr ktop,
  (length c < fuel)%nat ->
  NIL_ok s ->
  Rep s (cparent NIL c) (T l x r) ->
  RepC s NIL c x ->
  NoDup (before c ++ ptrs (T l x r) ++ after c) ->
  wavl s l kl -> wavl s r kr ->
  parity (node s x) = par k ->
  (k - kl = 1 /\ k - kr = 2 \/ k - kl = 2 /\ k - kr = 1) ->
  cwavl s c (k - 1) ktop ->
  fixup_post s (plug c (T l x r)) (insertFixup_loop fuel s x).
Proof.
  induction c as [|[p R|L p] c' IH];
    intros fuel s l x r k kl kr ktop Hfuel HN HR HC ND Hl Hr Hx H12 Hc;
    (destruct fuel as [|f]; [simpl in Hfuel; zlia|]);
    pose proof HR as HR0; pose proof ND as ND0;
    cbn [Rep RepC rootp cparent cwavl] in HR, HC, Hc;
    destruct HR as (Hx0 & Hxp & Hxl & Hxr & HRl & HRr);
    cbn [insertFixup_loop].
  - (* at the root *)
    store. exists s, (T l x r), k. split; [reflexivity|].
    split; [apply fixed_refl; exact HR0|].
    cbn [wavl]. exists kl, kr. repeat split; auto; zlia.
  - (* [x] is the left child of [p] *)
    destruct HC as (Hp0 & Hpp & Hpl & Hpr & HRR & HC').
    destruct Hc as (kp & kR & HwR & Hd1 & Hd2 & Hp & Hleaf & Hc').
    pose proof (@wavl_parity _ _ s R kR HN HwR) as HpR.
    pose proof (@wavl_parity _ _ s r kr HN Hr) as Hpr'.
    assert (Hwt : wavl s (T l x r) k).
    { cbn [wavl]. exists kl, kr. repeat split; auto; zlia. }
    assert (HRt : Rep s (cparent NIL c') (T (T l x r) p R)).
    { cbn [Rep rootp]. repeat split; auto. }
    assert (NDt : kept (NoDup (before c' ++ ptrs (T (T l x r) p R) ++ after c'))).
    { unfold kept. rewrite <- ptrs_plug in ND0 |- *. exact ND0. }
    clear ND0. revert IH. nd. intros IH.
    store. par_split; store.
    + (* rank difference 0 *)
      par_split; store.
      * (* the sibling is two below: rotate *)
        par_split; store.
        -- (* the inner grandchild is two below: single rotation *)
           pose proof (rotateRight_ok c' HRt HC' NDt) as Hrot.
           exists (demote (rotateRight s p x) p),
                  (plug c' (T l x (T r p R))), ktop.
           split; [reflexivity|]. split.
           ++ unfold promote, demote.
              repeat (apply fixed_set_parity_r; [|in_solve]).
              apply (rotated_fixed Hrot). ptrs_eq.
           ++ apply wavl_plug. exists k. split.
              ** cbn [wavl]. exists kl, (k - 1).
                 split; [wsolve Hrot|]. split.
                 { exists kr, kR. split; [wsolve Hrot|]. split; [wsolve Hrot|].
                   repeat split; try zlia. par_goal Hrot. }
                 repeat split; try zlia. par_goal Hrot.
              ** replace k with kp by zlia. wsolve Hrot.
        -- (* the inner grandchild is one below: double rotation *)
           destruct r as [|rl y rr].
           { cbn [wavl] in Hr. pose proof (@wavl_ge _ _ s l kl Hl). zlia. }
           cbn [wavl] in Hr. destruct Hr as (krl & krr & Hrl & Hrr & Hy1 & Hy2 & Hy & Hyl).
           cbn [rootp]. clear IH. nd.
           pose proof (rotateLeftRight_ok c' HRt HC' NDt) as Hrot.
           exists (promote (demote (demote (rotateLeftRight s p x y) p) x) y),
                  (plug c' (T (T l x rl) y (T rr p R))), ktop.
           split; [reflexivity|]. split.
           ++ unfold promote, demote.
              repeat (apply fixed_set_parity_r; [|in_solve]).
              apply (rotated_fixed Hrot). ptrs_eq.
           ++ apply wavl_plug. exists k. split.
              ** cbn [wavl]. exists (k - 1), (k - 1). split.
                 { exists kl, krl. split; [wsolve Hrot|]. split; [wsolve Hrot|].
                   repeat split; try zlia. par_goal Hrot. }
                 split.
                 { exists krr, kR. split; [wsolve Hrot|]. split; [wsolve Hrot|].
                   repeat split; try zlia. par_goal Hrot. }
                 repeat split; try zlia. par_goal Hrot.
              ** replace k with kp by zlia. wsolve Hrot.
      * (* the sibling is one below: promote and ascend *)
        apply fixup_post_trans with (s1 := promote s p) (T0' := plug c' (T (T l x r) p R)).
        { unfold promote. apply fixed_set_parity with (t := plug c' (T (T l x r) p R)).
          - apply Rep_plug. split; auto.
          - in_solve. }
        apply IH with (k := kp + 1) (kl := k) (kr := kR) (ktop := ktop); auto.
        -- simpl in Hfuel; zlia.
        -- apply NIL_ok_set_parity; auto.
        -- apply Rep_set_parity; exact HRt.
        -- apply RepC_set_parity; exact HC'.
        -- apply wavl_set_parity; auto.
           cbn [ptrs]. rewrite in_app_iff. simpl. intuition.
        -- apply wavl_set_parity; auto.
        -- unfold promote. store. apply flip_par_succ.
        -- left; zlia.
        -- replace (kp + 1 - 1) with kp by zlia.
           apply cwavl_set_parity; auto. rewrite in_app_iff; tauto.
    + (* rank difference 1 *)
      exists s, (plug c' (T (T l x r) p R)), ktop. split; [reflexivity|].
      split; [apply fixed_refl, Rep_plug; auto|].
      apply wavl_plug. exists kp. split; auto.
      cbn [wavl]. exists k, kR. repeat split; auto; try zlia.
  - (* [x] is the right child of [p] *)
    destruct HC as (Hp0 & Hpp & Hpl & Hpr & HRL & HC').
    destruct Hc as (kp & kL & HwL & Hd1 & Hd2 & Hp & Hleaf & Hc').
    pose proof (@wavl_parity _ _ s L kL HN HwL) as HpL.
    pose proof (@wavl_parity _ _ s l kl HN Hl) as Hpl'.
    assert (Hwt : wavl s (T l x r) k).
    { cbn [wavl]. exists kl, kr. repeat split; auto; zlia. }
    assert (HRt : Rep s (cparent NIL c') (T L p (T l x r))).
    { cbn [Rep rootp]. repeat split; auto. }
    assert (NDt : kept (NoDup (before c' ++ ptrs (T L p (T l x r)) ++ after c'))).
    { unfold kept. rewrite <- ptrs_plug in ND0 |- *. exact ND0. }
    clear ND0. revert IH. nd. intros IH.
    store. par_split; store.
    + (* rank difference 0 *)
      par_split; store.
      * (* the sibling is two below: rotate *)
        par_split; store.
        -- (* the inner grandchild is two below: single rotation *)
           pose proof (rotateLeft_ok c' HRt HC' NDt) as Hrot.
           exists (demote (rotateLeft s p x) p),
                  (plug c' (T (T L p l) x r)), ktop.
           split; [reflexivity|]. split.
           ++ unfold promote, demote.
              repeat (apply fixed_set_parity_r; [|in_solve]).
              apply (rotated_fixed Hrot). ptrs_eq.
           ++ apply wavl_plug. exists k. split.
              ** cbn [wavl]. exists (k - 1), kr. split.
                 { exists kL, kl. split; [wsolve Hrot|]. split; [wsolve Hrot|].
                   repeat split; try zlia. par_goal Hrot. }
                 split; [wsolve Hrot|].
                 repeat split; try zlia. par_goal Hrot.
              ** replace k with kp by zlia. wsolve Hrot.
        -- (* the inner grandchild is one below: double rotation *)
           destruct l as [|ll y lr].
           { cbn [wavl] in Hl. pose proof (@wavl_ge _ _ s r kr Hr). zlia. }
           cbn [wavl] in Hl. destruct Hl as (kll & klr & Hll & Hlr & Hy1 & Hy2 & Hy & Hyl).
           cbn [rootp]. clear IH. nd.
           pose proof (rotateRightLeft_ok c' HRt HC' NDt) as Hrot.
           exists (promote (demote (demote (rotateRightLeft s p x y) p) x) y),
                  (plug c' (T (T L p ll) y (T lr x r))), ktop.
           split; [reflexivity|]. split.
           ++ unfold promote, demote.
              repeat (apply fixed_set_parity_r; [|in_solve]).
              apply (rotated_fixed Hrot). ptrs_eq.
           ++ apply wavl_plug. exists k. split.
              ** cbn [wavl]. exists (k - 1), (k - 1). split.
                 { exists kL, kll. split; [wsolve Hrot|]. split; [wsolve Hrot|].
                   repeat split; try zlia. par_goal Hrot. }
                 split.
                 { exists klr, kr. split; [wsolve Hrot|]. split; [wsolve Hrot|].
                   repeat split; try zlia. par_goal Hrot. }
                 repeat split; try zlia. par_goal Hrot.
              ** replace k with kp by zlia. wsolve Hrot.
      * (* the sibling is one below: promote and ascend *)
        apply fixup_post_trans with (s1 := promote s p) (T0' := plug c' (T L p (T l x r))).
        { unfold promote. apply fixed_set_parity with (t := plug c' (T L p (T l x r))).
          - apply Rep_plug. split; auto.
          - in_solve. }
        apply IH with (k := kp + 1) (kl := kL) (kr := k) (ktop := ktop); auto.
        -- simpl in Hfuel; zlia.
        -- apply NIL_ok_set_parity; auto.
        -- apply Rep_set_parity; exact HRt.
        -- apply RepC_set_parity; exact HC'.
        -- apply wavl_set_parity; auto.
        -- apply wavl_set_parity; auto.
           cbn [ptrs]. rewrite in_app_iff. simpl. intuition.
        -- unfold promote. store. apply flip_par_succ.
        -- right; zlia.
        -- replace (kp + 1 - 1) with kp by zlia.
           apply cwavl_set_parity; auto. rewrite in_app_iff; tauto.
    + (* rank difference 1 *)
      exists s, (plug c' (T L p (T l x r))), ktop. split; [reflexivity|].
      split; [apply fixed_refl, Rep_plug; auto|].
      apply wavl_plug. exists kp. split; auto.
      cbn [wavl]. exists kL, k. repeat split; auto; try zlia.
Qed.

End InsertFixup.

Section InsertEmpty.

Variables K V : Type.
Implicit Types (s : state K V) (p q : ptr) (t l r : tree) (c : ctx) (k : Z).

Lemma length_bound (L : list ptr) (n : nat) :
  (0 < n)%nat ->
  NoDup L -> (forall q, In q L -> (0 < q < n)%nat) -> (length L < n)%nat.
Proof.
  intros Hn ND Hb.
  assert (H : incl L (seq 1 (n - 1))).
  { intros q Hq. apply in_seq. specialize (Hb q Hq). zlia. }
  apply (NoDup_incl_length ND) in H. rewrite length_seq in H. zlia.
Qed.

Lemma ctx_length c : (length c <= length (before c ++ after c))%nat.
Proof.
  induction c as [|[p r|l p] c IH]; simpl; auto.
  - rewrite length_app in *. simpl. rewrite length_app. zlia.
  - rewrite !length_app in *. simpl. zlia.
Qed.

Lemma inserted_fixed s s1 s2 c n key0 val0 T1 T2 :
  inserted s s1 c n key0 val0 T1 -> fixed s1 s2 T1 T2 ->
  inserted s s2 c n key0 val0 T2.
Proof.
  intros (A1 & A2 & A3 & A4 & A5 & A6 & A7 & A8 & A9 & A10)
         (B1 & B2 & B3 & (B4 & B5 & B6) & B7 & B8).
  assert (Hsub : forall q, ~ In q (n :: ptrs (plug c E)) -> ~ In q (ptrs T1)).
  { intros q Hq Hq'. apply Hq. rewrite A2 in Hq'. rewrite ptrs_plug.
    cbn [ptrs app]. apply in_app_or in Hq'. simpl in Hq' |- *.
    rewrite in_app_iff. tauto. }
  split; [exact B1|]. split; [congruence|].
  split; [|split; [congruence|split; [|split; [|split; [|split; [|split]]]]]].
  - destruct B3 as [[E1 E2]|E1]; [|right; exact E1].
    destruct A3 as [[E3 E4]|E3]; [left; split; congruence|right; congruence].
  - intros q Hq. destruct (A5 q Hq) as (E1 & E2 & E3), (B6 q) as (F1 & F2 & F3).
    repeat split; congruence.
  - rewrite (proj1 (B6 n)). exact A6.
  - rewrite (proj1 (proj2 (B6 n))). exact A7.
  - rewrite (proj2 (proj2 (B6 n))). exact A8.
  - intros q Hq. destruct (A9 q Hq) as (E1 & E2 & E3).
    destruct (B7 q (Hsub q Hq)) as (F1 & F2 & F3). repeat split; congruence.
  - intros q Hq. rewrite (B8 q (Hsub q Hq)). apply A10. exact Hq.
Qed.

Lemma inserted_set_size s s1 c n key0 val0 T1 z :
  inserted s s1 c n key0 val0 T1 -> inserted s (set_size s1 z) c n key0 val0 T1.
Proof.
  intros (A1 & A2 & A3 & A4 & A5 & A6 & A7 & A8 & A9 & A10).
  unfold inserted, links_outside, parity_outside, same_links in *. store.
  split; [|auto 12].
  eapply Rep_ext; [|exact A1]. intros q _. unfold same_links. store. auto.
Qed.

Ltac ins_post :=
  unfold inserted, links_outside, parity_outside;
  split; [rep|]; split; [try reflexivity|]; split; [store; auto|];
  split; [store; reflexivity|]; split; [intros q Hq; store; auto|];
  split; [store; reflexivity|]; split; [store; reflexivity|];
  split; [store; reflexivity|];
  split; [ let q := fresh "q" in let Hq := fresh "Hq" in
           intros q Hq; rewrite ptrs_plug in Hq;
           cbn [ptrs before after app] in Hq; repeat nd_step;
           unfold same_links; store; auto
         | let q := fresh "q" in let Hq := fresh "Hq" in
           intros q Hq; rewrite ptrs_plug in Hq;
           cbn [ptrs before after app] in Hq; repeat nd_step;
           store; auto ].

Ltac ins_post2 :=
  unfold inserted, links_outside, parity_outside;
  split; [apply Rep_plug; split; rep|];
  split; [rewrite ptrs_plug; cbn [before after]; ptrs_eq|];
  split; [left; split; [store; reflexivity|cbn [plug]; rewrite !rootp_plug; reflexivity]|];
  split; [store; reflexivity|]; split; [intros q Hq; store; auto|];
  split; [store; reflexivity|]; split; [store; reflexivity|];
  split; [store; reflexivity|];
  split; [ let q := fresh "q" in let Hq := fresh "Hq" in
           intros q Hq; rewrite ptrs_plug in Hq;
           cbn [ptrs before after app] in Hq; repeat nd_step;
           unfold same_links; store; auto
         | let q := fresh "q" in let Hq := fresh "Hq" in
           intros q Hq; rewrite ptrs_plug in Hq;
           cbn [ptrs before after app] in Hq; repeat nd_step;
           store; auto ].

Lemma insertEmpty_ok s c p b key0 val0 ktop :
  NIL_ok s -> at_slot c p b ->
  Rep s NIL (plug c E) ->
  NoDup (ptrs (plug c E)) ->
  (forall q, In q (ptrs (plug c E)) -> (q < st_next s)%nat) ->
  (0 < st_next s)%nat ->
  wavl s (plug c E) ktop ->
  exists s' T1 k',
    insertEmpty s p b key0 val0 = Some (st_next s, s') /\
    inserted s s' c (st_next s) key0 val0 T1 /\
    size s' = size s + 1 /\
    wavl s' T1 k'.
Proof.
  intros HN Hslot HR ND Hb Hn0 Hw.
  pose proof HN as (N1 & N2 & N3 & N4 & N5).
  assert (Hn : st_next s <> NIL) by (unfold NIL; zlia).
  assert (Hfresh : ~ In (st_next s) (ptrs (plug c E))).
  { intros H. apply Hb in H. zlia. }
  assert (Hlen : (length c < st_next s)%nat).
  { eapply Nat.le_lt_trans; [apply ctx_length|].
    apply length_bound; auto.
    - rewrite ptrs_plug in ND. exact ND.
    - intros q Hq. split.
      + apply Rep_not_NIL in HR. rewrite ptrs_plug in HR. cbn [ptrs app] in HR.
        destruct q; [contradiction|zlia].
      + apply Hb. rewrite ptrs_plug. exact Hq. }
  assert (ND' : NoDup (st_next s :: ptrs (plug c E))) by (constructor; auto).
  clear Hb Hfresh ND. rewrite ptrs_plug in ND'.
  apply Rep_plug in HR. destruct HR as [_ HC].
  apply wavl_plug in Hw. destruct Hw as (k0 & Hk0 & Hc). cbn [wavl] in Hk0. subst k0.
  cbv beta delta [insertEmpty insertFixup].
  destruct c as [|[g R|L g] c']; cbn [at_slot] in Hslot;
    cbn [RepC cwavl cparent rootp] in HC, Hc.
  - (* the empty tree *)
    subst p. run.
    exists (set_size (set_root (new_node s key0 val0 NIL) (st_next s)) (size s + 1)),
           (T E (st_next s) E), 0.
    split; [reflexivity|]. nd.
    split; [|split; [store; reflexivity|]].
    + ins_post.
    + cbn [wavl]. exists (-1), (-1). repeat split; try zlia. store. reflexivity.
  - (* a left slot *)
    destruct Hslot as [-> ->].
    destruct HC as (Hg0 & Hgp & Hgl & Hgr & HRR & HC').
    destruct Hc as (kp & kR & HwR & Hd1 & Hd2 & Hp & Hleaf & Hc').
    pose proof (@wavl_ge _ _ s R kR HwR) as HgeR.
    cbv beta iota delta [Branch_eqb].
    destruct R as [|Rl y Rr]; cbn [rootp] in Hgr; nd.
    + (* the parent was a leaf *)
      cbn [wavl] in HwR. subst kR. assert (kp = 0) by zlia. subst kp.
      run.
      set (s1 := set_left (new_node s key0 val0 g) g (st_next s)).
      assert (Hins : inserted s (promote s1 g) (FL g E :: c') (st_next s)
                       key0 val0 (plug c' (T (T E (st_next s) E) g E))).
      { unfold s1, promote. ins_post2. }
      destruct (@insertFixup_loop_ok K V c' (gas s1) (promote s1 g)
                  (T E (st_next s) E) g E 1 0 (-1) ktop)
        as (s' & T1 & k' & E1 & Hfix & Hw').
      { unfold gas, s1. store. cbn [length] in Hlen. zlia. }
      { unfold s1, promote, NIL_ok. store. auto. }
      { unfold s1, promote. rep. }
      { unfold s1, promote. rep. }
      { nd_goal. }
      { cbn [wavl]. exists (-1), (-1). unfold s1, promote. store.
        repeat split; try zlia. }
      { reflexivity. }
      { unfold s1, promote. store. reflexivity. }
      { left; zlia. }
      { replace (1 - 1) with 0 by zlia. unfold s1, promote. wframe. }
      exists (set_size s' (size s' + 1)), T1, k'. rewrite E1.
      split; [reflexivity|]. split; [|split].
      * apply inserted_set_size. eapply inserted_fixed; eauto.
      * store. destruct Hfix as (_ & _ & _ & (Hsz & _) & _). rewrite Hsz.
        store. reflexivity.
      * eapply wavl_ext; [|exact Hw']. intros q _. store. reflexivity.
    + (* the parent has a right child *)
      pose proof (@wavl_T_ge _ _ s Rl y Rr kR HwR) as HR0.
      assert (kp = 1) by zlia. subst kp.
      cbn [Rep] in HRR. destruct HRR as (Hy0 & Hyp & Hyl & Hyr & HRl & HRr).
      run.
      set (s1 := set_left (new_node s key0 val0 g) g (st_next s)).
      exists (set_size s1 (size s + 1)),
             (plug c' (T (T E (st_next s) E) g (T Rl y Rr))), ktop.
      split; [reflexivity|]. split; [|split].
      * apply inserted_set_size. unfold s1. ins_post2.
      * store. reflexivity.
      * apply wavl_plug. exists 1. unfold s1. split; [|wframe].
        apply wavl_node with (kl := 0) (kr := kR); try zlia.
        { apply wavl_leaf. store. reflexivity. }
        { wframe. }
        { store. auto. }
  - (* a right slot *)
    destruct Hslot as [-> ->].
    destruct HC as (Hg0 & Hgp & Hgl & Hgr & HRL & HC').
    destruct Hc as (kp & kL & HwL & Hd1 & Hd2 & Hp & Hleaf & Hc').
    pose proof (@wavl_ge _ _ s L kL HwL) as HgeL.
    cbv beta iota delta [Branch_eqb].
    destruct L as [|Ll y Lr]; cbn [rootp] in Hgl; nd.
    + (* the parent was a leaf *)
      cbn [wavl] in HwL. subst kL. assert (kp = 0) by zlia. subst kp.
      run.
      set (s1 := set_right (new_node s key0 val0 g) g (st_next s)).
      assert (Hins : inserted s (promote s1 g) (FR E g :: c') (st_next s)
                       key0 val0 (plug c' (T E g (T E (st_next s) E)))).
      { unfold s1, promote. ins_post2. }
      destruct (@insertFixup_loop_ok K V c' (gas s1) (promote s1 g)
                  E g (T E (st_next s) E) 1 (-1) 0 ktop)
        as (s' & T1 & k' & E1 & Hfix & Hw').
      { unfold gas, s1. store. cbn [length] in Hlen. zlia. }
      { unfold s1, promote, NIL_ok. store. auto. }
      { unfold s1, promote. rep. }
      { unfold s1, promote. rep. }
      { nd_goal. }
      { reflexivity. }
      { cbn [wavl]. exists (-1), (-1). unfold s1, promote. store.
        repeat split; try zlia. }
      { unfold s1, promote. store. reflexivity. }
      { right; zlia. }
      { replace (1 - 1) with 0 by zlia. unfold s1, promote. wframe. }
      exists (set_size s' (size s' + 1)), T1, k'. rewrite E1.
      split; [reflexivity|]. split; [|split].
      * apply inserted_set_size. eapply inserted_fixed; eauto.
      * store. destruct Hfix as (_ & _ & _ & (Hsz & _) & _). rewrite Hsz.
        store. reflexivity.
      * eapply wavl_ext; [|exact Hw']. intros q _. store. reflexivity.
    + (* the parent has a left child *)
      pose proof (@wavl_T_ge _ _ s Ll y Lr kL HwL) as HL0.
      assert (kp = 1) by zlia. subst kp.
      cbn [Rep] in HRL. destruct HRL as (Hy0 & Hyp & Hyl & Hyr & HRl & HRr).
      run.
      set (s1 := set_right (new_node s key0 val0 g) g (st_next s)).
      exists (set_size s1 (size s + 1)),
             (plug c' (T (T Ll y Lr) g (T E (st_next s) E))), ktop.
      split; [reflexivity|]. split; [|split].
      * apply inserted_set_size. unfold s1. ins_post2.
      * store. reflexivity.
      * apply wavl_plug. exists 1. unfold s1. split; [|wframe].
        apply wavl_node with (kl := kL) (kr := 0); try zlia.
        { wframe. }
        { apply wavl_leaf. store. reflexivity. }
        { store. auto. }
Qed.

End InsertEmpty.

(** Parity and rank goals after promotions and demotions alone. *)
Ltac par_goal0 :=
  unfold promote, demote; store;
  rewrite ?flip_flip, ?flip_par_succ; apply par_eq_even;
  first [exists 0; zlia | exists 1; zlia | exists (-1); zlia].

Ltac wset :=
  unfold promote, demote;
  repeat first
    [ apply wavl_set_parity; [first [assumption | cbn [ptrs]; rewrite ?in_app_iff; simpl; tauto]|]
    | apply cwavl_set_parity; [rewrite ?in_app_iff; simpl; tauto|] ];
  assumption.

Section RemoveFixup.

Variables K V : Type.
Implicit Types (s : state K V) (p q : ptr) (t l r : tree) (c : ctx) (k : Z).

Lemma removeFixup_loop_ok c : forall fuel s t kh ktop,
  (length c < fuel)%nat ->
  NIL_ok s ->
  Rep s (cparent NIL c) t ->
  RepC s NIL c (rootp t) ->
  NoDup (before c ++ ptrs t ++ after c) ->
  wavl s t kh ->
  cwavl s c (kh + 1) ktop ->
  leaf_free c t ->
  fixup_post s (plug c t)
    (removeFixup_loop fuel s (cparent NIL c) (rootp t)).
Proof.
  induction c as [|[p R|L p] c' IH];
    intros fuel s t kh ktop Hfuel HN HR HC ND Ht Hc Hlf;
    (destruct fuel as [|f]; [simpl in Hfuel; zlia|]);
    pose proof HR as HR0; pose proof ND as ND0;
    pose proof (@wavl_parity _ _ s t kh HN Ht) as Hpt;
    pose proof (@wavl_ge _ _ s t kh Ht) as Hget;
    cbn [RepC rootp cparent cwavl] in HC, Hc;
    cbn [removeFixup_loop cparent].
  - (* at the root *)
    store. exists s, t, kh. split; [reflexivity|].
    split; [apply fixed_refl; exact HR0|]. exact Ht.
  - (* the hole is the left child of [p] *)
    destruct HC as (Hp0 & Hpp & Hpl & Hpr & HRR & HC').
    destruct Hc as (kp & kR & HwR & Hd1 & Hd2 & Hp & Hleaf & Hc').
    pose proof (@wavl_parity _ _ s R kR HN HwR) as HpR.
    pose proof (@wavl_ge _ _ s R kR HwR) as HgeR.
    assert (HRt : Rep s (cparent NIL c') (T t p R)).
    { cbn [Rep rootp]. repeat split; auto. }
    assert (NDt : kept (NoDup (before c' ++ ptrs (T t p R) ++ after c'))).
    { unfold kept. rewrite <- ptrs_plug in ND0 |- *. exact ND0. }
    clear ND0. revert IH. nd. intros IH.
    store. par_split; store.
    + (* rank difference 2: done *)
      exists s, (plug c' (T t p R)), ktop. split; [reflexivity|].
      split; [apply fixed_refl, Rep_plug; auto|].
      apply wavl_plug. exists kp. split; auto.
      apply wavl_node with (kl := kh) (kr := kR); auto; try zlia.
      intros -> ->. apply wavl_m1 in Ht, HwR. exfalso. exact (Hlf Ht HwR).
    + (* rank difference 3 *)
      par_split; store.
      * (* the sibling is two below: demote and ascend *)
        apply fixup_post_trans with (s1 := demote s p) (T0' := plug c' (T t p R)).
        { unfold demote. apply fixed_set_parity with (t := plug c' (T t p R)).
          - apply Rep_plug. split; auto.
          - in_solve. }
        replace (parent (node (demote s p) p)) with (cparent NIL c')
          by (unfold demote; store; reflexivity).
        apply (IH f (demote s p) (T t p R) (kp - 1) ktop).
        -- simpl in Hfuel; zlia.
        -- apply NIL_ok_set_parity; auto.
        -- apply Rep_set_parity; exact HRt.
        -- apply RepC_set_parity; exact HC'.
        -- exact NDt.
        -- apply wavl_node with (kl := kh) (kr := kR); try zlia.
           ++ apply wavl_set_parity; auto.
           ++ apply wavl_set_parity; auto.
           ++ unfold demote. store. apply flip_par_pred.
        -- replace (kp - 1 + 1) with kp by zlia.
           apply cwavl_set_parity; auto. rewrite in_app_iff; tauto.
        -- intros HE; discriminate HE.
      * (* the sibling is one below *)
        destruct R as [|nl sb nr].
        { cbn [wavl] in HwR. zlia. }
        cbn [wavl] in HwR.
        destruct HwR as (knl & knr & Hnl & Hnr & Hs1 & Hs2 & Hsb & Hsl).
        pose proof (@wavl_parity _ _ s nl knl HN Hnl) as Hpnl.
        pose proof (@wavl_parity _ _ s nr knr HN Hnr) as Hpnr.
        cbn [Rep rootp] in HRR.
        destruct HRR as (Hsb0 & Hsbp & Hsbl & Hsbr & HRnl & HRnr).
        cbn [rootp] in *. revert IH. nd. intros IH.
        store. par_split; store.
        -- (* the far nephew is two below *)
           par_split; store.
           ++ (* so is the near one: demote both and ascend *)
              replace (parent (node (demote (demote s sb) p) p)) with (cparent NIL c')
                by (unfold demote; store; reflexivity).
              apply fixup_post_trans with (s1 := demote (demote s sb) p)
                                          (T0' := plug c' (T t p (T nl sb nr))).
              { unfold demote. repeat (apply fixed_set_parity_r; [|in_solve]).
                apply fixed_refl, Rep_plug. split; auto. }
              apply (IH f (demote (demote s sb) p) (T t p (T nl sb nr)) (kp - 1) ktop).
              ** simpl in Hfuel; zlia.
              ** unfold demote. repeat apply NIL_ok_set_parity; auto.
              ** unfold demote. repeat apply Rep_set_parity. exact HRt.
              ** unfold demote. repeat apply RepC_set_parity. exact HC'.
              ** exact NDt.
              ** apply wavl_node with (kl := kh) (kr := kR - 1); try zlia.
                 { wset. }
                 { apply wavl_node with (kl := knl) (kr := knr); try zlia.
                   - wset.
                   - wset.
                   - par_goal0. }
                 { par_goal0. }
              ** replace (kp - 1 + 1) with kp by zlia. wset.
              ** intros HE; discriminate HE.
           ++ (* the near nephew is one below: double rotation *)
              destruct nl as [|a y b].
              { cbn [wavl] in Hnl. zlia. }
              cbn [wavl] in Hnl.
              destruct Hnl as (ka & kb & Ha & Hb & Hy1 & Hy2 & Hy & Hyl).
              cbn [rootp]. clear IH. nd.
              pose proof (rotateRightLeft_ok c' HRt HC' NDt) as Hrot.
              exists (demote (rotateRightLeft s p sb y) sb),
                     (plug c' (T (T t p a) y (T b sb nr))), ktop.
              split; [reflexivity|]. split.
              ** unfold promote, demote.
                 repeat (apply fixed_set_parity_r; [|in_solve]).
                 apply (rotated_fixed Hrot). ptrs_eq.
              ** apply wavl_plug. exists kp. split; [|wsolve Hrot].
                 apply wavl_node with (kl := kp - 2) (kr := kp - 2); try zlia.
                 { apply wavl_node with (kl := kh) (kr := ka); try zlia.
                   - wsolve Hrot.
                   - wsolve Hrot.
                   - par_goal Hrot. }
                 { apply wavl_node with (kl := kb) (kr := knr); try zlia.
                   - wsolve Hrot.
                   - wsolve Hrot.
                   - par_goal Hrot. }
                 { par_goal Hrot. }
        -- (* the far nephew is one below: single rotation *)
           clear IH.
           pose proof (rotateLeft_ok c' HRt HC' NDt) as Hrot.
           pose proof Hrot as (HRn & _).
           cbn [Rep rootp] in HRn.
           destruct HRn as (_ & _ & _ & _ & (_ & _ & Hnpl & Hnpr & _) & _).
           unfold promote at 1 2. store. rewrite ?Hnpl, ?Hnpr.
           assert (Hfx : forall s2 (Hs2 : s2 = demote (promote (rotateLeft s p sb) sb) p \/
                                      s2 = promote (rotateLeft s p sb) sb),
                     fixed s s2 (plug c' (T t p (T nl sb nr)))
                                (plug c' (T (T t p nl) sb nr))).
           { intros s2 [->| ->]; unfold promote, demote;
               repeat (apply fixed_set_parity_r; [|in_solve]);
               apply (rotated_fixed Hrot); ptrs_eq. }
           destruct (Nat.eqb (rootp t) NIL) eqn:Et; [destruct (Nat.eqb (rootp nl) NIL) eqn:En|];
             cbn [negb orb].
           ++ (* [p] becomes a leaf *)
              assert (t = E) by (destruct t; [reflexivity|]; cbn [rootp] in Et;
                                 apply Nat.eqb_eq in Et; cbn [Rep] in HR0; tauto).
              assert (nl = E) by (destruct nl; [reflexivity|]; cbn [rootp] in En;
                                  apply Nat.eqb_eq in En; cbn [Rep] in HRnl; tauto).
              subst t nl. cbn [wavl] in Ht, Hnl. subst kh knl.
              exists (promote (rotateLeft s p sb) sb),
                     (plug c' (T (T E p E) sb nr)), ktop.
              split; [reflexivity|]. split; [apply Hfx; auto|].
              apply wavl_plug. exists kp. split; [|wsolve Hrot].
              apply wavl_node with (kl := kp - 2) (kr := knr); try zlia.
              { apply wavl_node with (kl := -1) (kr := -1); cbn [wavl]; try zlia; auto.
                par_goal Hrot. }
              { wsolve Hrot. }
              { par_goal Hrot. }
           ++ (* [p] keeps its right child *)
              assert (knl <> -1).
              { intros ->. apply wavl_m1 in Hnl. subst nl. cbn [rootp] in En.
                discriminate En. }
              exists (demote (promote (rotateLeft s p sb) sb) p),
                     (plug c' (T (T t p nl) sb nr)), ktop.
              split; [reflexivity|]. split; [apply Hfx; auto|].
              apply wavl_plug. exists kp. split; [|wsolve Hrot].
              apply wavl_node with (kl := kp - 1) (kr := knr); try zlia.
              { apply wavl_node with (kl := kh) (kr := knl); try zlia.
                - wsolve Hrot.
                - wsolve Hrot.
                - par_goal Hrot. }
              { wsolve Hrot. }
              { par_goal Hrot. }
           ++ (* [p] keeps its left child *)
              assert (kh <> -1).
              { intros ->. apply wavl_m1 in Ht. subst t. cbn [rootp] in Et.
                discriminate Et. }
              exists (demote (promote (rotateLeft s p sb) sb) p),
                     (plug c' (T (T t p nl) sb nr)), ktop.
              split; [reflexivity|]. split; [apply Hfx; auto|].
              apply wavl_plug. exists kp. split; [|wsolve Hrot].
              apply wavl_node with (kl := kp - 1) (kr := knr); try zlia.
              { apply wavl_node with (kl := kh) (kr := knl); try zlia.
                - wsolve Hrot.
                - wsolve Hrot.
                - par_goal Hrot. }
              { wsolve Hrot. }
              { par_goal Hrot. }
  - (* the hole is the right child of [p] *)
    destruct HC as (Hp0 & Hpp & Hpl & Hpr & HRL & HC').
    destruct Hc as (kp & kL & HwL & Hd1 & Hd2 & Hp & Hleaf & Hc').
    pose proof (@wavl_parity _ _ s L kL HN HwL) as HpL.
    pose proof (@wavl_ge _ _ s L kL HwL) as HgeL.
    assert (HRt : Rep s (cparent NIL c') (T L p t)).
    { cbn [Rep rootp]. repeat split; auto. }
    assert (NDt : kept (NoDup (before c' ++ ptrs (T L p t) ++ after c'))).
    { unfold kept. rewrite <- ptrs_plug in ND0 |- *. exact ND0. }
    clear ND0. revert IH. nd. intros IH.
    store. par_split; store.
    + (* rank difference 2: done *)
      exists s, (plug c' (T L p t)), ktop. split; [reflexivity|].
      split; [apply fixed_refl, Rep_plug; auto|].
      apply wavl_plug. exists kp. split; auto.
      apply wavl_node with (kl := kL) (kr := kh); auto; try zlia.
      intros -> ->. apply wavl_m1 in Ht, HwL. exfalso. exact (Hlf Ht HwL).
    + (* rank difference 3 *)
      assert (Hne : rootp L <> rootp t).
      { destruct L as [|La lp Lb]; [cbn [wavl] in HwL; zlia|].
        destruct t as [|ta tp tb]; cbn [rootp].
        - apply HRL.
        - nd. auto. }
      rewrite (neqb Hne). store.
      par_split; store.
      * (* the sibling is two below: demote and ascend *)
        replace (parent (node (demote s p) p)) with (cparent NIL c')
          by (unfold demote; store; reflexivity).
        apply fixup_post_trans with (s1 := demote s p) (T0' := plug c' (T L p t)).
        { unfold demote. apply fixed_set_parity with (t := plug c' (T L p t)).
          - apply Rep_plug. split; auto.
          - in_solve. }
        apply (IH f (demote s p) (T L p t) (kp - 1) ktop).
        -- simpl in Hfuel; zlia.
        -- apply NIL_ok_set_parity; auto.
        -- apply Rep_set_parity; exact HRt.
        -- apply RepC_set_parity; exact HC'.
        -- exact NDt.
        -- apply wavl_node with (kl := kL) (kr := kh); try zlia.
           ++ apply wavl_set_parity; auto.
           ++ apply wavl_set_parity; auto.
           ++ unfold demote. store. apply flip_par_pred.
        -- replace (kp - 1 + 1) with kp by zlia.
           apply cwavl_set_parity; auto. rewrite in_app_iff; tauto.
        -- intros HE; discriminate HE.
      * (* the sibling is one below *)
        destruct L as [|nl sb nr].
        { cbn [wavl] in HwL. zlia. }
        cbn [wavl] in HwL.
        destruct HwL as (knl & knr & Hnl & Hnr & Hs1 & Hs2 & Hsb & Hsl).
        pose proof (@wavl_parity _ _ s nl knl HN Hnl) as Hpnl.
        pose proof (@wavl_parity _ _ s nr knr HN Hnr) as Hpnr.
        cbn [Rep rootp] in HRL.
        destruct HRL as (Hsb0 & Hsbp & Hsbl & Hsbr & HRnl & HRnr).
        cbn [rootp] in *. revert IH. nd. intros IH.
        store. par_split; store.
        -- (* the far nephew is two below *)
           par_split; store.
           ++ (* so is the near one: demote both and ascend *)
              replace (parent (node (demote (demote s sb) p) p)) with (cparent NIL c')
                by (unfold demote; store; reflexivity).
              apply fixup_post_trans with (s1 := demote (demote s sb) p)
                                          (T0' := plug c' (T (T nl sb nr) p t)).
              { unfold demote. repeat (apply fixed_set_parity_r; [|in_solve]).
                apply fixed_refl, Rep_plug. split; auto. }
              apply (IH f (demote (demote s sb) p) (T (T nl sb nr) p t) (kp - 1) ktop).
              ** simpl in Hfuel; zlia.
              ** unfold demote. repeat apply NIL_ok_set_parity; auto.
              ** unfold demote. repeat apply Rep_set_parity. exact HRt.
              ** unfold demote. repeat apply RepC_set_parity. exact HC'.
              ** exact NDt.
              ** apply wavl_node with (kl := kL - 1) (kr := kh); try zlia.
                 { apply wavl_node with (kl := knl) (kr := knr); try zlia.
                   - wset.
                   - wset.
                   - par_goal0. }
                 { wset. }
                 { par_goal0. }
              ** replace (kp - 1 + 1) with kp by zlia. wset.
              ** intros HE; discriminate HE.
           ++ (* the near nephew is one below: double rotation *)
              destruct nr as [|a y b].
              { cbn [wavl] in Hnr. zlia. }
              cbn [wavl] in Hnr.
              destruct Hnr as (ka & kb & Ha & Hb & Hy1 & Hy2 & Hy & Hyl).
              cbn [rootp]. clear IH. nd.
              pose proof (rotateLeftRight_ok c' HRt HC' NDt) as Hrot.
              exists (demote (rotateLeftRight s p sb y) sb),
                     (plug c' (T (T nl sb a) y (T b p t))), ktop.
              split; [reflexivity|]. split.
              ** unfold promote, demote.
                 repeat (apply fixed_set_parity_r; [|in_solve]).
                 apply (rotated_fixed Hrot). ptrs_eq.
              ** apply wavl_plug. exists kp. split; [|wsolve Hrot].
                 apply wavl_node with (kl := kp - 2) (kr := kp - 2); try zlia.
                 { apply wavl_node with (kl := knl) (kr := ka); try zlia.
                   - wsolve Hrot.
                   - wsolve Hrot.
                   - par_goal Hrot. }
                 { apply wavl_node with (kl := kb) (kr := kh); try zlia.
                   - wsolve Hrot.
                   - wsolve Hrot.
                   - par_goal Hrot. }
                 { par_goal Hrot. }
        -- (* the far nephew is one below: single rotation *)
           clear IH.
           pose proof (rotateRight_ok c' HRt HC' NDt) as Hrot.
           pose proof Hrot as (HRn & _).
           cbn [Rep rootp] in HRn.
           destruct HRn as (_ & _ & _ & _ & _ & (_ & _ & Hnpl & Hnpr & _)).
           unfold promote at 1 2. store. rewrite ?Hnpl, ?Hnpr.
           assert (Hfx : forall s2 (Hs2 : s2 = demote (promote (rotateRight s p sb) sb) p \/
                                      s2 = promote (rotateRight s p sb) sb),
                     fixed s s2 (plug c' (T (T nl sb nr) p t))
                                (plug c' (T nl sb (T nr p t)))).
           { intros s2 [->| ->]; unfold promote, demote;
               repeat (apply fixed_set_parity_r; [|in_solve]);
               apply (rotated_fixed Hrot); ptrs_eq. }
           destruct (Nat.eqb (rootp nr) NIL) eqn:En; [destruct (Nat.eqb (rootp t) NIL) eqn:Et|];
             cbn [negb orb].
           ++ (* [p] becomes a leaf *)
              assert (t = E) by (destruct t; [reflexivity|]; cbn [rootp] in Et;
                                 apply Nat.eqb_eq in Et; cbn [Rep] in HR0; tauto).
              assert (nr = E) by (destruct nr; [reflexivity|]; cbn [rootp] in En;
                                  apply Nat.eqb_eq in En; cbn [Rep] in HRnr; tauto).
              subst t nr. cbn [wavl] in Ht, Hnr. subst kh knr.
              exists (promote (rotateRight s p sb) sb),
                     (plug c' (T nl sb (T E p E))), ktop.
              split; [reflexivity|]. split; [apply Hfx; auto|].
              apply wavl_plug. exists kp. split; [|wsolve Hrot].
              apply wavl_node with (kl := knl) (kr := kp - 2); try zlia.
              { wsolve Hrot. }
              { apply wavl_node with (kl := -1) (kr := -1); cbn [wavl]; try zlia; auto.
                par_goal Hrot. }
              { par_goal Hrot. }
           ++ (* [p] keeps its right child *)
              assert (kh <> -1).
              { intros ->. apply wavl_m1 in Ht. subst t. cbn [rootp] in Et.
                discriminate Et. }
              exists (demote (promote (rotateRight s p sb) sb) p),
                     (plug c' (T nl sb (T nr p t))), ktop.
              split; [reflexivity|]. split; [apply Hfx; auto|].
              apply wavl_plug. exists kp. split; [|wsolve Hrot].
              apply wavl_node with (kl := knl) (kr := kp - 1); try zlia.
              { wsolve Hrot. }
              { apply wavl_node with (kl := knr) (kr := kh); try zlia.
                - wsolve Hrot.
                - wsolve Hrot.
                - par_goal Hrot. }
              { par_goal Hrot. }
           ++ (* [p] keeps its left child *)
              assert (knr <> -1).
              { intros ->. apply wavl_m1 in Hnr. subst nr. cbn [rootp] in En.
                discriminate En. }
              exists (demote (promote (rotateRight s p sb) sb) p),
                     (plug c' (T nl sb (T nr p t))), ktop.
              split; [reflexivity|]. split; [apply Hfx; auto|].
              apply wavl_plug. exists kp. split; [|wsolve Hrot].
              apply wavl_node with (kl := knl) (kr := kp - 1); try zlia.
              { wsolve Hrot. }
              { apply wavl_node with (kl := knr) (kr := kh); try zlia.
                - wsolve Hrot.
                - wsolve Hrot.
                - par_goal Hrot. }
              { par_goal Hrot. }
Qed.

End RemoveFixup.

Section RemoveFixupEntry.

Variables K V : Type.
Implicit Types (s : state K V) (p q : ptr) (t l r : tree) (c : ctx) (k : Z).

(** [removeFixup] called on the parent of a hole whose rank has dropped
    by one. *)
Lemma removeFixup_ok fr c' s t kh ktop :
  (length (fr :: c') < gas s)%nat ->
  NIL_ok s ->
  Rep s (cparent NIL (fr :: c')) t ->
  RepC s NIL (fr :: c') (rootp t) ->
  NoDup (before (fr :: c') ++ ptrs t ++ after (fr :: c')) ->
  wavl s t kh ->
  cwavl s (fr :: c') (kh + 1) ktop ->
  fixup_post s (plug (fr :: c') t)
    (removeFixup s (cparent NIL (fr :: c')) (rootp t)).
Proof.
  intros Hfuel HN HR HC ND Ht Hc.
  assert (Hloop : leaf_free (fr :: c') t ->
            fixup_post s (plug (fr :: c') t)
              (removeFixup_loop (gas s) s (cparent NIL (fr :: c')) (rootp t))).
  { intros Hlf. apply removeFixup_loop_ok with (kh := kh) (ktop := ktop); auto. }
  pose proof HC as HC0. pose proof Hc as Hc0. pose proof ND as ND0.
  unfold removeFixup.
  destruct fr as [p R|L p]; cbn [cparent RepC cwavl] in HC, Hc |- *.
  - destruct HC as (Hp0 & Hpp & Hpl & Hpr & HRR & HC').
    destruct Hc as (kp & kR & HwR & Hd1 & Hd2 & Hp & Hleaf & Hc').
    pose proof (@wavl_ge _ _ s R kR HwR) as HgeR.
    assert (HRt : Rep s (cparent NIL c') (T t p R))
      by (cbn [Rep rootp]; repeat split; auto).
    destruct t as [|ta tp tb]; cbn [rootp] in *.
    + cbn [wavl] in Ht. subst kh.
      assert (Hk : kp = 1 \/ kp = 2) by zlia.
      store. destruct Hk as [-> | ->].
      * change (par 1) with One. cbn [parity_eqb andb]. store.
        destruct R as [|Ra rp Rb]; cbn [rootp] in *.
        -- store. cbn [negb].
           unfold gas, demote. store.
           apply fixup_post_trans with (s1 := set_parity s p (flip (par 1)))
                                       (T0' := plug c' (T E p E)).
           { apply fixed_set_parity with (t := plug c' (T E p E)).
             - apply Rep_plug. cbn [Rep rootp]. repeat split; auto.
             - in_solve. }
           change (flip (par 1)) with Zero.
           apply (@removeFixup_loop_ok _ _ c' (S (st_next s)) (set_parity s p Zero)
                    (T E p E) 0 ktop).
           ++ simpl in Hfuel. unfold gas in Hfuel. zlia.
           ++ apply NIL_ok_set_parity; auto.
           ++ apply Rep_set_parity. cbn [Rep rootp]. repeat split; auto.
           ++ apply RepC_set_parity. exact HC'.
           ++ rewrite <- ptrs_plug in ND0 |- *. exact ND0.
           ++ apply wavl_leaf. store. reflexivity.
           ++ apply cwavl_set_parity; auto.
              cbn [before after ptrs app] in ND0. nd. rewrite in_app_iff. tauto.
           ++ intros HE; discriminate HE.
        -- assert (Hrp0 : rp <> NIL) by (cbn [Rep] in HRR; tauto).
           store. cbn [negb].
           exists s, (plug c' (T E p (T Ra rp Rb))), ktop. split; [reflexivity|].
           split; [apply fixed_refl, Rep_plug; split; [exact HRt | exact HC']|].
           apply wavl_plug. exists 1. split; auto.
           apply wavl_node with (kl := -1) (kr := kR); cbn [wavl]; auto; try zlia.
           intros _ ->. cbn [wavl] in HwR. destruct HwR as (? & ? & ? & ? & ? & ? & ? & ?).
           pose proof (@wavl_ge _ _ s Ra _ H). zlia.
      * change (par 2) with Zero. cbn [parity_eqb andb].
        apply Hloop. intros _ ->. cbn [wavl] in HwR. zlia.
    + assert (Htp0 : tp <> NIL) by (cbn [Rep] in HR; tauto).
      store. cbn [andb].
      apply Hloop. intros HE; discriminate HE.
  - destruct HC as (Hp0 & Hpp & Hpl & Hpr & HRL & HC').
    destruct Hc as (kp & kL & HwL & Hd1 & Hd2 & Hp & Hleaf & Hc').
    pose proof (@wavl_ge _ _ s L kL HwL) as HgeL.
    assert (HRt : Rep s (cparent NIL c') (T L p t))
      by (cbn [Rep rootp]; repeat split; auto).
    destruct t as [|ta tp tb]; cbn [rootp] in *.
    + cbn [wavl] in Ht. subst kh.
      assert (Hk : kp = 1 \/ kp = 2) by zlia.
      store. destruct Hk as [-> | ->].
      * change (par 1) with One. cbn [parity_eqb andb]. store.
        destruct L as [|La lp Lb]; cbn [rootp] in *.
        -- store. cbn [negb].
           unfold gas, demote. store.
           apply fixup_post_trans with (s1 := set_parity s p (flip (par 1)))
                                       (T0' := plug c' (T E p E)).
           { apply fixed_set_parity with (t := plug c' (T E p E)).
             - apply Rep_plug. cbn [Rep rootp]. repeat split; auto.
             - in_solve. }
           change (flip (par 1)) with Zero.
           apply (@removeFixup_loop_ok _ _ c' (S (st_next s)) (set_parity s p Zero)
                    (T E p E) 0 ktop).
           ++ simpl in Hfuel. unfold gas in Hfuel. zlia.
           ++ apply NIL_ok_set_parity; auto.
           ++ apply Rep_set_parity. cbn [Rep rootp]. repeat split; auto.
           ++ apply RepC_set_parity. exact HC'.
           ++ rewrite <- ptrs_plug in ND0 |- *. exact ND0.
           ++ apply wavl_leaf. store. reflexivity.
           ++ apply cwavl_set_parity; auto.
              cbn [before after ptrs app] in ND0. nd. rewrite in_app_iff. tauto.
           ++ intros HE; discriminate HE.
        -- assert (Hlp0 : lp <> NIL) by (cbn [Rep] in HRL; tauto).
           store. cbn [negb].
           exists s, (plug c' (T (T La lp Lb) p E)), ktop. split; [reflexivity|].
           split; [apply fixed_refl, Rep_plug; split; [exact HRt | exact HC']|].
           apply wavl_plug. exists 1. split; auto.
           apply wavl_node with (kl := kL) (kr := -1); cbn [wavl]; auto; try zlia.
           intros ->. cbn [wavl] in HwL. destruct HwL as (? & ? & ? & ? & ? & ? & ? & ?).
           pose proof (@wavl_ge _ _ s La _ H). zlia.
      * change (par 2) with Zero. cbn [parity_eqb andb].
        apply Hloop. intros _ ->. cbn [wavl] in HwL. zlia.
    + assert (Htp0 : tp <> NIL) by (cbn [Rep] in HR; tauto).
      store. cbn [andb].
      apply Hloop. intros HE; discriminate HE.
Qed.

End RemoveFixupEntry.

(** * Contexts in two parts, and right spines *)

Lemma spine_app c1 c2 : spine c1 -> spine c2 -> spine (c1 ++ c2).
Proof.
  induction c1 as [|[p r|l p] c1 IH]; simpl; auto; tauto.
Qed.

Lemma after_spine c : spine c -> after c = [].
Proof.
  induction c as [|[p r|l p] c IH]; simpl; auto; tauto.
Qed.

Lemma before_app c1 c2 : before (c1 ++ c2) = before c2 ++ before c1.
Proof.
  induction c1 as [|[p r|l p] c1 IH]; simpl; auto.
  - now rewrite app_nil_r.
  - now rewrite IH, <- app_assoc.
Qed.

Lemma after_app c1 c2 : after (c1 ++ c2) = after c1 ++ after c2.
Proof.
  induction c1 as [|[p r|l p] c1 IH]; simpl; auto.
  now rewrite IH, <- app_assoc.
Qed.

Lemma cparent_app top c1 c2 :
  cparent top (c1 ++ c2) = cparent (cparent top c2) c1.
Proof. destruct c1 as [|[p r|l p] c1]; reflexivity. Qed.

Lemma cparent_irrel top top' c : c <> [] -> cparent top c = cparent top' c.
Proof. destruct c as [|[p r|l p] c]; [congruence|reflexivity|reflexivity]. Qed.

Lemma croot_irrel h h' c : c <> [] -> croot c h = croot c h'.
Proof. destruct c as [|[p r|l p] c]; [congruence|reflexivity|reflexivity]. Qed.

Lemma croot_app c1 c2 h : croot (c1 ++ c2) h = croot c2 (croot c1 h).
Proof.
  revert h; induction c1 as [|[p r|l p] c1 IH]; intros h; simpl; auto.
Qed.

Lemma croot_in c h : c <> [] -> In (croot c h) (before c ++ after c).
Proof.
  revert h; induction c as [|[p r|l p] c IH]; intros h Hc; [congruence| |].
  - cbn [croot before after]. destruct c as [|f c].
    + simpl. auto.
    + specialize (IH p). rewrite in_app_iff in *. simpl. rewrite in_app_iff.
      destruct IH as [H|H]; [discriminate| |]; auto.
  - cbn [croot before after]. destruct c as [|f c].
    + simpl. rewrite !in_app_iff. simpl. auto.
    + specialize (IH p). rewrite !in_app_iff in *. simpl.
      destruct IH as [H|H]; [discriminate| |]; auto.
Qed.

Section Contexts.

Variables K V : Type.
Implicit Types (s : state K V) (p q : ptr) (t l r : tree) (c : ctx) (k : Z).

Lemma RepC_app s top c1 c2 : forall h,
  RepC s top (c1 ++ c2) h <->
  RepC s (cparent top c2) c1 h /\ RepC s top c2 (croot c1 h).
Proof.
  induction c1 as [|[p r|l p] c1 IH]; intros h; cbn [app RepC croot].
  - tauto.
  - rewrite IH, cparent_app. tauto.
  - rewrite IH, cparent_app. tauto.
Qed.

Lemma cwavl_app s c1 c2 : forall k ktop,
  cwavl s (c1 ++ c2) k ktop <->
  exists km, cwavl s c1 k km /\ cwavl s c2 km ktop.
Proof.
  induction c1 as [|[p r|l p] c1 IH]; intros k ktop; cbn [app cwavl].
  - split; [intros H; exists k; auto | intros (km & -> & H); exact H].
  - split.
    + intros (kp & kr & H1 & H2 & H3 & H4 & H5 & H6).
      apply IH in H6. destruct H6 as (km & H6 & H7).
      exists km; split; auto. exists kp, kr; auto 10.
    + intros (km & (kp & kr & H1 & H2 & H3 & H4 & H5 & H6) & H7).
      exists kp, kr. repeat split; auto; try tauto. apply IH. exists km; auto.
  - split.
    + intros (kp & kr & H1 & H2 & H3 & H4 & H5 & H6).
      apply IH in H6. destruct H6 as (km & H6 & H7).
      exists km; split; auto. exists kp, kr; auto 10.
    + intros (km & (kp & kr & H1 & H2 & H3 & H4 & H5 & H6) & H7).
      exists kp, kr. repeat split; auto; try tauto. apply IH. exists km; auto.
Qed.

(** The context [c] hung under a new parent: only the parent link of its
    topmost node changes. *)
Lemma RepC_retop s s' top top' c : forall h,
  c <> [] ->
  NoDup (before c ++ after c) ->
  RepC s top c h ->
  (forall q, In q (before c ++ after c) ->
     left (node s' q) = left (node s q) /\
     right (node s' q) = right (node s q)) ->
  (forall q, In q (before c ++ after c) -> q <> croot c h ->
     parent (node s' q) = parent (node s q)) ->
  parent (node s' (croot c h)) = top' ->
  RepC s' top' c h.
Proof.
  induction c as [|f c IH]; intros h Hne ND HC Hlr Hpar Htop; [congruence|].
  destruct c as [|f' c'].
  - (* the topmost frame *)
    destruct f as [p r|l p]; cbn [RepC croot cparent before after app] in *;
      destruct HC as (Hp & H1 & H2 & H3 & Hr & _);
      (destruct (Hlr p) as (E2 & E3); [in_solve|]);
      rewrite E2, E3; repeat split; auto.
    + eapply Rep_ext; [|exact Hr]. intros q Hq.
      destruct (Hlr q) as (F2 & F3); [in_solve|].
      repeat split; auto. apply Hpar; [in_solve|].
      nd. ne_solve.
    + eapply Rep_ext; [|exact Hr]. intros q Hq.
      destruct (Hlr q) as (F2 & F3); [in_solve|].
      repeat split; auto. apply Hpar; [in_solve|].
      nd. ne_solve.
  - (* a frame below it *)
    remember (f' :: c') as c eqn:Ec.
    assert (Hc : c <> []) by (subst c; congruence). clear Ec.
    pose proof (croot_in (cparent top (f :: c)) Hc) as Hin.
    destruct f as [p r|l p]; cbn [RepC croot cparent before after] in *;
      destruct HC as (Hp & H1 & H2 & H3 & Hr & HC);
      (destruct (Hlr p) as (E2 & E3); [in_solve|]);
      (assert (Hpq : p <> croot c p)
        by (intros E0; rewrite <- E0 in Hin; nd; in_split Hin; tauto));
      (assert (ND' : NoDup (before c ++ after c)) by (nd; nd_goal));
      rewrite E2, E3, (Hpar p), (cparent_irrel top' top Hc); [|in_solve|exact Hpq| |in_solve|exact Hpq].
    + repeat split; auto.
      * eapply Rep_ext; [|exact Hr]. intros q Hq.
        destruct (Hlr q) as (F2 & F3); [in_solve|].
        repeat split; auto. apply Hpar; [in_solve|].
        intros ->. nd. in_split Hin;
          match goal with
          | D : disj ?l1 ?l2, A1 : In ?a ?l1, A2 : In ?a ?l2 |- _ => exact (D a A1 A2)
          end.
      * apply IH; auto.
        -- intros q Hq. apply Hlr. in_split Hq; in_solve.
        -- intros q Hq Hne'. apply Hpar; auto. in_split Hq; in_solve.
    + repeat split; auto.
      * eapply Rep_ext; [|exact Hr]. intros q Hq.
        destruct (Hlr q) as (F2 & F3); [in_solve|].
        repeat split; auto. apply Hpar; [in_solve|].
        intros ->. nd. in_split Hin;
          match goal with
          | D : disj ?l1 ?l2, A1 : In ?a ?l1, A2 : In ?a ?l2 |- _ => exact (D a A1 A2)
          end.
      * apply IH; auto.
        -- intros q Hq. apply Hlr. in_split Hq; in_solve.
        -- intros q Hq Hne'. apply Hpar; auto. in_split Hq; in_solve.
Qed.

(** The largest node of a subtree sits at the end of its right spine,
    where [maximum] finds it. *)
Lemma maximum_decomp s : forall r par a p fuel,
  Rep s par (T a p r) -> (length (ptrs r) < fuel)%nat ->
  exists cm B m,
    T a p r = plug cm (T B m E) /\ spine cm /\
    maximum_loop fuel s p (rootp r) = Some m.
Proof.
  induction r as [|ra _ rp rr IH]; intros par a p fuel HR Hf;
    (destruct fuel as [|f]; [simpl in Hf; lia|]).
  - exists [], a, p. repeat split.
  - cbn [Rep rootp] in HR. destruct HR as (Hp & _ & _ & _ & _ & HRr).
    pose proof HRr as HRr0.
    cbn [Rep] in HRr. destruct HRr as (Hrp & _ & _ & Hrr & _).
    destruct (IH p ra rp f HRr0) as (cm & B & m & E1 & Hs & Hm).
    { simpl in Hf. rewrite length_app in Hf. simpl in Hf. lia. }
    exists (cm ++ [FR a p]), B, m. split; [|split].
    + rewrite plug_app. cbn [plug]. now rewrite <- E1.
    + apply spine_app; simpl; auto.
    + cbn [maximum_loop rootp]. rewrite (neqb Hrp), Hrr. exact Hm.
Qed.

Lemma maximum_loop_ext s s' : forall fuel n x,
  (forall q, right (node s' q) = right (node s q)) ->
  maximum_loop fuel s' n x = maximum_loop fuel s n x.
Proof.
  induction fuel as [|f IH]; intros n x H; cbn [maximum_loop]; auto.
  destruct (Nat.eqb x NIL); auto. rewrite H. apply IH; auto.
Qed.

Lemma cwavl_FL s p r c k kp kr ktop :
  wavl s r kr -> 1 <= kp - k <= 2 -> 1 <= kp - kr <= 2 ->
  parity (node s p) = par kp -> (k = -1 -> kr = -1 -> kp = 0) ->
  cwavl s c kp ktop -> cwavl s (FL p r :: c) k ktop.
Proof. intros. cbn [cwavl]. exists kp, kr. auto 10. Qed.

Lemma cwavl_FR s l p c k kp kl ktop :
  wavl s l kl -> 1 <= kp - k <= 2 -> 1 <= kp - kl <= 2 ->
  parity (node s p) = par kp -> (kl = -1 -> k = -1 -> kp = 0) ->
  cwavl s c kp ktop -> cwavl s (FR l p :: c) k ktop.
Proof. intros. cbn [cwavl]. exists kp, kl. auto 10. Qed.

End Contexts.

Section Unlinked.

Variables K V : Type.
Implicit Types (s : state K V) (p q : ptr) (t l r : tree) (c : ctx) (k : Z).

Lemma spliced_fixed s s1 s2 n P c t T1 k' :
  spliced s s1 n P c t -> fixed s1 s2 (plug c t) T1 -> wavl s2 T1 k' ->
  unlinked s s2 n P (ptrs (plug c t)).
Proof.
  intros (A1 & A2 & A3 & A4 & A5 & A6 & A7 & A8)
         (B1 & B2 & B3 & (B4 & B5 & B6) & B7 & B8) Hw.
  exists T1, k'. split; [exact B1|].
  split; [|split; [exact B2|split; [exact Hw|split; [congruence|split; [congruence|split; [|split]]]]]].
  - intros HP. destruct B3 as [[E1 E2]|E1]; [|exact E1].
    rewrite E1, E2, (A3 HP), rootp_plug. reflexivity.
  - intros q. destruct (A6 q) as (E1 & E2 & E3), (B6 q) as (F1 & F2 & F3).
    repeat split; congruence.
  - intros q Hq. destruct (A7 q Hq) as (E1 & E2 & E3), (B7 q Hq) as (F1 & F2 & F3).
    repeat split; congruence.
  - intros q Hq. rewrite (B8 q Hq). apply A8. exact Hq.
Qed.

Lemma fuel_bound s c (M : list ptr) :
  NoDup (before c ++ M ++ after c) ->
  (forall q, In q (before c ++ M ++ after c) -> (0 < q < st_next s)%nat) ->
  (length c < gas s)%nat.
Proof.
  intros ND Hb. unfold gas.
  assert (H : incl (before c ++ M ++ after c) (seq 1 (st_next s - 1))).
  { intros q Hq. apply in_seq. specialize (Hb q Hq). lia. }
  apply (NoDup_incl_length ND) in H. rewrite length_seq in H.
  pose proof (ctx_length c) as H1.
  rewrite !length_app in *. lia.
Qed.

End Unlinked.

Ltac spl_post :=
  unfold spliced, links_outside, parity_outside;
  split; [rep|]; split; [rep|];
  split; [let HP := fresh "HP" in intros HP; cbn [croot]; store; auto|];
  split; [store; reflexivity|]; split; [store; reflexivity|];
  split; [intros q; store; auto|];
  split; [ let q := fresh "q" in let Hq := fresh "Hq" in
           intros q Hq; rewrite ptrs_plug in Hq;
           cbn [ptrs before after app] in Hq; repeat nd_step;
           unfold same_links; store; auto
         | let q := fresh "q" in let Hq := fresh "Hq" in
           intros q Hq; rewrite ptrs_plug in Hq;
           cbn [ptrs before after app] in Hq; repeat nd_step;
           store; auto ].

Ltac list_eq :=
  rewrite ?ptrs_plug; cbn [ptrs before after app]; rewrite ?app_nil_r;
  repeat (rewrite <- app_assoc; cbn [app]); reflexivity.

(** From the spliced store to the result of [remove], through
    [removeFixup]. *)
Ltac rem_finish fr c' t kh ktop :=
  match goal with
  | |- exists s', removeFixup ?S _ _ = Some s' /\ unlinked ?s s' ?n ?P ?L =>
    let Hsp := fresh "Hsp" in
    assert (Hsp : spliced s S n P (fr :: c') t) by spl_post;
    let s' := fresh "s'" in let T1 := fresh "T1" in let k' := fresh "k'" in
    let E1 := fresh "E1" in let Hfix := fresh "Hfix" in let Hw' := fresh "Hw'" in
    destruct (@removeFixup_ok _ _ fr c' S t kh ktop)
      as (s' & T1 & k' & E1 & Hfix & Hw');
    [ unfold gas in *; store; assumption
    | unfold NIL_ok; store; auto
    | exact (proj1 Hsp)
    | exact (proj1 (proj2 Hsp))
    | nd_goal
    | first [ reflexivity | wframe ]
    | match goal with
      | H : cwavl s (fr :: c') ?k ktop |- _ =>
        replace (kh + 1) with k by zlia; wframe
      end
    | exists s'; split; [exact E1|];
      replace L with (ptrs (plug (fr :: c') t)) by list_eq;
      eapply spliced_fixed; eassumption ]
  end.

(** The result of [remove] at the root, where nothing is rebalanced. *)
Ltac rem_root t kh :=
  match goal with
  | |- exists s', Some ?S = Some s' /\ unlinked ?s s' ?n ?P ?L =>
    exists S; split; [reflexivity|];
    exists t, kh;
    split; [rep|]; split; [intros _; store; reflexivity|]; split; [list_eq|];
    split; [first [reflexivity | wframe]|];
    split; [store; reflexivity|]; split; [store; reflexivity|];
    split; [intros q; store; auto|];
    unfold links_outside, parity_outside;
    split; [ let q := fresh "q" in let Hq := fresh "Hq" in
             intros q Hq; cbn [ptrs before after app] in Hq; repeat nd_step;
             unfold same_links; store; auto
           | let q := fresh "q" in let Hq := fresh "Hq" in
             intros q Hq; cbn [ptrs before after app] in Hq; repeat nd_step;
             store; auto ]
  end.

Section Remove.

Variables K V : Type.
Implicit Types (s : state K V) (p q : ptr) (t l r : tree) (c : ctx) (k : Z).

Lemma remove_unary_ok s c l n r ktop (P : Prop) :
  (l = E \/ r = E) ->
  NIL_ok s ->
  Rep s NIL (plug c (T l n r)) ->
  (P -> root s = rootp (plug c (T l n r))) ->
  NoDup (ptrs (plug c (T l n r))) ->
  (forall q, In q (ptrs (plug c (T l n r))) -> (q < st_next s)%nat) ->
  wavl s (plug c (T l n r)) ktop ->
  exists s', remove s n = Some s' /\
             unlinked s s' n P (before c ++ ptrs l ++ ptrs r ++ after c).
Proof.
  intros Hone HN HR Hroot ND Hb Hw.
  pose proof HN as (N1 & N2 & N3 & N4 & N5).
  assert (Hb0 : forall q, In q (ptrs (plug c (T l n r))) -> (0 < q < st_next s)%nat).
  { intros q Hq. split; [|auto]. apply Rep_not_NIL in HR.
    destruct q; [contradiction|lia]. }
  clear Hb. rewrite ptrs_plug in ND, Hb0. rewrite rootp_plug in Hroot.
  pose proof (fuel_bound _ _ _ ND Hb0) as Hlen. clear Hb0.
  apply Rep_plug in HR. destruct HR as [HRn HC].
  apply wavl_plug in Hw. destruct Hw as (k & Hwn & Hc).
  cbn [wavl] in Hwn. destruct Hwn as (kl & kr & Hl & Hr & Hd1 & Hd2 & Hpn & Hleaf).
  cbn [Rep rootp] in HRn, Hroot, HC.
  destruct HRn as (Hn0 & Hnp & Hnl & Hnr & HRl & HRr).
  pose proof (@wavl_ge _ _ s l kl Hl) as Hgel.
  pose proof (@wavl_ge _ _ s r kr Hr) as Hger.
  destruct l as [|la lp lb]; [destruct r as [|ra rp rb]|]; cbn [rootp] in Hnl, Hnr.
  - (* a leaf *)
    pose proof Hl as Hl0. pose proof Hr as Hr0. cbn [wavl] in Hl0, Hr0.
    destruct c as [|[g R|L g] c']; pose proof HC as HC0;
      cbn [RepC cparent rootp croot] in HC, Hnp, Hroot |- *; nd.
    + cbv beta delta [remove]; run. rem_root E (-1).
    + destruct HC as (Hg0 & Hgp & Hgl & Hgr & HRR & HC').
      cbv beta delta [remove]; run. rem_finish (FL g R) c' E (-1) ktop.
    + destruct HC as (Hg0 & Hgp & Hgl & Hgr & HRL & HC').
      cbv beta delta [remove]; run. rem_finish (FR L g) c' E (-1) ktop.
  - (* a right child only *)
    pose proof Hl as Hl0. cbn [wavl] in Hl0.
    pose proof (@wavl_T_ge _ _ s ra rp rb kr Hr) as Hger0.
    pose proof HRr as HRr0. cbn [Rep] in HRr0.
    destruct HRr0 as (Hrp0 & Hrpp & Hrpl & Hrpr & HRra & HRrb).
    destruct c as [|[g R|L g] c']; pose proof HC as HC0;
      cbn [RepC cparent rootp croot] in HC, Hnp, Hroot |- *; nd.
    + cbv beta delta [remove]; run. rem_root (T ra rp rb) kr.
    + destruct HC as (Hg0 & Hgp & Hgl & Hgr & HRR & HC').
      cbv beta delta [remove]; run. rem_finish (FL g R) c' (T ra rp rb) kr ktop.
    + destruct HC as (Hg0 & Hgp & Hgl & Hgr & HRL & HC').
      cbv beta delta [remove]; run. rem_finish (FR L g) c' (T ra rp rb) kr ktop.
  - (* a left child only *)
    destruct Hone as [Hone|Hone]; [discriminate|]. subst r.
    cbn [rootp] in Hnr.
    pose proof Hr as Hr0. cbn [wavl] in Hr0.
    pose proof (@wavl_T_ge _ _ s la lp lb kl Hl) as Hgel0.
    pose proof HRl as HRl0. cbn [Rep] in HRl0.
    destruct HRl0 as (Hlp0 & Hlpp & Hlpl & Hlpr & HRla & HRlb).
    destruct c as [|[g R|L g] c']; pose proof HC as HC0;
      cbn [RepC cparent rootp croot] in HC, Hnp, Hroot |- *; nd.
    + cbv beta delta [remove]; run. rem_root (T la lp lb) kl.
    + destruct HC as (Hg0 & Hgp & Hgl & Hgr & HRR & HC').
      cbv beta delta [remove]; run. rem_finish (FL g R) c' (T la lp lb) kl ktop.
    + destruct HC as (Hg0 & Hgp & Hgl & Hgr & HRL & HC').
      cbv beta delta [remove]; run. rem_finish (FR L g) c' (T la lp lb) kl ktop.
Qed.

End Remove.

Ltac spl_tail :=
  unfold links_outside, parity_outside;
  split; [store; reflexivity|]; split; [store; reflexivity|];
  split; [intros q; store; auto|];
  split; [ let q := fresh "q" in let Hq := fresh "Hq" in
           intros q Hq; rewrite ptrs_plug in Hq; cbn [before after] in Hq;
           rewrite ?before_app, ?after_app in Hq;
           cbn [ptrs before after app] in Hq; repeat nd_step;
           unfold same_links; store; auto
         | let q := fresh "q" in let Hq := fresh "Hq" in
           intros q Hq; rewrite ptrs_plug in Hq; cbn [before after] in Hq;
           rewrite ?before_app, ?after_app in Hq;
           cbn [ptrs before after app] in Hq; repeat nd_step;
           store; auto ].

Ltac list_eq2 :=
  rewrite ?ptrs_plug; cbn [before after];
  rewrite ?before_app, ?after_app;
  cbn [ptrs before after app];
  try match goal with H : spine ?c |- _ => rewrite !(after_spine c H) end;
  rewrite ?app_nil_r;
  repeat (rewrite <- app_assoc; cbn [app]); reflexivity.

Ltac rem_apply fr c' t kh ktop :=
  match goal with
  | Hsp : spliced ?s ?S ?n ?P (fr :: c') t,
    Hcw : cwavl ?S (fr :: c') (kh + 1) ktop
    |- exists s', removeFixup ?S _ _ = Some s' /\ unlinked ?s s' ?n ?P ?L =>
    let s' := fresh "s'" in let T1 := fresh "T1" in let k' := fresh "k'" in
    let E1 := fresh "E1" in let Hfix := fresh "Hfix" in let Hw' := fresh "Hw'" in
    destruct (@removeFixup_ok _ _ fr c' S t kh ktop)
      as (s' & T1 & k' & E1 & Hfix & Hw');
    [ | unfold NIL_ok; store; auto
    | exact (proj1 Hsp)
    | exact (proj1 (proj2 Hsp))
    | cbn [before after]; rewrite ?before_app, ?after_app;
      try match goal with H : spine ?c |- _ => rewrite ?(after_spine c H) end;
      nd_goal
    | first [ reflexivity | wframe ]
    | exact Hcw
    | exists s'; split; [exact E1|];
      replace L with (ptrs (plug (fr :: c') t)) by list_eq2;
      eapply spliced_fixed; eassumption ]
  end.

Ltac fuel_goal :=
  match goal with
  | H : forall S0 : state _ _, _ -> (length _ < gas S0)%nat |- _ => apply H
  end; store; reflexivity.

Ltac bin1 m r cc BB kB k kr ktop :=
  cbv beta delta [relink]; store;
  match goal with
  | |- exists s', removeFixup ?S _ _ = Some s' /\ unlinked ?s s' ?n ?P ?L =>
    assert (Hsp : spliced s S n P (FL m r :: cc) BB)
      by (unfold spliced; split; [rep|]; split; [rep|];
          split; [let HP := fresh "HP" in intros HP; cbn [croot]; store; auto|];
          spl_tail);
    assert (Hcw : cwavl S (FL m r :: cc) (kB + 1) ktop)
      by (apply cwavl_FL with (kp := k) (kr := kr);
          [ wframe | zlia | zlia | store; reflexivity | intros; zlia | wframe ])
  end;
  rem_apply (FL m r) cc BB kB ktop; [fuel_goal].

Section RemoveBinary.

Variables K V : Type.
Implicit Types (s : state K V) (p q : ptr) (t l r : tree) (c : ctx) (k : Z).

Lemma maximum_ext s s' x :
  (forall q, right (node s' q) = right (node s q)) ->
  st_next s' = st_next s ->
  maximum s' x = maximum s x.
Proof.
  intros H1 H2. unfold maximum, gas. rewrite H1, H2.
  apply maximum_loop_ext; auto.
Qed.

(** The two-children case when the predecessor is the left child. *)
Lemma remove_binary1 s c B m n r ktop (P : Prop) :
  r <> E ->
  NIL_ok s ->
  Rep s NIL (plug c (T (T B m E) n r)) ->
  (P -> root s = rootp (plug c (T (T B m E) n r))) ->
  NoDup (ptrs (plug c (T (T B m E) n r))) ->
  (forall q, In q (ptrs (plug c (T (T B m E) n r))) -> (q < st_next s)%nat) ->
  wavl s (plug c (T (T B m E) n r)) ktop ->
  exists s', remove s n = Some s' /\
             unlinked s s' n P (before c ++ ptrs (T B m E) ++ ptrs r ++ after c).
Proof.
  intros Hr0 HN HR Hroot ND Hb Hw.
  pose proof HN as (N1 & N2 & N3 & N4 & N5).
  assert (Hb0 : forall q, In q (ptrs (plug c (T (T B m E) n r))) ->
                          (0 < q < st_next s)%nat).
  { intros q Hq. split; [|auto]. apply Rep_not_NIL in HR.
    destruct q; [contradiction|lia]. }
  clear Hb. rewrite ptrs_plug in ND, Hb0. rewrite rootp_plug in Hroot.
  apply Rep_plug in HR. destruct HR as [HRn HC].
  apply wavl_plug in Hw. destruct Hw as (k & Hwn & Hc).
  cbn [wavl] in Hwn.
  destruct Hwn as (kl & kr & (kB & kE & HwB & HwE & Hm1 & Hm2 & Hpm & Hmleaf)
                    & Hr & Hd1 & Hd2 & Hpn & Hleaf).
  subst kE.
  destruct r as [|ra rp rb]; [congruence|].
  cbn [Rep rootp] in HRn, Hroot, HC.
  destruct HRn as (Hn0 & Hnp & Hnl & Hnr & (Hm0 & Hmp & Hml & Hmr & HRB & _)
                    & (Hrp0 & Hrpp & Hrpl & Hrpr & HRra & HRrb)).
  pose proof (@wavl_ge _ _ s B kB HwB) as HgeB.
  pose proof (@wavl_T_ge _ _ s ra rp rb kr Hr) as Hger.
  assert (HkB : kB + 1 = kl).
  { destruct B; cbn [wavl] in HwB; [zlia|].
    destruct HwB as (? & ? & HB1 & _).
    pose proof (@wavl_ge _ _ s B1 _ HB1). zlia. }
  assert (Hfuel : forall S0 : state K V, st_next S0 = st_next s ->
            (length (FL m (T ra rp rb) :: c) < gas S0)%nat).
  { intros S0 E0. apply fuel_bound with (M := ptrs B).
    - clear - ND. nd. nd_goal.
    - intros q Hq. rewrite E0. apply Hb0. in_split Hq; in_solve. }
  clear Hb0.
  destruct B as [|Bl b Br];
    destruct c as [|[g R|L g] c']; pose proof HC as HC0;
    cbn [Rep RepC cparent rootp croot] in HC, Hnp, Hroot, HRB, Hml |- *; nd; conj.
  all: cbv beta delta [remove]; zeta1; zeta1; store; cbn [negb andb].
  all: unfold maximum, gas; store; cbn [maximum_loop]; store.
  all: run.
  - bin1 m (T ra rp rb) (@nil frame) E kB k kr ktop.
  - bin1 m (T ra rp rb) (FL g R :: c') E kB k kr ktop.
  - bin1 m (T ra rp rb) (FR L g :: c') E kB k kr ktop.
  - bin1 m (T ra rp rb) (@nil frame) (T Bl b Br) kB k kr ktop.
  - bin1 m (T ra rp rb) (FL g R :: c') (T Bl b Br) kB k kr ktop.
  - bin1 m (T ra rp rb) (FR L g :: c') (T Bl b Br) kB k kr ktop.
Qed.

End RemoveBinary.

Ltac bin2a p C m r cc BB kB kp kC k kr ktop :=
  cbv beta delta [relink]; store;
  match goal with
  | |- exists s', removeFixup ?S _ _ = Some s' /\ unlinked ?s s' ?n ?P ?L =>
    assert (Hsp : spliced s S n P (FR C p :: FL m r :: cc) BB)
      by (unfold spliced; split; [rep|]; split; [rep|];
          split; [let HP := fresh "HP" in intros HP; cbn [croot]; store; auto|];
          spl_tail);
    assert (Hcw : cwavl S (FR C p :: FL m r :: cc) (kB + 1) ktop)
      by (apply cwavl_FR with (kp := kp) (kl := kC);
          [ wframe | zlia | zlia | store; reflexivity | intros; zlia
          | apply cwavl_FL with (kp := k) (kr := kr);
            [ wframe | zlia | zlia | store; reflexivity | intros; zlia
            | wframe ] ])
  end;
  rem_apply (FR C p) (FL m r :: cc) BB kB ktop; [fuel_goal].

(** What membership of [a] in one list says against the other lists. *)
Ltac spread H :=
  match type of H with
  | In ?a ?l =>
    repeat match goal with
    | D : disj l ?X |- _ =>
      lazymatch goal with
      | _ : ~ In a X |- _ => fail
      | _ => assert (~ In a X) by (exact (D a H))
      end
    | D : disj ?X l |- _ =>
      lazymatch goal with
      | _ : ~ In a X |- _ => fail
      | _ => assert (~ In a X)
               by (let Hx := fresh in intro Hx; exact (D a Hx H))
      end
    | N : ~ In ?x l |- _ =>
      lazymatch goal with
      | _ : a <> x |- _ => fail
      | _ => assert (a <> x)
               by (let E := fresh in intro E; apply N; rewrite <- E; exact H)
      end
    end
  end.

Ltac bin2b p C cm m r cc BB kB kp kC kl k kr ktop Hcm HCm Hcwm Hs Eq0 :=
  cbv beta delta [relink]; store;
  match goal with
  | |- exists s', removeFixup ?S _ _ = Some s' /\ unlinked ?s s' ?n ?P ?L =>
    assert (Hsp : spliced s S n P (FR C p :: cm ++ FL m r :: cc) BB)
      by (unfold spliced; split; [rep|]; split;
          [ cbn [RepC cparent rootp]; rewrite cparent_app; cbn [cparent];
            split; [assumption|];
            split; [store; apply cparent_irrel; exact Hcm|];
            split; [store; auto|]; split; [store; auto|];
            split; [frame|];
            apply RepC_app; split;
            [ cbn [cparent]; eapply RepC_retop;
              [ exact Hcm
              | rewrite (after_spine _ Hs), app_nil_r; assumption
              | exact HCm
              | let q := fresh "q" in let Hq := fresh "Hq" in
                intros q Hq; rewrite (after_spine _ Hs), app_nil_r in Hq;
                store; auto
              | let q := fresh "q" in let Hq := fresh "Hq" in
                let Hne := fresh "Hne" in
                intros q Hq Hne; rewrite (after_spine _ Hs), app_nil_r in Hq;
                rewrite <- Eq0 in Hne; store; reflexivity
              | rewrite <- Eq0; store; reflexivity ]
            | rewrite <- Eq0; rep ]
          | split; [let HP := fresh "HP" in intros HP; cbn [croot];
                    rewrite croot_app; cbn [croot]; store; auto|];
            spl_tail ]);
    assert (Hcw : cwavl S (FR C p :: cm ++ FL m r :: cc) (kB + 1) ktop)
      by (apply cwavl_FR with (kp := kp) (kl := kC);
          [ wframe | zlia | zlia | store; reflexivity | intros; zlia
          | apply cwavl_app; exists kl; split;
            [ eapply cwavl_ext; [|exact Hcwm];
              let q := fresh "q" in let Hq := fresh "Hq" in
              intros q Hq; rewrite (after_spine _ Hs), app_nil_r in Hq;
              store; reflexivity
            | apply cwavl_FL with (kp := k) (kr := kr);
              [ wframe | zlia | zlia | store; reflexivity | intros; zlia
              | wframe ] ] ])
  end;
  rem_apply (FR C p) (cm ++ FL m r :: cc) BB kB ktop; [fuel_goal].

Section RemoveBinary2.

Variables K V : Type.
Implicit Types (s : state K V) (p q : ptr) (t l r : tree) (c : ctx) (k : Z).

(** The two-children case when the predecessor lies deeper, at the end
    of the right spine [FR C p :: cm] of the left subtree. *)
Lemma remove_binary2 s c cm C p B m n r ktop (P : Prop) :
  spine cm -> r <> E ->
  NIL_ok s ->
  Rep s NIL (plug c (T (plug (FR C p :: cm) (T B m E)) n r)) ->
  (P -> root s = rootp (plug c (T (plug (FR C p :: cm) (T B m E)) n r))) ->
  NoDup (ptrs (plug c (T (plug (FR C p :: cm) (T B m E)) n r))) ->
  (forall q, In q (ptrs (plug c (T (plug (FR C p :: cm) (T B m E)) n r))) ->
             (q < st_next s)%nat) ->
  wavl s (plug c (T (plug (FR C p :: cm) (T B m E)) n r)) ktop ->
  maximum s (rootp (plug (FR C p :: cm) (T B m E))) = Some m ->
  exists s', remove s n = Some s' /\
             unlinked s s' n P (before c ++ ptrs (plug (FR C p :: cm) (T B m E))
                                ++ ptrs r ++ after c).
Proof.
  intros Hs Hr0 HN HR Hroot ND Hb Hw Hmax.
  pose proof HN as (N1 & N2 & N3 & N4 & N5).
  assert (Hb0 : forall q,
            In q (ptrs (plug c (T (plug (FR C p :: cm) (T B m E)) n r))) ->
            (0 < q < st_next s)%nat).
  { intros q Hq. split; [|auto]. apply Rep_not_NIL in HR.
    destruct q; [contradiction|lia]. }
  clear Hb.
  assert (Epl : plug c (T (plug (FR C p :: cm) (T B m E)) n r)
                = plug (FR C p :: cm ++ FL n r :: c) (T B m E))
    by (cbn [plug]; rewrite plug_app; reflexivity).
  rewrite rootp_plug in Hroot. cbn [rootp] in Hroot.
  rewrite rootp_plug in Hmax. cbn [rootp croot] in Hmax.
  rewrite Epl in HR, ND, Hb0, Hw. clear Epl.
  rewrite ptrs_plug in ND, Hb0.
  cbn [before after] in ND, Hb0.
  rewrite before_app, after_app, (after_spine _ Hs) in ND, Hb0.
  cbn [before after app] in ND, Hb0.
  apply Rep_plug in HR. destruct HR as [HRm HC].
  cbn [RepC cparent rootp] in HC.
  destruct HC as (Hp0 & Hpp & Hpl & Hpr & HRC & HC).
  rewrite cparent_app in Hpp. cbn [cparent] in Hpp.
  apply RepC_app in HC. destruct HC as [HCm HCn].
  cbn [RepC cparent] in HCm, HCn.
  destruct HCn as (Hn0 & Hnp & Hnl & Hnr & HRr & HCc).
  apply wavl_plug in Hw. destruct Hw as (km & Hwm & Hcw).
  cbn [wavl] in Hwm.
  destruct Hwm as (kB & kE & HwB & HwE & Hm1 & Hm2 & Hpm & Hmleaf). subst kE.
  cbn [cwavl] in Hcw.
  destruct Hcw as (kp & kC & HwC & Hp1 & Hp2 & Hpp' & Hpleaf & Hcw).
  apply cwavl_app in Hcw. destruct Hcw as (kl & Hcwm & Hcwn).
  cbn [cwavl] in Hcwn.
  destruct Hcwn as (k & kr & Hr & Hd1 & Hd2 & Hpn & Hleaf & Hc).
  destruct r as [|ra rp rb]; [congruence|].
  cbn [Rep rootp] in HRm, HRr, Hnr.
  destruct HRm as (Hm0 & Hmp & Hml & Hmr & HRB & _).
  cbn [cparent] in Hmp.
  destruct HRr as (Hrp0 & Hrpp & Hrpl & Hrpr & HRra & HRrb).
  pose proof (@wavl_ge _ _ s B kB HwB) as HgeB.
  pose proof (@wavl_T_ge _ _ s ra rp rb kr Hr) as Hger.
  assert (HkB : kB + 1 = km).
  { destruct B; cbn [wavl] in HwB; [zlia|].
    destruct HwB as (? & ? & HB1 & _).
    pose proof (@wavl_ge _ _ s B1 _ HB1). zlia. }
  assert (Hfuel : forall S0 : state K V, st_next S0 = st_next s ->
            (length (FR C p :: cm ++ FL m (T ra rp rb) :: c) < gas S0)%nat).
  { intros S0 E0. apply fuel_bound with (M := ptrs B).
    - cbn [before after]. rewrite before_app, after_app, (after_spine _ Hs).
      cbn [before after app]. clear - ND. nd. nd_goal.
    - intros q Hq. rewrite E0. apply Hb0.
      cbn [before after] in Hq.
      rewrite before_app, after_app, (after_spine _ Hs) in Hq.
      cbn [before after app] in Hq.
      in_split Hq; cbn [ptrs]; rewrite ?in_app_iff; cbn [In];
        rewrite ?in_app_iff; cbn [In]; auto 20. }
  assert (Hq00 : cm <> [] -> croot cm p <> NIL).
  { intros Hcm. pose proof (croot_in p Hcm) as Hin.
    rewrite (after_spine _ Hs), app_nil_r in Hin.
    assert (H0 : (0 < croot cm p)%nat); [|unfold NIL; lia].
    apply Hb0. rewrite !in_app_iff. auto. }
  clear Hb0.
  assert (Hcm : cm = [] \/ cm <> []) by (destruct cm; [left|right]; congruence).
  destruct Hcm as [-> | Hcm].
  - (* the predecessor is a grandchild *)
    clear HCm Hs. cbn [croot cparent cwavl] in *. subst kl.
    destruct B as [|Bl b Br];
      destruct c as [|[g R|L g] c']; pose proof HCc as HC0;
      cbn [Rep RepC cparent rootp croot] in HCc, Hnp, Hroot, HRB, Hml |- *; nd; conj.
    all: cbv beta delta [remove]; zeta1; zeta1; store; cbn [negb andb].
    all: (erewrite maximum_ext; [rewrite Hmax | intros; store; reflexivity
                                | store; reflexivity]).
    all: cbv beta iota; run.
    + bin2a p C m (T ra rp rb) (@nil frame) E kB kp kC k kr ktop.
    + bin2a p C m (T ra rp rb) (FL g R :: c') E kB kp kC k kr ktop.
    + bin2a p C m (T ra rp rb) (FR L g :: c') E kB kp kC k kr ktop.
    + bin2a p C m (T ra rp rb) (@nil frame) (T Bl b Br) kB kp kC k kr ktop.
    + bin2a p C m (T ra rp rb) (FL g R :: c') (T Bl b Br) kB kp kC k kr ktop.
    + bin2a p C m (T ra rp rb) (FR L g :: c') (T Bl b Br) kB kp kC k kr ktop.
  - (* the predecessor lies deeper *)
    pose proof (croot_in p Hcm) as Hq0in.
    rewrite (after_spine _ Hs), app_nil_r in Hq0in.
    specialize (Hq00 Hcm).
    remember (croot cm p) as q0 eqn:Eq0.
    destruct B as [|Bl b Br];
      destruct c as [|[g R|L g] c']; pose proof HCc as HC0;
      cbn [Rep RepC cparent rootp croot] in HCc, Hnp, Hroot, HRB, Hml |- *; nd; conj;
      spread Hq0in.
    all: cbv beta delta [remove]; zeta1; zeta1; store; cbn [negb andb].
    all: (erewrite maximum_ext; [rewrite Hmax | intros; store; reflexivity
                                | store; reflexivity]).
    all: cbv beta iota; run.
    + bin2b p C cm m (T ra rp rb) (@nil frame) E kB kp kC kl k kr ktop Hcm HCm Hcwm Hs Eq0.
    + bin2b p C cm m (T ra rp rb) (FL g R :: c') E kB kp kC kl k kr ktop Hcm HCm Hcwm Hs Eq0.
    + bin2b p C cm m (T ra rp rb) (FR L g :: c') E kB kp kC kl k kr ktop Hcm HCm Hcwm Hs Eq0.
    + bin2b p C cm m (T ra rp rb) (@nil frame) (T Bl b Br) kB kp kC kl k kr ktop Hcm HCm Hcwm Hs Eq0.
    + bin2b p C cm m (T ra rp rb) (FL g R :: c') (T Bl b Br) kB kp kC kl k kr ktop Hcm HCm Hcwm Hs Eq0.
    + bin2b p C cm m (T ra rp rb) (FR L g :: c') (T Bl b Br) kB kp kC kl k kr ktop Hcm HCm Hcwm Hs Eq0.
Qed.

End RemoveBinary2.

Section RemoveAll.

Variables K V : Type.
Implicit Types (s : state K V) (p q : ptr) (t l r : tree) (c : ctx) (k : Z).

(** [remove] of any node of a ranked tree: the node leaves the in-order
    sequence, which is otherwise unchanged, and the tree is ranked again. *)
Lemma remove_ok s c l n r ktop (P : Prop) :
  NIL_ok s ->
  Rep s NIL (plug c (T l n r)) ->
  (P -> root s = rootp (plug c (T l n r))) ->
  NoDup (ptrs (plug c (T l n r))) ->
  (forall q, In q (ptrs (plug c (T l n r))) -> (q < st_next s)%nat) ->
  wavl s (plug c (T l n r)) ktop ->
  exists s', remove s n = Some s' /\
             unlinked s s' n P (before c ++ ptrs l ++ ptrs r ++ after c).
Proof.
  intros HN HR Hroot ND Hb Hw.
  destruct l as [|a p0 r0]; [apply remove_unary_ok with (ktop := ktop); auto|].
  destruct r as [|ra rp rb]; [apply remove_unary_ok with (ktop := ktop); auto|].
  pose proof HR as HR0. apply Rep_plug in HR0. destruct HR0 as [HRn _].
  cbn [Rep rootp] in HRn. destruct HRn as (_ & _ & _ & _ & HRl & _).
  pose proof HRl as HRl0. cbn [Rep] in HRl0.
  destruct HRl0 as (_ & _ & _ & Hp0r & _).
  destruct (@maximum_decomp _ _ s r0 n a p0 (gas s) HRl)
    as (cm & B & m & El & Hs & Hmax).
  { unfold gas.
    assert (Hlen : (length (ptrs (plug c (T (T a p0 r0) n (T ra rp rb)))) < st_next s)%nat).
    { destruct (st_next s) as [|n0] eqn:En.
      - exfalso. assert (H : In n (ptrs (plug c (T (T a p0 r0) n (T ra rp rb)))))
          by in_solve.
        apply Hb in H. lia.
      - apply length_bound; auto; try lia.
        intros q Hq. split; [|auto]. apply Rep_not_NIL in HR.
        destruct q; [contradiction|lia]. }
    rewrite ptrs_plug in Hlen. cbn [ptrs] in Hlen.
    rewrite !length_app in Hlen. cbn [length] in Hlen.
    rewrite !length_app in Hlen. cbn [length] in Hlen. lia. }
  assert (Hmax' : maximum s (rootp (T a p0 r0)) = Some m).
  { unfold maximum. cbn [rootp]. rewrite Hp0r. exact Hmax. }
  revert HR Hroot ND Hb Hw Hmax'. rewrite El. clear El HRl Hp0r Hmax.
  destruct cm as [|[? ?|C p] cm]; cbn [spine] in Hs; [|contradiction|].
  - cbn [plug]. intros. apply remove_binary1 with (ktop := ktop); auto; congruence.
  - intros. apply remove_binary2 with (ktop := ktop); auto; congruence.
Qed.

End RemoveAll.

(** * Walking the tree in order *)

(** Every node of a tree sits under some context. *)
Lemma in_tree_plug (t : tree) (n : ptr) :
  In n (ptrs t) -> exists c l r, t = plug c (T l n r).
Proof.
  induction t as [|a IHa p b IHb]; cbn [ptrs]; [intros []|].
  intros H. apply in_app_or in H. destruct H as [H|[H|H]].
  - destruct (IHa H) as (c & l & r & ->).
    exists (c ++ [FL p b]), l, r. now rewrite plug_app.
  - subst p. exists [], a, b. reflexivity.
  - destruct (IHb H) as (c & l & r & ->).
    exists (c ++ [FR a p]), l, r. now rewrite plug_app.
Qed.

(** In a list without repetition an element has one position. *)
Lemma NoDup_split_eq (A : Type) (x : A) : forall l1 l2 l1' l2',
  NoDup (l1 ++ x :: l2) -> l1 ++ x :: l2 = l1' ++ x :: l2' ->
  l1 = l1' /\ l2 = l2'.
Proof.
  induction l1 as [|a l1 IH]; intros l2 l1' l2' ND E0.
  - destruct l1' as [|b l1']; cbn [app] in *.
    + inversion E0; auto.
    + inversion E0; subst. apply NoDup_cons_iff in ND. destruct ND as [ND _].
      exfalso. apply ND. apply in_or_app. right. left. reflexivity.
  - destruct l1' as [|b l1']; cbn [app] in *.
    + inversion E0; subst. apply NoDup_cons_iff in ND. destruct ND as [ND _].
      exfalso. apply ND. apply in_or_app. right. left. reflexivity.
    + inversion E0; subst. apply NoDup_cons_iff in ND. destruct ND as [_ ND].
      destruct (IH _ _ _ ND H1) as [-> ->]. auto.
Qed.

Lemma hd_app (A : Type) (d : A) (l1 l2 : list A) :
  l1 <> [] -> hd d (l1 ++ l2) = hd d l1.
Proof. destruct l1; [congruence|reflexivity]. Qed.

Lemma last_app (A : Type) (d : A) (l1 l2 : list A) :
  l2 <> [] -> last (l1 ++ l2) d = last l2 d.
Proof.
  intros H. induction l1 as [|a l1 IH]; auto.
  cbn [app]. destruct (l1 ++ l2) eqn:E0; [|rewrite <- IH; reflexivity].
  apply app_eq_nil in E0. destruct E0; congruence.
Qed.

Lemma ptrs_T_ne l (p : ptr) r : ptrs (T l p r) <> [].
Proof. cbn [ptrs]. destruct (ptrs l); discriminate. Qed.

Ltac len_norm H :=
  repeat (progress (rewrite ?length_app in H; cbn [ptrs length] in H)).

Section Walk.

Variables K V : Type.
Implicit Types (s : state K V) (p q : ptr) (t l r : tree) (c : ctx).

Lemma minimum_loop_spec s : forall a par p b fuel,
  Rep s par (T a p b) -> (length (ptrs a) < fuel)%nat ->
  minimum_loop fuel s p (rootp a) = Some (hd NIL (ptrs (T a p b))).
Proof.
  induction a as [|aa IH ap ab _]; intros par p b fuel HR Hf;
    (destruct fuel as [|f]; [simpl in Hf; lia|]).
  - reflexivity.
  - cbn [Rep rootp] in HR. destruct HR as (Hp & _ & _ & _ & HRa & _).
    pose proof HRa as HRa0. cbn [Rep] in HRa0.
    destruct HRa0 as (Hap & _ & Hal & _).
    cbn [minimum_loop rootp]. rewrite (neqb Hap), Hal.
    rewrite (IH _ _ _ _ HRa).
    + cbn [ptrs]. rewrite <- !app_assoc.
      destruct (ptrs aa); reflexivity.
    + simpl in Hf. rewrite length_app in Hf. simpl in Hf. lia.
Qed.

Lemma maximum_loop_spec s : forall b par a p fuel,
  Rep s par (T a p b) -> (length (ptrs b) < fuel)%nat ->
  maximum_loop fuel s p (rootp b) = Some (last (ptrs (T a p b)) NIL).
Proof.
  induction b as [|ba _ bp bb IH]; intros par a p fuel HR Hf;
    (destruct fuel as [|f]; [simpl in Hf; lia|]).
  - cbn [maximum_loop rootp ptrs]. rewrite Nat.eqb_refl.
    rewrite last_app by discriminate. reflexivity.
  - cbn [Rep rootp] in HR. destruct HR as (Hp & _ & _ & _ & _ & HRb).
    pose proof HRb as HRb0. cbn [Rep] in HRb0.
    destruct HRb0 as (Hbp & _ & _ & Hbr & _).
    cbn [maximum_loop rootp]. rewrite (neqb Hbp), Hbr.
    rewrite (IH _ _ _ _ HRb).
    + change (ptrs (T a p (T ba bp bb))) with (ptrs a ++ [p] ++ ptrs (T ba bp bb)).
      rewrite app_assoc, last_app by apply ptrs_T_ne. reflexivity.
    + simpl in Hf. rewrite length_app in Hf. simpl in Hf. lia.
Qed.

(** Climbing from a node with no right child: the first ancestor reached
    from its left subtree. *)
Lemma successor_loop_spec s : forall c fuel x,
  RepC s NIL c x -> x <> NIL -> NoDup (x :: before c ++ after c) ->
  (length c < fuel)%nat ->
  successor_loop fuel s x (cparent NIL c) = Some (hd NIL (after c)).
Proof.
  induction c as [|[p r|l p] c IH]; intros fuel x HC Hx ND Hf;
    (destruct fuel as [|f]; [simpl in Hf; lia|]);
    cbn [successor_loop cparent after hd].
  - reflexivity.
  - cbn [RepC] in HC. destruct HC as (Hp & _ & _ & Hr & _).
    rewrite (neqb Hp), Hr. cbn [negb andb].
    rewrite neqb; [reflexivity|].
    nd. apply rootp_ne; auto.
  - cbn [RepC] in HC. destruct HC as (Hp & Hpp & _ & Hr & _ & HC).
    rewrite (neqb Hp), Hr, Nat.eqb_refl, Hpp. cbn [negb andb].
    apply IH; auto.
    + nd. nd_goal.
    + simpl in Hf. lia.
Qed.

Lemma predecessor_loop_spec s : forall c fuel x,
  RepC s NIL c x -> x <> NIL -> NoDup (x :: before c ++ after c) ->
  (length c < fuel)%nat ->
  predecessor_loop fuel s x (cparent NIL c) = Some (last (before c) NIL).
Proof.
  induction c as [|[p r|l p] c IH]; intros fuel x HC Hx ND Hf;
    (destruct fuel as [|f]; [simpl in Hf; lia|]);
    cbn [predecessor_loop cparent before].
  - reflexivity.
  - cbn [RepC] in HC. destruct HC as (Hp & Hpp & Hl & _ & _ & HC).
    rewrite (neqb Hp), Hl, Nat.eqb_refl, Hpp. cbn [negb andb].
    apply IH; auto.
    + nd. nd_goal.
    + simpl in Hf. lia.
  - cbn [RepC] in HC. destruct HC as (Hp & _ & Hl & _ & _).
    rewrite (neqb Hp), Hl. cbn [negb andb].
    rewrite neqb.
    + rewrite app_assoc, last_app by discriminate. reflexivity.
    + nd. apply rootp_ne; auto.
Qed.

Lemma tree_of_bounds s t q :
  tree_of s t -> In q (ptrs t) -> (0 < q < st_next s)%nat.
Proof.
  intros (HR & _ & _ & Hb & _) Hq. split; [|auto].
  apply Rep_not_NIL in HR. destruct q; [contradiction|lia].
Qed.

Lemma tree_of_fuel s t : tree_of s t -> (length (ptrs t) < gas s)%nat.
Proof.
  intros Ht. pose proof Ht as (_ & _ & ND & _ & _). unfold gas.
  assert (H : incl (ptrs t) (seq 1 (st_next s - 1))).
  { intros q Hq. apply in_seq. pose proof (@tree_of_bounds s t q Ht Hq). lia. }
  apply (NoDup_incl_length ND) in H. rewrite length_seq in H. lia.
Qed.

Lemma tree_of_split s t n L1 L2 :
  tree_of s t -> ptrs t = L1 ++ n :: L2 ->
  exists c l r,
    t = plug c (T l n r) /\ L1 = before c ++ ptrs l /\ L2 = ptrs r ++ after c.
Proof.
  intros (_ & _ & ND & _ & _) E0.
  assert (Hin : In n (ptrs t)) by (rewrite E0; apply in_elt).
  destruct (in_tree_plug _ _ Hin) as (c & l & r & ->).
  exists c, l, r. split; [reflexivity|].
  rewrite E0 in ND. rewrite ptrs_plug in E0. cbn [ptrs] in E0.
  apply NoDup_split_eq with (x := n); auto.
  rewrite <- E0. rewrite <- !app_assoc. reflexivity.
Qed.

Lemma successor_spec s t n L1 L2 :
  tree_of s t -> ptrs t = L1 ++ n :: L2 ->
  successor s n = Some (hd NIL L2).
Proof.
  intros Ht E0. destruct (@tree_of_split s t n L1 L2 Ht E0) as (c & l & r & -> & -> & ->).
  pose proof (@tree_of_fuel s _ Ht) as Hf.
  destruct Ht as (HR & _ & ND & _ & _).
  rewrite ptrs_plug in ND, Hf. apply Rep_plug in HR. destruct HR as [HRn HC].
  cbn [Rep rootp] in HRn, HC. destruct HRn as (Hn & Hnp & _ & Hnr & _ & HRr).
  unfold successor. rewrite Hnr, Hnp.
  destruct r as [|ra rp rb].
  - cbn [rootp ptrs app negb]. rewrite Nat.eqb_refl. cbn [negb].
    apply successor_loop_spec; auto.
    + clear - ND. nd. nd_goal.
    + pose proof (ctx_length c). rewrite !length_app in *. cbn [length] in *. lia.
  - pose proof HRr as HRr0. cbn [Rep] in HRr0. destruct HRr0 as (Hrp & _ & Hrl & _).
    cbn [rootp]. rewrite (neqb Hrp). cbn [negb].
    unfold minimum. rewrite Hrl. rewrite hd_app by apply ptrs_T_ne.
    eapply minimum_loop_spec; eauto.
    len_norm Hf. lia.
Qed.

Lemma predecessor_spec s t n L1 L2 :
  tree_of s t -> ptrs t = L1 ++ n :: L2 ->
  predecessor s n = Some (last L1 NIL).
Proof.
  intros Ht E0. destruct (@tree_of_split s t n L1 L2 Ht E0) as (c & l & r & -> & -> & ->).
  pose proof (@tree_of_fuel s _ Ht) as Hf.
  destruct Ht as (HR & _ & ND & _ & _).
  rewrite ptrs_plug in ND, Hf. apply Rep_plug in HR. destruct HR as [HRn HC].
  cbn [Rep rootp] in HRn, HC. destruct HRn as (Hn & Hnp & Hnl & _ & HRl & _).
  unfold predecessor. rewrite Hnl, Hnp.
  destruct l as [|la lp lb].
  - cbn [rootp ptrs app negb]. rewrite Nat.eqb_refl, app_nil_r. cbn [negb].
    apply predecessor_loop_spec; auto.
    + clear - ND. nd. nd_goal.
    + pose proof (ctx_length c). rewrite !length_app in *. cbn [length] in *. lia.
  - pose proof HRl as HRl0. cbn [Rep] in HRl0. destruct HRl0 as (Hlp & _ & _ & Hlr & _).
    cbn [rootp]. rewrite (neqb Hlp). cbn [negb].
    unfold maximum. rewrite Hlr. rewrite last_app by apply ptrs_T_ne.
    eapply maximum_loop_spec; eauto.
    len_norm Hf. lia.
Qed.

Lemma minimum_root s t : tree_of s t -> minimum s (root s) = Some (hd NIL (ptrs t)).
Proof.
  intros Ht. pose proof (@tree_of_fuel s _ Ht) as Hf.
  destruct Ht as (HR & Hroot & _ & _ & (_ & N2 & _)).
  unfold minimum. rewrite Hroot. destruct t as [|a p b].
  - cbn [rootp ptrs hd]. rewrite N2. reflexivity.
  - pose proof HR as HR0. cbn [Rep] in HR0. destruct HR0 as (_ & _ & Hl & _).
    cbn [rootp]. rewrite Hl. eapply minimum_loop_spec; eauto.
    cbn [ptrs] in Hf. rewrite length_app in Hf. lia.
Qed.

Lemma maximum_root s t :
  tree_of s t -> maximum s (root s) = Some (last (ptrs t) NIL).
Proof.
  intros Ht. pose proof (@tree_of_fuel s _ Ht) as Hf.
  destruct Ht as (HR & Hroot & _ & _ & (_ & _ & N3 & _)).
  unfold maximum. rewrite Hroot. destruct t as [|a p b].
  - cbn [rootp ptrs last]. rewrite N3. reflexivity.
  - pose proof HR as HR0. cbn [Rep] in HR0. destruct HR0 as (_ & _ & _ & Hr & _).
    cbn [rootp]. rewrite Hr. eapply maximum_loop_spec; eauto.
    cbn [ptrs] in Hf. rewrite length_app in Hf. cbn [length] in Hf. lia.
Qed.

Lemma inorder_loop_spec s t : tree_of s t -> forall L2 L1 fuel,
  ptrs t = L1 ++ L2 -> (length L2 < fuel)%nat ->
  inorder_loop fuel s (hd NIL L2) = Some L2.
Proof.
  intros Ht. induction L2 as [|x L2 IH]; intros L1 fuel E0 Hf;
    (destruct fuel as [|f]; [simpl in Hf; lia|]); cbn [inorder_loop hd].
  - reflexivity.
  - assert (Hx : x <> NIL).
    { assert (Hin : In x (ptrs t)) by (rewrite E0; apply in_elt).
      pose proof (@tree_of_bounds s t _ Ht Hin). unfold NIL. lia. }
    rewrite (neqb Hx), (@successor_spec s t _ _ _ Ht E0).
    rewrite (IH (L1 ++ [x])); [reflexivity| |simpl in Hf; lia].
    rewrite E0, <- app_assoc. reflexivity.
Qed.

Lemma Map_inorder_spec s t : tree_of s t -> Map_inorder s = Some (ptrs t).
Proof.
  intros Ht. unfold Map_inorder. rewrite (@minimum_root s _ Ht).
  apply inorder_loop_spec with (t := t) (L1 := []); auto.
  apply tree_of_fuel; auto.
Qed.

(** The walk of a range from [n] up to [up]: the stretch of the in-order
    sequence between them. *)
Lemma Range_inorder_loop_spec s t up L3 : tree_of s t -> forall M L1 fuel,
  ptrs t = L1 ++ M ++ up :: L3 -> (length M < fuel)%nat ->
  Range_inorder_loop fuel s up (hd up M) = Some (M ++ [up]).
Proof.
  intros Ht. induction M as [|x M IH]; intros L1 fuel E0 Hf;
    (destruct fuel as [|f]; [simpl in Hf; lia|]);
    cbn [Range_inorder_loop hd app] in *.
  - assert (Hx : up <> NIL).
    { assert (Hin : In up (ptrs t)) by (rewrite E0; apply in_elt).
      pose proof (@tree_of_bounds s t _ Ht Hin). unfold NIL. lia. }
    rewrite (neqb Hx), Nat.eqb_refl. reflexivity.
  - assert (Hx : x <> NIL).
    { assert (Hin : In x (ptrs t)) by (rewrite E0; apply in_elt).
      pose proof (@tree_of_bounds s t _ Ht Hin). unfold NIL. lia. }
    assert (Hxu : x <> up).
    { destruct Ht as (_ & _ & ND & _). rewrite E0 in ND.
      apply NoDup_remove_2 in ND. intros ->. apply ND.
      rewrite !in_app_iff. right. right. left. reflexivity. }
    rewrite (neqb Hx), (neqb Hxu), (@successor_spec s t _ _ _ Ht E0).
    replace (hd NIL (M ++ up :: L3)) with (hd up M) by (destruct M; reflexivity).
    rewrite (IH (L1 ++ [x])); [reflexivity| |simpl in Hf; lia].
    rewrite E0, <- app_assoc. reflexivity.
Qed.

End Walk.

(** * Descending by key *)

Section Descent.

Variables K V : Type.
Variable compare : K -> K -> Z.
Implicit Types (s : state K V) (p q : ptr) (t l r : tree) (c : ctx).

Local Abbreviation cmp_path := (cmp_path compare).

(** [search] and the walk of [insert] follow [searchEntry]. *)
Lemma insert_loop_searchEntry s k : forall fuel p b n,
  insert_loop compare fuel s k p b n =
  match searchEntry_loop compare fuel s k p n b with
  | Some (n', p', b') =>
    Some (if Nat.eqb n' NIL then inr (p', b') else inl n')
  | None => None
  end.
Proof.
  induction fuel as [|f IH]; intros p b n; cbn [insert_loop searchEntry_loop]; auto.
  destruct (Nat.eqb n NIL) eqn:En; [rewrite En; reflexivity|].
  cbv zeta.
  destruct (compare k (key (node s n)) =? 0); [rewrite En; reflexivity|].
  destruct (compare k (key (node s n)) <? 0); apply IH.
Qed.

Lemma search_loop_searchEntry s k : forall fuel p b n,
  search_loop compare fuel s k n =
  match searchEntry_loop compare fuel s k p n b with
  | Some (n', _, _) => Some n'
  | None => None
  end.
Proof.
  induction fuel as [|f IH]; intros p b n; cbn [search_loop searchEntry_loop]; auto.
  destruct (Nat.eqb n NIL) eqn:En.
  - apply Nat.eqb_eq in En. subst n. reflexivity.
  - cbv zeta.
    destruct (compare k (key (node s n)) =? 0); [reflexivity|].
    destruct (compare k (key (node s n)) <? 0); apply IH.
Qed.

(** The walk ends on a node whose key compares equal, or in an empty
    slot. *)
Lemma searchEntry_loop_spec s k : forall t c fuel p b,
  Rep s (cparent NIL c) t -> at_slot c p b -> cmp_path s k c ->
  (length (ptrs t) < fuel)%nat ->
  exists n p' b', searchEntry_loop compare fuel s k p (rootp t) b = Some (n, p', b') /\
    ((n <> NIL /\ exists c' l r,
        plug c t = plug c' (T l n r) /\ at_slot c' p' b' /\
        compare k (key (node s n)) = 0 /\ cmp_path s k c') \/
     (n = NIL /\ exists c',
        plug c t = plug c' E /\ at_slot c' p' b' /\ cmp_path s k c')).
Proof.
  induction t as [|l IHl x r IHr]; intros c fuel p b HR Hs Hc Hf;
    (destruct fuel as [|f]; [simpl in Hf; lia|]); cbn [searchEntry_loop rootp].
  - exists NIL, p, b. split; [reflexivity|]. right. split; auto. exists c. auto.
  - cbn [Rep] in HR. destruct HR as (Hx & Hxp & Hxl & Hxr & HRl & HRr).
    rewrite (neqb Hx). cbv zeta.
    destruct (Z.eqb_spec (compare k (key (node s x))) 0) as [E0|N0].
    + exists x, p, b. split; [reflexivity|]. left. split; auto.
      exists c, l, r. auto.
    + cbn [ptrs] in Hf. rewrite length_app in Hf. cbn [length] in Hf.
      destruct (Z.ltb_spec (compare k (key (node s x))) 0) as [L0|G0].
      * rewrite Hxl.
        destruct (IHl (FL x r :: c) f x Left) as (n & p' & b' & E1 & H1);
          cbn [cparent at_slot cmp_path]; auto; try lia.
        exists n, p', b'. split; [exact E1|]. exact H1.
      * rewrite Hxr.
        destruct (IHr (FR l x :: c) f x Right) as (n & p' & b' & E1 & H1);
          cbn [cparent at_slot cmp_path]; auto; try lia.
        { split; [lia|auto]. }
        exists n, p', b'. split; [exact E1|]. exact H1.
Qed.

End Descent.

(** * The invariant of the map *)

Section Shape.

Variables K V : Type.
Implicit Types (s : state K V) (p q : ptr) (t l r : tree) (c : ctx).

Lemma shape_ranked s t : shape s t -> ranked s.
Proof.
  intros ((HR & Hroot & _) & _ & (k & Hw) & _). exists t, k. auto.
Qed.

Lemma shape_empty (undefK : K) (undefV : V) : shape (empty undefK undefV) E.
Proof.
  repeat split; cbn; auto; try lia; try tauto;
    first [constructor | exists (-1); reflexivity | intros q []].
Qed.

Lemma shape_clear s t : shape s t -> shape (clear s) E.
Proof.
  intros ((_ & _ & _ & _ & HN) & Hn & _ & _). unfold clear.
  destruct HN as (N1 & N2 & N3 & N4 & N5).
  repeat split; cbn [Rep ptrs rootp wavl]; store; auto; try tauto;
    first [constructor | exists (-1); reflexivity | intros q []].
Qed.

Lemma shape_set_value s t n v : shape s t -> shape (set_value s n v) t.
Proof.
  intros ((HR & Hroot & ND & Hb & HN) & Hn & (k & Hw) & Hl).
  destruct HN as (N1 & N2 & N3 & N4 & N5).
  split; [|split; [|split]].
  - split; [|split; [|split; [|split]]]; store; auto.
    + eapply Rep_ext; [|exact HR]. intros q _. unfold same_links. store. auto.
    + unfold NIL_ok. store. auto.
  - store. exact Hn.
  - exists k. eapply wavl_ext; [|exact Hw]. intros q _. store. reflexivity.
  - intros q Hq. store. auto.
Qed.

(** The result of [insertEmpty] in an empty slot of the tree. *)
Lemma inserted_shape s s' c key0 val0 T1 k' :
  shape s (plug c E) ->
  inserted s s' c (st_next s) key0 val0 T1 -> wavl s' T1 k' ->
  shape s' T1.
Proof.
  intros ((HR & Hroot & ND & Hb & HN) & Hn & _ & Hl)
         (A1 & A2 & A3 & A4 & A5 & A6 & A7 & A8 & A9 & A10) Hw.
  assert (Hfresh : ~ In (st_next s) (ptrs (plug c E))).
  { intros H. apply Hb in H. lia. }
  assert (HNIL : ~ In NIL (st_next s :: ptrs (plug c E))).
  { intros [H|H]; [unfold NIL in H; lia|].
    apply Rep_not_NIL in HR. contradiction. }
  rewrite ptrs_plug in ND, Hb, Hl, Hfresh. cbn [ptrs app] in ND, Hb, Hl, Hfresh.
  split; [|split; [|split]].
  - split; [exact A1|]. split; [|split; [|split]].
    + destruct A3 as [[E1 E2]|E1]; congruence.
    + rewrite A2. apply NoDup_app_iff in ND. destruct ND as (N1 & N2 & N3).
      apply NoDup_app_iff. rewrite in_app_iff in Hfresh.
      split; [auto|split].
      * constructor; auto.
      * apply disj_cons_r. split; auto.
    + intros q Hq. rewrite A2 in Hq. rewrite A4.
      apply in_app_or in Hq. destruct Hq as [Hq|[<-|Hq]]; [|lia|].
      * specialize (Hb q). rewrite in_app_iff in Hb. specialize (Hb (or_introl Hq)). lia.
      * specialize (Hb q). rewrite in_app_iff in Hb. specialize (Hb (or_intror Hq)). lia.
    + destruct HN as (N1 & N2 & N3 & N4 & N5).
      destruct (A9 NIL HNIL) as (E1 & E2 & E3).
      assert (HN0 : NIL <> st_next s) by (unfold NIL; lia).
      destruct (A5 NIL HN0) as (_ & _ & E5).
      unfold NIL_ok. rewrite E1, E2, E3, (A10 NIL HNIL), E5. auto.
  - lia.
  - exists k'. exact Hw.
  - intros q Hq. rewrite A2 in Hq.
    destruct (Nat.eq_dec q (st_next s)) as [->|Hne]; [exact A8|].
    destruct (A5 q Hne) as (_ & _ & E5). rewrite E5. apply Hl.
    apply in_app_or in Hq. rewrite in_app_iff.
    destruct Hq as [Hq|[Hq|Hq]]; auto. congruence.
Qed.

(** The result of [remove] on a node of the tree. *)
Lemma unlinked_shape s s' t n L1 L2 :
  shape s t -> ptrs t = L1 ++ n :: L2 ->
  unlinked s s' n True (L1 ++ L2) ->
  exists t', shape s' t' /\ ptrs t' = L1 ++ L2.
Proof.
  intros ((HR & Hroot & ND & Hb & HN) & Hn & _ & Hl) E0
         (T1 & k' & B1 & B2 & B3 & B4 & B5 & B6 & B7 & B8 & B9).
  exists T1. split; [|exact B3].
  assert (Hnn : n <> NIL).
  { apply Rep_not_NIL in HR. rewrite E0 in HR. intros ->. apply HR, in_elt. }
  assert (ND' : ~ In n (L1 ++ L2)).
  { rewrite E0 in ND. apply NoDup_remove_2 in ND. exact ND. }
  split; [|split; [|split]].
  - split; [exact B1|]. split; [exact (B2 I)|]. split; [|split].
    + rewrite B3. rewrite E0 in ND. apply NoDup_remove_1 in ND. exact ND.
    + intros q Hq. rewrite B3 in Hq. rewrite B6. apply Hb. rewrite E0.
      apply in_app_or in Hq. rewrite in_app_iff. simpl. tauto.
    + assert (HNIL : ~ In NIL (L1 ++ L2)).
      { apply Rep_not_NIL in B1. rewrite B3 in B1. exact B1. }
      destruct HN as (N1 & N2 & N3 & N4 & N5).
      destruct (B8 NIL HNIL) as (E1 & E2 & E3).
      destruct (B7 NIL) as (_ & _ & E5).
      rewrite (neqb (not_eq_sym Hnn)) in E5.
      unfold NIL_ok. rewrite E1, E2, E3, (B9 NIL HNIL), E5. auto.
  - lia.
  - exists k'. exact B4.
  - intros q Hq. rewrite B3 in Hq.
    destruct (B7 q) as (_ & _ & E5). rewrite E5.
    rewrite neqb by (intros ->; contradiction).
    apply Hl. rewrite E0. apply in_app_or in Hq. rewrite in_app_iff. simpl. tauto.
Qed.

End Shape.

(** * The tree operations on a well-formed map *)

Section Ops.

Variables K V : Type.
Variable compare : K -> K -> Z.
Implicit Types (s : state K V) (p q : ptr) (t l r : tree) (c : ctx).

Lemma insertEmpty_shape s c p b k v :
  shape s (plug c E) -> at_slot c p b ->
  exists s' t', insertEmpty s p b k v = Some (st_next s, s') /\
                ins_rel s s' c k v t'.
Proof.
  intros Hs Hslot. pose proof Hs as ((HR & Hroot & ND & Hb & HN) & Hn & (k0 & Hw) & Hl).
  destruct (@insertEmpty_ok K V s c p b k v k0) as (s' & T1 & k' & E1 & Hins & Hsz & Hw');
    auto.
  exists s', T1. split; [exact E1|].
  pose proof (@inserted_shape _ _ _ _ _ _ _ _ _ Hs Hins Hw') as Hs'.
  destruct Hins as (A1 & A2 & A3 & A4 & A5 & A6 & A7 & A8 & A9 & A10).
  unfold ins_rel. auto 10.
Qed.

Lemma remove_shape s t n L1 L2 :
  shape s t -> ptrs t = L1 ++ n :: L2 ->
  exists s' t', remove s n = Some s' /\ del_rel s s' n L1 L2 t'.
Proof.
  intros Hs E0. pose proof Hs as (Ht & Hn & (k0 & Hw) & Hl).
  destruct (@tree_of_split K V s t n L1 L2 Ht E0) as (c & l & r & -> & -> & ->).
  destruct Ht as (HR & Hroot & ND & Hb & HN).
  destruct (@remove_ok K V s c l n r k0 True) as (s' & E1 & Hu); auto.
  assert (Hu' : unlinked s s' n True ((before c ++ ptrs l) ++ ptrs r ++ after c))
    by (rewrite <- app_assoc; exact Hu).
  destruct (@unlinked_shape _ _ _ _ _ _ _ _ Hs E0 Hu') as (t' & Hs' & Ep).
  exists s', t'. split; [exact E1|].
  destruct Hu as (T1 & k' & B1 & B2 & B3 & B4 & B5 & B6 & B7 & B8 & B9).
  unfold del_rel. auto 10.
Qed.

(** [insert]: the value of a node is replaced, or a node is added where
    the walk ends. *)
Lemma insert_shape s t k v :
  shape s t ->
  exists old s' t', insert compare s k v = Some (old, s') /\ shape s' t' /\
    ((exists n, In n (ptrs t) /\ compare k (key (node s n)) = 0 /\
        old = Some (value (node s n)) /\ s' = set_value s n v /\ t' = t) \/
     (old = None /\ exists c, t = plug c E /\ cmp_path compare s k c /\
        ins_rel s s' c k v t')).
Proof.
  intros Hs. pose proof Hs as (Ht & _).
  pose proof (@tree_of_fuel K V s t Ht) as Hf.
  destruct Ht as (HR & Hroot & _).
  unfold insert. rewrite insert_loop_searchEntry, Hroot.
  destruct (@searchEntry_loop_spec K V compare s k t [] (gas s) NIL Left)
    as (n & p' & b' & E1 & [(Hn & c' & l & r & Ep & Hslot & Hk & Hc)
                           |(Hn & c' & Ep & Hslot & Hc)]);
    cbn [cparent at_slot cmp_path]; auto; rewrite E1; cbn [plug] in Ep.
  - rewrite (neqb Hn). unfold replace.
    exists (Some (value (node s n))), (set_value s n v), t.
    split; [reflexivity|]. split; [apply shape_set_value; auto|].
    left. exists n. repeat split; auto. rewrite Ep. in_solve.
  - subst n. rewrite Nat.eqb_refl. subst t.
    destruct (@insertEmpty_shape s c' p' b' k v Hs Hslot) as (s' & t' & E2 & Hrel).
    rewrite E2. exists None, s', t'. split; [reflexivity|].
    split; [apply Hrel|]. right. split; auto. exists c'. auto.
Qed.

(** [search] finds a node of the tree or nothing. *)
Lemma search_shape s t k :
  shape s t ->
  exists n, search compare s k = Some n /\ (n = NIL \/ In n (ptrs t)).
Proof.
  intros (Ht & _). pose proof (@tree_of_fuel K V s t Ht) as Hf.
  destruct Ht as (HR & Hroot & _).
  unfold search. rewrite (search_loop_searchEntry compare s k (gas s) NIL Left), Hroot.
  destruct (@searchEntry_loop_spec K V compare s k t [] (gas s) NIL Left)
    as (n & p' & b' & E1 & [(Hn & c' & l & r & Ep & _)|(Hn & _)]);
    cbn [cparent at_slot cmp_path]; auto; rewrite E1; exists n; split; auto.
  right. cbn [plug] in Ep. rewrite Ep. in_solve.
Qed.

End Ops.

(** * Slots next to a node *)

Lemma rightmost_decomp (t : tree) :
  t <> E ->
  exists cm B, t = plug cm (T B (last (ptrs t) NIL) E) /\ after cm = [].
Proof.
  induction t as [|a _ p b IH]; [congruence|]. intros _.
  destruct b as [|ba bp bb].
  - exists [], a. cbn [ptrs plug after]. rewrite last_app by discriminate.
    split; reflexivity.
  - destruct IH as (cm & B & E0 & Ha); [discriminate|].
    assert (El : last (ptrs (T a p (T ba bp bb))) NIL
                 = last (ptrs (T ba bp bb)) NIL).
    { change (ptrs (T a p (T ba bp bb))) with (ptrs a ++ [p] ++ ptrs (T ba bp bb)).
      rewrite app_assoc, last_app by apply ptrs_T_ne. reflexivity. }
    exists (cm ++ [FR a p]), B. split.
    + rewrite El, plug_app. cbn [plug]. rewrite <- E0. reflexivity.
    + rewrite after_app, Ha. reflexivity.
Qed.

Lemma leftmost_decomp (t : tree) :
  t <> E ->
  exists cm B, t = plug cm (T E (hd NIL (ptrs t)) B) /\ before cm = [].
Proof.
  induction t as [|a IH p b _]; [congruence|]. intros _.
  destruct a as [|aa ap ab].
  - exists [], b. split; reflexivity.
  - destruct IH as (cm & B & E0 & Hb); [discriminate|].
    assert (Eh : hd NIL (ptrs (T (T aa ap ab) p b)) = hd NIL (ptrs (T aa ap ab))).
    { change (ptrs (T (T aa ap ab) p b)) with (ptrs (T aa ap ab) ++ p :: ptrs b).
      apply hd_app, ptrs_T_ne. }
    exists (cm ++ [FL p b]), B. split.
    + rewrite Eh, plug_app. cbn [plug]. rewrite <- E0. reflexivity.
    + rewrite before_app, Hb. reflexivity.
Qed.

Section Slots.

Variables K V : Type.
Implicit Types (s : state K V) (p q : ptr) (t l r : tree) (c : ctx).

(** The empty slot just before the node [n]: its left child, or the right
    child of its predecessor. *)
Lemma slot_before s t n L1 L2 :
  tree_of s t -> ptrs t = L1 ++ n :: L2 ->
  exists c, t = plug c E /\ before c = L1 /\ after c = n :: L2 /\
    at_slot c (if Nat.eqb (left (node s n)) NIL then n else last L1 NIL)
              (if Nat.eqb (left (node s n)) NIL then Left else Right).
Proof.
  intros Ht E0.
  destruct (@tree_of_split K V s t n L1 L2 Ht E0) as (c0 & l & r & -> & -> & ->).
  destruct Ht as (HR & _). apply Rep_plug in HR. destruct HR as [HRn _].
  cbn [Rep] in HRn. destruct HRn as (_ & _ & Hnl & _ & HRl & _).
  rewrite Hnl. destruct l as [|la lp lb].
  - exists (FL n r :: c0). cbn [plug before after at_slot rootp ptrs].
    rewrite app_nil_r. auto.
  - assert (Hlp : lp <> NIL) by (cbn [Rep] in HRl; tauto).
    cbn [rootp]. rewrite (neqb Hlp).
    destruct (@rightmost_decomp (T la lp lb)) as (cm & B & El & Ha); [discriminate|].
    rewrite last_app by apply ptrs_T_ne.
    remember (last (ptrs (T la lp lb)) NIL) as m eqn:Em.
    remember (T la lp lb) as l eqn:Hl0.
    assert (Ep : ptrs l = before cm ++ ptrs B ++ [m]).
    { rewrite El, ptrs_plug, Ha. cbn [ptrs]. rewrite app_nil_r. reflexivity. }
    exists (FR B m :: cm ++ FL n r :: c0). split; [|split; [|split]].
    + cbn [plug]. rewrite plug_app. cbn [plug]. rewrite <- El. reflexivity.
    + cbn [before]. rewrite before_app. cbn [before].
      rewrite Ep, <- !app_assoc. reflexivity.
    + cbn [after]. rewrite after_app, Ha. reflexivity.
    + cbn [at_slot]. auto.
Qed.

Lemma slot_after s t n L1 L2 :
  tree_of s t -> ptrs t = L1 ++ n :: L2 ->
  exists c, t = plug c E /\ before c = L1 ++ [n] /\ after c = L2 /\
    at_slot c (if Nat.eqb (right (node s n)) NIL then n else hd NIL L2)
              (if Nat.eqb (right (node s n)) NIL then Right else Left).
Proof.
  intros Ht E0.
  destruct (@tree_of_split K V s t n L1 L2 Ht E0) as (c0 & l & r & -> & -> & ->).
  destruct Ht as (HR & _). apply Rep_plug in HR. destruct HR as [HRn _].
  cbn [Rep] in HRn. destruct HRn as (_ & _ & _ & Hnr & _ & HRr).
  rewrite Hnr. destruct r as [|ra rp rb].
  - exists (FR l n :: c0). cbn [plug before after at_slot rootp ptrs app].
    rewrite app_assoc. auto.
  - assert (Hrp : rp <> NIL) by (cbn [Rep] in HRr; tauto).
    cbn [rootp]. rewrite (neqb Hrp).
    destruct (@leftmost_decomp (T ra rp rb)) as (cm & B & Er & Hb); [discriminate|].
    rewrite hd_app by apply ptrs_T_ne.
    remember (hd NIL (ptrs (T ra rp rb))) as m eqn:Em.
    remember (T ra rp rb) as r eqn:Hr0.
    assert (Ep : ptrs r = m :: ptrs B ++ after cm).
    { rewrite Er, ptrs_plug, Hb. reflexivity. }
    exists (FL m B :: cm ++ FR l n :: c0). split; [|split; [|split]].
    + cbn [plug]. rewrite plug_app. cbn [plug]. rewrite <- Er. reflexivity.
    + cbn [before]. rewrite before_app, Hb. cbn [before].
      rewrite app_nil_r, app_assoc. reflexivity.
    + cbn [after]. rewrite after_app. cbn [after].
      rewrite Ep. cbn [app]. rewrite <- !app_assoc. reflexivity.
    + cbn [at_slot]. auto.
Qed.

Lemma predecessor_NIL s : NIL_ok s -> predecessor s NIL = Some NIL.
Proof.
  intros (N1 & N2 & _). unfold predecessor, gas. rewrite N2, N1. reflexivity.
Qed.

Lemma successor_NIL s : NIL_ok s -> successor s NIL = Some NIL.
Proof.
  intros (N1 & _ & N3 & _). unfold successor, gas. rewrite N3, N1. reflexivity.
Qed.

(** The neighbours the code computes for a vacant entry on the slot of
    [c]. *)
Lemma vacant_neighbours s c p b :
  tree_of s (plug c E) -> at_slot c p b ->
  (if Branch_eqb b Left
   then option_map (fun prev => (prev, p)) (predecessor s p)
   else option_map (fun next => (p, next)) (successor s p))
  = Some (last (before c) NIL, hd NIL (after c)).
Proof.
  intros Ht Hslot. destruct c as [|[x r|l x] c']; cbn [at_slot] in Hslot.
  - subst p. destruct Ht as (_ & _ & _ & _ & HN).
    rewrite predecessor_NIL, successor_NIL by exact HN.
    destruct b; reflexivity.
  - destruct Hslot as [-> ->]. cbn [Branch_eqb before after hd].
    assert (E0 : ptrs (plug (FL x r :: c') E) = before c' ++ x :: (ptrs r ++ after c'))
      by (rewrite ptrs_plug; reflexivity).
    rewrite (@predecessor_spec K V s _ x _ _ Ht E0). reflexivity.
  - destruct Hslot as [-> ->]. cbn [Branch_eqb before after hd].
    assert (E0 : ptrs (plug (FR l x :: c') E) = (before c' ++ ptrs l) ++ x :: after c')
      by (rewrite ptrs_plug; cbn [before after ptrs app];
          rewrite <- !app_assoc; reflexivity).
    rewrite (@successor_spec K V s _ x _ _ Ht E0).
    rewrite app_assoc, last_app by discriminate. reflexivity.
Qed.

End Slots.

(** * What a call does to a well-formed map *)

Section Steps.

Variables K V : Type.
Variable undefK : K.
Variable compare : K -> K -> Z.
Implicit Types (s : state K V) (p q : ptr) (t l r : tree) (c : ctx).

Local Abbreviation placed := (placed compare).

Local Abbreviation step := (step compare).

Local Abbreviation steps := (steps compare).

Lemma steps_one s t s' t' : step s t s' t' -> shape s' t' -> steps s t s' t'.
Proof. intros H Hs. eapply steps_cons; eauto. constructor. Qed.

Lemma steps_shape s t s' t' : shape s t -> steps s t s' t' -> shape s' t'.
Proof. intros Hs H. induction H; auto. Qed.

Local Abbreviation current_keyed := (current_keyed compare).

Local Abbreviation current := (current compare).

(** The loop of [forEachNode] under a callback that removes the node it
    is given: the stretch from the first node to [up] leaves the tree. *)
Lemma forEach_remove_loop (A : Type) (f : state K V -> A -> ptr -> A) up L3 :
  forall M s t L1 acc fuel,
  shape s t -> ptrs t = L1 ++ M ++ up :: L3 -> (S (length M) < fuel)%nat ->
  exists s' t' acc',
    forEachNode_loop
      (fun s acc n => match remove s n with
                      | Some s' => Some (s', f s acc n)
                      | None => None
                      end) fuel s acc up (hd up M) = Some (s', acc') /\
    steps s t s' t' /\ shape s' t' /\ ptrs t' = L1 ++ L3.
Proof.
  induction M as [|x M IH]; intros s t L1 acc fuel Hs E0 Hf;
    (destruct fuel as [|fuel]; [lia|]); cbn [forEachNode_loop hd app] in *.
  - assert (Hup : up <> NIL).
    { destruct Hs as (Ht & _).
      assert (Hin : In up (ptrs t)) by (rewrite E0; apply in_elt).
      pose proof (@tree_of_bounds K V s t _ Ht Hin). unfold NIL. lia. }
    rewrite (neqb Hup), Nat.eqb_refl.
    destruct (@remove_shape K V s t up L1 L3 Hs E0) as (s' & t' & E1 & Hd).
    rewrite E1. destruct fuel as [|fuel]; [cbn [length] in Hf; lia|].
    cbn [forEachNode_loop]. rewrite Nat.eqb_refl.
    exists s', t', (f s acc up). split; [reflexivity|].
    pose proof Hd as (Hs' & Ep & _).
    split; [|split; auto].
    apply steps_one; auto. eapply step_del; eauto.
  - assert (Hx : x <> NIL).
    { destruct Hs as (Ht & _).
      assert (Hin : In x (ptrs t)) by (rewrite E0; apply in_elt).
      pose proof (@tree_of_bounds K V s t _ Ht Hin). unfold NIL. lia. }
    assert (Hxu : x <> up).
    { destruct Hs as ((_ & _ & ND & _) & _). rewrite E0 in ND.
      apply NoDup_remove_2 in ND. intros ->. apply ND.
      rewrite !in_app_iff. right. right. left. reflexivity. }
    rewrite (neqb Hx), (neqb Hxu).
    rewrite (@successor_spec K V s t x L1 (M ++ up :: L3) (proj1 Hs) E0).
    replace (hd NIL (M ++ up :: L3)) with (hd up M) by (destruct M; reflexivity).
    destruct (@remove_shape K V s t x L1 (M ++ up :: L3) Hs E0) as (s1 & t1 & E1 & Hd).
    rewrite E1. pose proof Hd as (Hs1 & Ep1 & _).
    destruct (IH s1 t1 L1 (f s acc x) fuel Hs1 Ep1) as (s' & t' & acc' & E2 & Hst & Hs' & Ep).
    { cbn [length] in Hf. lia. }
    exists s', t', acc'. split; [exact E2|]. split; [|split; auto].
    eapply steps_cons; [eapply step_del; eauto|exact Hs1|exact Hst].
Qed.


Lemma validate_not_removed s n :
  validate s n = true -> removed (node s n) = true -> False.
Proof. unfold validate. intros H E0. rewrite E0 in H. discriminate. Qed.

(** An insertion in a checked slot. *)
Lemma insert_at_steps s c p b k v :
  shape s (plug c E) -> at_slot c p b ->
  validateKey compare s (last (before c) NIL) k (hd NIL (after c)) = None ->
  exists n s' t',
    insert_at s p b k v = (Ok (Occupied n), s') /\
    steps s (plug c E) s' t' /\ ins_rel s s' c k v t' /\ n = st_next s.
Proof.
  intros Hs Hslot Hv.
  destruct (@insertEmpty_shape K V s c p b k v Hs Hslot) as (s' & t' & E1 & Hrel).
  unfold insert_at. rewrite E1. exists (st_next s), s', t'.
  split; [reflexivity|]. split; [|auto].
  apply steps_one; [|apply Hrel].
  eapply step_ins; eauto. right. exact Hv.
Qed.

Lemma Occupied_insertBefore_steps s t n L1 L2 k v :
  shape s t -> ptrs t = L1 ++ n :: L2 ->
  (exists e, validateKey compare s (last L1 NIL) k n = Some e /\
             Occupied_insertBefore compare s n k v = (Throw e, s)) \/
  (validateKey compare s (last L1 NIL) k n = None /\
   exists c m s' t',
     t = plug c E /\ before c = L1 /\ after c = n :: L2 /\
     Occupied_insertBefore compare s n k v = (Ok (Occupied m), s') /\
     steps s t s' t' /\ ins_rel s s' c k v t' /\ m = st_next s).
Proof.
  intros Hs E0. pose proof Hs as (Ht & _).
  unfold Occupied_insertBefore.
  rewrite (@predecessor_spec K V s t n L1 L2 Ht E0).
  destruct (validateKey compare s (last L1 NIL) k n) as [e|] eqn:Hv.
  - left. exists e. auto.
  - right. split; [reflexivity|].
    destruct (@slot_before K V s t n L1 L2 Ht E0) as (c & -> & Hb & Ha & Hslot).
    destruct (@insert_at_steps s c _ _ k v Hs Hslot) as (m & s' & t' & E1 & Hst & Hrel & Em).
    { rewrite Hb, Ha. exact Hv. }
    exists c, m, s', t'. repeat (split; auto).
    destruct (Nat.eqb (left (node s n)) NIL); exact E1.
Qed.

Lemma Occupied_insertAfter_steps s t n L1 L2 k v :
  shape s t -> ptrs t = L1 ++ n :: L2 ->
  (exists e, validateKey compare s n k (hd NIL L2) = Some e /\
             Occupied_insertAfter compare s n k v = (Throw e, s)) \/
  (validateKey compare s n k (hd NIL L2) = None /\
   exists c m s' t',
     t = plug c E /\ before c = L1 ++ [n] /\ after c = L2 /\
     Occupied_insertAfter compare s n k v = (Ok (Occupied m), s') /\
     steps s t s' t' /\ ins_rel s s' c k v t' /\ m = st_next s).
Proof.
  intros Hs E0. pose proof Hs as (Ht & _).
  unfold Occupied_insertAfter.
  rewrite (@successor_spec K V s t n L1 L2 Ht E0).
  destruct (validateKey compare s n k (hd NIL L2)) as [e|] eqn:Hv.
  - left. exists e. auto.
  - right. split; [reflexivity|].
    destruct (@slot_after K V s t n L1 L2 Ht E0) as (c & -> & Hb & Ha & Hslot).
    destruct (@insert_at_steps s c _ _ k v Hs Hslot) as (m & s' & t' & E1 & Hst & Hrel & Em).
    { rewrite Hb, Ha, last_app by discriminate. exact Hv. }
    exists c, m, s', t'. repeat (split; auto).
    destruct (Nat.eqb (right (node s n)) NIL); exact E1.
Qed.

Lemma Vacant_insert_steps s c p b k v :
  shape s (plug c E) -> at_slot c p b ->
  (exists e,
     validateKey compare s (last (before c) NIL) k (hd NIL (after c)) = Some e /\
     Vacant_insert compare s p b k v = (Throw e, s)) \/
  (validateKey compare s (last (before c) NIL) k (hd NIL (after c)) = None /\
   exists m s' t',
     Vacant_insert compare s p b k v = (Ok (Occupied m), s') /\
     steps s (plug c E) s' t' /\ ins_rel s s' c k v t' /\ m = st_next s).
Proof.
  intros Hs Hslot. pose proof Hs as (Ht & _).
  unfold Vacant_insert.
  rewrite (@vacant_neighbours K V s c p b Ht Hslot).
  destruct (validateKey compare s (last (before c) NIL) k (hd NIL (after c)))
    as [e|] eqn:Hv.
  - left. exists e. auto.
  - right. split; [reflexivity|].
    destruct (@insert_at_steps s c p b k v Hs Hslot Hv) as (m & s' & t' & E1 & H1).
    exists m, s', t'. auto.
Qed.

(** The node a gap hangs from is not tombstoned. *)
Lemma slot_validate s c p b :
  shape s (plug c E) -> at_slot c p b -> validate s p = true.
Proof.
  intros Hs Hslot. pose proof Hs as ((_ & _ & _ & _ & HN) & _ & _ & Hl).
  unfold validate. destruct c as [|[x r|l x] c']; cbn [at_slot] in Hslot.
  - subst p. destruct HN as (_ & _ & _ & _ & N5). rewrite N5. reflexivity.
  - destruct Hslot as [-> _]. rewrite (Hl x); [reflexivity|].
    rewrite ptrs_plug. cbn [before after ptrs app]. in_solve.
  - destruct Hslot as [-> _]. rewrite (Hl x); [reflexivity|].
    rewrite ptrs_plug. cbn [before after ptrs app]. in_solve.
Qed.

Lemma pure_loop_state (A : Type) (f : A -> A) up : forall fuel s acc n s' acc',
  forEachNode_loop (fun s0 (z : A) (_ : ptr) => Some (s0, f z)) fuel s acc up n
    = Some (s', acc') -> s' = s.
Proof.
  induction fuel as [|fuel IH]; intros s acc n s' acc'; cbn [forEachNode_loop];
    [discriminate|].
  destruct (Nat.eqb n NIL); [intros H; inversion H; reflexivity|].
  destruct (if Nat.eqb n up then Some NIL else successor s n); [|discriminate].
  apply IH.
Qed.

Lemma entry_vacant_slot s t k p b ko :
  shape s t -> entry compare s k = Some (Vacant p b ko) ->
  exists c, t = plug c E /\ at_slot c p b /\ cmp_path compare s k c.
Proof.
  intros (Ht & _) He. pose proof (@tree_of_fuel K V s t Ht) as Hf.
  destruct Ht as (HR & Hroot & _).
  unfold entry, searchEntry in He. rewrite Hroot in He.
  destruct (@searchEntry_loop_spec K V compare s k t [] (gas s) NIL Left)
    as (n & p' & b' & E1 & [(Hn & _)|(Hn & c' & Ep & Hslot & Hc)]);
    cbn [cparent at_slot cmp_path]; auto; rewrite E1 in He.
  - rewrite (neqb Hn) in He. discriminate.
  - subst n. rewrite Nat.eqb_refl in He. inversion He; subst.
    exists c'. auto.
Qed.

(** The loop of a range that removes, from a range that is current. *)
Lemma forEach_remove_steps (A : Type) (f : state K V -> A -> ptr -> A)
    s t (rg : WAVLMapRange) (acc : A) (rm : bool) :
  shape s t -> current_range s t rg ->
  let '(x, _, s') :=
    forEachNode (fun s acc n => match remove s n with
                                | Some s' => Some (s', f s acc n)
                                | None => None
                                end) s rg acc rm in
  (exists t', steps s t s' t') /\ x <> Diverge.
Proof.
  intros Hs Hc. unfold forEachNode.
  destruct (Kind_eqb (kind rg) Removed); [split; [exists t; constructor|discriminate]|].
  destruct (isEmpty (kind rg)) eqn:Hk; [split; [exists t; constructor|discriminate]|].
  assert (Hd : kind rg = Default) by (destruct (kind rg); try discriminate; reflexivity).
  assert (El : lower (if rm then with_kind rg Removed else rg) = lower rg)
    by (destruct rm; reflexivity).
  assert (Eu : upper (if rm then with_kind rg Removed else rg) = upper rg)
    by (destruct rm; reflexivity).
  rewrite El, Eu.
  destruct (validate s (lower rg)) eqn:Hvl; cbn [negb];
    [|split; [exists t; constructor|discriminate]].
  destruct (validate s (upper rg)) eqn:Hvu; cbn [negb];
    [|split; [exists t; constructor|discriminate]].
  destruct (Hc Hd) as [(L1 & M & L3 & E0 & Elo)|[Hr|Hr]];
    [|exfalso; exact (@validate_not_removed s _ Hvl Hr)
     |exfalso; exact (@validate_not_removed s _ Hvu Hr)].
  rewrite Elo.
  destruct (@forEach_remove_loop A f (upper rg) L3 M s t L1 acc (gas s) Hs E0)
    as (s' & t' & acc' & E1 & Hst & _).
  { pose proof (@tree_of_fuel K V s t (proj1 Hs)) as Hf. rewrite E0 in Hf.
    rewrite !length_app in Hf. cbn [length] in Hf. lia. }
  rewrite E1. split; [exists t'; exact Hst|discriminate].
Qed.

(** Every call leaves a well-formed map, reached by changes of the kinds
    above; a call that changes the tree returns or throws. *)
Lemma run_steps (cl : call K V) s t :
  shape s t -> current s t cl ->
  (exists t', steps s t (snd (run undefK compare cl s)) t') /\
  (mutating cl = true -> fst (run undefK compare cl s) <> Diverge).
Proof.
  intros Hs Hc. pose proof Hs as (Ht & _).
  assert (Hnil : exists t', steps s t s t') by (exists t; constructor).
  destruct cl; cbn [run current mutating] in *.
  - (* set *)
    unfold Map_set.
    destruct (@insert_shape K V compare s t k v Hs)
      as (old & s' & t' & E1 & Hs' & [(n & Hn & _ & _ & -> & ->)
                                      |(_ & c & -> & Hp & Hrel)]);
      rewrite E1; cbn [option_map snd fst]; (split; [|discriminate]).
    + exists t. apply steps_one; auto. constructor; auto.
    + exists t'. apply steps_one; auto. eapply step_ins; eauto. left; auto.
  - (* insert *)
    unfold Map_insert.
    destruct (@insert_shape K V compare s t k v Hs)
      as (old & s' & t' & E1 & Hs' & [(n & Hn & _ & _ & -> & ->)
                                      |(_ & c & -> & Hp & Hrel)]);
      rewrite E1; cbn [snd fst]; (split; [|discriminate]).
    + exists t. apply steps_one; auto. constructor; auto.
    + exists t'. apply steps_one; auto. eapply step_ins; eauto. left; auto.
  - (* delete *)
    unfold Map_delete.
    destruct (@search_shape K V compare s t k Hs) as (n & E1 & [->|Hn]); rewrite E1.
    + cbn. split; [auto|discriminate].
    + destruct (in_split _ _ Hn) as (L1 & L2 & E0).
      destruct (@remove_shape K V s t n L1 L2 Hs E0) as (s' & t' & E2 & Hd).
      assert (Hnn : n <> NIL).
      { pose proof (@tree_of_bounds K V s t n Ht Hn). unfold NIL. lia. }
      rewrite (neqb Hnn), E2. cbn. split; [|discriminate].
      exists t'. apply steps_one; [eapply step_del; eauto|apply Hd].
  - (* remove *)
    unfold Map_remove.
    destruct (@search_shape K V compare s t k Hs) as (n & E1 & [->|Hn]); rewrite E1.
    + cbn. split; [auto|discriminate].
    + destruct (in_split _ _ Hn) as (L1 & L2 & E0).
      destruct (@remove_shape K V s t n L1 L2 Hs E0) as (s' & t' & E2 & Hd).
      assert (Hnn : n <> NIL).
      { pose proof (@tree_of_bounds K V s t n Ht Hn). unfold NIL. lia. }
      rewrite (neqb Hnn), E2. cbn. split; [|discriminate].
      exists t'. apply steps_one; [eapply step_del; eauto|apply Hd].
  - (* clear *)
    split; [|discriminate]. exists E. apply steps_one; [constructor|].
    eapply shape_clear; eauto.
  - split; [auto|discriminate].
  - unfold Entry_prev. destruct (inner_validate s e); cbn; split; auto; discriminate.
  - unfold Entry_next. destruct (inner_validate s e); cbn; split; auto; discriminate.
  - (* insertBefore *)
    unfold Entry_insertBefore.
    destruct (inner_validate s e) eqn:Hv; [|cbn; split; [auto|discriminate]].
    destruct e as [n|p b ko]; cbn [inner_insertBefore current_inner inner_validate inner_node] in *.
    + destruct Hc as [Hn|Hr]; [|exfalso; exact (@validate_not_removed s _ Hv Hr)].
      destruct (in_split _ _ Hn) as (L1 & L2 & E0).
      destruct (@Occupied_insertBefore_steps s t n L1 L2 k v Hs E0)
        as [(e & _ & E1)|(_ & c & m & s' & t' & _ & _ & _ & E1 & Hst & _)];
        rewrite E1; cbn; (split; [eauto|discriminate]).
    + destruct Hc as [(c & -> & Hslot)|Hr]; [|exfalso; exact (@validate_not_removed s _ Hv Hr)].
      destruct (@Vacant_insert_steps s c p b k v Hs Hslot)
        as [(e & _ & E1)|(_ & m & s' & t' & E1 & Hst & _)];
        rewrite E1; cbn; (split; [eauto|discriminate]).
  - (* insertAfter *)
    unfold Entry_insertAfter.
    destruct (inner_validate s e) eqn:Hv; [|cbn; split; [auto|discriminate]].
    destruct e as [n|p b ko]; cbn [inner_insertAfter current_inner inner_validate inner_node] in *.
    + destruct Hc as [Hn|Hr]; [|exfalso; exact (@validate_not_removed s _ Hv Hr)].
      destruct (in_split _ _ Hn) as (L1 & L2 & E0).
      destruct (@Occupied_insertAfter_steps s t n L1 L2 k v Hs E0)
        as [(e & _ & E1)|(_ & c & m & s' & t' & _ & _ & _ & E1 & Hst & _)];
        rewrite E1; cbn; (split; [eauto|discriminate]).
    + destruct Hc as [(c & -> & Hslot)|Hr]; [|exfalso; exact (@validate_not_removed s _ Hv Hr)].
      destruct (@Vacant_insert_steps s c p b k v Hs Hslot)
        as [(e & _ & E1)|(_ & m & s' & t' & E1 & Hst & _)];
        rewrite E1; cbn; (split; [eauto|discriminate]).
  - (* delete of an entry *)
    unfold Entry_delete.
    destruct (inner_validate s e) eqn:Hv; [|cbn; split; [auto|discriminate]].
    destruct e as [n|p b ko]; cbn [inner_delete current_inner inner_validate inner_node] in *;
      [|cbn; split; [auto|discriminate]].
    destruct Hc as [Hn|Hr]; [|exfalso; exact (@validate_not_removed s _ Hv Hr)].
    destruct (in_split _ _ Hn) as (L1 & L2 & E0).
    destruct (@remove_shape K V s t n L1 L2 Hs E0) as (s' & t' & E2 & Hd).
    rewrite E2. cbn. split; [|discriminate].
    exists t'. apply steps_one; [eapply step_del; eauto|apply Hd].
  - (* remove of an entry *)
    unfold Entry_remove.
    destruct (inner_validate s e) eqn:Hv; [|cbn; split; [auto|discriminate]].
    destruct e as [n|p b ko]; cbn [inner_remove current_inner inner_validate inner_node] in *;
      [|cbn; split; [auto|discriminate]].
    destruct Hc as [Hn|Hr]; [|exfalso; exact (@validate_not_removed s _ Hv Hr)].
    destruct (in_split _ _ Hn) as (L1 & L2 & E0).
    destruct (@remove_shape K V s t n L1 L2 Hs E0) as (s' & t' & E2 & Hd).
    rewrite E2. cbn. split; [|discriminate].
    exists t'. apply steps_one; [eapply step_del; eauto|apply Hd].
  - (* insert of a keyed entry *)
    unfold EntryWithKey_insert.
    destruct (inner_validate s e) eqn:Hv; [|cbn; split; [auto|discriminate]].
    destruct e as [n|p b ko]; cbn [current_keyed inner_validate inner_node] in *.
    + destruct Hc as [Hn|Hr]; [|exfalso; exact (@validate_not_removed s _ Hv Hr)].
      unfold replace. cbn. split; [|discriminate].
      exists t. apply steps_one; [constructor; auto|apply shape_set_value; auto].
    + destruct Hc as [(k & -> & He)|Hr]; [|exfalso; exact (@validate_not_removed s _ Hv Hr)].
      destruct (@entry_vacant_slot s t k p b (Some k) Hs He) as (c & -> & Hslot & Hp).
      destruct (@insertEmpty_shape K V s c p b k v Hs Hslot) as (s' & t' & E1 & Hrel).
      cbn [hint]. rewrite E1. cbn. split; [|discriminate].
      exists t'. apply steps_one; [|apply Hrel]. eapply step_ins; eauto. left; auto.
  - (* set of a keyed entry *)
    unfold EntryWithKey_set, EntryWithKey_insert.
    destruct (inner_validate s e) eqn:Hv; [|cbn; split; [auto|discriminate]].
    destruct e as [n|p b ko]; cbn [current_keyed inner_validate inner_node] in *.
    + destruct Hc as [Hn|Hr]; [|exfalso; exact (@validate_not_removed s _ Hv Hr)].
      unfold replace. cbn. split; [|discriminate].
      exists t. apply steps_one; [constructor; auto|apply shape_set_value; auto].
    + destruct Hc as [(k & -> & He)|Hr]; [|exfalso; exact (@validate_not_removed s _ Hv Hr)].
      destruct (@entry_vacant_slot s t k p b (Some k) Hs He) as (c & -> & Hslot & Hp).
      destruct (@insertEmpty_shape K V s c p b k v Hs Hslot) as (s' & t' & E1 & Hrel).
      cbn [hint]. rewrite E1. cbn. split; [|discriminate].
      exists t'. apply steps_one; [|apply Hrel]. eapply step_ins; eauto. left; auto.
  - (* count *)
    split; [|discriminate]. unfold Range_count.
    destruct (forEachNode _ s r 0 false) as [[x r'] s'] eqn:E1. cbn [snd].
    assert (s' = s); [|subst; auto].
    unfold forEachNode in E1.
    destruct (Kind_eqb (kind r) Removed); [inversion E1; auto|].
    destruct (isEmpty (kind r)); [inversion E1; auto|].
    destruct (negb (validate s (lower r))); [inversion E1; auto|].
    destruct (negb (validate s (upper r))); [inversion E1; auto|].
    destruct (forEachNode_loop _ (gas s) s 0 (upper r) (lower r)) as [[s1 a1]|] eqn:E2;
      inversion E1; subst; auto.
    eapply pure_loop_state with (f := fun z : Z => z + 1). exact E2.
  - (* delete of a range *)
    unfold Range_delete.
    pose proof (@forEach_remove_steps Z (fun _ (z : Z) _ => z + 1) s t r 0 true Hs Hc) as H.
    destruct (forEachNode _ s r 0 true) as [[x r'] s'].
    destruct H as [H1 H2]. cbn [snd fst]. split; [exact H1|].
    intros _. destruct x; cbn; congruence.
  - (* remove of a range *)
    unfold Range_remove.
    pose proof (@forEach_remove_steps (list (K * V))
                  (fun s0 acc n => acc ++ [(key (node s0 n), value (node s0 n))])
                  s t r [] true Hs Hc) as H.
    cbv zeta.
    destruct (forEachNode _ s r [] true) as [[x r'] s'].
    destruct H as [H1 H2]. cbn [snd fst]. split; [exact H1|].
    intros _. destruct x; cbn; congruence.
  - split; [auto|discriminate].
  - split; [auto|discriminate].
Qed.

End Steps.

(** * Order of the keys *)

Lemma ss_app_iff (A : Type) (R : A -> A -> Prop) (l1 l2 : list A) :
  StronglySorted R (l1 ++ l2) <->
  StronglySorted R l1 /\ StronglySorted R l2 /\
  (forall a b, In a l1 -> In b l2 -> R a b).
Proof.
  induction l1 as [|x l1 IH]; cbn [app].
  - split; [intros H; repeat split; auto; [constructor|intros a b []]|tauto].
  - split.
    + intros H. apply StronglySorted_inv in H. destruct H as [H1 H2].
      apply IH in H1. destruct H1 as (S1 & S2 & S3).
      rewrite Forall_forall in H2.
      repeat split; auto.
      * constructor; auto. rewrite Forall_forall. intros y Hy.
        apply H2, in_or_app; auto.
      * intros a b [<-|Ha] Hb; [apply H2, in_or_app; auto|auto].
    + intros (S1 & S2 & S3). apply StronglySorted_inv in S1. destruct S1 as [S1 F1].
      constructor.
      * apply IH. repeat split; auto. intros a b Ha Hb. apply S3; [right|]; auto.
      * rewrite Forall_forall in *. intros y Hy. apply in_app_or in Hy.
        destruct Hy as [Hy|Hy]; [auto|apply S3; [left|]; auto].
Qed.

Lemma ss_map (A B : Type) (R : B -> B -> Prop) (f : A -> B) (l : list A) :
  StronglySorted (fun a b => R (f a) (f b)) l <-> StronglySorted R (map f l).
Proof.
  induction l as [|x l IH]; cbn [map].
  - split; constructor.
  - split; intros H; apply StronglySorted_inv in H; destruct H as [H1 H2];
      constructor; try (apply IH; exact H1); rewrite Forall_forall in *.
    + intros y Hy. apply in_map_iff in Hy. destruct Hy as (a & <- & Ha). auto.
    + intros a Ha. apply H2. apply in_map. exact Ha.
Qed.

Lemma ss_ext (A : Type) (R R' : A -> A -> Prop) (l : list A) :
  (forall a b, In a l -> In b l -> R a b -> R' a b) ->
  StronglySorted R l -> StronglySorted R' l.
Proof.
  induction l as [|x l IH]; intros H S0; [constructor|].
  apply StronglySorted_inv in S0. destruct S0 as [S1 F1]. constructor.
  - apply IH; auto. intros a b Ha Hb. apply H; right; auto.
  - rewrite Forall_forall in *. intros y Hy. apply H; [left|right|]; auto.
Qed.

Lemma ss_last (A : Type) (R : A -> A -> Prop) (d : A) (l : list A) (a : A) :
  StronglySorted R l -> In a l -> a = last l d \/ R a (last l d).
Proof.
  intros S0 Ha. destruct (exists_last (l := l)) as (l' & x & ->).
  { intros ->. destruct Ha. }
  rewrite last_last. apply in_app_or in Ha. destruct Ha as [Ha|[<-|[]]]; auto.
  right. apply ss_app_iff in S0. destruct S0 as (_ & _ & S3). apply S3; [auto|left; auto].
Qed.

Lemma ss_hd (A : Type) (R : A -> A -> Prop) (d : A) (l : list A) (a : A) :
  StronglySorted R l -> In a l -> a = hd d l \/ R (hd d l) a.
Proof.
  intros S0 Ha. destruct l as [|x l]; [destruct Ha|]. cbn [hd].
  destruct Ha as [<-|Ha]; auto. right.
  apply StronglySorted_inv in S0. destruct S0 as [_ F]. rewrite Forall_forall in F. auto.
Qed.

Section Order.

Variables K V : Type.
Variable undefK : K.
Variable compare : K -> K -> Z.
Implicit Types (s : state K V) (p q : ptr) (t l r : tree) (c : ctx).

(** The laws of a comparator: it is antisymmetric in sign, and [<=] is
    transitive. *)
Hypothesis compare_sym : forall a b, compare a b < 0 <-> compare b a > 0.
Hypothesis compare_trans :
  forall x y z : K, compare x y <= 0 -> compare y z <= 0 -> compare x z <= 0.

Lemma compare_lt_le (a b d : K) : compare a b < 0 -> compare b d <= 0 -> compare a d < 0.
Proof.
  intros H1 H2.
  destruct (Z_lt_ge_dec (compare a d) 0) as [H|H]; auto. exfalso.
  assert (H3 : compare d a <= 0).
  { destruct (Z_le_gt_dec (compare d a) 0); auto.
    apply compare_sym in g. lia. }
  pose proof (@compare_trans _ _ _ H2 H3) as H4.
  apply compare_sym in H1. apply Z.gt_lt in H1.
  destruct (Z_le_gt_dec (compare b a) 0); try lia.
Qed.

Lemma compare_le_lt (a b d : K) : compare a b <= 0 -> compare b d < 0 -> compare a d < 0.
Proof.
  intros H1 H2.
  destruct (Z_lt_ge_dec (compare a d) 0) as [H|H]; auto. exfalso.
  assert (H3 : compare d a <= 0).
  { destruct (Z_le_gt_dec (compare d a) 0); auto.
    apply compare_sym in g. lia. }
  pose proof (@compare_trans _ _ _ H3 H1) as H4.
  apply compare_sym in H2. lia.
Qed.

Lemma compare_lt_trans (a b d : K) : compare a b < 0 -> compare b d < 0 -> compare a d < 0.
Proof. intros H1 H2. apply compare_lt_le with b; auto. lia. Qed.

Lemma compare_eq_sym a b : compare a b = 0 -> compare b a = 0.
Proof.
  intros H.
  destruct (Z.lt_trichotomy (compare b a) 0) as [H1|[H1|H1]]; auto.
  - apply compare_sym in H1. lia.
  - apply Z.lt_gt, compare_sym in H1. lia.
Qed.

Local Abbreviation ordered := (ordered compare).

Local Abbreviation fits := (fits compare).

Lemma cmp_path_fits s k c : forall t,
  ordered s (ptrs (plug c t)) -> cmp_path compare s k c -> fits s k c.
Proof.
  induction c as [|[x r|l x] c IH]; intros t Ho Hp; cbn [cmp_path] in Hp.
  - split; intros q [].
  - destruct Hp as [Hx Hp]. cbn [plug] in Ho.
    destruct (IH _ Ho Hp) as [Hb Ha]. split; [exact Hb|].
    cbn [after]. intros q [<-|Hq]; auto.
    apply in_app_or in Hq. destruct Hq as [Hq|Hq]; auto.
    apply compare_lt_trans with (key (node s x)); auto.
    unfold ordered in Ho. rewrite ptrs_plug in Ho. cbn [ptrs] in Ho.
    apply ss_app_iff in Ho. destruct Ho as (_ & Ho & _).
    apply ss_app_iff in Ho. destruct Ho as (Ho & _).
    apply ss_app_iff in Ho. destruct Ho as (_ & Ho & _).
    apply StronglySorted_inv in Ho. destruct Ho as [_ F].
    rewrite Forall_forall in F. auto.
  - destruct Hp as [Hx Hp]. cbn [plug] in Ho.
    destruct (IH _ Ho Hp) as [Hb Ha]. split; [|exact Ha].
    apply Z.gt_lt in Hx. assert (Hx' : compare (key (node s x)) k < 0).
    { apply compare_sym. lia. }
    cbn [before]. intros q Hq. apply in_app_or in Hq. destruct Hq as [Hq|Hq]; auto.
    apply in_app_or in Hq. destruct Hq as [Hq|[<-|[]]]; auto.
    apply compare_lt_trans with (key (node s x)); auto.
    unfold ordered in Ho. rewrite ptrs_plug in Ho. cbn [ptrs] in Ho.
    apply ss_app_iff in Ho. destruct Ho as (_ & Ho & _).
    apply ss_app_iff in Ho. destruct Ho as (Ho & _).
    apply ss_app_iff in Ho. destruct Ho as (_ & _ & Ho).
    apply Ho; [auto|left; auto].
Qed.

Lemma validateKey_fits s k c :
  ~ In NIL (before c ++ after c) ->
  ordered s (before c ++ after c) ->
  validateKey compare s (last (before c) NIL) k (hd NIL (after c)) = None ->
  fits s k c.
Proof.
  intros HN Ho Hv. unfold validateKey in Hv.
  apply ss_app_iff in Ho. destruct Ho as (Ob & Oa & _).
  rewrite in_app_iff in HN.
  destruct (negb (Nat.eqb (last (before c) NIL) NIL)
            && (compare (key (node s (last (before c) NIL))) k >=? 0)) eqn:E1;
    [discriminate|].
  destruct (negb (Nat.eqb (hd NIL (after c)) NIL)
            && (compare k (key (node s (hd NIL (after c)))) >=? 0)) eqn:E2;
    [discriminate|].
  clear Hv. split; intros q Hq.
  - assert (Hl : In (last (before c) NIL) (before c)).
    { destruct (exists_last (l := before c)) as (l' & x & E0).
      - intros E0. rewrite E0 in Hq. destruct Hq.
      - rewrite E0, last_last. apply in_or_app. right. left. reflexivity. }
    assert (Hne : last (before c) NIL <> NIL) by (intros E0; rewrite E0 in Hl; tauto).
    rewrite (neqb Hne) in E1. cbn [negb andb] in E1.
    rewrite Z.geb_leb in E1; apply Z.leb_gt in E1.
    destruct (@ss_last _ _ NIL _ _ Ob Hq) as [->|Hlt]; auto.
    eapply compare_lt_trans; eauto.
  - assert (Hl : In (hd NIL (after c)) (after c)).
    { destruct (after c) as [|x l']; [destruct Hq|left; reflexivity]. }
    assert (Hne : hd NIL (after c) <> NIL) by (intros E0; rewrite E0 in Hl; tauto).
    rewrite (neqb Hne) in E2. cbn [negb andb] in E2.
    rewrite Z.geb_leb in E2; apply Z.leb_gt in E2.
    destruct (@ss_hd _ _ NIL _ _ Oa Hq) as [->|Hlt]; auto.
    eapply compare_lt_trans; eauto.
Qed.

Lemma ordered_ext s s' L :
  (forall q, In q L -> key (node s' q) = key (node s q)) ->
  ordered s L -> ordered s' L.
Proof.
  intros H. apply ss_ext. intros a b Ha Hb. rewrite (H a Ha), (H b Hb). auto.
Qed.

(** A change of the tree keeps the keys in order. *)
Lemma step_ordered s t s' t' :
  shape s t -> ordered s (ptrs t) -> step compare s t s' t' ->
  ordered s' (ptrs t').
Proof.
  intros Hs Ho Hst. destruct Hst as [n v Hn|c k v s' t' -> Hp Hrel
                                     |n L1 L2 s' t' E0 Hrel|].
  - eapply ordered_ext; [|exact Ho]. intros q _. store. reflexivity.
  - destruct Hrel as (Hs' & Ep & Ek & _ & Hfr & _).
    pose proof Hs as ((HR & _ & _ & Hb & _) & _).
    assert (Hfresh : ~ In (st_next s) (ptrs (plug c E))).
    { intros H. apply Hb in H. lia. }
    pose proof (Rep_not_NIL _ _ _ HR) as HNIL.
    assert (Hf : fits s k c).
    { destruct Hp as [Hp|Hp]; [eapply cmp_path_fits; eauto|].
      rewrite ptrs_plug in Ho, HNIL. cbn [ptrs app] in Ho, HNIL.
      apply validateKey_fits; auto. }
    rewrite ptrs_plug in Ho, Hfresh. cbn [ptrs app] in Ho, Hfresh.
    rewrite in_app_iff in Hfresh.
    rewrite Ep. unfold ordered in *. destruct Hf as [Hfb Hfa].
    apply ss_app_iff in Ho. destruct Ho as (Ob & Oa & Oba).
    assert (Hk : forall q, In q (before c ++ after c) ->
                   key (node s' q) = key (node s q)).
    { intros q Hq. apply Hfr. intros ->. apply in_app_or in Hq. tauto. }
    apply ss_app_iff. split; [|split].
    + eapply ss_ext; [|exact Ob]. intros a b Ha Hb0.
      rewrite !Hk by (apply in_or_app; auto). auto.
    + constructor.
      * eapply ss_ext; [|exact Oa]. intros a b Ha Hb0.
        rewrite !Hk by (apply in_or_app; auto). auto.
      * rewrite Forall_forall. intros q Hq. rewrite Ek, Hk by (apply in_or_app; auto).
        auto.
    + intros a b Ha [<-|Hb0].
      * rewrite Ek, Hk by (apply in_or_app; auto). auto.
      * rewrite !Hk by (apply in_or_app; auto). auto.
  - destruct Hrel as (_ & Ep & Hfr & _). rewrite Ep.
    rewrite E0 in Ho. unfold ordered in *.
    apply ss_app_iff in Ho. destruct Ho as (O1 & O2 & O3).
    apply StronglySorted_inv in O2. destruct O2 as [O2 _].
    assert (Hk : forall q, key (node s' q) = key (node s q)) by (intros q; apply Hfr).
    apply ss_app_iff. split; [|split].
    + eapply ss_ext; [|exact O1]. intros a b _ _. rewrite !Hk. auto.
    + eapply ss_ext; [|exact O2]. intros a b _ _. rewrite !Hk. auto.
    + intros a b Ha Hb0. rewrite !Hk. apply O3; [|right]; auto.
  - constructor.
Qed.

Lemma steps_ordered s t s' t' :
  shape s t -> ordered s (ptrs t) -> steps compare s t s' t' ->
  ordered s' (ptrs t').
Proof.
  intros Hs Ho H. revert Hs Ho.
  induction H as [|s t s1 t1 s2 t2 H1 Hs1 H2 IH]; intros Hs Ho; auto.
  apply IH; [exact Hs1|]. eapply step_ordered; [exact Hs|exact Ho|exact H1].
Qed.

End Order.

(** * What rebalancing never touches

    Rotations, promotions and demotions write links, parities and the
    root only: whatever the store, keys, values, tombstones, the size and
    the allocator are kept. *)

Section Data.

Variables K V : Type.
Implicit Types (s : state K V) (p q : ptr).

Lemma keeps_set_parent s s1 p v : keeps s s1 -> keeps s (set_parent s1 p v).
Proof.
  intros (A1 & A2 & A3). unfold keeps. store. repeat split; auto; apply A3.
Qed.

Lemma keeps_set_left s s1 p v : keeps s s1 -> keeps s (set_left s1 p v).
Proof.
  intros (A1 & A2 & A3). unfold keeps. store. repeat split; auto; apply A3.
Qed.

Lemma keeps_set_right s s1 p v : keeps s s1 -> keeps s (set_right s1 p v).
Proof.
  intros (A1 & A2 & A3). unfold keeps. store. repeat split; auto; apply A3.
Qed.

Lemma keeps_set_parity s s1 p v : keeps s s1 -> keeps s (set_parity s1 p v).
Proof.
  intros (A1 & A2 & A3). unfold keeps. store. repeat split; auto; apply A3.
Qed.

Lemma keeps_set_root s s1 p : keeps s s1 -> keeps s (set_root s1 p).
Proof.
  intros (A1 & A2 & A3). unfold keeps. store. repeat split; auto; apply A3.
Qed.

Lemma keeps_if s (b : bool) s1 s2 :
  keeps s s1 -> keeps s s2 -> keeps s (if b then s1 else s2).
Proof. destruct b; auto. Qed.

End Data.

Ltac keeps_tac :=
  repeat match goal with
  | H : keeps ?a ?b |- keeps ?a ?b => exact H
  | |- keeps ?a ?a => apply keeps_refl
  | |- keeps _ (set_parent _ _ _) => apply keeps_set_parent
  | |- keeps _ (set_left _ _ _) => apply keeps_set_left
  | |- keeps _ (set_right _ _ _) => apply keeps_set_right
  | |- keeps _ (set_parity _ _ _) => apply keeps_set_parity
  | |- keeps _ (set_root _ _) => apply keeps_set_root
  | |- keeps _ (if _ then _ else _) => apply keeps_if
  end.

Section DataLoops.

Variables K V : Type.
Implicit Types (s : state K V) (p q : ptr).

Lemma keeps_relink s s1 a b : keeps s s1 -> keeps s (relink s1 a b).
Proof. intros H. unfold relink. keeps_tac. Qed.

Lemma keeps_promote s s1 p : keeps s s1 -> keeps s (promote s1 p).
Proof. intros H. unfold promote. keeps_tac. Qed.

Lemma keeps_demote s s1 p : keeps s s1 -> keeps s (demote s1 p).
Proof. intros H. unfold demote. keeps_tac. Qed.

Lemma keeps_rotateLeft s s1 n r : keeps s s1 -> keeps s (rotateLeft s1 n r).
Proof.
  intros H. pose proof (keeps_relink n r H) as H1.
  unfold rotateLeft. cbv zeta. keeps_tac.
Qed.

Lemma keeps_rotateRight s s1 n l : keeps s s1 -> keeps s (rotateRight s1 n l).
Proof.
  intros H. pose proof (keeps_relink n l H) as H1.
  unfold rotateRight. cbv zeta. keeps_tac.
Qed.

Lemma keeps_rotateLeftRight s s1 p n r :
  keeps s s1 -> keeps s (rotateLeftRight s1 p n r).
Proof.
  intros H. pose proof (keeps_relink p r H) as H1.
  unfold rotateLeftRight. cbv zeta. keeps_tac.
Qed.

Lemma keeps_rotateRightLeft s s1 p n l :
  keeps s s1 -> keeps s (rotateRightLeft s1 p n l).
Proof.
  intros H. pose proof (keeps_relink p l H) as H1.
  unfold rotateRightLeft. cbv zeta. keeps_tac.
Qed.

End DataLoops.

Ltac keeps_all :=
  repeat match goal with
  | H : keeps ?a ?b |- keeps ?a ?b => exact H
  | |- keeps ?a ?a => apply keeps_refl
  | |- keeps _ (set_parent _ _ _) => apply keeps_set_parent
  | |- keeps _ (set_left _ _ _) => apply keeps_set_left
  | |- keeps _ (set_right _ _ _) => apply keeps_set_right
  | |- keeps _ (set_parity _ _ _) => apply keeps_set_parity
  | |- keeps _ (set_root _ _) => apply keeps_set_root
  | |- keeps _ (if _ then _ else _) => apply keeps_if
  | |- keeps _ (relink _ _ _) => apply keeps_relink
  | |- keeps _ (promote _ _) => apply keeps_promote
  | |- keeps _ (demote _ _) => apply keeps_demote
  | |- keeps _ (rotateLeft _ _ _) => apply keeps_rotateLeft
  | |- keeps _ (rotateRight _ _ _) => apply keeps_rotateRight
  | |- keeps _ (rotateLeftRight _ _ _ _) => apply keeps_rotateLeftRight
  | |- keeps _ (rotateRightLeft _ _ _ _) => apply keeps_rotateRightLeft
  end.

Section DataFixup.

Variables K V : Type.
Implicit Types (s : state K V) (p q : ptr).

Lemma insertFixup_loop_keeps : forall fuel s0 s n s',
  keeps s0 s -> insertFixup_loop fuel s n = Some s' -> keeps s0 s'.
Proof.
  induction fuel as [|f IH]; intros s0 s n s' H0; cbn [insertFixup_loop];
    [discriminate|].
  cbv zeta.
  repeat match goal with
  | |- (if ?b then _ else _) = _ -> _ => destruct b
  | |- (let '(_, _) := ?b in _) = _ -> _ => destruct b
  end;
  intros E0; try (inversion E0; subst; keeps_all; fail);
  (eapply IH; [|exact E0]; keeps_all).
Qed.

Lemma removeFixup_loop_keeps : forall fuel s0 s p n s',
  keeps s0 s -> removeFixup_loop fuel s p n = Some s' -> keeps s0 s'.
Proof.
  induction fuel as [|f IH]; intros s0 s p n s' H0; cbn [removeFixup_loop];
    [discriminate|].
  cbv zeta.
  repeat match goal with
  | |- (if ?b then _ else _) = _ -> _ => destruct b
  | |- (let '(_, _) := ?b in _) = _ -> _ => destruct b
  end;
  intros E0; try (inversion E0; subst; keeps_all; fail);
  (eapply IH; [|exact E0]; keeps_all).
Qed.

Lemma removeFixup_keeps s0 s p n s' :
  keeps s0 s -> removeFixup s p n = Some s' -> keeps s0 s'.
Proof.
  intros H0. unfold removeFixup. cbv zeta.
  repeat match goal with
  | |- context [if ?b then _ else _] => destruct b
  end;
  intros E0; try (inversion E0; subst; keeps_all; fail);
  (eapply removeFixup_loop_keeps; [|exact E0]; keeps_all).
Qed.

(** [insertEmpty] adds one node, with the key and value given, at the
    next address, and changes no other key, value or tombstone. *)
Lemma insertEmpty_data s p b (k : K) (v : V) n s' :
  insertEmpty s p b k v = Some (n, s') ->
  n = st_next s /\ key (node s' n) = k /\ value (node s' n) = v /\
  removed (node s' n) = false /\
  size s' = size s + 1 /\ st_next s' = S (st_next s) /\
  forall q, q <> n ->
    key (node s' q) = key (node s q) /\
    value (node s' q) = value (node s q) /\
    removed (node s' q) = removed (node s q).
Proof.
  unfold insertEmpty. cbv zeta.
  set (s1 := new_node s k v p).
  assert (Hk : forall s2, keeps s1 s2 ->
            forall z, Some (st_next s, set_size s2 z) = Some (n, s') ->
            z = size s + 1 ->
            n = st_next s /\ key (node s' n) = k /\ value (node s' n) = v /\
            removed (node s' n) = false /\
            size s' = size s + 1 /\ st_next s' = S (st_next s) /\
            forall q, q <> n ->
              key (node s' q) = key (node s q) /\
              value (node s' q) = value (node s q) /\
              removed (node s' q) = removed (node s q)).
  { intros s2 (A1 & A2 & A3) z E0 Ez. inversion E0; subst n s'. clear E0.
    store. rewrite A2. unfold s1. store.
    destruct (A3 (st_next s)) as (E1 & E2 & E3). rewrite E1, E2, E3.
    unfold s1. store.
    repeat split; auto.
    all: destruct (A3 q) as (F1 & F2 & F3); rewrite ?F1, ?F2, ?F3; unfold s1; store;
      reflexivity. }
  unfold insertFixup.
  repeat match goal with
  | |- context [if ?b then _ else _] => destruct b
  end;
  try match goal with
  | |- context [insertFixup_loop ?f ?a ?b] =>
    destruct (insertFixup_loop f a b) as [s2|] eqn:E2; [|discriminate];
    apply (@insertFixup_loop_keeps _ s1) in E2; [|unfold s1; keeps_all]
  end;
  intros E0;
  (eapply Hk; [|exact E0|]);
  try (unfold s1; keeps_all);
  try (destruct E2 as (A1 & _); rewrite A1); unfold s1; store; reflexivity.
Qed.

(** [remove] tombstones its node, takes one off the size, and changes no
    key, no value and no other tombstone; it allocates nothing. *)
Lemma remove_data s n s' :
  remove s n = Some s' ->
  size s' = size s - 1 /\ st_next s' = st_next s /\
  removed (node s' n) = true /\
  forall q,
    key (node s' q) = key (node s q) /\
    value (node s' q) = value (node s q) /\
    (q <> n -> removed (node s' q) = removed (node s q)).
Proof.
  unfold remove. cbv zeta.
  set (s2 := set_removed (set_size s (size s - 1)) n true).
  assert (Hk : keeps s2 s' ->
            size s' = size s - 1 /\ st_next s' = st_next s /\
            removed (node s' n) = true /\
            forall q,
              key (node s' q) = key (node s q) /\
              value (node s' q) = value (node s q) /\
              (q <> n -> removed (node s' q) = removed (node s q))).
  { intros (A1 & A2 & A3). rewrite A1, A2.
    destruct (A3 n) as (_ & _ & E3). rewrite E3.
    unfold s2. store. rewrite ?Nat.eqb_refl. repeat split; auto.
    all: destruct (A3 q) as (F1 & F2 & F3); rewrite ?F1, ?F2, ?F3; unfold s2;
      store; auto.
    intros Hq. apply Nat.eqb_neq in Hq. rewrite Hq. reflexivity. }
  repeat match goal with
  | |- (if ?b then _ else _) = _ -> _ => destruct b
  | |- match ?b with Some _ => _ | None => _ end = _ -> _ =>
    destruct b; [|discriminate]
  | |- (let '(_, _) := (if ?b then _ else _) in _) = _ -> _ => destruct b
  end;
  intros E0; apply Hk;
  try (inversion E0; subst s'; keeps_all; fail);
  (eapply removeFixup_keeps; [|exact E0]; keeps_all).
Qed.

End DataFixup.

(** * Ranges of keys *)

(** Two ways to cut one list, the first cut not after the second. *)
Lemma two_cuts (A : Type) : forall (L1 L2 M1 M2 : list A),
  L1 ++ L2 = M1 ++ M2 ->
  (forall x, In x L1 -> In x M2 -> False) ->
  exists Mid, M1 = L1 ++ Mid /\ L2 = Mid ++ M2.
Proof.
  induction L1 as [|x L1 IH]; intros L2 M1 M2 E0 Hd; cbn [app] in *.
  - exists M1. auto.
  - destruct M1 as [|y M1]; cbn [app] in E0.
    + exfalso. apply (Hd x); [left; reflexivity|]. rewrite <- E0. left. reflexivity.
    + inversion E0; subst y.
      destruct (IH L2 M1 M2) as (Mid & -> & ->); auto.
      * intros z Hz. apply Hd. right. exact Hz.
      * exists Mid. auto.
Qed.

Lemma filter_none (A : Type) (f : A -> bool) (l : list A) :
  (forall x, In x l -> f x = false) -> filter f l = [].
Proof.
  induction l as [|x l IH]; intros H; cbn [filter]; [reflexivity|].
  rewrite (H x) by (left; reflexivity). apply IH. intros y Hy. apply H. right. exact Hy.
Qed.

Lemma filter_all (A : Type) (f : A -> bool) (l : list A) :
  (forall x, In x l -> f x = true) -> filter f l = l.
Proof.
  induction l as [|x l IH]; intros H; cbn [filter]; [reflexivity|].
  rewrite (H x) by (left; reflexivity). f_equal. apply IH.
  intros y Hy. apply H. right. exact Hy.
Qed.

Lemma filter_map_swap (A B : Type) (f : B -> bool) (g : A -> B) (l : list A) :
  filter f (map g l) = map g (filter (fun x => f (g x)) l).
Proof.
  induction l as [|x l IH]; cbn [map filter]; [reflexivity|].
  destruct (f (g x)); cbn [map]; rewrite IH; reflexivity.
Qed.

Lemma hd_in (A : Type) (d : A) (l : list A) : l <> [] -> In (hd d l) l.
Proof. destruct l; [congruence|]. left. reflexivity. Qed.

Lemma last_in (A : Type) (d : A) (l : list A) : l <> [] -> In (last l d) l.
Proof.
  intros H. destruct (exists_last H) as (l' & a & ->).
  rewrite last_last. apply in_or_app. right. left. reflexivity.
Qed.

Lemma split_last (A : Type) (d : A) (l : list A) :
  l <> [] -> exists l', l = l' ++ [last l d] /\ hd d l = hd (last l d) l'.
Proof.
  intros H. destruct (exists_last H) as (l' & a & ->). rewrite last_last.
  exists l'. split; [reflexivity|]. destruct l'; reflexivity.
Qed.

Section Position.

Variables K V : Type.
Variable compare : K -> K -> Z.
Implicit Types (s : state K V) (p q : ptr) (t l r : tree) (c : ctx).

Hypothesis compare_sym : forall a b, compare a b < 0 <-> compare b a > 0.
Hypothesis compare_trans :
  forall x y z, compare x y <= 0 -> compare y z <= 0 -> compare x z <= 0.

Local Abbreviation position := (position compare).

Lemma search_position s t k :
  tree_of s t -> ordered compare s (ptrs t) -> t <> E ->
  exists n p b A B,
    searchEntry compare s k = Some (n, p, b) /\ position s t k n p b A B.
Proof.
  intros Ht Ho Hne. pose proof (@tree_of_fuel K V s t Ht) as Hf.
  pose proof Ht as (HR & Hroot & _).
  unfold searchEntry. rewrite Hroot.
  destruct (@searchEntry_loop_spec K V compare s k t [] (gas s) NIL Left)
    as (n & p & b & E1 & [(Hn & c & l & r & Ep & Hslot & Hk & Hc)
                         |(Hn & c & Ep & Hslot & Hc)]);
    cbn [cparent at_slot cmp_path]; auto; cbn [plug] in Ep; rewrite E1.
  - exists n, p, b, (before c ++ ptrs l), (ptrs r ++ after c).
    split; [reflexivity|].
    assert (E0 : ptrs t = (before c ++ ptrs l) ++ n :: ptrs r ++ after c).
    { rewrite Ep, ptrs_plug. cbn [ptrs]. rewrite <- !app_assoc. reflexivity. }
    rewrite E0 in Ho. unfold ordered in Ho. apply ss_app_iff in Ho.
    destruct Ho as (_ & Ho2 & Ho3). inversion Ho2 as [|? ? _ Hall]; subst.
    rewrite Forall_forall in Hall.
    pose proof (@compare_eq_sym K compare compare_sym _ _ Hk) as Hk'.
    split; [|split].
    + intros q Hq. apply (@compare_lt_le K compare compare_sym compare_trans)
        with (key (node s n)); [|lia].
      apply Ho3; [exact Hq|left; reflexivity].
    + intros q Hq. apply (@compare_le_lt K compare compare_sym compare_trans)
        with (key (node s n)); [lia|]. apply Hall. exact Hq.
    + left. auto.
  - exists n, p, b, (before c), (after c). split; [reflexivity|].
    assert (E0 : ptrs t = before c ++ after c)
      by (rewrite Ep, ptrs_plug; reflexivity).
    rewrite Ep in Ho.
    destruct (@cmp_path_fits K V compare compare_sym compare_trans s k c E Ho Hc)
      as (F1 & F2).
    split; [exact F1|]. split; [exact F2|]. right.
    split; [exact Hn|]. split; [exact E0|].
    rewrite Ep in Ht. pose proof (@vacant_neighbours K V s c p b Ht Hslot) as Hv.
    destruct c as [|[x r|l x] c']; cbn [at_slot] in Hslot.
    + cbn [plug] in Ep. contradiction.
    + destruct Hslot as [-> ->]. cbn [Branch_eqb] in Hv.
      left. cbn [after hd] in *. split; [reflexivity|]. split; [discriminate|].
      split; [reflexivity|].
      destruct (predecessor s x); cbn [option_map] in Hv; congruence.
    + destruct Hslot as [-> ->]. cbn [Branch_eqb] in Hv.
      right. cbn [before] in *.
      split; [reflexivity|].
      split; [intros H; apply app_eq_nil in H; destruct H as [_ H];
              apply app_eq_nil in H; destruct H; discriminate|].
      split; [rewrite app_assoc, last_last; reflexivity|].
      destruct (successor s x); cbn [option_map] in Hv; congruence.
Qed.

End Position.

Section Cuts.

Variables K V : Type.
Variable compare : K -> K -> Z.
Implicit Types (s : state K V) (p q : ptr) (t l r : tree) (c : ctx).

Hypothesis compare_sym : forall a b, compare a b < 0 <-> compare b a > 0.
Hypothesis compare_trans :
  forall x y z, compare x y <= 0 -> compare y z <= 0 -> compare x z <= 0.

Local Abbreviation inside := (inside compare).

Local Abbreviation selected := (selected compare).

Local Abbreviation upto := (upto compare).

Local Abbreviation from := (from compare).

Lemma not_lt_of_le x y : compare x y <= 0 -> ~ compare y x < 0.
Proof. intros H1 H2. apply compare_sym in H2. lia. Qed.

Lemma middle s a b exclusive (A' B' C' D' : list ptr) :
  A' ++ B' = C' ++ D' -> compare a b <= 0 ->
  (forall q, In q A' -> compare (key (node s q)) a < 0) ->
  (forall q, In q B' -> compare a (key (node s q)) <= 0) ->
  (forall q, In q C' -> upto s b exclusive q) ->
  (forall q, In q D' -> from s b exclusive q) ->
  exists Mid, C' = A' ++ Mid /\ B' = Mid ++ D' /\
    selected s a b exclusive (A' ++ B') = Mid.
Proof.
  intros E0 Hab PA PB PC PD.
  destruct (two_cuts A' B' C' D' E0) as (Mid & -> & ->).
  { intros x HA HD. apply PA in HA. apply PD in HD.
    assert (H : compare b (key (node s x)) <= 0)
      by (unfold from in HD; destruct exclusive; lia).
    pose proof (@compare_trans _ _ _ Hab H) as H1.
    exact (not_lt_of_le H1 HA). }
  exists Mid. split; [reflexivity|]. split; [reflexivity|].
  unfold selected. rewrite !filter_app.
  rewrite (@filter_none _ _ A'), (@filter_all _ _ Mid), (@filter_none _ _ D').
  - rewrite app_nil_r. reflexivity.
  - intros x Hx. apply PD in Hx. unfold inside, from in *.
    apply andb_false_iff. right. destruct exclusive.
    + apply Z.ltb_ge. destruct (Z_lt_ge_dec (compare (key (node s x)) b) 0) as [H|H];
        [exfalso; exact (not_lt_of_le Hx H)|lia].
    + apply Z.leb_gt. apply compare_sym in Hx. lia.
  - intros x Hx. unfold inside. apply andb_true_iff. split.
    + apply Z.leb_le. apply PB. apply in_or_app. left. exact Hx.
    + assert (H : upto s b exclusive x) by (apply PC, in_or_app; right; exact Hx).
      unfold upto in H. destruct exclusive; [apply Z.ltb_lt|apply Z.leb_le]; exact H.
  - intros x Hx. apply PA in Hx. unfold inside. apply andb_false_iff. left.
    apply Z.leb_gt. apply compare_sym in Hx. lia.
Qed.

(** The lower bound [searchRange] finds for a start key: the first node
    whose key is not less. *)
Lemma lower_spec s t a exclusive :
  tree_of s t -> ordered compare s (ptrs t) -> t <> E ->
  exists A' B',
    ptrs t = A' ++ B' /\
    (forall q, In q A' -> compare (key (node s q)) a < 0) /\
    (forall q, In q B' -> compare a (key (node s q)) <= 0) /\
    ((B' = [] /\
      searchRange_lower compare s (Some a) exclusive = Some (inr After)) \/
     (B' <> [] /\ exists prev,
        searchRange_lower compare s (Some a) exclusive
          = Some (inl (hd NIL B', Some prev)) /\
        (prev = last A' NIL \/
         (prev = NIL /\ compare a (key (node s (hd NIL B'))) = 0)))).
Proof.
  intros Ht Ho Hne.
  destruct (@search_position K V compare compare_sym compare_trans s t a Ht Ho Hne)
    as (n & p & b & A & B & E1 & PA & PB &
        [(Hn & E0 & Hk)|(Hn & E0 & [(-> & HB & -> & Hp)|(-> & HA & -> & Hp)])]);
    unfold searchRange_lower; rewrite E1.
  - exists A, (n :: B). split; [exact E0|]. split; [exact PA|].
    split; [intros q [<-|Hq]; [lia|apply PB in Hq; lia]|].
    right. split; [discriminate|]. rewrite (neqb Hn). cbn [negb hd].
    destruct exclusive.
    + rewrite (@predecessor_spec K V s t n A B Ht E0). eauto.
    + exists NIL. auto.
  - exists A, B. split; [exact E0|]. split; [exact PA|].
    split; [intros q Hq; apply PB in Hq; lia|].
    right. split; [exact HB|]. subst n. cbn [Nat.eqb negb Branch_eqb].
    rewrite Nat.eqb_refl. cbn [negb]. rewrite Hp. eauto.
  - exists A, B. split; [exact E0|]. split; [exact PA|].
    split; [intros q Hq; apply PB in Hq; lia|].
    subst n. rewrite Nat.eqb_refl. cbn [negb Branch_eqb]. rewrite Hp.
    destruct B as [|x B]; cbn [hd].
    + left. auto.
    + right. split; [discriminate|].
      assert (Hx : x <> NIL).
      { assert (Hin : In x (ptrs t)) by (rewrite E0; apply in_elt).
        pose proof (@tree_of_bounds K V s t _ Ht Hin). unfold NIL. lia. }
      rewrite (neqb Hx). eauto.
Qed.

End Cuts.

Section Upper.

Variables K V : Type.
Variable compare : K -> K -> Z.
Implicit Types (s : state K V) (p q : ptr) (t l r : tree) (c : ctx).

Hypothesis compare_sym : forall a b, compare a b < 0 <-> compare b a > 0.
Hypothesis compare_trans :
  forall x y z, compare x y <= 0 -> compare y z <= 0 -> compare x z <= 0.

Lemma default_range (L A' Mid D' : list ptr) :
  L = A' ++ Mid ++ D' -> Mid <> [] ->
  exists M0 L1 L3,
    L = L1 ++ M0 ++ last Mid NIL :: L3 /\
    hd NIL Mid = hd (last Mid NIL) M0 /\ Mid = M0 ++ [last Mid NIL].
Proof.
  intros E0 HM. destruct (split_last NIL HM) as (M0 & E1 & E2).
  exists M0, A', D'. split; [|split; [exact E2|exact E1]].
  rewrite E0. rewrite E1 at 1. rewrite <- !app_assoc. reflexivity.
Qed.

Local Abbreviation bounds := (bounds compare).

Lemma upper_spec s t a b exclusive lo prev (A' B' : list ptr) :
  tree_of s t -> ordered compare s (ptrs t) -> t <> E -> compare a b <= 0 ->
  ptrs t = A' ++ B' -> B' <> [] -> lo = hd NIL B' ->
  (forall q, In q A' -> compare (key (node s q)) a < 0) ->
  (forall q, In q B' -> compare a (key (node s q)) <= 0) ->
  (prev = last A' NIL \/
   (prev = NIL /\ compare a (key (node s lo)) = 0)) ->
  exists res,
    searchRange_upper compare s lo (Some prev) (Some b) exclusive = Some res /\
    bounds s t a b exclusive res.
Proof.
  intros Ht Ho Hne Hab EL HB Hlo PA PB Hprev.
  pose proof Ht as (HR & _ & ND & _ & _).
  assert (Hnil : forall q, In q (ptrs t) -> q <> NIL).
  { intros q Hq. pose proof (@tree_of_bounds K V s t _ Ht Hq). unfold NIL. lia. }
  destruct (@search_position K V compare compare_sym compare_trans s t b Ht Ho Hne)
    as (n & p & br & C & D & E1 & PC & PD & Hcase).
  assert (Tail : forall Mid,
            C <> [] -> C = A' ++ Mid -> B' = Mid ++ D ->
            selected compare s a b exclusive (A' ++ B') = Mid ->
            (n = NIL /\ ptrs t = C ++ D) ->
            exists res,
              (if same_node (Some prev) (last C NIL)
               then Some (last C NIL, lo, Exclusive)
               else Some (lo, last C NIL, Default)) = Some res /\
              bounds s t a b exclusive res).
  { intros Mid HC EC EB Esel (Hn & E0).
    assert (Hu : In (last C NIL) C) by (apply last_in; exact HC).
    destruct Mid as [|x Mid].
    - rewrite app_nil_r in EC. subst C. cbn [app] in EB. subst B'.
      destruct Hprev as [->|(-> & Hk)].
      + cbn [same_node]. rewrite Nat.eqb_refl. eexists. split; [reflexivity|].
        left. rewrite EL. auto.
      + exfalso. assert (Hin : In lo D) by (rewrite Hlo; apply hd_in; exact HB).
        apply PD in Hin.
        pose proof (@compare_eq_sym K compare compare_sym _ _ Hk) as Hk'.
        assert (H1 : compare (key (node s lo)) b <= 0)
          by (apply compare_trans with a; lia).
        exact (@not_lt_of_le K compare compare_sym _ _ H1 Hin).
    - assert (Eu : last C NIL = last (x :: Mid) NIL)
        by (rewrite EC; apply last_app; discriminate).
      assert (Hum : In (last (x :: Mid) NIL) (x :: Mid))
        by (apply last_in; discriminate).
      assert (Hne' : prev <> last C NIL).
      { rewrite Eu. assert (Hin : In (last (x :: Mid) NIL) (ptrs t)).
        { rewrite EL, EB. apply in_or_app. right. apply in_or_app. left. exact Hum. }
        destruct Hprev as [->|(-> & _)]; [|intros H; symmetry in H; exact (Hnil _ Hin H)].
        assert (HA : A' = [] \/ A' <> [])
          by (destruct A'; [left; reflexivity|right; discriminate]).
        destruct HA as [->|HA]; [intros H; symmetry in H; exact (Hnil _ Hin H)|].
        intros H.
        assert (HinA : In (last A' NIL) A') by (apply last_in; exact HA).
        rewrite EL, EB in ND. apply NoDup_app_iff in ND.
        destruct ND as (_ & _ & Hd). apply (Hd _ HinA).
        apply in_or_app. left. rewrite H. exact Hum. }
      cbn [same_node]. rewrite (neqb Hne'). eexists. split; [reflexivity|].
      right. destruct (@default_range (ptrs t) A' (x :: Mid) D) as (M0 & L1 & L3 & F1 & F2 & F3).
      { rewrite EL, EB. reflexivity. }
      { discriminate. }
      exists M0, L1, L3. rewrite Eu. split; [reflexivity|]. split; [exact F1|].
      split; [rewrite Hlo, EB; exact F2|]. rewrite EL, Esel. exact F3. }
  unfold searchRange_upper. rewrite E1.
  destruct Hcase as [(Hn & E0 & Hk)|(Hn & E0 & [(-> & HD & -> & Hp)|(-> & HC & -> & Hp)])].
  - rewrite (neqb Hn). cbn [negb]. clear Tail.
    pose proof (@compare_eq_sym K compare compare_sym _ _ Hk) as Hk'.
    destruct exclusive.
    + destruct (@middle K V compare compare_sym compare_trans s a b true A' B' C (n :: D))
        as (Mid & EC & EB & Esel); auto.
      { rewrite <- EL. exact E0. }
      { intros q [<-|Hq]; unfold from; [lia|apply PD in Hq; lia]. }
      destruct Mid as [|x Mid].
      * cbn [app] in EB. rewrite Hlo, EB. cbn [hd]. rewrite Nat.eqb_refl.
        eexists. split; [reflexivity|]. left. rewrite EL. auto.
      * assert (Hxn : lo <> n).
        { rewrite Hlo, EB. cbn [app hd]. rewrite EL, EB in ND.
          apply NoDup_app_iff in ND. destruct ND as (_ & ND & _).
          cbn [app] in ND. inversion ND as [|? ? Hni _]; subst.
          intros ->. apply Hni. apply in_elt. }
        rewrite (neqb Hxn), (@predecessor_spec K V s t n C D Ht E0).
        eexists. split; [reflexivity|]. right.
        destruct (@default_range (ptrs t) A' (x :: Mid) (n :: D))
          as (M0 & L1 & L3 & F1 & F2 & F3).
        { rewrite EL, EB. reflexivity. }
        { discriminate. }
        assert (Eu : last C NIL = last (x :: Mid) NIL)
          by (rewrite EC; apply last_app; discriminate).
        exists M0, L1, L3. rewrite Eu. split; [reflexivity|]. split; [exact F1|].
        split; [rewrite Hlo, EB; exact F2|]. rewrite EL, Esel. exact F3.
    + destruct (@middle K V compare compare_sym compare_trans s a b false A' B' (C ++ [n]) D)
        as (Mid & EC & EB & Esel); auto.
      { rewrite <- EL, E0, <- app_assoc. reflexivity. }
      { intros q Hq. unfold upto. apply in_app_or in Hq.
        destruct Hq as [Hq|[<-|[]]]; [apply PC in Hq; lia|lia]. }
      assert (HM : Mid <> []).
      { intros ->. rewrite app_nil_r in EC.
        assert (Hin : In n A') by (rewrite <- EC; apply in_or_app; right; left; reflexivity).
        apply PA in Hin.
        assert (H1 : compare a (key (node s n)) <= 0)
          by (apply compare_trans with b; lia).
        exact (@not_lt_of_le K compare compare_sym _ _ H1 Hin). }
      eexists. split; [reflexivity|]. right.
      destruct (@default_range (ptrs t) A' Mid D) as (M0 & L1 & L3 & F1 & F2 & F3); auto.
      { rewrite EL, EB. reflexivity. }
      assert (Eu : n = last Mid NIL).
      { assert (H : last (C ++ [n]) NIL = last (A' ++ Mid) NIL) by (rewrite EC; reflexivity).
        rewrite last_last in H. rewrite (@last_app _ NIL A' Mid HM) in H. exact H. }
      exists M0, L1, L3. rewrite Eu. split; [reflexivity|]. split; [exact F1|].
      split; [rewrite Hlo, EB, hd_app by exact HM; exact F2|].
      rewrite EL, Esel. exact F3.
  - subst n. rewrite Nat.eqb_refl. cbn [negb Branch_eqb]. rewrite Hp.
    cbn [negb andb].
    destruct (@middle K V compare compare_sym compare_trans s a b exclusive A' B' C D)
      as (Mid & EC & EB & Esel); auto.
    { rewrite <- EL. exact E0. }
    { intros q Hq. apply PC in Hq. unfold upto. destruct exclusive; lia. }
    { intros q Hq. apply PD in Hq. unfold from. destruct exclusive; lia. }
    assert (HC : C = [] \/ C <> [])
      by (destruct C; [left; reflexivity|right; discriminate]).
    destruct HC as [HC|HC].
    + rewrite HC in *. cbn [last]. rewrite Nat.eqb_refl.
      eexists. split; [reflexivity|].
      left. symmetry in EC. apply app_eq_nil in EC. destruct EC as [_ ->].
      rewrite EL. auto.
    + assert (Hu : last C NIL <> NIL).
      { apply Hnil. rewrite E0. apply in_or_app. left. apply last_in. exact HC. }
      rewrite (neqb Hu). apply (Tail Mid); auto.
  - subst n. rewrite Nat.eqb_refl. cbn [negb Branch_eqb andb].
    destruct (@middle K V compare compare_sym compare_trans s a b exclusive A' B' C D)
      as (Mid & EC & EB & Esel); auto.
    { rewrite <- EL. exact E0. }
    { intros q Hq. apply PC in Hq. unfold upto. destruct exclusive; lia. }
    { intros q Hq. apply PD in Hq. unfold from. destruct exclusive; lia. }
    apply (Tail Mid); auto.
Qed.

End Upper.

Lemma ss_filter (A : Type) (R : A -> A -> Prop) (f : A -> bool) (l : list A) :
  StronglySorted R l -> StronglySorted R (filter f l).
Proof.
  induction 1 as [|x l Hs IH Hall]; cbn [filter]; [constructor|].
  destruct (f x); [|exact IH]. constructor; [exact IH|].
  rewrite Forall_forall in *. intros y Hy. apply filter_In in Hy. apply Hall, Hy.
Qed.

Section Contents.

Variables K V : Type.
Variable compare : K -> K -> Z.
Implicit Types (s : state K V) (p q : ptr) (t l r : tree) (c : ctx).

Hypothesis compare_sym : forall a b, compare a b < 0 <-> compare b a > 0.
Hypothesis compare_trans :
  forall x y z, compare x y <= 0 -> compare y z <= 0 -> compare x z <= 0.

(** The counting walk of a range. *)
Lemma count_loop_spec s t up L3 : tree_of s t -> forall M L1 fuel acc,
  ptrs t = L1 ++ M ++ up :: L3 -> (S (length M) < fuel)%nat ->
  forEachNode_loop (fun s0 (z : Z) (_ : ptr) => Some (s0, z + 1)) fuel s acc up
                   (hd up M)
  = Some (s, acc + Z.of_nat (length (M ++ [up]))).
Proof.
  intros Ht. induction M as [|x M IH]; intros L1 fuel acc E0 Hf;
    (destruct fuel as [|fuel]; [lia|]); cbn [forEachNode_loop hd app] in *.
  - assert (Hx : up <> NIL).
    { assert (Hin : In up (ptrs t)) by (rewrite E0; apply in_elt).
      pose proof (@tree_of_bounds K V s t _ Ht Hin). unfold NIL. lia. }
    rewrite (neqb Hx), Nat.eqb_refl.
    destruct fuel as [|fuel]; [cbn [length] in Hf; lia|].
    cbn [forEachNode_loop Nat.eqb length]. rewrite Nat.eqb_refl. reflexivity.
  - assert (Hx : x <> NIL).
    { assert (Hin : In x (ptrs t)) by (rewrite E0; apply in_elt).
      pose proof (@tree_of_bounds K V s t _ Ht Hin). unfold NIL. lia. }
    assert (Hxu : x <> up).
    { destruct Ht as (_ & _ & ND & _). rewrite E0 in ND.
      apply NoDup_remove_2 in ND. intros ->. apply ND.
      rewrite !in_app_iff. right. right. left. reflexivity. }
    rewrite (neqb Hx), (neqb Hxu), (@successor_spec K V s t _ _ _ Ht E0).
    replace (hd NIL (M ++ up :: L3)) with (hd up M) by (destruct M; reflexivity).
    rewrite (IH (L1 ++ [x])).
    + f_equal. f_equal. cbn [length]. rewrite !length_app. cbn [length]. lia.
    + rewrite E0, <- app_assoc. reflexivity.
    + cbn [length] in Hf. lia.
Qed.

(** What the methods of a range give, from what [searchRange] found. *)
Lemma bounds_contents s t a b exclusive lo up kd :
  shape s t -> bounds compare s t a b exclusive (lo, up, kd) ->
  Range_inorder s (mkRange lo up kd)
    = Ok (selected compare s a b exclusive (ptrs t)) /\
  (Range_isEmpty (mkRange lo up kd) = true <->
   selected compare s a b exclusive (ptrs t) = []) /\
  Range_count s (mkRange lo up kd)
    = (Ok (Z.of_nat (length (selected compare s a b exclusive (ptrs t)))),
       mkRange lo up kd, s).
Proof.
  intros Hs Hb. pose proof Hs as (Ht & _ & _ & Hl).
  pose proof (@tree_of_fuel K V s t Ht) as Hf.
  unfold Range_inorder, Range_isEmpty, Range_count, forEachNode.
  cbn [kind lower upper].
  destruct Hb as [(Esel & Hk)|(M0 & L1 & L3 & -> & E0 & -> & Esel)];
    rewrite Esel.
  - rewrite Hk. split; [reflexivity|]. split; [tauto|].
    destruct kd; try discriminate; reflexivity.
  - cbn [isEmpty Kind_eqb negb].
    assert (Hup : In up (ptrs t)) by (rewrite E0; apply in_or_app; right; apply in_elt).
    assert (Hlo : In (hd up M0) (ptrs t)).
    { destruct M0 as [|x M0]; [exact Hup|]. rewrite E0. apply in_or_app. right.
      left. reflexivity. }
    unfold validate. rewrite (Hl _ Hlo), (Hl _ Hup). cbn [negb].
    assert (Hlen : (S (length M0) < gas s)%nat).
    { rewrite E0 in Hf. rewrite !length_app in Hf. cbn [length] in Hf. lia. }
    rewrite (@Range_inorder_loop_spec K V s t up L3 Ht M0 L1 (gas s) E0) by lia.
    rewrite (@count_loop_spec s t up L3 Ht M0 L1 (gas s) 0 E0 Hlen).
    split; [reflexivity|]. split; [|reflexivity].
    split; [discriminate|]. intros H. destruct M0; discriminate.
Qed.

(** [searchRange] on a well-formed map, for [a <= b]. *)
Lemma searchRange_bounds s t (a b : K) (exclusive : bool) :
  shape s t -> ordered compare s (ptrs t) -> compare a b <= 0 ->
  exists res,
    searchRange compare s (Some a) (Some b) exclusive = Ok res /\
    bounds compare s t a b exclusive res.
Proof.
  intros Hs Ho Hab. pose proof Hs as (Ht & _).
  unfold searchRange.
  assert (Hgt : (compare a b >? 0) = false)
    by (rewrite Z.gtb_ltb; apply Z.ltb_ge; lia).
  rewrite Hgt. pose proof Ht as (HR & Hroot & _). rewrite Hroot.
  destruct t as [|l x r].
  - cbn [rootp]. rewrite Nat.eqb_refl. eexists. split; [reflexivity|].
    left. split; reflexivity.
  - cbn [Rep] in HR. destruct HR as (Hx & _). cbn [rootp]. rewrite (neqb Hx).
    destruct (@lower_spec K V compare compare_sym compare_trans s
                (T l x r) a exclusive Ht Ho)
      as (A' & B' & EL & PA & PB & [(HB & E1)|(HB & prev & E1 & Hprev)]);
      [discriminate| |]; rewrite E1.
    + eexists. split; [reflexivity|]. left. split; [|reflexivity].
      subst B'. rewrite app_nil_r in EL. rewrite EL. unfold selected.
      apply filter_none. intros q Hq. apply PA in Hq. unfold inside.
      apply andb_false_iff. left. apply Z.leb_gt. apply compare_sym in Hq. lia.
    + destruct (@upper_spec K V compare compare_sym compare_trans s (T l x r)
                  a b exclusive (hd NIL B') prev A' B')
        as (res & E2 & Hb); auto; [discriminate|].
      rewrite E2. exists res. split; [reflexivity|exact Hb].
Qed.

(** C3: on a well-formed map with increasing keys, under a comparator
    that is an order, and for [a <= b]: [range(a, b, false)] returns a
    range whose [entries()] are the entries of the map with
    [a <= k <= b], and [range(a, b, true)] those with [a <= k < b], in
    the order of the map, which is increasing; [isEmpty] holds exactly
    when there is none, and [count()] is their number and leaves the map
    and the range as they are. *)
Theorem range_contents s t (a b : K) (exclusive : bool) :
  shape s t -> ordered compare s (ptrs t) -> compare a b <= 0 ->
  exists rg all,
    Map_range compare s (Some a) (Some b) exclusive = Ok rg /\
    Map_entries s = Some all /\
    Range_entries s rg
      = Ok (filter (fun kv => inside compare a b exclusive (fst kv)) all) /\
    (Range_isEmpty rg = true <->
     filter (fun kv => inside compare a b exclusive (fst kv)) all = []) /\
    Range_count s rg
      = (Ok (Z.of_nat (length (filter
               (fun kv => inside compare a b exclusive (fst kv)) all))),
         rg, s) /\
    StronglySorted (fun x y => compare (fst x) (fst y) < 0)
      (filter (fun kv => inside compare a b exclusive (fst kv)) all).
Proof.
  intros Hs Ho Hab. pose proof Hs as (Ht & _).
  assert (Hall : Map_entries s = Some (entries_of s (ptrs t)))
    by (unfold Map_entries; rewrite (@Map_inorder_spec K V s t Ht); reflexivity).
  assert (Hf : filter (fun kv => inside compare a b exclusive (fst kv))
                      (entries_of s (ptrs t))
               = entries_of s (selected compare s a b exclusive (ptrs t)))
    by (unfold entries_of, selected; rewrite filter_map_swap; reflexivity).
  assert (Hsorted : StronglySorted (fun x y => compare (fst x) (fst y) < 0)
                      (entries_of s (selected compare s a b exclusive (ptrs t)))).
  { unfold entries_of. apply ss_map. cbn [fst]. apply ss_filter. exact Ho. }
  destruct (@searchRange_bounds s t a b exclusive Hs Ho Hab)
    as ([[lo up] kd] & E1 & Hb).
  destruct (@bounds_contents s t a b exclusive lo up kd Hs Hb) as (B1 & B2 & B3).
  exists (mkRange lo up kd), (entries_of s (ptrs t)).
  split; [unfold Map_range, range; rewrite E1; reflexivity|].
  split; [exact Hall|]. rewrite Hf.
  split; [unfold Range_entries; rewrite B1; reflexivity|].
  split.
  { rewrite B2. unfold entries_of. split; [intros ->; reflexivity|].
    intros H. apply map_eq_nil in H. exact H. }
  split; [|exact Hsorted].
  rewrite B3. unfold entries_of. rewrite length_map. reflexivity.
Qed.

End Contents.

(** * The empty map, failed calls, and entries that take a new node *)

Section Basics.

Variables K V : Type.
Variable undefK : K.
Variable compare : K -> K -> Z.
Implicit Types (s : state K V) (p q : ptr) (e : Inner K).

Lemma minimum_sentinel s : left (node s NIL) = NIL -> minimum s NIL = Some NIL.
Proof. intros H. unfold minimum, gas. cbn [minimum_loop]. rewrite H. reflexivity. Qed.

Lemma maximum_sentinel s : right (node s NIL) = NIL -> maximum s NIL = Some NIL.
Proof. intros H. unfold maximum, gas. cbn [maximum_loop]. rewrite H. reflexivity. Qed.

(** C10: on a map with no entries, whose sentinel is its own left, right
    and parent, [minimum] and [maximum] of the sentinel are the sentinel;
    [first()] and [last()] throw nothing and return a vacant entry on the
    sentinel, with [isEmpty] true and [key], [value], [entry] undefined,
    whose [delete()] returns [false] and [remove()] returns [undefined],
    the map being left as it is. *)
Theorem first_last_empty s :
  root s = NIL -> NIL_ok s ->
  minimum s NIL = Some NIL /\ maximum s NIL = Some NIL /\
  Map_first s = Some (Vacant NIL Left None) /\
  Map_last s = Some (Vacant NIL Right None) /\
  forall e, Map_first s = Some e \/ Map_last s = Some e ->
    inner_isEmpty e = true /\
    inner_key s e = None /\ inner_value s e = None /\ inner_entry s e = None /\
    Entry_delete s e = (Ok false, s) /\
    Entry_remove s e = (Ok None, s).
Proof.
  intros Hroot (_ & Hl & Hr & _ & Hrm).
  pose proof (minimum_sentinel s Hl) as Hmin.
  pose proof (maximum_sentinel s Hr) as Hmax.
  assert (Hf : Map_first s = Some (Vacant NIL Left None))
    by (unfold Map_first; rewrite Hroot, Hmin; reflexivity).
  assert (Hla : Map_last s = Some (Vacant NIL Right None))
    by (unfold Map_last; rewrite Hroot, Hmax; reflexivity).
  repeat split; auto.
  all: destruct H as [H|H]; rewrite ?Hf, ?Hla in H; inversion H; subst e;
    try reflexivity.
  all: unfold Entry_delete, Entry_remove, inner_validate, validate;
    cbn [inner_node]; rewrite Hrm; reflexivity.
Qed.

Lemma validateKey_not_stale s prev k next er :
  validateKey compare s prev k next = Some er -> er <> NodeRemoved.
Proof.
  unfold validateKey.
  repeat match goal with
  | |- (if ?b then _ else _) = _ -> _ => destruct b
  end; intros H; inversion H; discriminate.
Qed.

End Basics.

Section Atomic.

Variables K V : Type.
Variable undefK : K.
Variable compare : K -> K -> Z.
Implicit Types (s : state K V) (p q : ptr) (e : Inner K).

Lemma insert_at_atomic s p b k (v : V) r s' er :
  insert_at s p b k v = (r, s') -> r = Throw er -> s' = s.
Proof.
  unfold insert_at. destruct (insertEmpty s p b k v) as [[n s1]|];
    intros H; inversion H; subst; intros; congruence.
Qed.

Lemma inner_insertBefore_atomic s e k (v : V) r s' er :
  inner_insertBefore compare s e k v = (r, s') -> r = Throw er -> s' = s.
Proof.
  destruct e as [n|n b ko]; cbn [inner_insertBefore];
    unfold Occupied_insertBefore, Vacant_insert.
  - destruct (predecessor s n) as [prev|]; [|intros H; inversion H; auto].
    destruct (validateKey compare s prev k n); [intros H; inversion H; auto|].
    destruct (Nat.eqb (left (node s n)) NIL); apply insert_at_atomic.
  - destruct (if Branch_eqb b Left
              then option_map (fun prev => (prev, n)) (predecessor s n)
              else option_map (fun next => (n, next)) (successor s n))
      as [[prev next]|]; [|intros H; inversion H; auto].
    destruct (validateKey compare s prev k next); [intros H; inversion H; auto|].
    apply insert_at_atomic.
Qed.

Lemma inner_insertAfter_atomic s e k (v : V) r s' er :
  inner_insertAfter compare s e k v = (r, s') -> r = Throw er -> s' = s.
Proof.
  destruct e as [n|n b ko]; cbn [inner_insertAfter];
    unfold Occupied_insertAfter, Vacant_insert.
  - destruct (successor s n) as [next|]; [|intros H; inversion H; auto].
    destruct (validateKey compare s n k next); [intros H; inversion H; auto|].
    destruct (Nat.eqb (right (node s n)) NIL); apply insert_at_atomic.
  - destruct (if Branch_eqb b Left
              then option_map (fun prev => (prev, n)) (predecessor s n)
              else option_map (fun next => (n, next)) (successor s n))
      as [[prev next]|]; [|intros H; inversion H; auto].
    destruct (validateKey compare s prev k next); [intros H; inversion H; auto|].
    apply insert_at_atomic.
Qed.

Lemma forEachNode_atomic (A : Type) (f : state K V -> A -> ptr -> option (state K V * A))
    s (rg : WAVLMapRange) (acc : A) rm er :
  fst (fst (forEachNode f s rg acc rm)) = Throw er ->
  snd (forEachNode f s rg acc rm) = s.
Proof.
  unfold forEachNode. cbv zeta.
  repeat match goal with
  | |- context [if ?x then _ else _] => destruct x
  end; cbn [fst snd]; auto; try discriminate.
  all: destruct (forEachNode_loop _ _ _ _ _ _) as [[s1 a1]|]; cbn [fst snd];
    auto; discriminate.
Qed.

(** C6: a call that throws ("The node is removed.", a key out of order,
    a start key greater than the end key, "This range is removed.")
    leaves the store as it found it: root, size and every field of every
    node. *)
Theorem throw_atomic (cl : call K V) s er :
  fst (run undefK compare cl s) = Throw er ->
  snd (run undefK compare cl s) = s.
Proof.
  destruct cl; cbn [run].
  - destruct (Map_set compare s k v); cbn [fst snd]; auto; discriminate.
  - destruct (Map_insert compare s k v) as [[o s1]|]; cbn [fst snd]; auto;
      discriminate.
  - destruct (Map_delete compare s k) as [[o s1]|]; cbn [fst snd]; auto;
      discriminate.
  - destruct (Map_remove compare s k) as [[o s1]|]; cbn [fst snd]; auto;
      discriminate.
  - discriminate.
  - reflexivity.
  - unfold Entry_prev. destruct (inner_validate s e); reflexivity.
  - unfold Entry_next. destruct (inner_validate s e); reflexivity.
  - unfold Entry_insertBefore. destruct (inner_validate s e); [|reflexivity].
    destruct (inner_insertBefore compare s e k v) as [r s1] eqn:E1.
    destruct r as [a|e1|]; cbn [fst snd ignore map_result]; try discriminate; auto.
    intros _. eapply inner_insertBefore_atomic; [exact E1|reflexivity].
  - unfold Entry_insertAfter. destruct (inner_validate s e); [|reflexivity].
    destruct (inner_insertAfter compare s e k v) as [r s1] eqn:E1.
    destruct r as [a|e1|]; cbn [fst snd ignore map_result]; try discriminate; auto.
    intros _. eapply inner_insertAfter_atomic; [exact E1|reflexivity].
  - unfold Entry_delete. destruct (inner_validate s e); [|reflexivity].
    destruct e as [n|n b ko]; cbn [inner_delete]; [|discriminate].
    destruct (remove s n); cbn [fst snd]; auto; discriminate.
  - unfold Entry_remove. destruct (inner_validate s e); [|reflexivity].
    destruct e as [n|n b ko]; cbn [inner_remove]; [|discriminate].
    destruct (remove s n); cbn [fst snd]; auto; discriminate.
  - unfold EntryWithKey_insert. destruct (inner_validate s e); [|reflexivity].
    destruct e as [n|n b ko].
    + unfold replace. cbn [fst snd ignore map_result]. discriminate.
    + destruct (insertEmpty s n b (hint undefK ko) v) as [[m s1]|];
        cbn [fst snd]; auto; discriminate.
  - unfold EntryWithKey_set, EntryWithKey_insert.
    destruct (inner_validate s e); [|reflexivity].
    destruct e as [n|n b ko].
    + unfold replace. cbn [fst snd ignore map_result]. discriminate.
    + destruct (insertEmpty s n b (hint undefK ko) v) as [[m s1]|];
        cbn [fst snd]; auto; discriminate.
  - unfold Range_count.
    match goal with |- context [forEachNode ?f s r ?a ?b] =>
      pose proof (@forEachNode_atomic _ f s r a b er) as H;
      destruct (forEachNode f s r a b) as [[x r1] s1] end.
    cbn [fst snd] in *. destruct x; cbn [ignore map_result]; try discriminate.
    intros E0. apply H. congruence.
  - unfold Range_delete.
    match goal with |- context [forEachNode ?f s r ?a ?b] =>
      pose proof (@forEachNode_atomic _ f s r a b er) as H;
      destruct (forEachNode f s r a b) as [[x r1] s1] end.
    cbn [fst snd] in *. destruct x; cbn [ignore map_result]; try discriminate.
    intros E0. apply H. congruence.
  - unfold Range_remove.
    match goal with |- context [forEachNode ?f s r ?a ?b] =>
      pose proof (@forEachNode_atomic _ f s r a b er) as H;
      destruct (forEachNode f s r a b) as [[x r1] s1] end.
    cbn [fst snd] in *. destruct x; cbn [ignore map_result]; try discriminate.
    intros E0. apply H. congruence.
  - reflexivity.
  - reflexivity.
Qed.

End Atomic.

Section Morphing.

Variables K V : Type.
Variable compare : K -> K -> Z.
Implicit Types (s : state K V) (p q : ptr) (e : Inner K).

Lemma insert_at_new s p b k (v : V) r s' :
  insert_at s p b k v = (Ok r, s') ->
  r = Occupied (st_next s) /\
  key (node s' (st_next s)) = k /\ value (node s' (st_next s)) = v.
Proof.
  unfold insert_at. destruct (insertEmpty s p b k v) as [[n s1]|] eqn:E1;
    intros H; inversion H; subst.
  destruct (insertEmpty_data _ _ _ _ _ E1) as (-> & Hk & Hv & _). auto.
Qed.

Lemma inner_insertBefore_new s e k (v : V) r s' :
  inner_insertBefore compare s e k v = (Ok r, s') ->
  r = Occupied (st_next s) /\
  key (node s' (st_next s)) = k /\ value (node s' (st_next s)) = v.
Proof.
  destruct e as [n|n b ko]; cbn [inner_insertBefore];
    unfold Occupied_insertBefore, Vacant_insert.
  - destruct (predecessor s n) as [prev|]; [|discriminate].
    destruct (validateKey compare s prev k n); [discriminate|].
    destruct (Nat.eqb (left (node s n)) NIL); apply insert_at_new.
  - destruct (if Branch_eqb b Left
              then option_map (fun prev => (prev, n)) (predecessor s n)
              else option_map (fun next => (n, next)) (successor s n))
      as [[prev next]|]; [|discriminate].
    destruct (validateKey compare s prev k next); [discriminate|].
    apply insert_at_new.
Qed.

Lemma inner_insertAfter_new s e k (v : V) r s' :
  inner_insertAfter compare s e k v = (Ok r, s') ->
  r = Occupied (st_next s) /\
  key (node s' (st_next s)) = k /\ value (node s' (st_next s)) = v.
Proof.
  destruct e as [n|n b ko]; cbn [inner_insertAfter];
    unfold Occupied_insertAfter, Vacant_insert.
  - destruct (successor s n) as [next|]; [|discriminate].
    destruct (validateKey compare s n k next); [discriminate|].
    destruct (Nat.eqb (right (node s n)) NIL); apply insert_at_new.
  - destruct (if Branch_eqb b Left
              then option_map (fun prev => (prev, n)) (predecessor s n)
              else option_map (fun next => (n, next)) (successor s n))
      as [[prev next]|]; [|discriminate].
    destruct (validateKey compare s prev k next); [discriminate|].
    apply insert_at_new.
Qed.

(** The part of C9 that holds of every call that returns, in any store. *)
Lemma insert_result_morphs s this k (v : V) this' ret s' :
  Entry_insertBefore compare s this k v = (Ok (this', ret), s') \/
  Entry_insertAfter compare s this k v = (Ok (this', ret), s') ->
  exists r,
    this' = (if inner_isEmpty this then r else this) /\ ret = r /\
    r = Occupied (st_next s) /\
    key (node s' (st_next s)) = k /\ value (node s' (st_next s)) = v.
Proof.
  intros H.
  destruct H as [H|H]; revert H;
    unfold Entry_insertBefore, Entry_insertAfter;
    (destruct (inner_validate s this); [|discriminate]).
  - destruct (inner_insertBefore compare s this k v) as [r s1] eqn:E1.
    destruct r as [r|er|]; try discriminate.
    intros H; inversion H; subst; clear H.
    eexists. split; [reflexivity|]. split; [reflexivity|].
    exact (inner_insertBefore_new _ _ _ _ E1).
  - destruct (inner_insertAfter compare s this k v) as [r s1] eqn:E1.
    destruct r as [r|er|]; try discriminate.
    intros H; inversion H; subst; clear H.
    eexists. split; [reflexivity|]. split; [reflexivity|].
    exact (inner_insertAfter_new _ _ _ _ E1).
Qed.

(** C9: [insertBefore] and [insertAfter] of an entry.

    Whenever one of them returns, in any store, the returned entry is
    occupied by a new node that holds the key and value given.  If the
    entry was vacant, its own inner entry is now that same occupied entry,
    so its [isEmpty] is false and its [key], [value] and [entry] read the
    inserted pair; if it was occupied, its inner entry is the one it had.

    And they do return.  On a well-formed map, both calls on a vacant
    entry on a gap return when [validateKey] accepts the key between the
    neighbours of the gap, and the entry then is the occupied entry of the
    new node and reads the inserted pair.  On the entry of a node [n] of
    the tree, [insertBefore] returns when [validateKey] accepts the key
    between the node before [n] and [n], and [insertAfter] when it accepts
    the key between [n] and the node after it; the entry then stays on
    [n] and reads the pair it read before, and the returned entry reads
    the inserted pair. *)
Theorem positional_insert_morphs s k (v : V) :
  (forall this this' ret s',
     Entry_insertBefore compare s this k v = (Ok (this', ret), s') \/
     Entry_insertAfter compare s this k v = (Ok (this', ret), s') ->
     ret = Occupied (st_next s) /\
     inner_key s' ret = Some k /\ inner_value s' ret = Some v /\
     inner_entry s' ret = Some (k, v) /\
     (inner_isEmpty this = true ->
        this' = ret /\ inner_isEmpty this' = false /\
        inner_key s' this' = Some k /\ inner_value s' this' = Some v /\
        inner_entry s' this' = Some (k, v)) /\
     (inner_isEmpty this = false -> this' = this)) /\
  (forall c p b ko,
     shape s (plug c E) -> at_slot c p b ->
     validateKey compare s (last (before c) NIL) k (hd NIL (after c)) = None ->
     exists s',
       Entry_insertBefore compare s (Vacant p b ko) k v
         = (Ok (Occupied (st_next s), Occupied (st_next s)), s') /\
       Entry_insertAfter compare s (Vacant p b ko) k v
         = (Ok (Occupied (st_next s), Occupied (st_next s)), s') /\
       inner_key s' (Occupied (st_next s)) = Some k /\
       inner_value s' (Occupied (st_next s)) = Some v /\
       inner_entry s' (Occupied (st_next s)) = Some (k, v)) /\
  (forall t n L1 L2,
     shape s t -> ptrs t = L1 ++ n :: L2 ->
     (validateKey compare s (last L1 NIL) k n = None ->
      exists s',
        Entry_insertBefore compare s (Occupied n) k v
          = (Ok (Occupied n, Occupied (st_next s)), s') /\
        inner_entry s' (Occupied (st_next s)) = Some (k, v) /\
        inner_entry s' (Occupied n) = inner_entry s (Occupied n)) /\
     (validateKey compare s n k (hd NIL L2) = None ->
      exists s',
        Entry_insertAfter compare s (Occupied n) k v
          = (Ok (Occupied n, Occupied (st_next s)), s') /\
        inner_entry s' (Occupied (st_next s)) = Some (k, v) /\
        inner_entry s' (Occupied n) = inner_entry s (Occupied n))).
Proof.
  split; [|split].
  - intros this this' ret s' H.
    destruct (@insert_result_morphs s this k v this' ret s' H) as (r & E1 & E2 & E3 & Hk & Hv).
    subst ret r.
    cbn [inner_key inner_value inner_entry]. rewrite Hk, Hv.
    do 4 (split; [reflexivity|]).
    split; intros Hem; rewrite Hem in E1; subst this';
      cbn [inner_isEmpty inner_key inner_value inner_entry];
      rewrite ?Hk, ?Hv; auto.
  - intros c p b ko Hs Hslot Hv.
    pose proof (@slot_validate K V s c p b Hs Hslot) as Hval.
    unfold Entry_insertBefore, Entry_insertAfter, inner_validate.
    cbn [inner_node inner_insertBefore inner_insertAfter]. rewrite Hval.
    destruct (@Vacant_insert_steps K V compare s c p b k v Hs Hslot)
      as [(e & Ev & _)|(_ & m & s' & t' & Er & _ & Hrel & ->)];
      [rewrite Hv in Ev; discriminate|].
    rewrite Er. exists s'. cbn [inner_isEmpty].
    destruct Hrel as (_ & _ & Ek & Ev & _).
    cbn [inner_key inner_value inner_entry]. rewrite Ek, Ev.
    do 4 (split; [reflexivity|]). reflexivity.
  - intros t n L1 L2 Hs E0. pose proof Hs as (Ht & _ & _ & Hl).
    assert (Hn : In n (ptrs t)) by (rewrite E0; apply in_elt).
    assert (Hfresh : n <> st_next s).
    { pose proof (@tree_of_bounds K V s t n Ht Hn) as B. intros Heq.
      rewrite Heq in B. destruct B as (_ & B). exact (Nat.lt_irrefl _ B). }
    unfold Entry_insertBefore, Entry_insertAfter, inner_validate, validate.
    cbn [inner_node inner_insertBefore inner_insertAfter].
    rewrite (Hl n Hn). cbn [negb inner_isEmpty].
    split; intros Hv.
    + destruct (@Occupied_insertBefore_steps K V compare s t n L1 L2 k v Hs E0)
        as [(e & Ev & _)|(_ & c & m & s' & t' & _ & _ & _ & Er & _ & Hrel & ->)];
        [rewrite Hv in Ev; discriminate|].
      rewrite Er. exists s'. split; [reflexivity|].
      destruct Hrel as (_ & _ & Ek & Ev & Hfr & _).
      destruct (Hfr n Hfresh) as (F1 & F2 & _).
      cbn [inner_entry]. rewrite Ek, Ev, F1, F2. split; reflexivity.
    + destruct (@Occupied_insertAfter_steps K V compare s t n L1 L2 k v Hs E0)
        as [(e & Ev & _)|(_ & c & m & s' & t' & _ & _ & _ & Er & _ & Hrel & ->)];
        [rewrite Hv in Ev; discriminate|].
      rewrite Er. exists s'. split; [reflexivity|].
      destruct Hrel as (_ & _ & Ek & Ev & Hfr & _).
      destruct (Hfr n Hfresh) as (F1 & F2 & _).
      cbn [inner_entry]. rewrite Ek, Ev, F1, F2. split; reflexivity.
Qed.

End Morphing.

(** * Cursors that stay valid, and consumed ranges *)

Section Validation.

Variables K V : Type.
Variable undefK : K.
Variable compare : K -> K -> Z.
Implicit Types (s : state K V) (p q : ptr) (e : Inner K) (t l r : tree) (c : ctx).

Lemma lift_not_throw (A : Type) (o : option A) er : lift o <> Throw er.
Proof. destruct o; discriminate. Qed.

Lemma insert_at_not_throw s p b k (v : V) er :
  fst (insert_at s p b k v) <> Throw er.
Proof.
  unfold insert_at. destruct (insertEmpty s p b k v) as [[n s1]|]; discriminate.
Qed.

Lemma inner_insertBefore_not_stale s e k (v : V) :
  fst (inner_insertBefore compare s e k v) <> Throw NodeRemoved.
Proof.
  destruct e as [n|n b ko]; cbn [inner_insertBefore];
    unfold Occupied_insertBefore, Vacant_insert.
  - destruct (predecessor s n) as [prev|]; [|discriminate].
    destruct (validateKey compare s prev k n) as [er|] eqn:E1.
    + cbn [fst]. intros H. inversion H. subst.
      exact (validateKey_not_stale _ _ _ _ _ E1 eq_refl).
    + destruct (Nat.eqb (left (node s n)) NIL); apply insert_at_not_throw.
  - destruct (if Branch_eqb b Left
              then option_map (fun prev => (prev, n)) (predecessor s n)
              else option_map (fun next => (n, next)) (successor s n))
      as [[prev next]|]; [|discriminate].
    destruct (validateKey compare s prev k next) as [er|] eqn:E1.
    + cbn [fst]. intros H. inversion H. subst.
      exact (validateKey_not_stale _ _ _ _ _ E1 eq_refl).
    + apply insert_at_not_throw.
Qed.

Lemma inner_insertAfter_not_stale s e k (v : V) :
  fst (inner_insertAfter compare s e k v) <> Throw NodeRemoved.
Proof.
  destruct e as [n|n b ko]; cbn [inner_insertAfter];
    unfold Occupied_insertAfter, Vacant_insert.
  - destruct (successor s n) as [next|]; [|discriminate].
    destruct (validateKey compare s n k next) as [er|] eqn:E1.
    + cbn [fst]. intros H. inversion H. subst.
      exact (validateKey_not_stale _ _ _ _ _ E1 eq_refl).
    + destruct (Nat.eqb (right (node s n)) NIL); apply insert_at_not_throw.
  - destruct (if Branch_eqb b Left
              then option_map (fun prev => (prev, n)) (predecessor s n)
              else option_map (fun next => (n, next)) (successor s n))
      as [[prev next]|]; [|discriminate].
    destruct (validateKey compare s prev k next) as [er|] eqn:E1.
    + cbn [fst]. intros H. inversion H. subst.
      exact (validateKey_not_stale _ _ _ _ _ E1 eq_refl).
    + apply insert_at_not_throw.
Qed.

(** A call on an entry whose node is not tombstoned does not throw
    "The node is removed.". *)
Lemma valid_entry_not_stale (cl : call K V) s e :
  call_entry cl = Some e -> inner_validate s e = true ->
  fst (run undefK compare cl s) <> Throw NodeRemoved.
Proof.
  intros Hc Hv.
  destruct cl; cbn [call_entry] in Hc; try discriminate; inversion Hc; subst;
    cbn [run].
  - unfold Entry_prev. rewrite Hv. cbn [fst].
    destruct (inner_prev s e); discriminate.
  - unfold Entry_next. rewrite Hv. cbn [fst].
    destruct (inner_next s e); discriminate.
  - unfold Entry_insertBefore. rewrite Hv.
    pose proof (@inner_insertBefore_not_stale s e k v) as H.
    destruct (inner_insertBefore compare s e k v) as [[a|er|] s1];
      cbn [fst ignore map_result] in *; congruence.
  - unfold Entry_insertAfter. rewrite Hv.
    pose proof (@inner_insertAfter_not_stale s e k v) as H.
    destruct (inner_insertAfter compare s e k v) as [[a|er|] s1];
      cbn [fst ignore map_result] in *; congruence.
  - unfold Entry_delete. rewrite Hv.
    destruct e as [n|n b ko]; cbn [inner_delete]; [|discriminate].
    destruct (remove s n); discriminate.
  - unfold Entry_remove. rewrite Hv.
    destruct e as [n|n b ko]; cbn [inner_remove]; [|discriminate].
    destruct (remove s n); discriminate.
  - unfold EntryWithKey_insert. rewrite Hv.
    destruct e as [n|n b ko]; [discriminate|].
    destruct (insertEmpty s n b (hint undefK ko) v) as [[m s1]|]; discriminate.
  - unfold EntryWithKey_set, EntryWithKey_insert. rewrite Hv.
    destruct e as [n|n b ko]; [discriminate|].
    destruct (insertEmpty s n b (hint undefK ko) v) as [[m s1]|]; discriminate.
Qed.

(** C8: [clear()] resets the root and the size and tombstones nothing.
    An occupied entry on a node that was in the map passes validation
    afterwards, so no call on it throws "The node is removed."; its
    [delete()] returns [true] and leaves the size at [-1]. *)
Theorem clear_keeps_cursors s t n :
  shape s t -> In n (ptrs t) ->
  root (clear s) = NIL /\ size (clear s) = 0 /\
  (forall q, removed (node (clear s) q) = removed (node s q)) /\
  inner_validate (clear s) (Occupied n) = true /\
  (forall cl, call_entry cl = Some (Occupied n) ->
     fst (run undefK compare cl (clear s)) <> Throw NodeRemoved) /\
  exists s2, Entry_delete (clear s) (Occupied n) = (Ok true, s2) /\
             size s2 = -1 /\ size s2 < 0.
Proof.
  intros Hs Hn. pose proof Hs as (Ht & Hnx & (k0 & Hw) & Hl).
  assert (Hv : inner_validate (clear s) (Occupied n) = true).
  { unfold inner_validate, validate, clear. cbn [inner_node]. store.
    rewrite (Hl n Hn). reflexivity. }
  split; [unfold clear; store; reflexivity|].
  split; [unfold clear; store; reflexivity|].
  split; [intros q; unfold clear; store; reflexivity|].
  split; [exact Hv|].
  split; [intros cl Hc; eapply valid_entry_not_stale; eauto|].
  destruct (in_split _ _ Hn) as (L1 & L2 & E0).
  destruct (@tree_of_split K V s t n L1 L2 Ht E0) as (c & l & r & -> & -> & ->).
  destruct Ht as (HR & Hroot & ND & Hb & HN).
  destruct (@remove_ok K V (clear s) c l n r k0 False) as (s' & E1 & Hu).
  - unfold NIL_ok, clear in *. store. exact HN.
  - eapply Rep_ext; [|exact HR]. intros q _. unfold same_links, clear. store. auto.
  - intros [].
  - exact ND.
  - intros q Hq. unfold clear. store. auto.
  - eapply wavl_ext; [|exact Hw]. intros q _. unfold clear. store. reflexivity.
  - exists s'. unfold Entry_delete. rewrite Hv. cbn [inner_delete]. rewrite E1.
    destruct (remove_data _ _ E1) as (Hsz & _).
    split; [reflexivity|]. unfold clear in Hsz. revert Hsz. store. lia.
Qed.


End Validation.

Section Consumed.

Variables K V : Type.
Implicit Types (s : state K V) (p q : ptr) (rg : WAVLMapRange).

Lemma removing_loop_tombstones (A : Type)
    (f : state K V -> A -> ptr -> option (state K V * A)) (Hf : removing f) up :
  forall fuel s acc n s' acc',
  forEachNode_loop f fuel s acc up n = Some (s', acc') ->
  forall q, removed (node s q) = true -> removed (node s' q) = true.
Proof.
  induction fuel as [|fuel IH]; intros s acc n s' acc'; cbn [forEachNode_loop];
    [discriminate|].
  destruct (Nat.eqb n NIL); [intros H; inversion H; subst; auto|].
  destruct (if Nat.eqb n up then Some NIL else successor s n) as [next|];
    [|discriminate].
  destruct (f s acc n) as [[s1 a1]|] eqn:E1; [|discriminate].
  intros H q Hq. eapply IH; [exact H|].
  apply Hf in E1. destruct (remove_data _ _ E1) as (_ & _ & Rn & Hd).
  destruct (Nat.eq_dec q n) as [->|Hqn]; [exact Rn|].
  destruct (Hd q) as (_ & _ & Rq). rewrite Rq; auto.
Qed.

Lemma removing_loop_first (A : Type)
    (f : state K V -> A -> ptr -> option (state K V * A)) (Hf : removing f) up fuel s acc n s' acc' :
  forEachNode_loop f fuel s acc up n = Some (s', acc') -> n <> NIL ->
  removed (node s' n) = true.
Proof.
  destruct fuel as [|fuel]; cbn [forEachNode_loop]; [discriminate|].
  intros H Hn. rewrite (neqb Hn) in H.
  destruct (if Nat.eqb n up then Some NIL else successor s n) as [next|];
    [|discriminate].
  destruct (f s acc n) as [[s1 a1]|] eqn:E1; [|discriminate].
  eapply removing_loop_tombstones; [exact Hf|exact H|].
  apply Hf in E1. destruct (remove_data _ _ E1) as (_ & _ & Rn & _). exact Rn.
Qed.

Lemma forEachNode_consumes (A : Type)
    (f : state K V -> A -> ptr -> option (state K V * A)) (Hf : removing f) s rg (acc : A) :
  let '(x, r', s') := forEachNode f s rg acc true in
  kind r' = Removed /\ lower r' = lower rg /\ upper r' = upper rg /\
  (kind rg = Default -> lower rg <> NIL -> x <> Throw NodeRemoved ->
   x <> Diverge -> removed (node s' (lower rg)) = true).
Proof.
  unfold forEachNode. cbv zeta.
  destruct (Kind_eqb (kind rg) Removed) eqn:Ek.
  { repeat split; auto; [destruct (kind rg); try discriminate; reflexivity|].
    intros Hd. rewrite Hd in Ek. discriminate. }
  destruct (isEmpty (kind rg)) eqn:Ee.
  { repeat split; auto. intros Hd. rewrite Hd in Ee. discriminate. }
  cbn [with_kind lower upper kind].
  destruct (validate s (lower rg)); cbn [negb];
    [|repeat split; auto; intros; congruence].
  destruct (validate s (upper rg)); cbn [negb];
    [|repeat split; auto; intros; congruence].
  destruct (forEachNode_loop f (gas s) s acc (upper rg) (lower rg))
    as [[s' acc']|] eqn:E1; [|repeat split; auto; intros; congruence].
  repeat split; auto. intros _ Hn _ _.
  eapply removing_loop_first; eauto.
Qed.

Lemma removing_delete :
  removing (fun s (c : Z) n => match remove s n with
                               | Some s' => Some (s', c + 1)
                               | None => None
                               end).
Proof.
  intros s a n s' a'. destruct (remove s n); intros H; inversion H; reflexivity.
Qed.

Lemma removing_remove :
  removing (fun s (acc : list (K * V)) n =>
              let acc := acc ++ [(key (node s n), value (node s n))] in
              match remove s n with
              | Some s' => Some (s', acc)
              | None => None
              end).
Proof.
  intros s a n s' a'. cbv zeta.
  destruct (remove s n); intros H; inversion H; reflexivity.
Qed.

(** C7 (as the code has it): once [delete()] or [remove()] of a range has
    run, on any kind, the kind of the range is [Removed]; from then on
    [delete()] returns [0], [remove()] returns the empty array, [count()]
    returns [0] and the iterations yield nothing, in any state of the map.
    [first()] and [last()] validate the bound first: they throw "This
    range is removed." only if that node is not tombstoned, and "The node
    is removed." otherwise, which is the case of [first()] after a range
    that was not empty has been emptied. *)
Theorem range_consumed s rg r' s' (ret : bool) :
  (exists x, Range_delete s rg = (x, r', s') /\ returned x = ret) \/
  (exists x, Range_remove s rg = (x, r', s') /\ returned x = ret) ->
  kind r' = Removed /\ lower r' = lower rg /\ upper r' = upper rg /\
  (forall s2,
     Range_delete s2 r' = (Ok 0, r', s2) /\
     Range_remove s2 r' = (Ok [], r', s2) /\
     Range_count s2 r' = (Ok 0, r', s2) /\
     Range_inorder s2 r' = Ok [] /\ Range_inorderReverse s2 r' = Ok [] /\
     Range_keys s2 r' = Ok [] /\ Range_values s2 r' = Ok [] /\
     Range_entries s2 r' = Ok [] /\
     Range_first s2 r' =
       (if validate s2 (lower rg) then Throw RangeRemoved
        else Throw NodeRemoved) /\
     Range_last s2 r' =
       (if validate s2 (upper rg) then Throw RangeRemoved
        else Throw NodeRemoved)) /\
  (ret = true -> kind rg = Default -> lower rg <> NIL ->
     removed (node s' (lower rg)) = true /\
     Range_first s' r' = Throw NodeRemoved).
Proof.
  intros H.
  assert (H0 : kind r' = Removed /\ lower r' = lower rg /\ upper r' = upper rg /\
               (ret = true -> kind rg = Default -> lower rg <> NIL ->
                removed (node s' (lower rg)) = true)).
  { destruct H as [(x & E1 & Hx)|(x & E1 & Hx)].
    - assert (H : let '(x, r', s') := Range_delete s rg in
                  kind r' = Removed /\ lower r' = lower rg /\
                  upper r' = upper rg /\
                  (kind rg = Default -> lower rg <> NIL ->
                   x <> Throw NodeRemoved -> x <> Diverge ->
                   removed (node s' (lower rg)) = true))
        by exact (@forEachNode_consumes _ _ removing_delete s rg 0).
      rewrite E1 in H.
      destruct H as (A1 & A2 & A3 & A4). repeat split; auto.
      intros Hret Hd Hn. subst ret.
      apply A4; auto; intros ->; discriminate.
    - assert (H : let '(x, r', s') := Range_remove s rg in
                  kind r' = Removed /\ lower r' = lower rg /\
                  upper r' = upper rg /\
                  (kind rg = Default -> lower rg <> NIL ->
                   x <> Throw NodeRemoved -> x <> Diverge ->
                   removed (node s' (lower rg)) = true))
        by exact (@forEachNode_consumes _ _ removing_remove s rg []).
      rewrite E1 in H.
      destruct H as (A1 & A2 & A3 & A4). repeat split; auto.
      intros Hret Hd Hn. subst ret.
      apply A4; auto; intros ->; discriminate. }
  clear H. destruct H0 as (Hk & El & Eu & Hrm).
  split; [exact Hk|]. split; [exact El|]. split; [exact Eu|].
  split.
  - intros s2.
    unfold Range_delete, Range_remove, Range_count, Range_keys, Range_values,
      Range_entries, Range_inorder, Range_inorderReverse, Range_first,
      Range_last, forEachNode.
    rewrite Hk, El, Eu. cbn [Kind_eqb isEmpty negb map_result].
    repeat split; destruct (validate s2 _); reflexivity.
  - intros Hret Hd Hn. pose proof (Hrm Hret Hd Hn) as Hr. split; [exact Hr|].
    unfold Range_first, validate. rewrite El, Hr. reflexivity.
Qed.

End Consumed.

(** * The two invariants of the map *)

Section RankRule.

Variables K V : Type.
Variable undefK : K.
Variable compare : K -> K -> Z.
Implicit Types (s : state K V) (p q : ptr) (t l r : tree) (c : ctx).

Lemma rootp_NIL s par t : Rep s par t -> rootp t = NIL -> t = E.
Proof.
  destruct t as [|l p r]; [reflexivity|]. cbn [Rep rootp].
  intros (Hp & _) H. contradiction.
Qed.

(** In a ranked tree a node with no children has parity [Zero]. *)
Lemma wavl_leaf_parity s : forall t par k q,
  Rep s par t -> wavl s t k -> In q (ptrs t) ->
  left (node s q) = NIL -> right (node s q) = NIL ->
  parity (node s q) = Zero.
Proof.
  induction t as [|l IHl p r IHr]; intros par k q HR Hw Hq Hl Hr;
    [destruct Hq|].
  cbn [Rep wavl ptrs] in *.
  destruct HR as (Hp & _ & El & Er & HRl & HRr).
  destruct Hw as (kl & kr & Hwl & Hwr & H1 & H2 & Hpar & Hleaf).
  apply in_app_or in Hq. destruct Hq as [Hq|[Hq|Hq]].
  - eapply IHl; eauto.
  - subst q. rewrite Hl in El. rewrite Hr in Er.
    symmetry in El, Er.
    apply (@rootp_NIL _ _ _ HRl) in El. apply (@rootp_NIL _ _ _ HRr) in Er.
    subst l r.
    cbn [wavl] in Hwl, Hwr. rewrite Hpar, (Hleaf Hwl Hwr). reflexivity.
  - eapply IHr; eauto.
Qed.

(** C1 (for entries and ranges that are up to date): a call on a
    well-formed map, made with an entry or a range that is tombstoned or
    still describes the tree, leaves a tree with ranks: every child is one
    or two ranks below its parent, a parity is the parity of the rank, the
    sentinel has rank [-1], and a node without children has rank [0] and
    parity [Zero]. *)
Theorem rank_rule_kept (cl : call K V) s t :
  shape s t -> current compare s t cl ->
  exists t' k,
    shape (snd (run undefK compare cl s)) t' /\
    Rep (snd (run undefK compare cl s)) NIL t' /\
    root (snd (run undefK compare cl s)) = rootp t' /\
    wavl (snd (run undefK compare cl s)) t' k /\
    ranked (snd (run undefK compare cl s)) /\
    forall q, In q (ptrs t') ->
      left (node (snd (run undefK compare cl s)) q) = NIL ->
      right (node (snd (run undefK compare cl s)) q) = NIL ->
      parity (node (snd (run undefK compare cl s)) q) = Zero.
Proof.
  intros Hs Hc.
  destruct (@run_steps K V undefK compare cl s t Hs Hc) as ((t' & Hst) & _).
  pose proof (steps_shape Hs Hst) as Hs'.
  pose proof Hs' as ((HR & Hroot & _) & _ & (k & Hw) & _).
  exists t', k. split; [exact Hs'|]. split; [exact HR|].
  split; [exact Hroot|]. split; [exact Hw|].
  split; [exact (shape_ranked Hs')|].
  intros q Hq. eapply wavl_leaf_parity; eauto.
Qed.

End RankRule.

Section KeyOrder.

Variables K V : Type.
Variable undefK : K.
Variable compare : K -> K -> Z.
Implicit Types (s : state K V) (p q : ptr) (t l r : tree) (c : ctx).

Hypothesis compare_sym : forall a b, compare a b < 0 <-> compare b a > 0.
Hypothesis compare_trans :
  forall x y z, compare x y <= 0 -> compare y z <= 0 -> compare x z <= 0.

Lemma ordered_distinct s (L : list ptr) :
  ordered compare s L -> NoDup L ->
  forall p q, In p L -> In q L -> p <> q ->
    compare (key (node s p)) (key (node s q)) <> 0.
Proof.
  unfold ordered. induction L as [|x L IH]; intros Ho ND p q Hp Hq Hpq;
    [destruct Hp|].
  inversion Ho as [|? ? Ho' Hall]; subst. inversion ND; subst.
  rewrite Forall_forall in Hall.
  destruct Hp as [->|Hp], Hq as [->|Hq]; try congruence; auto.
  - pose proof (Hall q Hq). lia.
  - pose proof (Hall p Hp) as H. apply compare_sym in H. lia.
Qed.

(** C2 (for a comparator that is an order, and entries and ranges that
    are up to date): a call on a well-formed map whose in-order sequence
    has strictly increasing keys leaves such a map; no two of its nodes
    have keys that compare equal, and [keys()], [values()] and
    [entries()] enumerate that sequence. *)
Theorem key_order_kept (cl : call K V) s t :
  shape s t -> ordered compare s (ptrs t) -> current compare s t cl ->
  exists t',
    shape (snd (run undefK compare cl s)) t' /\
    ordered compare (snd (run undefK compare cl s)) (ptrs t') /\
    (forall p q, In p (ptrs t') -> In q (ptrs t') -> p <> q ->
       compare (key (node (snd (run undefK compare cl s)) p))
               (key (node (snd (run undefK compare cl s)) q)) <> 0) /\
    Map_keys (snd (run undefK compare cl s)) =
      Some (keys_of (snd (run undefK compare cl s)) (ptrs t')) /\
    Map_values (snd (run undefK compare cl s)) =
      Some (values_of (snd (run undefK compare cl s)) (ptrs t')) /\
    Map_entries (snd (run undefK compare cl s)) =
      Some (entries_of (snd (run undefK compare cl s)) (ptrs t')) /\
    StronglySorted (fun a b => compare a b < 0)
      (keys_of (snd (run undefK compare cl s)) (ptrs t')).
Proof.
  intros Hs Ho Hc.
  destruct (@run_steps K V undefK compare cl s t Hs Hc) as ((t' & Hst) & _).
  pose proof (steps_shape Hs Hst) as Hs'.
  pose proof (@steps_ordered K V compare compare_sym compare_trans
                _ _ _ _ Hs Ho Hst) as Ho'.
  pose proof (@Map_inorder_spec K V _ _ (proj1 Hs')) as Hin.
  exists t'. split; [exact Hs'|]. split; [exact Ho'|].
  split; [apply ordered_distinct; auto; apply Hs'|].
  unfold Map_keys, Map_values, Map_entries. rewrite Hin. cbn [option_map].
  do 3 (split; [reflexivity|]). unfold keys_of. apply ss_map. exact Ho'.
Qed.

End KeyOrder.

(** * Looking keys up *)

Section Lookup.

Variables K V : Type.
Variable compare : K -> K -> Z.
Implicit Types (s : state K V) (p q : ptr) (t l r : tree) (c : ctx).

Hypothesis compare_sym : forall a b, compare a b < 0 <-> compare b a > 0.
Hypothesis compare_trans :
  forall x y z, compare x y <= 0 -> compare y z <= 0 -> compare x z <= 0.

Lemma compare_eq_trans (a b d : K) :
  compare a b = 0 -> compare b d = 0 -> compare a d = 0.
Proof.
  intros H1 H2.
  pose proof (@compare_eq_sym K compare compare_sym _ _ H1) as H1'.
  pose proof (@compare_eq_sym K compare compare_sym _ _ H2) as H2'.
  assert (A1 : compare a d <= 0) by (apply compare_trans with b; lia).
  assert (A2 : compare d a <= 0) by (apply compare_trans with b; lia).
  destruct (Z.lt_trichotomy (compare a d) 0) as [H|[H|H]]; auto; try lia.
  apply compare_sym in H. lia.
Qed.

(** [search] returns the node whose key compares equal, the only one, or
    the sentinel when there is none. *)
Lemma search_spec s t k :
  tree_of s t -> ordered compare s (ptrs t) ->
  exists n, search compare s k = Some n /\
    ((n <> NIL /\ In n (ptrs t) /\ compare k (key (node s n)) = 0 /\
      forall q, In q (ptrs t) -> compare k (key (node s q)) = 0 -> q = n) \/
     (n = NIL /\ forall q, In q (ptrs t) -> compare k (key (node s q)) <> 0)).
Proof.
  intros Ht Ho.
  assert (Es : search compare s k =
               match searchEntry compare s k with
               | Some (n', _, _) => Some n'
               | None => None
               end)
    by (unfold search, searchEntry; apply search_loop_searchEntry).
  rewrite Es. clear Es.
  assert (Hside : forall A B q,
            (forall x, In x A -> compare (key (node s x)) k < 0) ->
            (forall x, In x B -> compare k (key (node s x)) < 0) ->
            In q (A ++ B) -> compare k (key (node s q)) <> 0).
  { intros A B q PA PB Hq Hk. apply in_app_or in Hq. destruct Hq as [Hq|Hq].
    - apply PA in Hq. apply (@compare_eq_sym K compare compare_sym) in Hk. lia.
    - apply PB in Hq. lia. }
  destruct t as [|l x r] eqn:Et.
  - exists NIL. destruct Ht as (_ & Hroot & _). unfold searchEntry, gas.
    rewrite Hroot. cbn [rootp searchEntry_loop Nat.eqb]. split; [reflexivity|].
    right. split; [reflexivity|]. intros q [].
  - rewrite <- Et in *.
    destruct (@search_position K V compare compare_sym compare_trans s t k Ht Ho)
      as (n & p & b & A & B & E1 & PA & PB & [(Hn & E0 & Hk)|(Hn & E0 & _)]);
      [rewrite Et; discriminate| |]; rewrite E1; exists n; (split; [reflexivity|]).
    + left. split; [exact Hn|]. split; [rewrite E0; apply in_elt|].
      split; [exact Hk|]. intros q Hq Hkq. rewrite E0 in Hq.
      apply in_app_or in Hq. destruct Hq as [Hq|[Hq|Hq]]; auto; exfalso.
      * exact (Hside A B q PA PB (in_or_app _ _ _ (or_introl Hq)) Hkq).
      * exact (Hside A B q PA PB (in_or_app _ _ _ (or_intror Hq)) Hkq).
    + right. split; [exact Hn|]. intros q Hq. rewrite E0 in Hq.
      exact (Hside A B q PA PB Hq).
Qed.

(** Two maps agree on a key when they hold the same node for it. *)
Lemma get_same s t s' t' k :
  shape s t -> ordered compare s (ptrs t) ->
  shape s' t' -> ordered compare s' (ptrs t') ->
  (forall q, In q (ptrs t) -> compare k (key (node s q)) = 0 ->
     In q (ptrs t') /\ key (node s' q) = key (node s q) /\
     value (node s' q) = value (node s q)) ->
  (forall q, In q (ptrs t') -> compare k (key (node s' q)) = 0 ->
     In q (ptrs t) /\ key (node s q) = key (node s' q)) ->
  Map_get compare s' k = Map_get compare s k /\
  Map_has compare s' k = Map_has compare s k.
Proof.
  intros Hs Ho Hs' Ho' H1 H2. unfold Map_get, Map_has.
  destruct (@search_spec s t k (proj1 Hs) Ho)
    as (n & E1 & [(Hn & Hin & Hk & _)|(-> & Hno)]);
  destruct (@search_spec s' t' k (proj1 Hs') Ho')
    as (n' & E1' & [(Hn' & Hin' & Hk' & Hu')|(-> & Hno')]);
  rewrite E1, E1'; cbn [option_map].
  - destruct (H1 n Hin Hk) as (A1 & A2 & A3).
    assert (n = n') by (apply Hu'; [exact A1|rewrite A2; exact Hk]).
    subst n'. rewrite (neqb Hn), A3. auto.
  - exfalso. destruct (H1 n Hin Hk) as (A1 & A2 & _).
    apply (Hno' n A1). rewrite A2. exact Hk.
  - exfalso. destruct (H2 n' Hin' Hk') as (A1 & A2).
    apply (Hno n' A1). rewrite A2. exact Hk'.
  - auto.
Qed.

Lemma lookup_node s t k n :
  shape s t -> ordered compare s (ptrs t) ->
  In n (ptrs t) -> compare k (key (node s n)) = 0 ->
  Map_get compare s k = Some (Some (value (node s n))) /\
  Map_has compare s k = Some true.
Proof.
  intros Hs Ho Hin Hk. unfold Map_get, Map_has.
  destruct (@search_spec s t k (proj1 Hs) Ho)
    as (n' & E1 & [(Hn & _ & _ & Hu)|(-> & Hno)]); rewrite E1;
    cbn [option_map].
  - rewrite (Hu n Hin Hk), (neqb Hn). auto.
  - exfalso. exact (Hno n Hin Hk).
Qed.

Lemma lookup_none s t k :
  shape s t -> ordered compare s (ptrs t) ->
  (forall n, In n (ptrs t) -> compare k (key (node s n)) <> 0) ->
  Map_get compare s k = Some None /\ Map_has compare s k = Some false.
Proof.
  intros Hs Ho Hno. unfold Map_get, Map_has.
  destruct (@search_spec s t k (proj1 Hs) Ho)
    as (n' & E1 & [(Hn & Hin & Hk & _)|(-> & _)]); rewrite E1;
    cbn [option_map].
  - exfalso. exact (Hno n' Hin Hk).
  - auto.
Qed.

(** X1: On a well-formed map with increasing keys, [get(k)] returns the
    value of the node whose key compares equal to [k] and [has(k)] is
    true; when no key compares equal, [get(k)] is [undefined] and
    [has(k)] is false. *)
Theorem get_has_spec s t k :
  shape s t -> ordered compare s (ptrs t) ->
  (forall n, In n (ptrs t) -> compare k (key (node s n)) = 0 ->
     Map_get compare s k = Some (Some (value (node s n))) /\
     Map_has compare s k = Some true) /\
  ((forall n, In n (ptrs t) -> compare k (key (node s n)) <> 0) ->
     Map_get compare s k = Some None /\ Map_has compare s k = Some false).
Proof.
  intros Hs Ho. unfold Map_get, Map_has.
  destruct (@search_spec s t k (proj1 Hs) Ho)
    as (n & E1 & [(Hn & Hin & Hk & Hu)|(-> & Hno)]); rewrite E1;
    cbn [option_map]; split.
  - intros q Hq Hkq. rewrite (Hu q Hq Hkq), (neqb Hn). auto.
  - intros H. exfalso. exact (H n Hin Hk).
  - intros q Hq Hkq. exfalso. exact (Hno q Hq Hkq).
  - auto.
Qed.

(** X2: [set(k, v)] returns; afterwards [get(k)] is [v], and [get] and [has]
    of every key that does not compare equal to [k] are as before. *)
Theorem set_then_get s t k v :
  shape s t -> ordered compare s (ptrs t) ->
  exists s', Map_set compare s k v = Some s' /\
    Map_get compare s' k = Some (Some v) /\
    Map_has compare s' k = Some true /\
    forall k', compare k' k <> 0 ->
      Map_get compare s' k' = Map_get compare s k' /\
      Map_has compare s' k' = Map_has compare s k'.
Proof.
  intros Hs Ho. unfold Map_set.
  destruct (@insert_shape K V compare s t k v Hs)
    as (old & s' & t' & E1 & Hs' & Hcase).
  rewrite E1. cbn [option_map snd]. exists s'. split; [reflexivity|].
  assert (Hst : step compare s t s' t').
  { destruct Hcase as [(n & Hn & _ & _ & -> & ->)|(_ & c & -> & Hp & Hrel)].
    - constructor. exact Hn.
    - eapply step_ins; eauto. left. exact Hp. }
  pose proof (@step_ordered K V compare compare_sym compare_trans
                _ _ _ _ Hs Ho Hst) as Ho'.
  destruct Hcase as [(n & Hn & Hk & _ & -> & ->)|(_ & c & -> & Hp & Hrel)].
  - assert (Hkn : compare k (key (node (set_value s n v) n)) = 0)
      by (store; exact Hk).
    destruct (@lookup_node (set_value s n v) t k n Hs' Ho' Hn Hkn) as (G1 & G2).
    revert G1. store.
    rewrite ?Nat.eqb_refl. intros G1.
    split; [exact G1|]. split; [exact G2|].
    intros k' Hk'. apply (@get_same s t (set_value s n v) t k' Hs Ho Hs' Ho').
    + intros q Hq Hkq. split; [exact Hq|]. store. split; [reflexivity|].
      destruct (Nat.eqb q n) eqn:Eq; [|reflexivity].
      apply Nat.eqb_eq in Eq. subst q. exfalso. apply Hk'.
      apply compare_eq_trans with (key (node s n)); [exact Hkq|].
      apply (@compare_eq_sym K compare compare_sym). exact Hk.
    + intros q Hq. store. auto.
  - destruct Hrel as (_ & Ep & Ek & Ev & Hfr & _).
    pose proof Hs as ((_ & _ & _ & Hb & _) & _).
    assert (Hfresh : forall q, In q (ptrs (plug c E)) -> q <> st_next s).
    { intros q Hq Heq. subst q. apply Hb in Hq. exact (Nat.lt_irrefl _ Hq). }
    assert (Hin : In (st_next s) (ptrs t')) by (rewrite Ep; apply in_elt).
    assert (Hkn : compare k (key (node s' (st_next s))) = 0).
    { rewrite Ek. destruct (Z.lt_trichotomy (compare k k) 0) as [H|[H|H]]; auto.
      - pose proof H as H'. apply compare_sym in H'. lia.
      - assert (H' : compare k k < 0) by (apply compare_sym; lia). lia. }
    destruct (@lookup_node s' t' k _ Hs' Ho' Hin Hkn) as (G1 & G2).
    rewrite Ev in G1.
    split; [exact G1|]. split; [exact G2|].
    intros k' Hk'. apply (@get_same s (plug c E) s' t' k' Hs Ho Hs' Ho').
    + intros q Hq Hkq. destruct (Hfr q (Hfresh q Hq)) as (F1 & F2 & _).
      split; [|auto]. rewrite Ep. rewrite ptrs_plug in Hq. cbn [ptrs app] in Hq.
      apply in_app_or in Hq. apply in_or_app. destruct Hq; [left|right; right]; auto.
    + intros q Hq Hkq. rewrite Ep in Hq. apply in_app_or in Hq.
      destruct Hq as [Hq|[<-|Hq]].
      * assert (Hq' : In q (ptrs (plug c E)))
          by (rewrite ptrs_plug; apply in_or_app; left; exact Hq).
        destruct (Hfr q (Hfresh q Hq')) as (F1 & _). auto.
      * exfalso. apply Hk'. rewrite Ek in Hkq. exact Hkq.
      * assert (Hq' : In q (ptrs (plug c E)))
          by (rewrite ptrs_plug; apply in_or_app; right; exact Hq).
        destruct (Hfr q (Hfresh q Hq')) as (F1 & _). auto.
Qed.

(** X3: [delete(k)] returns whether the key was there, and takes one off the
    size if it was; if it was not, the map is left as it is.  Afterwards
    [has(k)] is false, and [get] and [has] of every key that does not
    compare equal to [k] are as before. *)
Theorem delete_then_has s t k :
  shape s t -> ordered compare s (ptrs t) ->
  exists b s', Map_delete compare s k = Some (b, s') /\
    Map_has compare s k = Some b /\
    Map_has compare s' k = Some false /\
    Map_get compare s' k = Some None /\
    size s' = (if b then size s - 1 else size s) /\
    (b = false -> s' = s) /\
    forall k', compare k' k <> 0 ->
      Map_get compare s' k' = Map_get compare s k' /\
      Map_has compare s' k' = Map_has compare s k'.
Proof.
  intros Hs Ho. unfold Map_delete.
  pose proof (@lookup_node s t k) as Hg1. pose proof (@lookup_none s t k Hs Ho) as Hg2.
  destruct (@search_spec s t k (proj1 Hs) Ho)
    as (n & E1 & [(Hn & Hin & Hk & Hu)|(-> & Hno)]); rewrite E1.
  - rewrite (neqb Hn). destruct (in_split _ _ Hin) as (L1 & L2 & E0).
    destruct (@remove_shape K V s t n L1 L2 Hs E0) as (s' & t' & Er & Hrel).
    rewrite Er. cbn [option_map]. exists true, s'. split; [reflexivity|].
    assert (Hst : step compare s t s' t') by (eapply step_del; eauto).
    pose proof (@step_ordered K V compare compare_sym compare_trans
                  _ _ _ _ Hs Ho Hst) as Ho'.
    destruct Hrel as (Hs' & Ep & Hfr & Hsz & _).
    pose proof Hs as ((_ & _ & ND & _) & _). rewrite E0 in ND.
    assert (Hsub : forall q, In q (ptrs t') -> In q (ptrs t) /\ q <> n).
    { intros q Hq. rewrite Ep in Hq. split.
      - rewrite E0. apply in_app_or in Hq. apply in_or_app.
        destruct Hq; [left|right; right]; auto.
      - intros ->. apply NoDup_remove_2 in ND. contradiction. }
    assert (Hno' : forall q, In q (ptrs t') -> compare k (key (node s' q)) <> 0).
    { intros q Hq Hkq. destruct (Hsub q Hq) as (Hq0 & Hqn). apply Hqn.
      apply Hu; [exact Hq0|]. destruct (Hfr q) as (F1 & _). rewrite <- F1. exact Hkq. }
    destruct (@lookup_none s' t' k Hs' Ho' Hno') as (G1 & G2).
    split; [exact (proj2 (Hg1 n Hs Ho Hin Hk))|].
    split; [exact G2|]. split; [exact G1|]. split; [exact Hsz|].
    split; [intros Hb; discriminate Hb|].
    intros k' Hk'. apply (@get_same s t s' t' k' Hs Ho Hs' Ho').
    + intros q Hq Hkq. destruct (Hfr q) as (F1 & F2 & _).
      split; [|auto]. rewrite Ep. rewrite E0 in Hq.
      apply in_app_or in Hq. apply in_or_app.
      destruct Hq as [Hq|[<-|Hq]]; auto.
      exfalso. apply Hk'. apply compare_eq_trans with (key (node s n)); [exact Hkq|].
      apply (@compare_eq_sym K compare compare_sym). exact Hk.
    + intros q Hq Hkq. destruct (Hfr q) as (F1 & _).
      split; [exact (proj1 (Hsub q Hq))|auto].
  - rewrite Nat.eqb_refl. exists false, s. split; [reflexivity|].
    destruct (Hg2 Hno) as (G1 & G2). repeat split; auto.
Qed.

End Lookup.

(** * Size, traversal in both directions, and cursors *)

Lemma last_cons (A : Type) (M : list A) : forall x d, last (x :: M) d = last M x.
Proof.
  induction M as [|y M IH]; intros x d; [reflexivity|].
  change (last (x :: y :: M) d) with (last (y :: M) d).
  rewrite (IH y d), (IH y x). reflexivity.
Qed.

Section Counting.

Variables K V : Type.
Variable undefK : K.
Variable compare : K -> K -> Z.
Implicit Types (s : state K V) (p q : ptr) (t l r : tree) (c : ctx).

Lemma step_counted s t s' t' :
  step compare s t s' t' -> counted s t -> counted s' t'.
Proof.
  unfold counted. intros Hst Hc.
  destruct Hst as [n v Hn|c k v s' t' -> Hp Hrel|n L1 L2 s' t' E0 Hrel|].
  - store. exact Hc.
  - destruct Hrel as (_ & Ep & _ & _ & _ & Hsz & _). rewrite Hsz, Hc, Ep.
    rewrite ptrs_plug. cbn [ptrs app]. rewrite !length_app. cbn [length]. lia.
  - destruct Hrel as (_ & Ep & _ & Hsz & _). rewrite Hsz, Hc, Ep, E0.
    rewrite !length_app. cbn [length]. lia.
  - unfold clear. store. reflexivity.
Qed.

Lemma steps_counted s t s' t' :
  steps compare s t s' t' -> counted s t -> counted s' t'.
Proof.
  induction 1 as [|s t s1 t1 s2 t2 H1 Hs1 H2 IH]; auto.
  intros Hc. apply IH. eapply step_counted; eauto.
Qed.

(** X7: A call on a well-formed map whose [size] is its number of keys
    leaves such a map: [size] stays the length of [keys()]. *)
Theorem size_counts_keys (cl : call K V) s t :
  shape s t -> current compare s t cl -> size s = Z.of_nat (length (ptrs t)) ->
  exists L,
    Map_keys (snd (run undefK compare cl s)) = Some L /\
    Map_size (snd (run undefK compare cl s)) = Z.of_nat (length L) /\
    (Map_isEmpty (snd (run undefK compare cl s)) = true <-> L = []).
Proof.
  intros Hs Hc Hn.
  destruct (@run_steps K V undefK compare cl s t Hs Hc) as ((t' & Hst) & _).
  pose proof (steps_shape Hs Hst) as Hs'.
  pose proof (steps_counted Hst Hn) as Hn'.
  exists (keys_of (snd (run undefK compare cl s)) (ptrs t')).
  unfold Map_keys, Map_size, Map_isEmpty.
  rewrite (@Map_inorder_spec K V _ _ (proj1 Hs')). cbn [option_map].
  split; [reflexivity|]. unfold keys_of. rewrite length_map.
  split; [exact Hn'|].
  destruct Hs' as ((HR & Hroot & _) & _). rewrite Hroot.
  destruct t' as [|l x r]; cbn [rootp ptrs].
  - split; reflexivity.
  - cbn [Rep] in HR. destruct HR as (Hx & _). rewrite (neqb Hx).
    split; [discriminate|]. intros H. apply map_eq_nil in H.
    apply app_eq_nil in H. destruct H as [_ H]. discriminate.
Qed.

End Counting.

Section Reverse.

Variables K V : Type.
Implicit Types (s : state K V) (p q : ptr) (t l r : tree) (c : ctx).

Lemma inorderReverse_loop_spec s t : tree_of s t -> forall L1 L2 fuel,
  ptrs t = L1 ++ L2 -> (length L1 < fuel)%nat ->
  inorderReverse_loop fuel s (last L1 NIL) = Some (rev L1).
Proof.
  intros Ht. induction L1 as [|x L1 IH] using rev_ind; intros L2 fuel E0 Hf;
    (destruct fuel as [|f]; [simpl in Hf; lia|]); cbn [inorderReverse_loop].
  - reflexivity.
  - rewrite last_last. rewrite <- app_assoc in E0. cbn [app] in E0.
    assert (Hx : x <> NIL).
    { assert (Hin : In x (ptrs t)) by (rewrite E0; apply in_elt).
      pose proof (@tree_of_bounds K V s t _ Ht Hin). unfold NIL. lia. }
    rewrite (neqb Hx), (@predecessor_spec K V s t _ _ _ Ht E0).
    rewrite (IH (x :: L2)); [rewrite rev_app_distr; reflexivity|exact E0|].
    rewrite length_app in Hf. cbn [length] in Hf. lia.
Qed.

Lemma Range_inorderReverse_loop_spec s t lo L1 : tree_of s t -> forall M L3 fuel,
  ptrs t = L1 ++ lo :: M ++ L3 -> (length M < fuel)%nat ->
  Range_inorderReverse_loop fuel s lo (last M lo) = Some (rev (lo :: M)).
Proof.
  intros Ht. induction M as [|x M IH] using rev_ind; intros L3 fuel E0 Hf;
    (destruct fuel as [|f]; [simpl in Hf; lia|]);
    cbn [Range_inorderReverse_loop last].
  - assert (Hx : lo <> NIL).
    { assert (Hin : In lo (ptrs t)) by (rewrite E0; apply in_elt).
      pose proof (@tree_of_bounds K V s t _ Ht Hin). unfold NIL. lia. }
    rewrite (neqb Hx), Nat.eqb_refl. reflexivity.
  - rewrite last_last. rewrite <- app_assoc in E0. cbn [app] in E0.
    assert (E0' : ptrs t = (L1 ++ lo :: M) ++ x :: L3)
      by (rewrite E0, <- app_assoc; reflexivity).
    assert (Hx : x <> NIL).
    { assert (Hin : In x (ptrs t)) by (rewrite E0'; apply in_elt).
      pose proof (@tree_of_bounds K V s t _ Ht Hin). unfold NIL. lia. }
    assert (Hxl : x <> lo).
    { destruct Ht as (_ & _ & ND & _). rewrite E0' in ND.
      apply NoDup_remove_2 in ND. intros ->. apply ND.
      rewrite !in_app_iff. left. right. left. reflexivity. }
    rewrite (neqb Hx), (neqb Hxl), (@predecessor_spec K V s t _ _ _ Ht E0').
    replace (last (L1 ++ lo :: M) NIL) with (last M lo).
    + rewrite (IH (x :: L3)); [|exact E0|rewrite length_app in Hf; cbn [length] in Hf; lia].
      cbn [option_map]. f_equal.
      change (lo :: M ++ [x]) with ((lo :: M) ++ [x]). rewrite rev_app_distr.
      reflexivity.
    + rewrite last_app by discriminate. rewrite last_cons. reflexivity.
Qed.

(** X17: The reverse enumerations of a well-formed map are its enumerations
    read backwards. *)
Theorem reverse_is_rev s t :
  tree_of s t ->
  exists L,
    Map_inorder s = Some L /\ Map_inorderReverse s = Some (rev L) /\
    Map_keys s = Some (keys_of s L) /\ Map_values s = Some (values_of s L) /\
    Map_entries s = Some (entries_of s L).
Proof.
  intros Ht. exists (ptrs t).
  pose proof (@Map_inorder_spec K V s t Ht) as H1.
  split; [exact H1|].
  unfold Map_keys, Map_values, Map_entries. rewrite H1. cbn [option_map].
  split; [|auto].
  unfold Map_inorderReverse. rewrite (@maximum_root K V s t Ht).
  apply inorderReverse_loop_spec with (t := t) (L2 := []); auto.
  - rewrite app_nil_r. reflexivity.
  - apply tree_of_fuel. exact Ht.
Qed.

Lemma range_stretch s t (rg : WAVLMapRange) L1 M L3 :
  shape s t -> kind rg = Default ->
  ptrs t = L1 ++ M ++ L3 -> M <> [] ->
  lower rg = hd NIL M -> upper rg = last M NIL ->
  Range_inorder s rg = Ok M /\ Range_inorderReverse s rg = Ok (rev M) /\
  Range_keys s rg = Ok (keys_of s M) /\
  Range_keysReverse s rg = Ok (keys_of s (rev M)) /\
  Range_first s rg = Ok (Occupied (hd NIL M)) /\
  Range_last s rg = Ok (Occupied (last M NIL)).
Proof.
  intros Hs Hk E0 HM Hlo Hup. pose proof Hs as (Ht & _ & _ & Hl).
  pose proof (@tree_of_fuel K V s t Ht) as Hf.
  assert (Hin : forall q, In q M -> validate s q = true).
  { intros q Hq. unfold validate. rewrite (Hl q); [reflexivity|].
    rewrite E0. apply in_or_app. right. apply in_or_app. left. exact Hq. }
  assert (Hvl : validate s (lower rg) = true)
    by (rewrite Hlo; apply Hin, hd_in; exact HM).
  assert (Hvu : validate s (upper rg) = true)
    by (rewrite Hup; apply Hin, last_in; exact HM).
  assert (Hlen : (length M < gas s)%nat).
  { rewrite E0 in Hf. rewrite !length_app in Hf. lia. }
  assert (F : Range_inorder s rg = Ok M).
  { unfold Range_inorder. rewrite Hk, Hvl, Hvu. cbn [isEmpty Kind_eqb negb].
    destruct (split_last NIL HM) as (M0 & EM & Eh).
    rewrite Hlo, Hup, Eh.
    rewrite (@Range_inorder_loop_spec K V s t (last M NIL) L3 Ht M0 L1 (gas s)).
    - rewrite <- EM. reflexivity.
    - rewrite E0. rewrite EM at 1. rewrite <- !app_assoc. reflexivity.
    - rewrite EM in Hlen. rewrite length_app in Hlen. cbn [length] in Hlen. lia. }
  assert (B : Range_inorderReverse s rg = Ok (rev M)).
  { unfold Range_inorderReverse. rewrite Hk, Hvl, Hvu. cbn [isEmpty Kind_eqb negb].
    destruct M as [|x M]; [congruence|]. cbn [hd] in Hlo. rewrite Hlo, Hup.
    rewrite last_cons.
    rewrite (@Range_inorderReverse_loop_spec s t x L1 Ht M L3 (gas s));
      [reflexivity|exact E0|cbn [length] in Hlen; lia]. }
  split; [exact F|]. split; [exact B|].
  unfold Range_keys, Range_keysReverse, Range_first, Range_last.
  rewrite F, B, Hvl, Hvu, Hk, Hlo, Hup. cbn [map_result negb]. auto.
Qed.

(** X18: A range that is not empty and whose bounds are the ends of a stretch
    of the in-order sequence: its iterations yield the entries of that
    stretch, the reverse ones backwards; [count()] is the length of the
    stretch and changes neither the map nor the range; [first()] and
    [last()] are the occupied entries of its ends. *)
Theorem range_walks s t (rg : WAVLMapRange) L1 M L3 :
  shape s t -> kind rg = Default ->
  ptrs t = L1 ++ M ++ L3 -> M <> [] ->
  lower rg = hd NIL M -> upper rg = last M NIL ->
  Range_isEmpty rg = false /\
  Range_keys s rg = Ok (keys_of s M) /\
  Range_values s rg = Ok (values_of s M) /\
  Range_entries s rg = Ok (entries_of s M) /\
  Range_keysReverse s rg = Ok (rev (keys_of s M)) /\
  Range_entriesReverse s rg = Ok (rev (entries_of s M)) /\
  Range_count s rg = (Ok (Z.of_nat (length M)), rg, s) /\
  Range_first s rg = Ok (Occupied (hd NIL M)) /\
  Range_last s rg = Ok (Occupied (last M NIL)).
Proof.
  intros Hs Hk E0 HM Hlo Hup.
  destruct (@range_stretch s t rg L1 M L3 Hs Hk E0 HM Hlo Hup)
    as (W1 & W2 & _ & _ & W5 & W6).
  pose proof Hs as (Ht & _ & _ & Hl).
  pose proof (@tree_of_fuel K V s t Ht) as Hf.
  split; [unfold Range_isEmpty; rewrite Hk; reflexivity|].
  unfold Range_keys, Range_values, Range_entries, Range_keysReverse,
    Range_entriesReverse.
  rewrite W1, W2. cbn [map_result]. unfold keys_of, entries_of.
  rewrite !map_rev.
  do 5 (split; [reflexivity|]). split; [|split; [exact W5|exact W6]].
  assert (Hin : forall q, In q M -> validate s q = true).
  { intros q Hq. unfold validate. rewrite (Hl q); [reflexivity|].
    rewrite E0. apply in_or_app. right. apply in_or_app. left. exact Hq. }
  unfold Range_count, forEachNode. rewrite Hk. cbn [Kind_eqb isEmpty negb].
  rewrite Hlo, Hup, (Hin _ (hd_in NIL HM)), (Hin _ (last_in NIL HM)).
  cbn [negb].
  destruct (split_last NIL HM) as (M0 & EM & Eh). rewrite Eh.
  rewrite (@count_loop_spec K V s t (last M NIL) L3 Ht M0 L1 (gas s) 0).
  - rewrite <- EM. reflexivity.
  - rewrite E0. rewrite EM at 1. rewrite <- !app_assoc. reflexivity.
  - rewrite E0 in Hf. rewrite EM in Hf. rewrite !length_app in Hf.
    cbn [length] in Hf. lia.
Qed.

End Reverse.

(** * Moving and using entries *)

Section Navigation.

Variables K V : Type.
Variable undefK : K.
Variable compare : K -> K -> Z.
Implicit Types (s : state K V) (p q : ptr) (t l r : tree) (c : ctx).

Lemma inner_next_spec s t n L1 L2 :
  shape s t -> ptrs t = L1 ++ n :: L2 ->
  inner_next s (Occupied n) =
    Some (if Nat.eqb (hd NIL L2) NIL then Vacant n Right None
          else Occupied (hd NIL L2)).
Proof.
  intros Hs E0. pose proof Hs as (Ht & _).
  pose proof (@successor_spec K V s t n L1 L2 Ht E0) as Hsucc.
  pose proof Hsucc as Hsucc'.
  cbn [inner_next]. unfold successor in Hsucc'.
  destruct (negb (Nat.eqb (right (node s n)) NIL)) eqn:Er.
  - rewrite Hsucc'. cbn [option_map].
    destruct (@tree_of_split K V s t n L1 L2 Ht E0) as (c & l & r & Et & _ & E2).
    destruct Ht as (HR & _). rewrite Et in HR. apply Rep_plug in HR.
    destruct HR as [HRn _]. cbn [Rep] in HRn.
    destruct HRn as (_ & _ & _ & Hnr & _ & HRr).
    destruct r as [|ra rp rb].
    + cbn [rootp] in Hnr. rewrite Hnr, Nat.eqb_refl in Er. discriminate.
    + assert (Hin : In (hd NIL L2) (ptrs (T ra rp rb))).
      { rewrite E2, hd_app by apply ptrs_T_ne. apply hd_in, ptrs_T_ne. }
      pose proof (Rep_not_NIL _ _ _ HRr) as Hnil.
      destruct (Nat.eqb (hd NIL L2) NIL) eqn:En; [|reflexivity].
      apply Nat.eqb_eq in En. rewrite En in Hin. contradiction.
  - rewrite Hsucc. reflexivity.
Qed.

Lemma inner_prev_spec s t n L1 L2 :
  shape s t -> ptrs t = L1 ++ n :: L2 ->
  inner_prev s (Occupied n) =
    Some (if Nat.eqb (last L1 NIL) NIL then Vacant n Left None
          else Occupied (last L1 NIL)).
Proof.
  intros Hs E0. pose proof Hs as (Ht & _).
  pose proof (@predecessor_spec K V s t n L1 L2 Ht E0) as Hpred.
  pose proof Hpred as Hpred'.
  cbn [inner_prev]. unfold predecessor in Hpred'.
  destruct (negb (Nat.eqb (left (node s n)) NIL)) eqn:El.
  - rewrite Hpred'. cbn [option_map].
    destruct (@tree_of_split K V s t n L1 L2 Ht E0) as (c & l & r & Et & E1 & _).
    destruct Ht as (HR & _). rewrite Et in HR. apply Rep_plug in HR.
    destruct HR as [HRn _]. cbn [Rep] in HRn.
    destruct HRn as (_ & _ & Hnl & _ & HRl & _).
    destruct l as [|la lp lb].
    + cbn [rootp] in Hnl. rewrite Hnl, Nat.eqb_refl in El. discriminate.
    + assert (Hin : In (last L1 NIL) (ptrs (T la lp lb))).
      { rewrite E1, last_app by apply ptrs_T_ne. apply last_in, ptrs_T_ne. }
      pose proof (Rep_not_NIL _ _ _ HRl) as Hnil.
      destruct (Nat.eqb (last L1 NIL) NIL) eqn:En; [|reflexivity].
      apply Nat.eqb_eq in En. rewrite En in Hin. contradiction.
  - rewrite Hpred. reflexivity.
Qed.

(** X13: Between two neighbours of the in-order sequence, [next()] of the
    entry of the first is the entry of the second and [prev()] of the
    entry of the second is the entry of the first; neither changes the
    map. *)
Theorem next_prev_neighbours s t n m L1 L2 :
  shape s t -> ptrs t = L1 ++ n :: m :: L2 ->
  Entry_next s (Occupied n) = (Ok (Occupied m), s) /\
  Entry_prev s (Occupied m) = (Ok (Occupied n), s).
Proof.
  intros Hs E0. pose proof Hs as (Ht & _ & _ & Hl).
  assert (E0' : ptrs t = (L1 ++ [n]) ++ m :: L2)
    by (rewrite E0, <- app_assoc; reflexivity).
  assert (Hn : In n (ptrs t)) by (rewrite E0; apply in_elt).
  assert (Hm : In m (ptrs t)) by (rewrite E0'; apply in_elt).
  assert (Hn0 : n <> NIL)
    by (pose proof (@tree_of_bounds K V s t _ Ht Hn); unfold NIL; lia).
  assert (Hm0 : m <> NIL)
    by (pose proof (@tree_of_bounds K V s t _ Ht Hm); unfold NIL; lia).
  unfold Entry_next, Entry_prev, inner_validate, validate. cbn [inner_node].
  rewrite (Hl n Hn), (Hl m Hm). cbn [negb].
  rewrite (@inner_next_spec s t n L1 (m :: L2) Hs E0).
  rewrite (@inner_prev_spec s t m (L1 ++ [n]) L2 Hs E0').
  cbn [hd]. rewrite last_last, (neqb Hn0), (neqb Hm0). split; reflexivity.
Qed.

(** X14: [first()] and [last()] of a map that is not empty are the entries of
    the first and the last node of the in-order sequence; before the
    first and after the last there is a vacant entry, from which
    [next()], or [prev()], leads back. *)
Theorem first_last_ends s t :
  shape s t -> t <> E ->
  Map_first s = Some (Occupied (hd NIL (ptrs t))) /\
  Map_last s = Some (Occupied (last (ptrs t) NIL)) /\
  Entry_prev s (Occupied (hd NIL (ptrs t)))
    = (Ok (Vacant (hd NIL (ptrs t)) Left None), s) /\
  Entry_next s (Occupied (last (ptrs t) NIL))
    = (Ok (Vacant (last (ptrs t) NIL) Right None), s) /\
  Entry_next s (Vacant (hd NIL (ptrs t)) Left None)
    = (Ok (Occupied (hd NIL (ptrs t))), s) /\
  Entry_prev s (Vacant (last (ptrs t) NIL) Right None)
    = (Ok (Occupied (last (ptrs t) NIL)), s).
Proof.
  intros Hs Hne. pose proof Hs as (Ht & _ & _ & Hl).
  assert (HL : ptrs t <> []) by (destruct t; [congruence|apply ptrs_T_ne]).
  assert (Hh : In (hd NIL (ptrs t)) (ptrs t)) by (apply hd_in; exact HL).
  assert (Hla : In (last (ptrs t) NIL) (ptrs t)) by (apply last_in; exact HL).
  assert (Hh0 : hd NIL (ptrs t) <> NIL).
  { intros H. pose proof (@tree_of_bounds K V s t _ Ht Hh) as B.
    rewrite H in B. unfold NIL in B. lia. }
  assert (Hl0 : last (ptrs t) NIL <> NIL).
  { intros H. pose proof (@tree_of_bounds K V s t _ Ht Hla) as B.
    rewrite H in B. unfold NIL in B. lia. }
  unfold Map_first, Map_last.
  rewrite (@minimum_root K V s t Ht), (@maximum_root K V s t Ht).
  cbn [option_map]. rewrite (neqb Hh0), (neqb Hl0).
  split; [reflexivity|]. split; [reflexivity|].
  unfold Entry_prev, Entry_next, inner_validate, validate. cbn [inner_node].
  rewrite (Hl _ Hh), (Hl _ Hla). cbn [negb].
  assert (Eh : ptrs t = [] ++ hd NIL (ptrs t) :: tl (ptrs t))
    by (destruct (ptrs t); [congruence|reflexivity]).
  destruct (split_last NIL HL) as (L0 & El & _).
  assert (El' : ptrs t = L0 ++ last (ptrs t) NIL :: []) by exact El.
  rewrite (@inner_prev_spec s t _ _ _ Hs Eh).
  rewrite (@inner_next_spec s t _ _ _ Hs El').
  cbn [last hd Nat.eqb inner_next inner_prev Branch_eqb].
  rewrite (neqb Hh0), (neqb Hl0). auto.
Qed.

(** X12: Once [delete()] of an entry has removed its node, every method of an
    entry on that node throws "The node is removed." and leaves the map
    as it is. *)
Theorem deleted_entry_throws s t n :
  shape s t -> In n (ptrs t) ->
  exists s',
    Entry_delete s (Occupied n) = (Ok true, s') /\
    size s' = size s - 1 /\
    forall cl, call_entry cl = Some (Occupied n) ->
      run undefK compare cl s' = (Throw NodeRemoved, s').
Proof.
  intros Hs Hn. pose proof Hs as (_ & _ & _ & Hl).
  destruct (in_split _ _ Hn) as (L1 & L2 & E0).
  destruct (@remove_shape K V s t n L1 L2 Hs E0) as (s' & t' & Er & _).
  destruct (remove_data _ _ Er) as (Hsz & _ & Hrm & _).
  exists s'. unfold Entry_delete, inner_validate, validate. cbn [inner_node].
  rewrite (Hl n Hn). cbn [negb inner_delete]. rewrite Er.
  split; [reflexivity|]. split; [exact Hsz|].
  intros cl Hc.
  destruct cl; cbn [call_entry] in Hc; try discriminate; inversion Hc; subst;
    cbn [run];
    unfold Entry_prev, Entry_next, Entry_insertBefore, Entry_insertAfter,
      Entry_delete, Entry_remove, EntryWithKey_set, EntryWithKey_insert,
      inner_validate, validate; cbn [inner_node]; rewrite Hrm; reflexivity.
Qed.

End Navigation.

(** * What rebalancing and removal leave alone *)

Section Frames.

Variables K V : Type.
Implicit Types (s : state K V) (p q : ptr).

(** X10: Whatever the store, rebalancing after an insertion or a removal, and
    each rotation, changes no key, no value and no tombstone, and
    neither the size nor the next free address. *)
Theorem rebalancing_keeps_data s p n m :
  match insertFixup s p with Some s' => keeps s s' | None => True end /\
  match removeFixup s p n with Some s' => keeps s s' | None => True end /\
  keeps s (rotateLeft s p n) /\ keeps s (rotateRight s p n) /\
  keeps s (rotateLeftRight s p n m) /\ keeps s (rotateRightLeft s p n m).
Proof.
  split.
  { destruct (insertFixup s p) as [s'|] eqn:E1; [|exact I].
    unfold insertFixup in E1.
    eapply insertFixup_loop_keeps; [|exact E1]. keeps_all. }
  split.
  { destruct (removeFixup s p n) as [s'|] eqn:E1; [|exact I].
    eapply removeFixup_keeps; [|exact E1]. keeps_all. }
  split; [keeps_all|]. split; [keeps_all|]. split; keeps_all.
Qed.

(** X11: Whatever the store, [remove] of a node tombstones that node and no
    other, takes one off the size, and changes no key and no value. *)
Theorem remove_tombstones_one s n :
  match remove s n with
  | Some s' =>
    size s' = size s - 1 /\ st_next s' = st_next s /\
    removed (node s' n) = true /\
    forall q, key (node s' q) = key (node s q) /\
              value (node s' q) = value (node s q) /\
              (q <> n -> removed (node s' q) = removed (node s q))
  | None => True
  end.
Proof.
  destruct (remove s n) as [s'|] eqn:E1; [|exact I].
  exact (remove_data _ _ E1).
Qed.

End Frames.

Section Placing.

Variables K V : Type.
Variable undefK : K.
Variable compare : K -> K -> Z.
Implicit Types (s : state K V) (p q : ptr) (t l r : tree) (c : ctx).

Lemma ins_rel_keys s s' c k v t' (L1 L2 : list ptr) :
  shape s (plug c E) -> before c = L1 -> after c = L2 ->
  ins_rel s s' c k v t' ->
  shape s' t' /\ ptrs t' = L1 ++ st_next s :: L2 /\
  Map_keys s' = Some (keys_of s L1 ++ k :: keys_of s L2) /\
  Map_values s' = Some (values_of s L1 ++ v :: values_of s L2) /\
  size s' = size s + 1.
Proof.
  intros Hs Eb Ea (Hs' & Ep & Ek & Ev & Hfr & Hsz & _).
  rewrite Eb, Ea in Ep.
  pose proof Hs as ((_ & _ & _ & Hb & _) & _).
  assert (Hfresh : forall q, In q (L1 ++ L2) -> q <> st_next s).
  { intros q Hq Heq. subst q.
    assert (Hin : In (st_next s) (ptrs (plug c E)))
      by (rewrite ptrs_plug, Eb, Ea; exact Hq).
    apply Hb in Hin. exact (Nat.lt_irrefl _ Hin). }
  split; [exact Hs'|]. split; [exact Ep|].
  unfold Map_keys, Map_values.
  rewrite (@Map_inorder_spec K V s' t' (proj1 Hs')), Ep. cbn [option_map].
  unfold keys_of, values_of. rewrite !map_app. cbn [map]. rewrite Ek, Ev.
  split; [|split; [|exact Hsz]]; f_equal; f_equal; [|f_equal| |f_equal];
    apply map_ext_in; intros q Hq;
    (destruct (Hfr q) as (F1 & F2 & _);
     [apply Hfresh, in_or_app; auto|auto]).
Qed.

(** X15: [insertBefore(k, v)] on the entry of a node: if [k] is greater than
    the key before the node and less than the key of the node, a node
    with [k] and [v] is put just before it and the entry stays on its
    node; if [k] is not less than the key of the node the call throws
    "The key is not less than the next key.", and if it is not greater
    than the key before it throws "The key is not greater than the
    previous key.", the map being left as it is. *)
Theorem insert_before_spec s t n L1 L2 k v :
  shape s t -> ptrs t = L1 ++ n :: L2 ->
  ((L1 = [] \/ compare (key (node s (last L1 NIL))) k < 0) ->
   compare k (key (node s n)) < 0 ->
   exists s' t',
     Entry_insertBefore compare s (Occupied n) k v
       = (Ok (Occupied n, Occupied (st_next s)), s') /\
     shape s' t' /\ ptrs t' = L1 ++ st_next s :: n :: L2 /\
     Map_keys s' = Some (keys_of s L1 ++ k :: keys_of s (n :: L2)) /\
     Map_values s' = Some (values_of s L1 ++ v :: values_of s (n :: L2)) /\
     size s' = size s + 1) /\
  ((L1 = [] \/ compare (key (node s (last L1 NIL))) k < 0) ->
   compare k (key (node s n)) >= 0 ->
   Entry_insertBefore compare s (Occupied n) k v = (Throw KeyNotLess, s)) /\
  (L1 <> [] -> compare (key (node s (last L1 NIL))) k >= 0 ->
   Entry_insertBefore compare s (Occupied n) k v = (Throw KeyNotGreater, s)).
Proof.
  intros Hs E0. pose proof Hs as (Ht & _ & _ & Hl).
  assert (Hn : In n (ptrs t)) by (rewrite E0; apply in_elt).
  assert (Hn0 : n <> NIL)
    by (pose proof (@tree_of_bounds K V s t _ Ht Hn); unfold NIL; lia).
  assert (Hprev : L1 <> [] -> last L1 NIL <> NIL).
  { intros HL H. assert (Hin : In (last L1 NIL) (ptrs t))
      by (rewrite E0; apply in_or_app; left; apply last_in; exact HL).
    pose proof (@tree_of_bounds K V s t _ Ht Hin) as B. rewrite H in B.
    unfold NIL in B. lia. }
  assert (Hv : validateKey compare s (last L1 NIL) k n =
               if negb (Nat.eqb (last L1 NIL) NIL) &&
                  (compare (key (node s (last L1 NIL))) k >=? 0)
               then Some KeyNotGreater
               else if compare k (key (node s n)) >=? 0 then Some KeyNotLess
                    else None).
  { unfold validateKey. rewrite (neqb Hn0). reflexivity. }
  assert (Hok : (L1 = [] \/ compare (key (node s (last L1 NIL))) k < 0) ->
                negb (Nat.eqb (last L1 NIL) NIL) &&
                (compare (key (node s (last L1 NIL))) k >=? 0) = false).
  { intros [->|H]; [reflexivity|]. apply andb_false_iff. right.
    rewrite Z.geb_leb. apply Z.leb_gt. exact H. }
  unfold Entry_insertBefore, inner_validate, validate. cbn [inner_node].
  rewrite (Hl n Hn). cbn [negb inner_insertBefore inner_isEmpty].
  destruct (@Occupied_insertBefore_steps K V compare s t n L1 L2 k v Hs E0)
    as [(e & Ev & Er)|(Ev & c & m & s' & t' & Et & Eb & Ea & Er & _ & Hrel & Em)];
    rewrite Hv in Ev; rewrite Er.
  - split; [|split].
    + intros H1 H2. rewrite (Hok H1) in Ev.
      assert (H3 : (compare k (key (node s n)) >=? 0) = false)
        by (rewrite Z.geb_leb; apply Z.leb_gt; exact H2).
      rewrite H3 in Ev. discriminate.
    + intros H1 H2. rewrite (Hok H1) in Ev.
      assert (H3 : (compare k (key (node s n)) >=? 0) = true)
        by (rewrite Z.geb_leb; apply Z.leb_le; lia).
      rewrite H3 in Ev. inversion Ev. reflexivity.
    + intros H1 H2. rewrite (neqb (Hprev H1)) in Ev. cbn [negb andb] in Ev.
      assert (H3 : (compare (key (node s (last L1 NIL))) k >=? 0) = true)
        by (rewrite Z.geb_leb; apply Z.leb_le; lia).
      rewrite H3 in Ev. inversion Ev. reflexivity.
  - subst m t. split; [|split].
    + intros _ _. exists s', t'. split; [reflexivity|].
      destruct (@ins_rel_keys s s' c k v t' L1 (n :: L2) Hs Eb Ea Hrel)
        as (A1 & A2 & A3 & A4 & A5). auto.
    + intros H1 H2. exfalso. rewrite (Hok H1) in Ev.
      assert (H3 : (compare k (key (node s n)) >=? 0) = true)
        by (rewrite Z.geb_leb; apply Z.leb_le; lia).
      rewrite H3 in Ev. discriminate.
    + intros H1 H2. exfalso. rewrite (neqb (Hprev H1)) in Ev. cbn [negb andb] in Ev.
      assert (H3 : (compare (key (node s (last L1 NIL))) k >=? 0) = true)
        by (rewrite Z.geb_leb; apply Z.leb_le; lia).
      rewrite H3 in Ev. discriminate.
Qed.

(** X9: A call that can change the tree, made on a well-formed map with an
    entry or a range that is up to date, returns or throws: its loops
    end. *)
Theorem mutating_call_ends (cl : call K V) s t :
  shape s t -> current compare s t cl -> mutating cl = true ->
  (exists u, fst (run undefK compare cl s) = Ok u) \/
  (exists e, fst (run undefK compare cl s) = Throw e).
Proof.
  intros Hs Hc Hm.
  destruct (@run_steps K V undefK compare cl s t Hs Hc) as (_ & H).
  specialize (H Hm).
  destruct (fst (run undefK compare cl s)) as [u|e|]; [left|right|]; eauto.
  congruence.
Qed.

End Placing.

(** * Emptying a range *)

Lemma filter_rest (f : ptr -> bool) (L1 Mid L3 : list ptr) :
  NoDup (L1 ++ Mid ++ L3) -> filter f (L1 ++ Mid ++ L3) = Mid ->
  filter (fun x => negb (f x)) (L1 ++ Mid ++ L3) = L1 ++ L3.
Proof.
  intros ND E0.
  assert (HM : forall x, In x Mid -> f x = true).
  { intros x Hx. rewrite <- E0 in Hx. apply filter_In in Hx. apply Hx. }
  assert (Hout : forall x, In x (L1 ++ Mid ++ L3) -> f x = true -> In x Mid).
  { intros x Hx Hf. rewrite <- E0. apply filter_In. auto. }
  assert (H1 : forall x, In x L1 -> f x = false).
  { intros x Hx. destruct (f x) eqn:Ef; [|reflexivity]. exfalso.
    assert (Hm : In x Mid) by (apply Hout; [apply in_or_app; auto|exact Ef]).
    apply NoDup_app_iff in ND. destruct ND as (_ & _ & Hd).
    apply (Hd x Hx). apply in_or_app. left. exact Hm. }
  assert (H3 : forall x, In x L3 -> f x = false).
  { intros x Hx. destruct (f x) eqn:Ef; [|reflexivity]. exfalso.
    assert (Hm : In x Mid).
    { apply Hout; [|exact Ef]. apply in_or_app. right. apply in_or_app. auto. }
    apply NoDup_app_iff in ND. destruct ND as (_ & ND & _).
    apply NoDup_app_iff in ND. destruct ND as (_ & _ & Hd).
    exact (Hd x Hm Hx). }
  rewrite !filter_app.
  rewrite (@filter_all _ _ L1), (@filter_none _ _ Mid), (@filter_all _ _ L3).
  - reflexivity.
  - intros x Hx. rewrite (H3 x Hx). reflexivity.
  - intros x Hx. rewrite (HM x Hx). reflexivity.
  - intros x Hx. rewrite (H1 x Hx). reflexivity.
Qed.

Section Emptying.

Variables K V : Type.
Variable compare : K -> K -> Z.
Implicit Types (s : state K V) (p q : ptr) (t l r : tree) (c : ctx).

Hypothesis compare_sym : forall a b, compare a b < 0 <-> compare b a > 0.
Hypothesis compare_trans :
  forall x y z, compare x y <= 0 -> compare y z <= 0 -> compare x z <= 0.

(** The loop of [forEachNode] under a callback that removes the node it
    is given and folds it into its result. *)
Lemma remove_loop_trace (A : Type) (f : state K V -> A -> ptr -> A) s0
    (Hf : forall s a q, same_data s0 s -> f s a q = f s0 a q) up L3 :
  forall M s t L1 acc fuel,
  same_data s0 s -> shape s t -> ptrs t = L1 ++ M ++ up :: L3 ->
  (S (length M) < fuel)%nat ->
  exists s' t',
    forEachNode_loop
      (fun s acc n => match remove s n with
                      | Some s' => Some (s', f s acc n)
                      | None => None
                      end) fuel s acc up (hd up M)
      = Some (s', fold_left (fun a q => f s0 a q) (M ++ [up]) acc) /\
    shape s' t' /\ ptrs t' = L1 ++ L3 /\ same_data s0 s'.
Proof.
  induction M as [|x M IH]; intros s t L1 acc fuel Hd Hs E0 Hfu;
    (destruct fuel as [|fuel]; [lia|]); cbn [forEachNode_loop hd app] in *.
  - assert (Hup : up <> NIL).
    { destruct Hs as (Ht & _).
      assert (Hin : In up (ptrs t)) by (rewrite E0; apply in_elt).
      pose proof (@tree_of_bounds K V s t _ Ht Hin). unfold NIL. lia. }
    rewrite (neqb Hup), Nat.eqb_refl.
    destruct (@remove_shape K V s t up L1 L3 Hs E0) as (s' & t' & E1 & Hrel).
    rewrite E1. destruct fuel as [|fuel]; [cbn [length] in Hfu; lia|].
    cbn [forEachNode_loop fold_left]. rewrite Nat.eqb_refl, (Hf s acc up Hd).
    exists s', t'. split; [reflexivity|].
    destruct Hrel as (Hs' & Ep & Hfr & _). split; [exact Hs'|]. split; [exact Ep|].
    intros y. destruct (Hfr y) as (F1 & F2 & _). destruct (Hd y) as (D1 & D2).
    rewrite F1, F2. auto.
  - assert (Hx : x <> NIL).
    { destruct Hs as (Ht & _).
      assert (Hin : In x (ptrs t)) by (rewrite E0; apply in_elt).
      pose proof (@tree_of_bounds K V s t _ Ht Hin). unfold NIL. lia. }
    assert (Hxu : x <> up).
    { destruct Hs as ((_ & _ & ND & _) & _). rewrite E0 in ND.
      apply NoDup_remove_2 in ND. intros ->. apply ND.
      rewrite !in_app_iff. right. right. left. reflexivity. }
    rewrite (neqb Hx), (neqb Hxu).
    rewrite (@successor_spec K V s t x L1 (M ++ up :: L3) (proj1 Hs) E0).
    replace (hd NIL (M ++ up :: L3)) with (hd up M) by (destruct M; reflexivity).
    destruct (@remove_shape K V s t x L1 (M ++ up :: L3) Hs E0)
      as (s1 & t1 & E1 & Hrel).
    rewrite E1. destruct Hrel as (Hs1 & Ep1 & Hfr & _).
    assert (Hd1 : same_data s0 s1).
    { intros y. destruct (Hfr y) as (F1 & F2 & _). destruct (Hd y) as (D1 & D2).
      rewrite F1, F2. auto. }
    destruct (IH s1 t1 L1 (f s acc x) fuel Hd1 Hs1 Ep1)
      as (s' & t' & E2 & Hs' & Ep & Hd').
    { cbn [length] in Hfu. lia. }
    exists s', t'. cbn [fold_left]. rewrite <- (Hf s acc x Hd).
    split; [exact E2|]. auto.
Qed.

Lemma fold_count (L : list ptr) : forall acc,
  fold_left (fun (a : Z) (_ : ptr) => a + 1) L acc = acc + Z.of_nat (length L).
Proof.
  induction L as [|x L IH]; intros acc; cbn [fold_left length]; [lia|].
  rewrite IH. lia.
Qed.

Lemma fold_entries s (L : list ptr) : forall acc,
  fold_left (fun (a : list (K * V)) q => a ++ [(key (node s q), value (node s q))])
            L acc = acc ++ entries_of s L.
Proof.
  induction L as [|x L IH]; intros acc; cbn [fold_left entries_of map];
    [rewrite app_nil_r; reflexivity|].
  rewrite IH. rewrite <- app_assoc. reflexivity.
Qed.

(** X20: [range(a, b, exclusive).delete()] and [.remove()] on a well-formed
    map with increasing keys, for [a <= b]: [delete()] returns the number
    of entries with a key in the range and [remove()] returns these
    entries, in order; the range becomes [Removed], and the map is left
    well-formed with exactly the other entries. *)
Theorem range_delete_spec s t (a b : K) (exclusive : bool) :
  shape s t -> ordered compare s (ptrs t) -> compare a b <= 0 ->
  exists rg all,
    Map_range compare s (Some a) (Some b) exclusive = Ok rg /\
    Map_entries s = Some all /\
    (exists s' t',
       Range_delete s rg =
         (Ok (Z.of_nat (length (filter
                (fun kv => inside compare a b exclusive (fst kv)) all))),
          with_kind rg Removed, s') /\
       shape s' t' /\
       Map_entries s' =
         Some (filter (fun kv => negb (inside compare a b exclusive (fst kv)))
                      all)) /\
    (exists s' t',
       Range_remove s rg =
         (Ok (filter (fun kv => inside compare a b exclusive (fst kv)) all),
          with_kind rg Removed, s') /\
       shape s' t' /\
       Map_entries s' =
         Some (filter (fun kv => negb (inside compare a b exclusive (fst kv)))
                      all)).
Proof.
  intros Hs Ho Hab. pose proof Hs as (Ht & _ & _ & Hl).
  pose proof (@tree_of_fuel K V s t Ht) as Hfu.
  assert (Hall : Map_entries s = Some (entries_of s (ptrs t)))
    by (unfold Map_entries; rewrite (@Map_inorder_spec K V s t Ht); reflexivity).
  assert (Hf : filter (fun kv => inside compare a b exclusive (fst kv))
                      (entries_of s (ptrs t))
               = entries_of s (selected compare s a b exclusive (ptrs t)))
    by (unfold entries_of, selected; rewrite filter_map_swap; reflexivity).
  assert (Hg : filter (fun kv => negb (inside compare a b exclusive (fst kv)))
                      (entries_of s (ptrs t))
               = entries_of s (filter (fun q => negb (inside compare a b exclusive
                                                        (key (node s q))))
                                      (ptrs t)))
    by (unfold entries_of; rewrite filter_map_swap; reflexivity).
  destruct (@searchRange_bounds K V compare compare_sym compare_trans
              s t a b exclusive Hs Ho Hab) as ([[lo up] kd] & E1 & Hb).
  exists (mkRange lo up kd), (entries_of s (ptrs t)).
  split; [unfold Map_range, range; rewrite E1; reflexivity|].
  split; [exact Hall|]. rewrite Hf, Hg.
  unfold Range_delete, Range_remove, forEachNode. cbn [kind lower upper with_kind].
  destruct Hb as [(Esel & Hk)|(M0 & L1 & L3 & -> & E0 & -> & Esel)]; rewrite Esel.
  - assert (Hrest : filter (fun q => negb (inside compare a b exclusive
                                             (key (node s q)))) (ptrs t) = ptrs t).
    { apply filter_all. intros q Hq.
      destruct (inside compare a b exclusive (key (node s q))) eqn:Ei; [|reflexivity].
      exfalso. assert (H : In q (selected compare s a b exclusive (ptrs t)))
        by (apply filter_In; auto).
      rewrite Esel in H. exact H. }
    rewrite Hrest.
    destruct kd; try discriminate Hk; cbn [Kind_eqb isEmpty negb];
      split; exists s, t; auto.
  - cbn [Kind_eqb isEmpty negb].
    assert (Hup : In up (ptrs t)) by (rewrite E0; apply in_or_app; right; apply in_elt).
    assert (Hlo : In (hd up M0) (ptrs t)).
    { destruct M0 as [|x M0]; [exact Hup|]. rewrite E0. apply in_or_app. right.
      left. reflexivity. }
    unfold validate. rewrite (Hl _ Hlo), (Hl _ Hup). cbn [negb].
    assert (Hlen : (S (length M0) < gas s)%nat).
    { rewrite E0 in Hfu. rewrite !length_app in Hfu. cbn [length] in Hfu. lia. }
    assert (Hd0 : same_data s s) by (intros x; auto).
    assert (E0' : ptrs t = L1 ++ (M0 ++ [up]) ++ L3)
      by (rewrite E0, <- !app_assoc; reflexivity).
    assert (Hrest : filter (fun q => negb (inside compare a b exclusive
                                             (key (node s q)))) (ptrs t) = L1 ++ L3).
    { rewrite E0'. apply filter_rest.
      - rewrite <- E0'. apply Ht.
      - rewrite <- E0'. exact Esel. }
    rewrite Hrest.
    assert (Hent : forall s' t', shape s' t' -> ptrs t' = L1 ++ L3 ->
                     same_data s s' ->
                     Map_entries s' = Some (entries_of s (L1 ++ L3))).
    { intros s' t' Hs' Ep Hd. unfold Map_entries.
      rewrite (@Map_inorder_spec K V s' t' (proj1 Hs')), Ep. cbn [option_map].
      f_equal. unfold entries_of. apply map_ext. intros q.
      destruct (Hd q) as (D1 & D2). rewrite D1, D2. reflexivity. }
    split.
    + destruct (@remove_loop_trace Z (fun _ (z : Z) _ => z + 1) s (fun _ _ _ _ => eq_refl)
                  up L3 M0 s t L1 0 (gas s) Hd0 Hs E0 Hlen)
        as (s' & t' & E2 & Hs' & Ep & Hd').
      rewrite E2. exists s', t'. rewrite fold_count.
      unfold entries_of. rewrite length_map. cbn [Z.add].
      split; [reflexivity|]. split; [exact Hs'|]. apply (Hent s' t'); auto.
    + destruct (@remove_loop_trace (list (K * V))
                  (fun s0 acc q => acc ++ [(key (node s0 q), value (node s0 q))]) s)
        with (up := up) (L3 := L3) (M := M0) (s := s) (t := t) (L1 := L1)
             (acc := @nil (K * V)) (fuel := gas s)
        as (s' & t' & E2 & Hs' & Ep & Hd'); auto.
      { intros s1 acc q Hd. destruct (Hd q) as (D1 & D2). rewrite D1, D2. reflexivity. }
      rewrite E2. exists s', t'. rewrite fold_entries. cbn [app].
      split; [reflexivity|]. split; [exact Hs'|]. apply (Hent s' t'); auto.
Qed.

End Emptying.

(** * Entries by key, whole ranges, and maps used through their own methods *)

Section Orders.

Variable K : Type.
Variables less greater : K -> K -> bool.
Hypothesis greater_less : forall a b, greater a b = less b a.

Lemma descending_swap a b :
  descending less greater a b = ascending less greater b a.
Proof. unfold descending, ascending. rewrite !greater_less. reflexivity. Qed.

Lemma descending_neg a b :
  descending less greater a b < 0 <-> less b a = true.
Proof.
  unfold descending. rewrite greater_less.
  destruct (less b a), (less a b); split; intros H;
    try reflexivity; try discriminate H; lia.
Qed.

Lemma descending_pos a b :
  descending less greater a b > 0 <-> less b a = false /\ less a b = true.
Proof.
  unfold descending. rewrite greater_less.
  destruct (less b a), (less a b); split; intros H;
    try (split; reflexivity); try (destruct H; discriminate); lia.
Qed.

Lemma descending_zero a b :
  descending less greater a b = 0 <-> less b a = false /\ less a b = false.
Proof.
  unfold descending. rewrite greater_less.
  destruct (less b a), (less a b); split; intros H;
    try (split; reflexivity); try (destruct H; discriminate);
    try reflexivity; discriminate H.
Qed.

Hypothesis less_irrefl : forall a, less a a = false.
Hypothesis less_trans :
  forall a b c, less a b = true -> less b c = true -> less a c = true.
Hypothesis less_total : forall a b, less a b = false -> less b a = false -> a = b.

Lemma less_asym a b : less a b = true -> less b a = false.
Proof.
  intros H. destruct (less b a) eqn:E0; [|reflexivity].
  pose proof (less_trans H E0) as H1. rewrite less_irrefl in H1. discriminate.
Qed.

Lemma descending_le a b :
  descending less greater a b <= 0 <-> less a b = false.
Proof.
  unfold descending. rewrite greater_less.
  destruct (less b a) eqn:E1, (less a b) eqn:E2; split; intros H;
    try reflexivity; try discriminate H; try lia.
  rewrite (less_asym E1) in E2. discriminate.
Qed.

Lemma descending_sym a b :
  descending less greater a b < 0 <-> descending less greater b a > 0.
Proof.
  rewrite descending_neg, descending_pos. split.
  - intros H. split; [apply less_asym|]; exact H.
  - intros [_ H]. exact H.
Qed.

Lemma descending_trans x y z :
  descending less greater x y <= 0 -> descending less greater y z <= 0 ->
  descending less greater x z <= 0.
Proof.
  rewrite !descending_le. intros H1 H2.
  destruct (less x z) eqn:E0; [|reflexivity].
  destruct (less y x) eqn:E1.
  - rewrite (less_trans E1 E0) in H2. discriminate.
  - pose proof (less_total H1 E1) as Heq. subst y.
    rewrite E0 in H2. discriminate.
Qed.

End Orders.

(** X21: [descending(a, b)] is [ascending(b, a)], [a > b] being [b < a].
    Where [<] is a strict total order on the keys, [descending] is
    negative exactly when the first key is the greater one and zero
    exactly on equal keys, and it is an order in the sense the map needs.
    A key that [<] does not order against any key, as [NaN] among the
    numbers, compares as [0] with every key under both comparators, and
    then [<= 0] is not transitive. *)
Theorem descending_is_an_order (K : Type) (less greater : K -> K -> bool) :
  (forall a b, greater a b = less b a) ->
  (forall a b, descending less greater a b = ascending less greater b a) /\
  ((forall a, less a a = false) ->
   (forall a b c, less a b = true -> less b c = true -> less a c = true) ->
   (forall a b, less a b = false -> less b a = false -> a = b) ->
   (forall a b, descending less greater a b < 0 <-> less b a = true) /\
   (forall a b, descending less greater a b = 0 <-> a = b) /\
   (forall a b, descending less greater a b < 0 <->
                descending less greater b a > 0) /\
   (forall x y z, descending less greater x y <= 0 ->
                  descending less greater y z <= 0 ->
                  descending less greater x z <= 0)) /\
  (forall nan,
     (forall x, less nan x = false /\ less x nan = false) ->
     (forall x, descending less greater nan x = 0 /\
                descending less greater x nan = 0 /\
                ascending less greater nan x = 0 /\
                ascending less greater x nan = 0) /\
     (forall a b, less a b = true -> less b a = false ->
        descending less greater a nan <= 0 /\
        descending less greater nan b <= 0 /\
        descending less greater a b > 0)).
Proof.
  intros G. split; [exact (@descending_swap K less greater G)|]. split.
  - intros Hi Ht Htot. split; [exact (@descending_neg K less greater G)|].
    split; [|split].
    + intros a b. rewrite (@descending_zero K less greater G). split.
      * intros [H1 H2]. apply Htot; assumption.
      * intros ->. split; apply Hi.
    + exact (@descending_sym K less greater G Hi Ht).
    + exact (@descending_trans K less greater G Hi Ht Htot).
  - intros nan Hn.
    assert (Hz : forall x, descending less greater nan x = 0 /\
                           descending less greater x nan = 0).
    { intros x. rewrite !(@descending_zero K less greater G).
      destruct (Hn x) as [H1 H2]. auto. }
    split.
    + intros x. destruct (Hz x) as [H1 H2].
      split; [exact H1|]. split; [exact H2|].
      rewrite <- !(@descending_swap K less greater G). auto.
    + intros a b H1 H2. destruct (Hz a) as [_ Ha]. destruct (Hz b) as [Hb _].
      rewrite Ha, Hb. split; [lia|]. split; [lia|].
      apply (@descending_pos K less greater G). auto.
Qed.

Section ByKeyOrdered.

Variables K V : Type.
Variable undefK : K.
Variable compare : K -> K -> Z.
Hypothesis compare_sym : forall a b, compare a b < 0 <-> compare b a > 0.
Hypothesis compare_trans :
  forall a b d, compare a b <= 0 -> compare b d <= 0 -> compare a d <= 0.
Implicit Types (s : state K V) (p q : ptr) (t l r : tree) (c : ctx).

(** X5: [entry(k)] of a well-formed map returns.  The entry is occupied when
    the walk finds a node whose key compares equal, and then [insert(v)]
    on it replaces the value; it is vacant and remembers [k] otherwise,
    and then [insert(v)] on it adds the key.  Either way [insert(v)] on
    the entry does what [insert(k, v)] of the map does, and returns what
    it returns.  On a map with increasing keys the entry is occupied
    exactly when [has(k)], and vacant only if no key compares equal. *)
Theorem entry_insert_is_insert s t k v :
  shape s t ->
  exists e e' old s',
    Map_entry compare s k = Some e /\
    EntryWithKey_insert undefK s e v = (Ok (e', old), s') /\
    Map_insert compare s k v = Some (old, s') /\
    Map_set compare s k v = Some s' /\
    inner_isEmpty e' = false /\
    (inner_isEmpty e = false ->
       e' = e /\ old = inner_value s e /\
       exists n, e = Occupied n /\ In n (ptrs t) /\
                 compare k (key (node s n)) = 0) /\
    (inner_isEmpty e = true -> old = None /\ inner_key s e = Some k /\
                               e' = Occupied (st_next s)) /\
    (ordered compare s (ptrs t) ->
       Map_has compare s k = Some (negb (inner_isEmpty e)) /\
       (inner_isEmpty e = true ->
          forall q, In q (ptrs t) -> compare k (key (node s q)) <> 0)).
Proof.
  intros Hs. pose proof Hs as (Ht & _ & _ & Hl).
  pose proof (@tree_of_fuel K V s t Ht) as Hf.
  pose proof Ht as (HR & Hroot & _ & _ & HN).
  assert (Habs : ordered compare s (ptrs t) ->
                 forall p b ko, Map_entry compare s k = Some (Vacant p b ko) ->
                 forall q, In q (ptrs t) -> compare k (key (node s q)) <> 0).
  { intros Ho p b ko He.
    destruct (@search_spec K V compare compare_sym compare_trans s t k Ht Ho)
      as (n & En & [(Hn & _)|(-> & Hno)]); [exfalso|exact Hno].
    assert (Es : search compare s k =
                 match searchEntry compare s k with
                 | Some (n', _, _) => Some n'
                 | None => None
                 end)
      by (unfold search, searchEntry; apply search_loop_searchEntry).
    rewrite Es in En. unfold Map_entry, entry in He.
    destruct (searchEntry compare s k) as [[[n' p''] b'']|]; [|discriminate].
    inversion En; subst n'. rewrite (neqb Hn) in He. discriminate. }
  revert Habs.
  unfold Map_entry, entry, Map_insert, Map_set, insert, searchEntry.
  rewrite insert_loop_searchEntry, Hroot.
  destruct (@searchEntry_loop_spec K V compare s k t [] (gas s) NIL Left)
    as (n & p' & b' & E1 & [(Hn & c' & l & r & Ep & Hslot & Hk & Hc)
                           |(Hn & c' & Ep & Hslot & Hc)]);
    cbn [cparent at_slot cmp_path]; auto; rewrite E1; cbn [plug] in Ep;
    intros Habs.
  - rewrite (neqb Hn).
    assert (Hin : In n (ptrs t)) by (rewrite Ep; in_solve).
    exists (Occupied n), (Occupied n), (Some (value (node s n))), (set_value s n v).
    split; [reflexivity|].
    unfold EntryWithKey_insert, inner_validate, validate, replace.
    cbn [inner_node]. rewrite (Hl n Hin). cbn [negb option_map snd inner_isEmpty].
    do 4 (split; [reflexivity|]).
    split; [intros _; do 2 (split; [reflexivity|]); exists n; auto|].
    split; [intros H; discriminate H|].
    intros Ho. split; [|intros H; discriminate H].
    exact (proj2 (@lookup_node K V compare compare_sym compare_trans
                    s t k n Hs Ho Hin Hk)).
  - subst n. rewrite Nat.eqb_refl. subst t.
    destruct (@insertEmpty_shape K V s c' p' b' k v Hs Hslot) as (s' & t' & E2 & _).
    pose proof (@slot_validate K V s c' p' b' Hs Hslot) as Hv.
    exists (Vacant p' b' (Some k)), (Occupied (st_next s)), None, s'.
    split; [reflexivity|].
    unfold EntryWithKey_insert, inner_validate. cbn [inner_node hint].
    rewrite Hv, E2. cbn [option_map snd inner_isEmpty inner_key].
    do 4 (split; [reflexivity|]).
    split; [intros H; discriminate H|].
    split; [intros _; repeat split; reflexivity|].
    intros Ho. pose proof (Habs Ho p' b' (Some k) eq_refl) as Hno.
    split; [|intros _; exact Hno].
    exact (proj2 (@lookup_none K V compare compare_sym compare_trans
                    s (plug c' E) k Hs Ho Hno)).
Qed.

End ByKeyOrdered.

Section ByKey.

Variables K V : Type.
Variable undefK : K.
Variable compare : K -> K -> Z.
Implicit Types (s : state K V) (p q : ptr) (t l r : tree) (c : ctx).

(** X6: [remove(k)] of the map returns the value [get(k)] gave, and leaves
    the map [delete(k)] leaves. *)
Theorem remove_returns_value s t k :
  shape s t ->
  exists old s',
    Map_remove compare s k = Some (old, s') /\
    Map_get compare s k = Some old /\
    Map_delete compare s k
      = Some (match old with Some _ => true | None => false end, s').
Proof.
  intros Hs. unfold Map_remove, Map_get, Map_delete.
  destruct (@search_shape K V compare s t k Hs) as (n & E1 & [->|Hin]);
    rewrite E1; cbn [option_map].
  - rewrite Nat.eqb_refl. exists None, s. auto.
  - assert (Hn : n <> NIL).
    { pose proof (@tree_of_bounds K V s t _ (proj1 Hs) Hin). unfold NIL. lia. }
    rewrite (neqb Hn). destruct (in_split _ _ Hin) as (L1 & L2 & E0).
    destruct (@remove_shape K V s t n L1 L2 Hs E0) as (s' & t' & Er & _).
    rewrite Er. cbn [option_map].
    destruct (remove_data _ _ Er) as (_ & _ & _ & Hd).
    destruct (Hd n) as (_ & Hv & _). rewrite Hv.
    exists (Some (value (node s n))), s'. auto.
Qed.

(** X19: [range()] with neither bound, on a map that is not empty, is the
    range from the first to the last node: it enumerates the whole map,
    forwards and backwards. *)
Theorem whole_range s t (exclusive : bool) :
  shape s t -> t <> E ->
  exists rg,
    Map_range compare s None None exclusive = Ok rg /\
    Range_isEmpty rg = false /\
    Range_inorder s rg = Ok (ptrs t) /\
    Range_inorderReverse s rg = Ok (rev (ptrs t)) /\
    Some (Range_entries s rg) = option_map (@Ok _) (Map_entries s) /\
    Some (Range_first s rg) = option_map (@Ok _) (Map_first s) /\
    Some (Range_last s rg) = option_map (@Ok _) (Map_last s).
Proof.
  intros Hs Hne. pose proof Hs as (Ht & _).
  assert (HL : ptrs t <> []) by (destruct t; [congruence|apply ptrs_T_ne]).
  pose proof Ht as (HR & Hroot & _).
  assert (Hr0 : root s <> NIL).
  { rewrite Hroot. destruct t as [|l x r]; [congruence|].
    cbn [Rep rootp] in *. apply HR. }
  exists (mkRange (hd NIL (ptrs t)) (last (ptrs t) NIL) Default).
  split.
  { unfold Map_range, range, searchRange, searchRange_lower, searchRange_upper.
    rewrite (neqb Hr0), (@minimum_root K V s t Ht), (@maximum_root K V s t Ht).
    reflexivity. }
  split; [reflexivity|].
  destruct (@range_stretch K V s t
              (mkRange (hd NIL (ptrs t)) (last (ptrs t) NIL) Default)
              [] (ptrs t) [] Hs)
    as (W1 & W2 & _ & _ & W5 & W6); auto.
  { rewrite app_nil_r. reflexivity. }
  split; [exact W1|]. split; [exact W2|].
  unfold Range_entries, Map_entries, Map_first, Map_last.
  rewrite W1, W5, W6, (@Map_inorder_spec K V s t Ht).
  rewrite (@minimum_root K V s t Ht), (@maximum_root K V s t Ht).
  cbn [option_map map_result].
  assert (Hh : hd NIL (ptrs t) <> NIL).
  { intros H. pose proof (@tree_of_bounds K V s t _ Ht (hd_in NIL HL)) as B.
    rewrite H in B. unfold NIL in B. lia. }
  assert (Hla : last (ptrs t) NIL <> NIL).
  { intros H. pose proof (@tree_of_bounds K V s t _ Ht (last_in NIL HL)) as B.
    rewrite H in B. unfold NIL in B. lia. }
  rewrite (neqb Hh), (neqb Hla). auto.
Qed.

End ByKey.

Section AfterEntry.

Variables K V : Type.
Variable undefK : K.
Variable compare : K -> K -> Z.
Implicit Types (s : state K V) (p q : ptr) (t l r : tree) (c : ctx).

(** X16: [insertAfter(k, v)] on the entry of a node: if [k] is greater than
    the key of the node and less than the key after it, a node with [k]
    and [v] is put just after it and the entry stays on its node; if [k]
    is not greater than the key of the node the call throws "The key is
    not greater than the previous key.", and if it is not less than the
    key after it throws "The key is not less than the next key.", the
    map being left as it is. *)
Theorem insert_after_spec s t n L1 L2 k v :
  shape s t -> ptrs t = L1 ++ n :: L2 ->
  (compare (key (node s n)) k < 0 ->
   (L2 = [] \/ compare k (key (node s (hd NIL L2))) < 0) ->
   exists s' t',
     Entry_insertAfter compare s (Occupied n) k v
       = (Ok (Occupied n, Occupied (st_next s)), s') /\
     shape s' t' /\ ptrs t' = L1 ++ n :: st_next s :: L2 /\
     Map_keys s' = Some (keys_of s (L1 ++ [n]) ++ k :: keys_of s L2) /\
     Map_values s' = Some (values_of s (L1 ++ [n]) ++ v :: values_of s L2) /\
     size s' = size s + 1) /\
  (compare (key (node s n)) k >= 0 ->
   Entry_insertAfter compare s (Occupied n) k v = (Throw KeyNotGreater, s)) /\
  (compare (key (node s n)) k < 0 ->
   L2 <> [] -> compare k (key (node s (hd NIL L2))) >= 0 ->
   Entry_insertAfter compare s (Occupied n) k v = (Throw KeyNotLess, s)).
Proof.
  intros Hs E0. pose proof Hs as (Ht & _ & _ & Hl).
  assert (Hn : In n (ptrs t)) by (rewrite E0; apply in_elt).
  assert (Hn0 : n <> NIL)
    by (pose proof (@tree_of_bounds K V s t _ Ht Hn); unfold NIL; lia).
  assert (Hnext : L2 <> [] -> hd NIL L2 <> NIL).
  { intros HL H. assert (Hin : In (hd NIL L2) (ptrs t))
      by (rewrite E0; apply in_or_app; right; right; apply hd_in; exact HL).
    pose proof (@tree_of_bounds K V s t _ Ht Hin) as B. rewrite H in B.
    unfold NIL in B. lia. }
  assert (Hv : validateKey compare s n k (hd NIL L2) =
               if compare (key (node s n)) k >=? 0 then Some KeyNotGreater
               else if negb (Nat.eqb (hd NIL L2) NIL) &&
                       (compare k (key (node s (hd NIL L2))) >=? 0)
                    then Some KeyNotLess else None).
  { unfold validateKey. rewrite (neqb Hn0). reflexivity. }
  assert (Hok : (L2 = [] \/ compare k (key (node s (hd NIL L2))) < 0) ->
                negb (Nat.eqb (hd NIL L2) NIL) &&
                (compare k (key (node s (hd NIL L2))) >=? 0) = false).
  { intros [->|H]; [reflexivity|]. apply andb_false_iff. right.
    rewrite Z.geb_leb. apply Z.leb_gt. exact H. }
  assert (Hlt : compare (key (node s n)) k < 0 ->
                (compare (key (node s n)) k >=? 0) = false)
    by (intros H; rewrite Z.geb_leb; apply Z.leb_gt; exact H).
  assert (Hge : forall z, z >= 0 -> (z >=? 0) = true)
    by (intros z H; rewrite Z.geb_leb; apply Z.leb_le; lia).
  unfold Entry_insertAfter, inner_validate, validate. cbn [inner_node].
  rewrite (Hl n Hn). cbn [negb inner_insertAfter inner_isEmpty].
  destruct (@Occupied_insertAfter_steps K V compare s t n L1 L2 k v Hs E0)
    as [(e & Ev & Er)|(Ev & c & m & s' & t' & Et & Eb & Ea & Er & _ & Hrel & Em)];
    rewrite Hv in Ev; rewrite Er.
  - split; [|split].
    + intros H1 H2. rewrite (Hlt H1), (Hok H2) in Ev. discriminate.
    + intros H1. rewrite (Hge _ H1) in Ev. inversion Ev. reflexivity.
    + intros H1 H2 H3. rewrite (Hlt H1), (neqb (Hnext H2)), (Hge _ H3) in Ev.
      cbn [negb andb] in Ev. inversion Ev. reflexivity.
  - subst m t. split; [|split].
    + intros _ _. exists s', t'. split; [reflexivity|].
      destruct (@ins_rel_keys K V s s' c k v t' (L1 ++ [n]) L2 Hs Eb Ea Hrel)
        as (A1 & A2 & A3 & A4 & A5).
      rewrite <- app_assoc in A2. auto.
    + intros H1. exfalso. rewrite (Hge _ H1) in Ev. discriminate.
    + intros H1 H2 H3. exfalso.
      rewrite (Hlt H1), (neqb (Hnext H2)), (Hge _ H3) in Ev.
      cbn [negb andb] in Ev. discriminate.
Qed.

End AfterEntry.

Section MapOnly.

Variables K V : Type.
Variable undefK : K.
Variable undefV : V.
Variable compare : K -> K -> Z.
Implicit Types (s : state K V) (p q : ptr) (t l r : tree) (c : ctx).

Hypothesis compare_sym : forall a b, compare a b < 0 <-> compare b a > 0.
Hypothesis compare_trans :
  forall x y z, compare x y <= 0 -> compare y z <= 0 -> compare x z <= 0.

Local Abbreviation run_all := (run_all undefK compare).

(** X4: [set(k, v)] with a key that is not in the map puts it where it
    belongs: the keys before are less, the keys after greater, and no
    other entry changes; with a key that is there it changes its value
    only. *)
Theorem set_inserts_in_order s t k v :
  shape s t -> ordered compare s (ptrs t) ->
  exists s' L1 L2,
    Map_set compare s k v = Some s' /\
    (forall x, In x (keys_of s L1) -> compare x k < 0) /\
    (forall x, In x (keys_of s L2) -> compare k x < 0) /\
    ((Map_keys s = Some (keys_of s L1 ++ keys_of s L2) /\
      Map_keys s' = Some (keys_of s L1 ++ k :: keys_of s L2) /\
      Map_values s = Some (values_of s L1 ++ values_of s L2) /\
      Map_values s' = Some (values_of s L1 ++ v :: values_of s L2) /\
      size s' = size s + 1) \/
     (exists n,
        compare k (key (node s n)) = 0 /\
        Map_keys s = Some (keys_of s L1 ++ key (node s n) :: keys_of s L2) /\
        Map_keys s' = Map_keys s /\
        Map_values s = Some (values_of s L1 ++ value (node s n) :: values_of s L2) /\
        Map_values s' = Some (values_of s L1 ++ v :: values_of s L2) /\
        size s' = size s)).
Proof.
  intros Hs Ho. pose proof Hs as (Ht & _).
  unfold Map_set.
  destruct (@insert_shape K V compare s t k v Hs)
    as (old & s' & t' & E1 & Hs' & [(n & Hn & Hk & _ & -> & ->)
                                    |(_ & c & -> & Hp & Hrel)]);
    rewrite E1; cbn [option_map snd].
  - destruct (in_split _ _ Hn) as (L1 & L2 & E0).
    exists (set_value s n v), L1, L2. split; [reflexivity|].
    pose proof (@compare_eq_sym K compare compare_sym _ _ Hk) as Hk'.
    pose proof Ho as Ho0. rewrite E0 in Ho0. unfold ordered in Ho0.
    apply ss_app_iff in Ho0. destruct Ho0 as (_ & O2 & O3).
    inversion O2 as [|? ? _ Hall]; subst. rewrite Forall_forall in Hall.
    split; [|split].
    + intros x Hx. unfold keys_of in Hx. apply in_map_iff in Hx.
      destruct Hx as (q & <- & Hq).
      apply (@compare_lt_le K compare compare_sym compare_trans)
        with (key (node s n)); [|lia]. apply O3; [exact Hq|left; reflexivity].
    + intros x Hx. unfold keys_of in Hx. apply in_map_iff in Hx.
      destruct Hx as (q & <- & Hq).
      apply (@compare_le_lt K compare compare_sym compare_trans)
        with (key (node s n)); [lia|]. apply Hall. exact Hq.
    + right. exists n. split; [exact Hk|].
      unfold Map_keys, Map_values.
      rewrite (@Map_inorder_spec K V s t Ht).
      rewrite (@Map_inorder_spec K V _ t (proj1 Hs')). cbn [option_map].
      rewrite E0. unfold keys_of, values_of. rewrite !map_app. cbn [map].
      store. rewrite ?Nat.eqb_refl.
      do 3 (split; [reflexivity|]). split; [|reflexivity].
      pose proof Ht as (_ & _ & ND & _). rewrite E0 in ND.
      f_equal. f_equal; [|f_equal]; apply map_ext_in; intros q Hq; store.
      * destruct (Nat.eqb q n) eqn:Eq; [|reflexivity].
        apply Nat.eqb_eq in Eq. subst q. exfalso.
        apply NoDup_remove_2 in ND. apply ND. apply in_or_app. auto.
      * destruct (Nat.eqb q n) eqn:Eq; [|reflexivity].
        apply Nat.eqb_eq in Eq. subst q. exfalso.
        apply NoDup_remove_2 in ND. apply ND. apply in_or_app. auto.
  - exists s', (before c), (after c). split; [reflexivity|].
    destruct (@cmp_path_fits K V compare compare_sym compare_trans s k c E Ho Hp)
      as (F1 & F2).
    split; [|split].
    + intros x Hx. unfold keys_of in Hx. apply in_map_iff in Hx.
      destruct Hx as (q & <- & Hq). auto.
    + intros x Hx. unfold keys_of in Hx. apply in_map_iff in Hx.
      destruct Hx as (q & <- & Hq). auto.
    + left.
      destruct (@ins_rel_keys K V s s' c k v t' (before c) (after c) Hs
                  eq_refl eq_refl Hrel) as (_ & _ & A3 & A4 & A5).
      unfold Map_keys, Map_values.
      rewrite (@Map_inorder_spec K V s _ Ht), ptrs_plug. cbn [option_map ptrs app].
      unfold keys_of, values_of. rewrite !map_app. auto.
Qed.

(** X8: From the new map, any sequence of calls on the map itself ([set],
    [insert], [delete], [remove], [clear], [range]) leaves a well-formed
    map: a ranked tree of live nodes whose keys increase, whose [keys()]
    are these keys, and whose [size] is their number. *)
Theorem map_calls_keep_invariants (cls : list (call K V)) :
  forallb (fun cl => plain cl) cls = true ->
  exists t,
    shape (run_all cls (empty undefK undefV)) t /\
    ordered compare (run_all cls (empty undefK undefV)) (ptrs t) /\
    ranked (run_all cls (empty undefK undefV)) /\
    Map_keys (run_all cls (empty undefK undefV))
      = Some (keys_of (run_all cls (empty undefK undefV)) (ptrs t)) /\
    StronglySorted (fun a b => compare a b < 0)
      (keys_of (run_all cls (empty undefK undefV)) (ptrs t)) /\
    size (run_all cls (empty undefK undefV)) = Z.of_nat (length (ptrs t)).
Proof.
  intros Hp.
  assert (H : forall (l0 : list (call K V)) s t,
            forallb (fun cl => plain cl) l0 = true ->
            shape s t -> ordered compare s (ptrs t) -> counted s t ->
            exists t', shape (run_all l0 s) t' /\
                       ordered compare (run_all l0 s) (ptrs t') /\
                       counted (run_all l0 s) t').
  { clear Hp. intros l0. induction l0 as [|cl l0 IH]; intros s t Hp Hs Ho Hc.
    - exists t. auto.
    - cbn [forallb] in Hp. apply andb_true_iff in Hp. destruct Hp as [Hp1 Hp2].
      assert (Hcur : current compare s t cl) by (destruct cl; try discriminate; exact I).
      destruct (@run_steps K V undefK compare cl s t Hs Hcur) as ((t1 & Hst) & _).
      unfold run_all. cbn [fold_left].
      apply (IH _ t1 Hp2).
      + exact (steps_shape Hs Hst).
      + exact (@steps_ordered K V compare compare_sym compare_trans _ _ _ _ Hs Ho Hst).
      + exact (steps_counted Hst Hc). }
  destruct (H cls (empty undefK undefV) E Hp) as (t' & Hs' & Ho' & Hc').
  - apply shape_empty.
  - constructor.
  - reflexivity.
  - exists t'. split; [exact Hs'|]. split; [exact Ho'|].
    split; [exact (shape_ranked Hs')|].
    unfold Map_keys. rewrite (@Map_inorder_spec K V _ _ (proj1 Hs')).
    split; [reflexivity|]. split; [|exact Hc'].
    unfold keys_of. apply ss_map. exact Ho'.
Qed.

End MapOnly.

(** * Gaps and rotations *)

Section Gaps.

Variables K V : Type.
Variable compare : K -> K -> Z.
Implicit Types (s : state K V) (p q : ptr) (t l r : tree) (c : ctx).

(** X22: A vacant entry on a gap of a well-formed map that is not empty:
    [prev()] is the occupied entry of the node before the gap, and the
    entry itself if the gap is before the first node; [next()] is the
    occupied entry of the node after the gap, and the entry itself if the
    gap is after the last node. *)
Theorem vacant_prev_next s c p b ko :
  shape s (plug c E) -> at_slot c p b -> c <> [] ->
  Entry_prev s (Vacant p b ko) =
    (Ok (if Nat.eqb (last (before c) NIL) NIL then Vacant p b ko
         else Occupied (last (before c) NIL)), s) /\
  Entry_next s (Vacant p b ko) =
    (Ok (if Nat.eqb (hd NIL (after c)) NIL then Vacant p b ko
         else Occupied (hd NIL (after c))), s).
Proof.
  intros Hs Hslot Hc. pose proof Hs as (Ht & _).
  pose proof (@slot_validate K V s c p b Hs Hslot) as Hv.
  pose proof (@vacant_neighbours K V s c p b Ht Hslot) as Hn.
  assert (Hin : forall q, In q (ptrs (plug c E)) -> q <> NIL).
  { intros q Hq. pose proof (@tree_of_bounds K V s _ _ Ht Hq). unfold NIL. lia. }
  unfold Entry_prev, Entry_next, inner_validate. cbn [inner_node].
  rewrite Hv. cbn [inner_prev inner_next].
  destruct c as [|[x r|l x] c']; [congruence| |]; cbn [at_slot] in Hslot;
    destruct Hslot as [-> ->]; cbn [Branch_eqb] in *.
  - assert (Hx : x <> NIL)
      by (apply Hin; rewrite ptrs_plug; cbn [before after ptrs app]; in_solve).
    rewrite (neqb Hx). cbn [after hd before] in *. rewrite (neqb Hx).
    destruct (predecessor s x) as [pr|]; cbn [option_map] in Hn; [|discriminate].
    inversion Hn; subst pr. auto.
  - assert (Hx : x <> NIL)
      by (apply Hin; rewrite ptrs_plug; cbn [before after ptrs app]; in_solve).
    rewrite (neqb Hx). cbn [after hd before] in *.
    rewrite app_assoc, last_last in *. rewrite (neqb Hx).
    destruct (successor s x) as [nx|]; cbn [option_map] in Hn; [|discriminate].
    inversion Hn; subst nx. auto.
Qed.

(** X23: [insertBefore(k, v)] and [insertAfter(k, v)] on a vacant entry on a
    gap of a well-formed map do the same: if [k] is greater than the key
    before the gap and less than the key after it (where there is one),
    a node with [k] and [v] fills the gap, so that [keys()] and
    [values()] have [k] and [v] there and are as before around it, and
    the entry becomes the occupied entry of that node and reads [k] and
    [v]; otherwise the call throws and the map is left as it is. *)
Theorem vacant_insert_spec s c p b ko k v :
  shape s (plug c E) -> at_slot c p b ->
  Entry_insertAfter compare s (Vacant p b ko) k v
    = Entry_insertBefore compare s (Vacant p b ko) k v /\
  ((exists e,
      validateKey compare s (last (before c) NIL) k (hd NIL (after c)) = Some e /\
      Entry_insertBefore compare s (Vacant p b ko) k v = (Throw e, s)) \/
   (validateKey compare s (last (before c) NIL) k (hd NIL (after c)) = None /\
    exists s' t',
      Entry_insertBefore compare s (Vacant p b ko) k v
        = (Ok (Occupied (st_next s), Occupied (st_next s)), s') /\
      shape s' t' /\ ptrs t' = before c ++ st_next s :: after c /\
      Map_keys s' = Some (keys_of s (before c) ++ k :: keys_of s (after c)) /\
      Map_values s'
        = Some (values_of s (before c) ++ v :: values_of s (after c)) /\
      inner_entry s' (Occupied (st_next s)) = Some (k, v) /\
      size s' = size s + 1)).
Proof.
  intros Hs Hslot. split; [reflexivity|].
  pose proof (@slot_validate K V s c p b Hs Hslot) as Hv.
  unfold Entry_insertBefore, inner_validate. cbn [inner_node inner_insertBefore].
  rewrite Hv.
  destruct (@Vacant_insert_steps K V compare s c p b k v Hs Hslot)
    as [(e & Ev & Er)|(Ev & m & s' & t' & Er & _ & Hrel & ->)]; rewrite Er.
  - left. exists e. auto.
  - right. split; [exact Ev|]. exists s', t'.
    cbn [inner_isEmpty]. split; [reflexivity|].
    destruct (@ins_rel_keys K V s s' c k v t' (before c) (after c) Hs
                eq_refl eq_refl Hrel) as (A1 & A2 & A3 & A4 & A5).
    destruct Hrel as (_ & _ & Ek & Ev' & _).
    do 4 (split; [assumption|]). split; [|exact A5].
    cbn [inner_entry]. rewrite Ek, Ev'. reflexivity.
Qed.

End Gaps.

Section Turning.

Variables K V : Type.
Implicit Types (s : state K V) (p q : ptr) (t l r : tree) (c : ctx).

(** X24: A left rotation at [n] with right child [m], and a right rotation at
    [m] with left child [n], in a tree the store holds: the store then
    holds the rotated tree in the same place, the in-order sequence of
    the whole tree is the same, and no key, value or tombstone has
    changed. *)
Theorem rotations_keep_inorder s c A n B m C :
  NoDup (before c ++ ptrs (T A n (T B m C)) ++ after c) ->
  (Rep s (cparent NIL c) (T A n (T B m C)) -> RepC s NIL c n ->
   Rep (rotateLeft s n m) (cparent NIL c) (T (T A n B) m C) /\
   RepC (rotateLeft s n m) NIL c m /\ keeps s (rotateLeft s n m)) /\
  (Rep s (cparent NIL c) (T (T A n B) m C) -> RepC s NIL c m ->
   Rep (rotateRight s m n) (cparent NIL c) (T A n (T B m C)) /\
   RepC (rotateRight s m n) NIL c n /\ keeps s (rotateRight s m n)) /\
  ptrs (plug c (T (T A n B) m C)) = ptrs (plug c (T A n (T B m C))).
Proof.
  intros ND. split; [|split].
  - intros HR HC.
    destruct (@rotateLeft_ok K V s c A n B m C HR HC ND) as (R1 & R2 & _ & R4 & _).
    cbn [rootp] in R2. auto.
  - intros HR HC.
    assert (ND' : NoDup (before c ++ ptrs (T (T A n B) m C) ++ after c)).
    { assert (Ep : ptrs (T (T A n B) m C) = ptrs (T A n (T B m C)))
        by (cbn [ptrs]; rewrite <- app_assoc; cbn [app]; reflexivity).
      rewrite Ep. exact ND. }
    destruct (@rotateRight_ok K V s c A n B m C HR HC ND') as (R1 & R2 & _ & R4 & _).
    cbn [rootp] in R2. auto.
  - rewrite !ptrs_plug. f_equal. f_equal. cbn [ptrs].
    rewrite <- app_assoc. reflexivity.
Qed.

End Turning.

(** * Maps of integers under [ascending] *)

Lemma ascending_sym a b : (ascending Z.ltb Z.gtb) a b < 0 <-> (ascending Z.ltb Z.gtb) b a > 0.
Proof.
  unfold ascending.
  destruct (Z.ltb_spec a b), (Z.ltb_spec b a), (Z.gtb_spec a b),
    (Z.gtb_spec b a); lia.
Qed.

Lemma ascending_trans x y z :
  (ascending Z.ltb Z.gtb) x y <= 0 -> (ascending Z.ltb Z.gtb) y z <= 0 -> (ascending Z.ltb Z.gtb) x z <= 0.
Proof.
  unfold ascending.
  destruct (Z.ltb_spec x y), (Z.ltb_spec y z), (Z.ltb_spec x z),
    (Z.gtb_spec x y), (Z.gtb_spec y z), (Z.gtb_spec x z); lia.
Qed.

Ltac by_run := vm_compute; repeat split; try reflexivity; try discriminate; try lia.

(** A concrete store holds a concrete tree: the links and the sentinel by
    evaluation, the ranks as given. *)
Ltac concrete_shape ranks :=
  split; [split; [by_run; intros H; discriminate H|];
          split; [by_run|];
          split; [cbn [ptrs app];
                  repeat (apply NoDup_cons; [cbn [In]; intuition discriminate|]);
                  apply NoDup_nil|];
          split; [intros q Hq; cbn [ptrs app In] in Hq; vm_compute;
                  repeat (destruct Hq as [<-|Hq]; [lia|]); destruct Hq|];
          by_run|];
  split; [by_run|];
  split; [ranks|];
  intros q Hq; cbn [ptrs app In] in Hq;
  repeat (destruct Hq as [<-|Hq]; [by_run|]); destruct Hq.

Ltac rank_node kl kr :=
  exists kl, kr; split; [|split; [|by_run]].

Lemma shape_map_10 : shape map_10 (T E 1%nat E).
Proof.
  concrete_shape ltac:(exists 0; cbn [wavl]; rank_node (-1) (-1); by_run).
Qed.

Lemma NIL_ok_new_map : NIL_ok new_map.
Proof. by_run. Qed.

(** ** A vacant entry that outlives its gap *)

(** C1, as stated, fails: on the map holding [10] take [first().prev()],
    the gap before [10]; set [5], which fills that gap; then
    [insertBefore(7, 0)] on the entry.  No call throws, and the tree at
    the root is left with a root of parity [Zero] over a leaf and the
    sentinel, which no ranks fit. *)
Lemma rank_rule_broken :
  Map_first map_10 = Some (Occupied 1%nat) /\
  fst (Entry_prev map_10 (Occupied 1%nat)) = Ok gap_before_10 /\
  outcome (MapSet 5 0) map_10 = Ok tt /\
  outcome (EntryInsertBefore gap_before_10 7 0) map_10_5 = Ok tt /\
  ~ ranked map_stale_gap.
Proof.
  do 4 (split; [vm_compute; reflexivity|]).
  assert (F : root map_stale_gap = 1%nat /\
              left (node map_stale_gap 1%nat) = 3%nat /\
              right (node map_stale_gap 1%nat) = NIL /\
              parity (node map_stale_gap 1%nat) = Zero /\
              left (node map_stale_gap 3%nat) = NIL /\
              right (node map_stale_gap 3%nat) = NIL)
    by (vm_compute; repeat split).
  destruct F as (F1 & F2 & F3 & F4 & F5 & F6).
  intros (t & k & HR & Hroot & Hw). rewrite F1 in Hroot.
  destruct t as [|l p r]; [discriminate|]. cbn [rootp] in Hroot. subst p.
  cbn [Rep] in HR. destruct HR as (_ & _ & El & Er & HRl & HRr).
  rewrite F2 in El. rewrite F3 in Er.
  symmetry in Er. apply (@rootp_NIL _ _ _ _ _ HRr) in Er. subst r.
  destruct l as [|ll p lr]; [discriminate|]. cbn [rootp] in El. subst p.
  cbn [Rep] in HRl. destruct HRl as (_ & _ & Ell & Elr & HRll & HRlr).
  rewrite F5 in Ell. rewrite F6 in Elr. symmetry in Ell, Elr.
  apply (@rootp_NIL _ _ _ _ _ HRll) in Ell.
  apply (@rootp_NIL _ _ _ _ _ HRlr) in Elr. subst ll lr.
  cbn [wavl] in Hw.
  destruct Hw as (kl & kr & (kll & klr & -> & -> & _ & _ & _ & Hleaf) & -> &
                  H1 & H2 & Hpar & _).
  assert (kl = 0) by auto. assert (k = 1) by lia. subst.
  rewrite F4 in Hpar. discriminate.
Qed.

Lemma rank_rule_kept_witness :
  shape map_10 (T E 1%nat E) /\
  ranked (state_after (EntryInsertBefore (Occupied 1%nat) 5 0) map_10).
Proof.
  split; [exact shape_map_10|].
  destruct (@rank_rule_kept Z Z 0 (ascending Z.ltb Z.gtb)
              (EntryInsertBefore (Occupied 1%nat) 5 0) map_10 (T E 1%nat E)
              shape_map_10 (or_introl (or_introl eq_refl)))
    as (t' & k & _ & _ & _ & _ & H & _).
  exact H.
Defined.

(** ** A keyed entry that outlives its gap *)

(** C2, as stated, fails: take [entry(5)] on the map holding [10]; set
    [7] and [6], which rotates [10] below [7]; then [insert(0)] on the
    entry puts [5] under [10], after [7].  No call throws, and [keys()]
    is no longer increasing. *)
Lemma key_order_broken :
  Map_entry (ascending Z.ltb Z.gtb) map_10 5 = Some gap_for_5 /\
  outcome (MapSet 7 0) map_10 = Ok tt /\
  outcome (MapSet 6 0) (state_after (MapSet 7 0) map_10) = Ok tt /\
  outcome (EntryInsert gap_for_5 0) map_10_7_6 = Ok tt /\
  Map_keys map_stale_key = Some [6; 7; 5; 10] /\
  ~ StronglySorted (fun a b => (ascending Z.ltb Z.gtb) a b < 0) [6; 7; 5; 10].
Proof.
  do 5 (split; [vm_compute; reflexivity|]).
  intros H. inversion H as [|? ? H1 _]; subst.
  inversion H1 as [|? ? _ H2]; subst.
  inversion H2 as [|? ? H3 _]; subst. vm_compute in H3. discriminate.
Qed.

Lemma key_order_kept_witness :
  shape map_10 (T E 1%nat E) /\
  exists L, Map_keys (state_after (EntryInsertBefore (Occupied 1%nat) 5 0) map_10)
            = Some L /\
            StronglySorted (fun a b => (ascending Z.ltb Z.gtb) a b < 0) L.
Proof.
  split; [exact shape_map_10|].
  assert (Ho : ordered (ascending Z.ltb Z.gtb) map_10 (ptrs (T E 1%nat E)))
    by (repeat constructor).
  destruct (@key_order_kept Z Z 0 (ascending Z.ltb Z.gtb) ascending_sym ascending_trans
              (EntryInsertBefore (Occupied 1%nat) 5 0) map_10 (T E 1%nat E)
              shape_map_10 Ho (or_introl (or_introl eq_refl)))
    as (t' & _ & _ & _ & Hk & _ & _ & Hss).
  eexists. split; [exact Hk|exact Hss].
Defined.

(** ** A range over keys out of order *)

Lemma shape_map_stale_key :
  shape map_stale_key (T (T E 3%nat E) 2%nat (T (T E 4%nat E) 1%nat E)).
Proof.
  concrete_shape ltac:(exists 2; cbn [wavl]; rank_node 0 1;
                       [rank_node (-1) (-1); by_run
                       |rank_node 0 (-1);
                        [rank_node (-1) (-1); by_run|by_run]]).
Qed.

(** C3, as stated, fails on the map that the calls of [key_order_broken]
    leave, which all return.  That map is well-formed and holds the keys
    [6; 7; 5; 10] in this order.  The walk of [range(5, 6)] goes left at
    [7] and finds [6] for both bounds, so that [entries()] of the range
    is the pair of [6] alone and [count()] is [1], while the pairs of the
    map with a key from [5] to [6] are those of [6] and of [5]. *)
Lemma range_misses_stored_key :
  outcome (EntryInsert gap_for_5 0) map_10_7_6 = Ok tt /\
  shape map_stale_key (T (T E 3%nat E) 2%nat (T (T E 4%nat E) 1%nat E)) /\
  ascending Z.ltb Z.gtb 5 6 <= 0 /\
  Map_entries map_stale_key = Some [(6, 0); (7, 0); (5, 0); (10, 0)] /\
  filter (fun kv => inside (ascending Z.ltb Z.gtb) 5 6 false (fst kv))
         [(6, 0); (7, 0); (5, 0); (10, 0)] = [(6, 0); (5, 0)] /\
  exists rg,
    Map_range (ascending Z.ltb Z.gtb) map_stale_key (Some 5) (Some 6) false
      = Ok rg /\
    Range_isEmpty rg = false /\
    Range_entries map_stale_key rg = Ok [(6, 0)] /\
    Range_count map_stale_key rg = (Ok 1, rg, map_stale_key).
Proof.
  split; [vm_compute; reflexivity|].
  split; [exact shape_map_stale_key|].
  split; [vm_compute; discriminate|].
  do 2 (split; [vm_compute; reflexivity|]).
  exists (mkRange 3%nat 3%nat Default).
  repeat split; vm_compute; reflexivity.
Qed.

(** ** The map of the keys 2 and 3 *)

(** C4 (as the code has it): on either tree of the keys 2 and 3,
    [range(2, 3, true)] is a [Default] range whose lower and upper bound
    are both the node of 2; it is not empty, holds the key 2, and its
    [first()] is the occupied entry of 2.  The [Exclusive] range with
    both bounds on the node of 2 is [range(2, 2, true)]: it is empty and
    its [first()] is a vacant entry between 2 and 3. *)
Theorem exclusive_range_2_3 (v2 v3 : Z) :
  exclusive_at_2 (map_2_3 v2 v3) 1%nat 2%nat /\
  exclusive_at_2 (map_3_2 v2 v3) 2%nat 1%nat.
Proof.
  split; unfold exclusive_at_2.
  - do 9 (split; [vm_compute; reflexivity|]).
    exists (Vacant 2%nat Left None). by_run.
  - do 9 (split; [vm_compute; reflexivity|]).
    exists (Vacant 2%nat Right None). by_run.
Qed.

(** C4, as stated, fails: on the map built by [set(2, 0)], [set(3, 0)],
    the kind of [range(2, 3, true)] is not [Exclusive] and its [first()]
    is not vacant. *)
Lemma exclusive_range_not_exclusive :
  Map_keys (map_2_3 0 0) = Some [2; 3] /\
  exists rg e,
    Map_range (ascending Z.ltb Z.gtb) (map_2_3 0 0) (Some 2) (Some 3) true = Ok rg /\
    kind rg <> Exclusive /\
    Range_first (map_2_3 0 0) rg = Ok e /\ inner_isEmpty e = false.
Proof.
  split; [vm_compute; reflexivity|].
  exists (mkRange 1%nat 1%nat Default), (Occupied 1%nat). by_run.
Qed.

(** ** Witnesses on small maps *)

Lemma shape_map_2_1_3 :
  shape map_2_1_3 (T (T E 2%nat E) 1%nat (T E 3%nat E)).
Proof.
  concrete_shape ltac:(exists 1; cbn [wavl]; rank_node 0 0;
                       [rank_node (-1) (-1); by_run
                       |rank_node (-1) (-1); by_run]).
Qed.


Lemma throw_atomic_witness :
  outcome (EntryDelete (Occupied 1%nat)) map_10_gone = Throw NodeRemoved /\
  state_after (EntryDelete (Occupied 1%nat)) map_10_gone = map_10_gone.
Proof.
  assert (H : outcome (EntryDelete (Occupied 1%nat)) map_10_gone
              = Throw NodeRemoved) by (vm_compute; reflexivity).
  split; [exact H|].
  exact (@throw_atomic Z Z 0 (ascending Z.ltb Z.gtb) (EntryDelete (Occupied 1%nat))
           map_10_gone NodeRemoved H).
Defined.

(** C7, as stated, fails: after [delete()] of the range of all keys of
    [map_10] has removed its one node, [first()] and [last()] of the
    range throw "The node is removed.", not "This range is removed.". *)
Lemma consumed_range_stale :
  Map_range (ascending Z.ltb Z.gtb) map_10 None None false = Ok all_of_map_10 /\
  fst (fst (Range_delete map_10 all_of_map_10)) = Ok 1 /\
  kind (snd (fst (Range_delete map_10 all_of_map_10))) = Removed /\
  Range_first (snd (Range_delete map_10 all_of_map_10))
              (snd (fst (Range_delete map_10 all_of_map_10)))
    = Throw NodeRemoved /\
  Range_last (snd (Range_delete map_10 all_of_map_10))
             (snd (fst (Range_delete map_10 all_of_map_10)))
    = Throw NodeRemoved /\
  Range_first (snd (Range_delete map_10 all_of_map_10))
              (snd (fst (Range_delete map_10 all_of_map_10)))
    <> Throw RangeRemoved.
Proof. by_run. Qed.

Lemma range_consumed_witness :
  kind (snd (fst (Range_delete map_10 all_of_map_10))) = Removed /\
  removed (node (snd (Range_delete map_10 all_of_map_10)) 1%nat) = true.
Proof.
  destruct (@range_consumed Z Z map_10 all_of_map_10
              (snd (fst (Range_delete map_10 all_of_map_10)))
              (snd (Range_delete map_10 all_of_map_10)) true)
    as (A1 & _ & _ & _ & A2).
  - left. exists (fst (fst (Range_delete map_10 all_of_map_10))).
    split; [|vm_compute; reflexivity].
    destruct (Range_delete map_10 all_of_map_10) as [[x r'] s'].
    reflexivity.
  - split; [exact A1|]. apply A2; [reflexivity|reflexivity|discriminate].
Defined.

Lemma clear_keeps_cursors_witness :
  inner_validate (clear map_10) (Occupied 1%nat) = true /\
  exists s2, Entry_delete (clear map_10) (Occupied 1%nat) = (Ok true, s2) /\
             size s2 = -1.
Proof.
  destruct (@clear_keeps_cursors Z Z 0 (ascending Z.ltb Z.gtb) map_10 (T E 1%nat E) 1%nat
              shape_map_10 (or_introl eq_refl))
    as (_ & _ & _ & A1 & _ & s2 & A2 & A3 & _).
  split; [exact A1|]. exists s2. auto.
Defined.

Lemma positional_insert_morphs_witness :
  (exists s',
     Entry_insertBefore (ascending Z.ltb Z.gtb) new_map (Vacant NIL Left None) 5 7
       = (Ok (Occupied 1%nat, Occupied 1%nat), s') /\
     Entry_insertAfter (ascending Z.ltb Z.gtb) new_map (Vacant NIL Left None) 5 7
       = (Ok (Occupied 1%nat, Occupied 1%nat), s') /\
     inner_entry s' (Occupied 1%nat) = Some (5, 7)) /\
  (exists s',
     Entry_insertAfter (ascending Z.ltb Z.gtb) map_10 (Occupied 1%nat) 20 7
       = (Ok (Occupied 1%nat, Occupied 2%nat), s') /\
     inner_entry s' (Occupied 2%nat) = Some (20, 7) /\
     inner_entry s' (Occupied 1%nat) = Some (10, 0)).
Proof.
  split.
  - destruct (@positional_insert_morphs Z Z (ascending Z.ltb Z.gtb) new_map 5 7)
      as (_ & P & _).
    destruct (P [] NIL Left None (shape_empty 0 0) eq_refl eq_refl)
      as (s' & A1 & A2 & _ & _ & A3).
    exists s'. change (st_next new_map) with 1%nat in A1, A2, A3. auto.
  - destruct (@positional_insert_morphs Z Z (ascending Z.ltb Z.gtb) map_10 20 7)
      as (_ & _ & P).
    destruct (P (T E 1%nat E) 1%nat [] [] shape_map_10 eq_refl) as (_ & P2).
    destruct (P2 eq_refl) as (s' & A1 & A2 & A3).
    exists s'. change (st_next map_10) with 2%nat in A1, A2.
    change (inner_entry map_10 (Occupied 1%nat)) with (Some (10, 0)) in A3.
    auto.
Defined.

Lemma first_last_empty_witness :
  Map_first new_map = Some (Vacant NIL Left None) /\
  Map_last new_map = Some (Vacant NIL Right None).
Proof.
  destruct (@first_last_empty Z Z new_map eq_refl NIL_ok_new_map)
    as (_ & _ & A1 & A2 & _).
  split; [exact A1|exact A2].
Defined.

Lemma ordered_map_2_1_3 :
  ordered (ascending Z.ltb Z.gtb) map_2_1_3 (ptrs (T (T E 2%nat E) 1%nat (T E 3%nat E))).
Proof.
  cbn [ptrs app]. repeat constructor; vm_compute; reflexivity.
Qed.

Lemma range_contents_witness :
  exists rg,
    Map_range (ascending Z.ltb Z.gtb) map_2_1_3 (Some 2) (Some 3) true = Ok rg /\
    Range_entries map_2_1_3 rg = Ok [(2, 0)].
Proof.
  destruct (@range_contents Z Z (ascending Z.ltb Z.gtb) ascending_sym ascending_trans
              map_2_1_3 (T (T E 2%nat E) 1%nat (T E 3%nat E)) 2 3 true
              shape_map_2_1_3 ordered_map_2_1_3)
    as (rg & all & A1 & A2 & A3 & _).
  - vm_compute. discriminate.
  - exists rg. split; [exact A1|]. rewrite A3.
    assert (Hall : Map_entries map_2_1_3 = Some [(1, 0); (2, 0); (3, 0)])
      by (vm_compute; reflexivity).
    rewrite Hall in A2. inversion A2; subst all. vm_compute. reflexivity.
Defined.

(** * The further properties on small maps *)

Lemma get_has_spec_witness :
  Map_get (ascending Z.ltb Z.gtb) map_2_1_3 3 = Some (Some 0) /\
  Map_get (ascending Z.ltb Z.gtb) map_2_1_3 7 = Some None.
Proof.
  destruct (@get_has_spec Z Z (ascending Z.ltb Z.gtb) ascending_sym ascending_trans
              map_2_1_3 tree_2_1_3 3 shape_map_2_1_3 ordered_map_2_1_3)
    as (H1 & _).
  destruct (@get_has_spec Z Z (ascending Z.ltb Z.gtb) ascending_sym ascending_trans
              map_2_1_3 tree_2_1_3 7 shape_map_2_1_3 ordered_map_2_1_3)
    as (_ & H2).
  split.
  - apply (H1 3%nat); [cbn; auto|vm_compute; reflexivity].
  - apply H2. intros n Hn. cbn in Hn.
    destruct Hn as [<-|[<-|[<-|[]]]]; vm_compute; discriminate.
Defined.

Lemma set_then_get_witness :
  exists s', Map_set (ascending Z.ltb Z.gtb) map_2_1_3 5 9 = Some s' /\
             Map_get (ascending Z.ltb Z.gtb) s' 5 = Some (Some 9).
Proof.
  destruct (@set_then_get Z Z (ascending Z.ltb Z.gtb) ascending_sym ascending_trans
              map_2_1_3 tree_2_1_3 5 9 shape_map_2_1_3 ordered_map_2_1_3)
    as (s' & A1 & A2 & _).
  exists s'. auto.
Defined.

Lemma delete_then_has_witness :
  (exists s', Map_delete (ascending Z.ltb Z.gtb) map_2_1_3 2 = Some (true, s') /\
              Map_has (ascending Z.ltb Z.gtb) s' 2 = Some false /\ size s' = 2) /\
  Map_delete (ascending Z.ltb Z.gtb) map_2_1_3 7 = Some (false, map_2_1_3).
Proof.
  split.
  - destruct (@delete_then_has Z Z (ascending Z.ltb Z.gtb) ascending_sym ascending_trans
                map_2_1_3 tree_2_1_3 2 shape_map_2_1_3 ordered_map_2_1_3)
      as (b & s' & A1 & A2 & A3 & _ & A4 & _).
    assert (Hb : Map_has (ascending Z.ltb Z.gtb) map_2_1_3 2 = Some true)
      by (vm_compute; reflexivity).
    rewrite Hb in A2. inversion A2; subst b.
    exists s'. split; [exact A1|]. split; [exact A3|].
    rewrite A4. vm_compute. reflexivity.
  - destruct (@delete_then_has Z Z (ascending Z.ltb Z.gtb) ascending_sym ascending_trans
                map_2_1_3 tree_2_1_3 7 shape_map_2_1_3 ordered_map_2_1_3)
      as (b & s' & A1 & A2 & _ & _ & _ & A5 & _).
    assert (Hb : Map_has (ascending Z.ltb Z.gtb) map_2_1_3 7 = Some false)
      by (vm_compute; reflexivity).
    rewrite Hb in A2. inversion A2; subst b.
    rewrite (A5 eq_refl) in A1. exact A1.
Defined.

Lemma size_counts_keys_witness :
  exists L, Map_keys (state_after (MapDelete 2) map_2_1_3) = Some L /\
            Map_size (state_after (MapDelete 2) map_2_1_3) = Z.of_nat (length L).
Proof.
  destruct (@size_counts_keys Z Z 0 (ascending Z.ltb Z.gtb) (MapDelete 2) map_2_1_3 tree_2_1_3
              shape_map_2_1_3 I)
    as (L & A1 & A2 & _).
  - vm_compute. reflexivity.
  - exists L. auto.
Defined.

Lemma reverse_is_rev_witness :
  Map_inorderReverse map_2_1_3 = Some [3%nat; 1%nat; 2%nat].
Proof.
  destruct (@reverse_is_rev Z Z map_2_1_3 tree_2_1_3 (proj1 shape_map_2_1_3))
    as (L & A1 & A2 & _).
  assert (HL : Map_inorder map_2_1_3 = Some [2%nat; 1%nat; 3%nat])
    by (vm_compute; reflexivity).
  rewrite HL in A1. inversion A1; subst L. exact A2.
Defined.

Lemma range_walks_witness :
  Range_keys map_2_1_3 (mkRange 2%nat 1%nat Default) = Ok [1; 2] /\
  Range_count map_2_1_3 (mkRange 2%nat 1%nat Default)
    = (Ok 2, mkRange 2%nat 1%nat Default, map_2_1_3).
Proof.
  destruct (@range_walks Z Z map_2_1_3 tree_2_1_3 (mkRange 2%nat 1%nat Default)
              [] [2%nat; 1%nat] [3%nat] shape_map_2_1_3)
    as (_ & A2 & _ & _ & _ & _ & A7 & _); try reflexivity; [discriminate|].
  split; [rewrite A2; vm_compute; reflexivity|exact A7].
Defined.

Lemma next_prev_neighbours_witness :
  Entry_next map_2_1_3 (Occupied 2%nat) = (Ok (Occupied 1%nat), map_2_1_3) /\
  Entry_prev map_2_1_3 (Occupied 1%nat) = (Ok (Occupied 2%nat), map_2_1_3).
Proof.
  exact (@next_prev_neighbours Z Z map_2_1_3 tree_2_1_3 2%nat 1%nat [] [3%nat]
           shape_map_2_1_3 eq_refl).
Defined.

Lemma first_last_ends_witness :
  Map_first map_2_1_3 = Some (Occupied 2%nat) /\
  Map_last map_2_1_3 = Some (Occupied 3%nat).
Proof.
  destruct (@first_last_ends Z Z map_2_1_3 tree_2_1_3 shape_map_2_1_3)
    as (A1 & A2 & _); [discriminate|].
  split; [exact A1|exact A2].
Defined.

Lemma deleted_entry_throws_witness :
  exists s',
    Entry_delete map_2_1_3 (Occupied 1%nat) = (Ok true, s') /\
    run 0 (ascending Z.ltb Z.gtb) (EntryNext (Occupied 1%nat)) s' = (Throw NodeRemoved, s').
Proof.
  destruct (@deleted_entry_throws Z Z 0 (ascending Z.ltb Z.gtb) map_2_1_3 tree_2_1_3 1%nat
              shape_map_2_1_3)
    as (s' & A1 & _ & A2); [cbn; auto|].
  exists s'. split; [exact A1|]. apply A2. reflexivity.
Defined.

Lemma insert_before_spec_witness :
  (exists s', Entry_insertBefore (ascending Z.ltb Z.gtb) map_10 (Occupied 1%nat) 5 0
              = (Ok (Occupied 1%nat, Occupied 2%nat), s')) /\
  Entry_insertBefore (ascending Z.ltb Z.gtb) map_10 (Occupied 1%nat) 12 0
    = (Throw KeyNotLess, map_10).
Proof.
  destruct (@insert_before_spec Z Z (ascending Z.ltb Z.gtb) map_10 (T E 1%nat E) 1%nat [] [] 5 0
              shape_map_10 eq_refl) as (A1 & _).
  destruct (@insert_before_spec Z Z (ascending Z.ltb Z.gtb) map_10 (T E 1%nat E) 1%nat [] [] 12 0
              shape_map_10 eq_refl) as (_ & A2 & _).
  split.
  - destruct A1 as (s' & t' & B1 & _); [left; reflexivity|vm_compute; reflexivity|].
    exists s'. exact B1.
  - apply A2; [left; reflexivity|vm_compute; discriminate].
Defined.

Lemma insert_after_spec_witness :
  (exists s', Entry_insertAfter (ascending Z.ltb Z.gtb) map_10 (Occupied 1%nat) 12 0
              = (Ok (Occupied 1%nat, Occupied 2%nat), s')) /\
  Entry_insertAfter (ascending Z.ltb Z.gtb) map_10 (Occupied 1%nat) 5 0
    = (Throw KeyNotGreater, map_10).
Proof.
  destruct (@insert_after_spec Z Z (ascending Z.ltb Z.gtb) map_10 (T E 1%nat E) 1%nat [] [] 12 0
              shape_map_10 eq_refl) as (A1 & _).
  destruct (@insert_after_spec Z Z (ascending Z.ltb Z.gtb) map_10 (T E 1%nat E) 1%nat [] [] 5 0
              shape_map_10 eq_refl) as (_ & A2 & _).
  split.
  - destruct A1 as (s' & t' & B1 & _); [vm_compute; reflexivity|left; reflexivity|].
    exists s'. exact B1.
  - apply A2. vm_compute. discriminate.
Defined.

Lemma mutating_call_ends_witness :
  (exists u, outcome (MapSet 4 0) map_2_1_3 = Ok u) \/
  (exists e, outcome (MapSet 4 0) map_2_1_3 = Throw e).
Proof.
  exact (@mutating_call_ends Z Z 0 (ascending Z.ltb Z.gtb) (MapSet 4 0) map_2_1_3 tree_2_1_3
           shape_map_2_1_3 I eq_refl).
Defined.

Lemma range_delete_spec_witness :
  exists rg s',
    Map_range (ascending Z.ltb Z.gtb) map_2_1_3 (Some 1) (Some 2) false = Ok rg /\
    Range_delete map_2_1_3 rg = (Ok 2, with_kind rg Removed, s') /\
    Map_entries s' = Some [(3, 0)].
Proof.
  destruct (@range_delete_spec Z Z (ascending Z.ltb Z.gtb) ascending_sym ascending_trans
              map_2_1_3 tree_2_1_3 1 2 false shape_map_2_1_3 ordered_map_2_1_3)
    as (rg & all & A1 & A2 & (s' & t' & A3 & _ & A4) & _).
  - vm_compute. discriminate.
  - assert (Hall : Map_entries map_2_1_3 = Some [(1, 0); (2, 0); (3, 0)])
      by (vm_compute; reflexivity).
    rewrite Hall in A2. inversion A2; subst all.
    exists rg, s'. split; [exact A1|]. split; [exact A3|exact A4].
Defined.

Lemma entry_insert_is_insert_witness :
  exists e e' old s',
    Map_entry (ascending Z.ltb Z.gtb) map_2_1_3 5 = Some e /\
    EntryWithKey_insert 0 map_2_1_3 e 9 = (Ok (e', old), s') /\
    Map_insert (ascending Z.ltb Z.gtb) map_2_1_3 5 9 = Some (old, s') /\
    Map_has (ascending Z.ltb Z.gtb) map_2_1_3 5 = Some (negb (inner_isEmpty e)).
Proof.
  destruct (@entry_insert_is_insert Z Z 0 (ascending Z.ltb Z.gtb)
              ascending_sym ascending_trans map_2_1_3 tree_2_1_3 5 9
              shape_map_2_1_3)
    as (e & e' & old & s' & A1 & A2 & A3 & _ & _ & _ & _ & A4).
  exists e, e', old, s'.
  split; [exact A1|]. split; [exact A2|]. split; [exact A3|].
  exact (proj1 (A4 ordered_map_2_1_3)).
Defined.

Lemma remove_returns_value_witness :
  exists s', Map_remove (ascending Z.ltb Z.gtb) map_2_1_3 2 = Some (Some 0, s').
Proof.
  destruct (@remove_returns_value Z Z (ascending Z.ltb Z.gtb) map_2_1_3 tree_2_1_3 2
              shape_map_2_1_3)
    as (old & s' & A1 & A2 & _).
  assert (Hg : Map_get (ascending Z.ltb Z.gtb) map_2_1_3 2 = Some (Some 0))
    by (vm_compute; reflexivity).
  rewrite Hg in A2. inversion A2; subst old. exists s'. exact A1.
Defined.

Lemma whole_range_witness :
  exists rg, Map_range (ascending Z.ltb Z.gtb) map_2_1_3 None None false = Ok rg /\
             Range_inorder map_2_1_3 rg = Ok [2%nat; 1%nat; 3%nat].
Proof.
  destruct (@whole_range Z Z (ascending Z.ltb Z.gtb) map_2_1_3 tree_2_1_3 false shape_map_2_1_3)
    as (rg & A1 & _ & A2 & _); [discriminate|].
  exists rg. split; [exact A1|exact A2].
Defined.

Lemma set_inserts_in_order_witness :
  exists s', Map_set (ascending Z.ltb Z.gtb) map_2_1_3 5 9 = Some s'.
Proof.
  destruct (@set_inserts_in_order Z Z (ascending Z.ltb Z.gtb) ascending_sym ascending_trans
              map_2_1_3 tree_2_1_3 5 9 shape_map_2_1_3 ordered_map_2_1_3)
    as (s' & L1 & L2 & A1 & _).
  exists s'. exact A1.
Defined.

Lemma map_calls_keep_invariants_witness :
  exists t,
    shape (run_all 0 (ascending Z.ltb Z.gtb) [MapSet 2 0; MapSet 1 0; MapDelete 2; MapClear;
                                MapSet 7 1] new_map) t.
Proof.
  destruct (@map_calls_keep_invariants Z Z 0 0 (ascending Z.ltb Z.gtb) ascending_sym
              ascending_trans
              [MapSet 2 0; MapSet 1 0; MapDelete 2; MapClear; MapSet 7 1]
              eq_refl)
    as (t & A1 & _).
  exists t. exact A1.
Defined.

Lemma vacant_prev_next_witness :
  Entry_prev map_10 (Vacant 1%nat Left None)
    = (Ok (Vacant 1%nat Left None), map_10) /\
  Entry_next map_10 (Vacant 1%nat Left None) = (Ok (Occupied 1%nat), map_10).
Proof.
  exact (@vacant_prev_next Z Z map_10 ctx_before_10 1%nat Left None
           shape_map_10 (conj eq_refl eq_refl)
           (fun H => @nil_cons _ _ _ (eq_sym H))).
Defined.

Lemma vacant_insert_spec_witness :
  exists s',
    Entry_insertBefore (ascending Z.ltb Z.gtb) map_10 (Vacant 1%nat Left None) 5 0
      = (Ok (Occupied 2%nat, Occupied 2%nat), s') /\
    Map_keys s' = Some [5; 10].
Proof.
  destruct (@vacant_insert_spec Z Z (ascending Z.ltb Z.gtb) map_10 ctx_before_10 1%nat Left
              None 5 0 shape_map_10 (conj eq_refl eq_refl))
    as (_ & [(e & Ev & _)|(_ & s' & t' & A1 & _ & _ & A2 & _)]).
  - vm_compute in Ev. discriminate.
  - exists s'. split; [exact A1|]. rewrite A2. vm_compute. reflexivity.
Defined.

Lemma rotations_keep_inorder_witness :
  Rep (rotateLeft map_2_1_3 1%nat 3%nat) NIL
      (T (T (T E 2%nat E) 1%nat E) 3%nat E) /\
  keeps map_2_1_3 (rotateLeft map_2_1_3 1%nat 3%nat).
Proof.
  destruct (@rotations_keep_inorder Z Z map_2_1_3 [] (T E 2%nat E) 1%nat E
              3%nat E) as (A1 & _).
  - cbn [before after ptrs app].
    repeat (apply NoDup_cons; [cbn [In]; intuition discriminate|]).
    apply NoDup_nil.
  - destruct A1 as (B1 & _ & B3).
    + exact (proj1 (proj1 shape_map_2_1_3)).
    + exact I.
    + split; [exact B1|exact B3].
Defined.

Lemma descending_is_an_order_witness :
  (forall a b : Z, descending Z.ltb Z.gtb a b = 0 <-> a = b) /\
  (forall x, ascending number_less (fun a b => number_less b a) None x = 0 /\
             ascending number_less (fun a b => number_less b a) x None = 0).
Proof.
  split.
  - destruct (@descending_is_an_order Z Z.ltb Z.gtb Z.gtb_ltb) as (_ & P & _).
    destruct P as (_ & P & _); [exact Z.ltb_irrefl| | |exact P].
    + intros a b c H1 H2. apply Z.ltb_lt. apply Z.ltb_lt in H1, H2.
      exact (Z.lt_trans _ _ _ H1 H2).
    + intros a b H1 H2. apply Z.ltb_ge in H1, H2.
      exact (Z.le_antisymm _ _ H2 H1).
  - destruct (@descending_is_an_order (option Z) number_less
                (fun a b => number_less b a) (fun a b => eq_refl))
      as (_ & _ & P).
    destruct (P None) as (P1 & _).
    + intros x. split; [reflexivity|destruct x; reflexivity].
    + intros x. destruct (P1 x) as (_ & _ & A3 & A4). auto.
Defined.
